(** * PlanarMapTileLayer: the tile streaming and cache engine

    A shallow embedding of [PlanarMapTileLayer] (the tile layer of the
    SpringAndAutumnGIS viewer) and of the helper functions of its module,
    followed by the properties of the scheduler: retry bound, throttled
    view-state application, eviction, concurrency cap, ancestor fallback,
    construction, queue de-duplication and the disabled layer; then the
    rest of the module (zoom and tile arithmetic, the desired set, the
    queue order, [dispose], the tile URL, fading, telemetry, what is on
    screen) and the reference grid [PlanarLodGrid].

    Conventions of the embedding.
    - JavaScript numbers that the code keeps integral (zoom levels, tile
      indices, frame counters, attempt counters, limits after [Math.floor])
      are [Z]; the other finite numbers (opacities, timestamps, world
      coordinates, raw option values) are [Q].  Rounding of doubles is not
      modelled, neither are NaN nor the infinities, with two exceptions:
      the one infinity the engine itself stores, the priority of a fresh
      tile, and the numbers of a subdomain range, which are read from a
      string of digits of any length and are doubles in the model too.
    - The [Map] of tiles is an association list in insertion order, which is
      the order in which a JavaScript [Map] is iterated.
    - A tile object is mutated in place through the reference obtained from
      [_tiles.get]; here the entry of the association list is rewritten in
      place.
    - The THREE.js scene objects are write-only for the scheduler; of a tile's
      mesh only [visible] is kept, because the telemetry reads it.  The debug
      overlays are not part of the model.
    - The texture loader is the only asynchronous collaborator: the requests
      it has been handed and has not answered yet are kept next to the
      layer's own fields. *)

From Stdlib Require Import ZArith QArith Qround Bool List String Ascii.
From Stdlib Require Import DecimalString Permutation Lia.
Import ListNotations.

Open Scope string_scope.
Open Scope list_scope.
Open Scope Z_scope.

(* ================================================================== *)
(** ** JavaScript helpers *)

Definition showZ (z : Z) : string := NilZero.string_of_int (Z.to_int z).

(** [Math.round] on a finite number: halves go up. *)
Definition jsRound (q : Q) : Z := Qfloor (q + (1 # 2))%Q.

Definition Qltb (a b : Q) : bool := negb (Qle_bool b a).
Definition Qmax (a b : Q) : Q := if Qle_bool a b then b else a.
Definition Qmin (a b : Q) : Q := if Qle_bool a b then a else b.
Definition Qabs' (a : Q) : Q := if Qle_bool 0%Q a then a else (- a)%Q.

(** [x ?? d] *)
Definition orElse {A : Type} (o : option A) (d : A) : A :=
  match o with Some a => a | None => d end.

(** The outcome of a call: it returns a value, it throws, or it does
    neither, because a loop of it goes on adding elements to an array
    and never comes to its end; the run stops only when the engine gives
    up (it is out of memory, or the array is to grow beyond 2^32 - 1
    elements). *)
Inductive Completion (A : Type) : Type :=
| Normal (value : A)
| Throw (message : string)
| Exhausts.
Arguments Normal {A} value.
Arguments Throw {A} message.
Arguments Exhausts {A}.

(** The value of a call that returned. *)
Definition valueOr {A : Type} (c : Completion A) (d : A) : A :=
  match c with Normal v => v | _ => d end.

(** The double nearest to a natural number, ties going to the even
    significand; [None] is [Infinity].  Every natural number up to 2^53
    is a double. *)
Definition doubleOfZ (n : Z) : option Z :=
  if n <? 2 ^ 53 then Some n
  else
    let ulp := 2 ^ (Z.log2 n - 52) in
    let q := n / ulp in
    let r := n mod ulp in
    let q' := if 2 * r <? ulp then q
              else if ulp <? 2 * r then q + 1
              else if Z.even q then q else q + 1 in
    if 2 ^ 1024 <=? q' * ulp then None else Some (q' * ulp).

(** The largest length of an array. *)
Definition MAX_ARRAY_LENGTH : Z := 2 ^ 32 - 1.

(** Inclusive integer range [lo, lo+1, ..., hi], the index set of the
    [for (let i = lo; i <= hi; i += 1)] loops. *)
Definition zrange (lo hi : Z) : list Z :=
  map (fun i => lo + Z.of_nat i) (seq 0 (Z.to_nat (hi - lo + 1))).

Definition memStr (k : string) (s : list string) : bool :=
  existsb (String.eqb k) s.

(** [Set.add] and [Set.delete] on a set of strings. *)
Definition setAdd (k : string) (s : list string) : list string :=
  if memStr k s then s else s ++ [k].
Definition setDelete (k : string) (s : list string) : list string :=
  filter (fun x => negb (String.eqb k x)) s.

(* ------------------------------------------------------------------ *)
(** *** Module-level functions of the tile layer *)

(** [clampInt(value, min, max)] with [value] already integral. *)
Definition clampIntZ (value min max : Z) : Z := Z.max min (Z.min max value).

(** [clampInt(value, min, max) = Math.max(min, Math.min(max, Math.round(value)))] *)
Definition clampInt (value : Q) (min max : Z) : Z := clampIntZ (jsRound value) min max.

Definition clampNumber (value min max : Q) : Q := Qmax min (Qmin max value).

(** [wrapInt(value, range) = ((value % range) + range) % range]; the
    JavaScript remainder truncates, as [Z.rem]. *)
Definition wrapInt (value range : Z) : Z := Z.rem (Z.rem value range + range) range.

Definition shortestTileDx (centerX tileX n : Z) : Z :=
  let raw := Z.abs (tileX - centerX) in Z.min raw (n - raw).

Record TileId : Type := mkTileId { tid_x : Z; tid_y : Z; tid_z : Z }.

(** The template [`${z}/${x}/${y}`], written inline wherever the source
    builds a key. *)
Definition tileKey (t : TileId) : string :=
  (showZ (tid_z t) ++ "/" ++ showZ (tid_x t) ++ "/" ++ showZ (tid_y t))%string.

Definition getZoomLevelByDistance (distanceMeters : Q) : Z :=
  let d := Qmax 0%Q distanceMeters in
  let le (b : Z) := Qle_bool d (inject_Z b) in
  if le 9 then 24 else if le 19 then 23 else if le 29 then 22
  else if le 59 then 21 else if le 79 then 20 else if le 150 then 19
  else if le 300 then 18 else if le 660 then 17 else if le 1300 then 16
  else if le 2600 then 15 else if le 6400 then 14 else if le 13200 then 13
  else if le 26000 then 12 else if le 68985 then 11 else if le 139780 then 10
  else if le 250600 then 9 else if le 380000 then 8 else if le 640000 then 7
  else if le 1280000 then 6 else if le 2600000 then 5 else if le 6100000 then 4
  else if le 11900000 then 3 else 2.

Record ViewportWorldBounds : Type := mkBounds {
  vb_minX : Q; vb_minY : Q; vb_maxX : Q; vb_maxY : Q }.

(** [sanitizeViewportBounds]; the finiteness tests are vacuous on [Q]. *)
Definition sanitizeViewportBounds (bounds : option ViewportWorldBounds)
  : option ViewportWorldBounds :=
  match bounds with
  | None => None
  | Some b =>
      if Qle_bool (vb_maxX b) (vb_minX b) || Qle_bool (vb_maxY b) (vb_minY b)
      then None else Some b
  end.

(** [Math.PI * 6378137] as the double prints it. *)
Definition WEB_MERCATOR_HALF_WORLD : Q := 20037508342789244 # 1000000000.
Definition WEB_MERCATOR_WORLD_SIZE : Q := (WEB_MERCATOR_HALF_WORLD * 2)%Q.

Record TileRange : Type := mkRange {
  minXRaw : Z; maxXRaw : Z; rg_minY : Z; rg_maxY : Z }.

Definition mercatorBoundsToTileRange
  (minMercatorX minMercatorY maxMercatorX maxMercatorY : Q) (zoom marginTiles : Z)
  : option TileRange :=
  let n := 2 ^ zoom in
  let tileSize := (WEB_MERCATOR_WORLD_SIZE / inject_Z n)%Q in
  let clampedMinY :=
    Qmax (- WEB_MERCATOR_HALF_WORLD)%Q (Qmin WEB_MERCATOR_HALF_WORLD minMercatorY) in
  let clampedMaxY :=
    Qmax (- WEB_MERCATOR_HALF_WORLD)%Q (Qmin WEB_MERCATOR_HALF_WORLD maxMercatorY) in
  let minX := Qfloor ((minMercatorX + WEB_MERCATOR_HALF_WORLD) / tileSize)%Q - marginTiles in
  let maxX := Qfloor ((maxMercatorX + WEB_MERCATOR_HALF_WORLD) / tileSize)%Q + marginTiles in
  let minY :=
    clampIntZ (Qfloor ((WEB_MERCATOR_HALF_WORLD - clampedMaxY) / tileSize)%Q - marginTiles)
              0 (n - 1) in
  let maxY :=
    clampIntZ (Qfloor ((WEB_MERCATOR_HALF_WORLD - clampedMinY) / tileSize)%Q + marginTiles)
              0 (n - 1) in
  if maxY <? minY then None else Some (mkRange minX maxX minY maxY).

(* ------------------------------------------------------------------ *)
(** *** [normalizeSubdomains] *)

Definition isSpace (c : ascii) : bool :=
  match nat_of_ascii c with
  | 9%nat | 10%nat | 11%nat | 12%nat | 13%nat | 32%nat => true
  | _ => false
  end.

Definition isDigit (c : ascii) : bool :=
  (48 <=? nat_of_ascii c)%nat && (nat_of_ascii c <=? 57)%nat.

Fixpoint dropSpaces (s : string) : string :=
  match s with
  | String c r => if isSpace c then dropSpaces r else s
  | EmptyString => EmptyString
  end.

Fixpoint revString (s acc : string) : string :=
  match s with
  | EmptyString => acc
  | String c r => revString r (String c acc)
  end.

(** [String.prototype.trim], on ASCII white space. *)
Definition trim (s : string) : string :=
  revString (dropSpaces (revString (dropSpaces s) EmptyString)) EmptyString.

(** [s.split(',')] *)
Fixpoint splitComma (s cur : string) : list string :=
  match s with
  | EmptyString => [revString cur EmptyString]
  | String c r =>
      if Ascii.eqb c ","%char then revString cur EmptyString :: splitComma r EmptyString
      else splitComma r (String c cur)
  end.

(** [s.split('')] *)
Fixpoint chars (s : string) : list string :=
  match s with
  | EmptyString => []
  | String c r => String c EmptyString :: chars r
  end.

Fixpoint spanDigits (s : string) : string * string :=
  match s with
  | String c r =>
      if isDigit c then let (d, rest) := spanDigits r in (String c d, rest)
      else (EmptyString, s)
  | EmptyString => (EmptyString, EmptyString)
  end.

(** The match of [/^(\d+)\s*-\s*(\d+)$/]: its two groups. *)
Definition rangeMatch (s : string) : option (string * string) :=
  let (d1, r1) := spanDigits s in
  match d1, dropSpaces r1 with
  | String _ _, String c r2 =>
      if Ascii.eqb c "-"%char then
        let (d2, r3) := spanDigits (dropSpaces r2) in
        match d2, r3 with
        | String _ _, EmptyString => Some (d1, d2)
        | _, _ => None
        end
      else None
  | _, _ => None
  end.

(** The natural number that a string of decimal digits writes;
    [Number(digits)] is the double nearest to it. *)
Fixpoint numberOfDigits (s : string) (acc : Z) : Z :=
  match s with
  | EmptyString => acc
  | String c r => numberOfDigits r (10 * acc + Z.of_nat (nat_of_ascii c - 48))
  end.

Definition DEFAULT_SUBDOMAINS : list string := ["a"; "b"; "c"].

Definition nonEmptyStr (s : string) : bool :=
  match s with EmptyString => false | String _ _ => true end.

(** The [subdomains] option: an array, a string, or absent. *)
Inductive SubdomainsInput : Type :=
| SubArray (items : list string)
| SubString (s : string).

(** [for (let i = start; i <= end; i += 1) out.push(String(i))], with
    [count] the length of [out].  The counter is a double: from 2^53 on,
    [i += 1] may leave it where it is, and then the loop pushes for ever;
    a loop that has filled the array before its end cannot go on either.
    [String(i)] is the decimal print of [i]: below 2^53 every integer is
    a double and prints as itself, and a run that returns prints no
    other number except a single bound between 2^53 and 2^54 with an odd
    significand, which is the only integer that rounds to it.  A turn
    that goes on moves the counter up by one at least, so the
    [end - start + 1] turns of [fuel] are never used up. *)
Fixpoint rangeLoop (fuel : nat) (i end_ count : Z) (out : list string)
  : Completion (list string) :=
  if end_ <? i then Normal out
  else if MAX_ARRAY_LENGTH <=? count then Exhausts
  else
    match doubleOfZ (i + 1) with
    | None => Normal (out ++ [showZ i])
    | Some i' =>
        if i' <=? i then Exhausts
        else
          match fuel with
          | O => Exhausts
          | S fuel' => rangeLoop fuel' i' end_ (count + 1) (out ++ [showZ i])
          end
    end.

Definition normalizeSubdomains (input : option SubdomainsInput)
  : Completion (list string) :=
  match input with
  | Some (SubArray items) =>
      let out := filter nonEmptyStr (map trim items) in
      Normal (match out with [] => DEFAULT_SUBDOMAINS | _ => out end)
  | Some (SubString s) =>
      let trimmed := trim s in
      if negb (nonEmptyStr trimmed) then Normal DEFAULT_SUBDOMAINS
      else
        let bySplit :=
          let split := filter nonEmptyStr (map trim (splitComma trimmed EmptyString)) in
          match split with
          | _ :: _ => split
          | [] => if (1 <? String.length trimmed)%nat then chars trimmed else [trimmed]
          end in
        match rangeMatch trimmed with
        | Some (g1, g2) =>
            match doubleOfZ (numberOfDigits g1 0), doubleOfZ (numberOfDigits g2 0) with
            | Some start, Some end_ =>
                if start <=? end_ then
                  match rangeLoop (Z.to_nat (end_ - start + 1)) start end_ 0 [] with
                  | Normal out =>
                      Normal (match out with [] => DEFAULT_SUBDOMAINS | _ => out end)
                  | Throw message => Throw message
                  | Exhausts => Exhausts
                  end
                else Normal bySplit
            | _, _ => Normal bySplit
            end
        | None => Normal bySplit
        end
  | None => Normal DEFAULT_SUBDOMAINS
  end.

(* ------------------------------------------------------------------ *)
(** *** Options, level-of-detail table and the constructor *)

(** [TileLodLevel] as given in the options. *)
Record TileLodLevelOption : Type := mkLodOption {
  lo_zoom : Q;
  lo_maxTiles : option Q;
  lo_marginTiles : option Q;
  lo_updateThrottleMs : option Q;
  lo_zoomThrottleMs : option Q;
  lo_immediateTileShift : option Q }.

(** [TileLodLevel] after [normalizeLodLevels]: the zoom is an integer. *)
Record TileLodLevel : Type := mkLod {
  lod_zoom : Z;
  lod_maxTiles : option Q;
  lod_marginTiles : option Q;
  lod_updateThrottleMs : option Q;
  lod_zoomThrottleMs : option Q;
  lod_immediateTileShift : option Q }.

(** Stable insertion sort; [le a b] is [compare(a, b) <= 0]. *)
Section Sorting.
Context {A : Type} (le : A -> A -> bool).

Fixpoint insertSorted (x : A) (l : list A) : list A :=
  match l with
  | [] => [x]
  | y :: ys => if le x y then x :: y :: ys else y :: insertSorted x ys
  end.

Fixpoint stableSort (l : list A) : list A :=
  match l with
  | [] => []
  | x :: xs => insertSorted x (stableSort xs)
  end.
End Sorting.

Definition isIntegerQ (q : Q) : bool := Qeq_bool (inject_Z (Qfloor q)) q.

Definition normalizeLodLevels (levels : option (list TileLodLevelOption))
  : list TileLodLevel :=
  match levels with
  | None => []
  | Some ls =>
      let kept :=
        filter (fun l => isIntegerQ (lo_zoom l)
                         && Qle_bool 0%Q (lo_zoom l) && Qle_bool (lo_zoom l) 22%Q) ls in
      let out :=
        map (fun l => mkLod (Qfloor (lo_zoom l)) (lo_maxTiles l) (lo_marginTiles l)
                            (lo_updateThrottleMs l) (lo_zoomThrottleMs l)
                            (lo_immediateTileShift l)) kept in
      stableSort (fun a b => lod_zoom b <=? lod_zoom a) out
  end.

(** The services of the external coordinate module that the layer calls. *)
Record GeoCoordinator : Type := mkGeo {
  metersPerUnit : Q;
  lonLatToWebMercator : Q -> Q -> Q * Q;
  webMercatorToLonLat : Q -> Q -> Q * Q;
  lonLatToTile : Q -> Q -> Z -> Z * Z;
  tileToLonLat : Z -> Z -> Z -> Q * Q }.

(** [PlanarMapTileLayerOptions], without the options that only reach the
    renderer or the tile URL ([zOffset], [urlTemplate], [yType],
    [maxAnisotropy]). *)
Record PlanarMapTileLayerOptions : Type := mkOptions {
  o_enabled : option bool;
  o_originLon : option Q;
  o_originLat : option Q;
  o_minZoom : option Q;
  o_maxZoom : option Q;
  o_tileRadius : option Q;
  o_maxDynamicTileRadius : option Q;
  o_opacity : option Q;
  o_subdomains : option SubdomainsInput;
  o_maxConcurrentRequests : option Q;
  o_maxCachedTiles : option Q;
  o_retainFrames : option Q;
  o_retryLimit : option Q;
  o_updateThrottleMs : option Q;
  o_zoomThrottleMs : option Q;
  o_immediateTileShift : option Q;
  o_lodLevels : option (list TileLodLevelOption);
  o_debugOverlay : option bool;
  o_enableProgressiveBlend : option bool;
  o_fadeDurationMs : option Q;
  o_maxParentSearchDepth : option Q }.

Definition defaultOptions : PlanarMapTileLayerOptions :=
  mkOptions None None None None None None None None None None None None None
            None None None None None None None None.

(** The read-only fields of a layer, fixed by the constructor. *)
Record Config : Type := mkConfig {
  geo : GeoCoordinator;
  originMercator : Q * Q;
  enabled : bool;
  minZoom : Z;
  maxZoom : Z;
  tileRadius : Z;
  maxDynamicTileRadius : Z;
  opacity : Q;
  subdomains : list string;
  maxConcurrentRequests : Z;
  maxCachedTiles : Z;
  retainFrames : Z;
  retryLimit : Z;
  updateThrottleMs : Z;
  zoomThrottleMs : Z;
  immediateTileShift : Z;
  lodLevels : list TileLodLevel;
  debugOverlay : bool;
  enableProgressiveBlend : bool;
  fadeDurationMs : Z;
  maxParentSearchDepth : Z }.

(** The assignments of the constructor to the read-only fields.  Where
    [normalizeSubdomains] does not return, the constructor does not
    either and there is no layer; the record then lists the default
    subdomains, so that it is defined for all options. *)
Definition constructorConfig (g : GeoCoordinator) (o : PlanarMapTileLayerOptions)
  : Config :=
  let tr := Z.max 0 (Qfloor (orElse (o_tileRadius o) 2%Q)) in
  let ut := Z.max 16 (Qfloor (orElse (o_updateThrottleMs o) 80%Q)) in
  {| geo := g;
     originMercator :=
       lonLatToWebMercator g (orElse (o_originLon o) 0%Q) (orElse (o_originLat o) 0%Q);
     enabled := orElse (o_enabled o) true;
     minZoom := clampInt (orElse (o_minZoom o) 0%Q) 0 22;
     maxZoom := clampInt (orElse (o_maxZoom o) 18%Q) 0 22;
     tileRadius := tr;
     maxDynamicTileRadius := Z.max tr (Qfloor (orElse (o_maxDynamicTileRadius o) 10%Q));
     opacity := clampNumber (orElse (o_opacity o) 1%Q) 0%Q 1%Q;
     subdomains := valueOr (normalizeSubdomains (o_subdomains o)) DEFAULT_SUBDOMAINS;
     maxConcurrentRequests := Z.max 1 (Qfloor (orElse (o_maxConcurrentRequests o) 8%Q));
     maxCachedTiles := Z.max 16 (Qfloor (orElse (o_maxCachedTiles o) 600%Q));
     retainFrames := Z.max 0 (Qfloor (orElse (o_retainFrames o) 90%Q));
     retryLimit := Z.max 0 (Qfloor (orElse (o_retryLimit o) 2%Q));
     updateThrottleMs := ut;
     zoomThrottleMs := Z.max ut (Qfloor (orElse (o_zoomThrottleMs o) 140%Q));
     immediateTileShift := Z.max 1 (Qfloor (orElse (o_immediateTileShift o) 2%Q));
     lodLevels := normalizeLodLevels (o_lodLevels o);
     debugOverlay := orElse (o_debugOverlay o) true;
     enableProgressiveBlend := orElse (o_enableProgressiveBlend o) true;
     fadeDurationMs := Z.max 30 (Qfloor (orElse (o_fadeDurationMs o) 180%Q));
     maxParentSearchDepth := Z.max 1 (Qfloor (orElse (o_maxParentSearchDepth o) 6%Q)) |}.

(* ================================================================== *)
(** ** The data model of the layer *)

Inductive TileState : Type := Idle | Queued | Loading | Ready | Error.

Definition TileState_eqb (a b : TileState) : bool :=
  match a, b with
  | Idle, Idle | Queued, Queued | Loading, Loading | Ready, Ready | Error, Error => true
  | _, _ => false
  end.

(** A tile priority: a squared tile distance, or [Number.POSITIVE_INFINITY]
    as long as the tile never was in a desired set. *)
Inductive Priority : Type := Finite (p : Z) | Infinite.

(** [a < b] on priorities. *)
Definition prioLt (a b : Priority) : bool :=
  match a, b with
  | Finite x, Finite y => x <? y
  | Finite _, Infinite => true
  | Infinite, _ => false
  end.

(** [a - b <= 0] as a sort comparator sees it; the difference of two
    infinities is NaN, which a comparator result treats as 0. *)
Definition prioDiffLe0 (a b : Priority) : bool :=
  match a, b with
  | Finite x, Finite y => x <=? y
  | Finite _, Infinite => true
  | Infinite, Finite _ => false
  | Infinite, Infinite => true
  end.

Record ActiveTile : Type := mkTile {
  tileId : TileId;
  hasTexture : bool;
  key : string;
  state : TileState;
  attempts : Z;
  priority : Priority;
  lastWantedFrame : Z;
  lastTouchedFrame : Z;
  currentOpacity : Q;
  targetOpacity : Q;
  lastFadeUpdateMs : Q;
  meshVisible : bool }.

Definition setState (s : TileState) (t : ActiveTile) : ActiveTile :=
  mkTile (tileId t) (hasTexture t) (key t) s (attempts t) (priority t)
         (lastWantedFrame t) (lastTouchedFrame t) (currentOpacity t)
         (targetOpacity t) (lastFadeUpdateMs t) (meshVisible t).
Definition setAttempts (a : Z) (t : ActiveTile) : ActiveTile :=
  mkTile (tileId t) (hasTexture t) (key t) (state t) a (priority t)
         (lastWantedFrame t) (lastTouchedFrame t) (currentOpacity t)
         (targetOpacity t) (lastFadeUpdateMs t) (meshVisible t).
Definition setTexture (b : bool) (t : ActiveTile) : ActiveTile :=
  mkTile (tileId t) b (key t) (state t) (attempts t) (priority t)
         (lastWantedFrame t) (lastTouchedFrame t) (currentOpacity t)
         (targetOpacity t) (lastFadeUpdateMs t) (meshVisible t).
Definition setPriority (p : Priority) (t : ActiveTile) : ActiveTile :=
  mkTile (tileId t) (hasTexture t) (key t) (state t) (attempts t) p
         (lastWantedFrame t) (lastTouchedFrame t) (currentOpacity t)
         (targetOpacity t) (lastFadeUpdateMs t) (meshVisible t).
Definition setLastWantedFrame (f : Z) (t : ActiveTile) : ActiveTile :=
  mkTile (tileId t) (hasTexture t) (key t) (state t) (attempts t) (priority t)
         f (lastTouchedFrame t) (currentOpacity t)
         (targetOpacity t) (lastFadeUpdateMs t) (meshVisible t).
Definition setLastTouchedFrame (f : Z) (t : ActiveTile) : ActiveTile :=
  mkTile (tileId t) (hasTexture t) (key t) (state t) (attempts t) (priority t)
         (lastWantedFrame t) f (currentOpacity t)
         (targetOpacity t) (lastFadeUpdateMs t) (meshVisible t).
Definition setCurrentOpacity (o : Q) (t : ActiveTile) : ActiveTile :=
  mkTile (tileId t) (hasTexture t) (key t) (state t) (attempts t) (priority t)
         (lastWantedFrame t) (lastTouchedFrame t) o
         (targetOpacity t) (lastFadeUpdateMs t) (meshVisible t).
Definition setTargetOpacity (o : Q) (t : ActiveTile) : ActiveTile :=
  mkTile (tileId t) (hasTexture t) (key t) (state t) (attempts t) (priority t)
         (lastWantedFrame t) (lastTouchedFrame t) (currentOpacity t)
         o (lastFadeUpdateMs t) (meshVisible t).
Definition setLastFadeUpdateMs (m : Q) (t : ActiveTile) : ActiveTile :=
  mkTile (tileId t) (hasTexture t) (key t) (state t) (attempts t) (priority t)
         (lastWantedFrame t) (lastTouchedFrame t) (currentOpacity t)
         (targetOpacity t) m (meshVisible t).
Definition setMeshVisible (v : bool) (t : ActiveTile) : ActiveTile :=
  mkTile (tileId t) (hasTexture t) (key t) (state t) (attempts t) (priority t)
         (lastWantedFrame t) (lastTouchedFrame t) (currentOpacity t)
         (targetOpacity t) (lastFadeUpdateMs t) v.

(** [DesiredTile]; its optional [tileRect] only feeds the debug overlay. *)
Record DesiredTile : Type := mkDesired {
  d_tileId : TileId;
  d_key : string;
  d_priority : Z }.

Record LayerViewState : Type := mkViewState {
  vs_zoom : Z;
  vs_centerX : Z;
  vs_centerY : Z;
  vs_tileRadius : Z;
  vs_stateKey : string;
  vs_viewportBounds : option ViewportWorldBounds }.

Record PlanarMapTileDebugInfo : Type := mkDebugInfo {
  di_enabled : bool;
  di_zoom : Z;
  di_centerX : Z;
  di_centerY : Z;
  di_tileCount : Z;
  di_tileRadius : Z;
  di_queuedCount : Z;
  di_loadingCount : Z;
  di_readyCount : Z;
  di_errorCount : Z;
  di_requestedCount : Z;
  di_renderedCount : Z;
  di_renderedZoomStats : list (Z * Z) }.

(** The [Map<string, ActiveTile>], in insertion order. *)
Definition TileMap : Type := list (string * ActiveTile).

(** A request handed to the texture loader: the key of the tile object the
    callbacks close over, and the attempt number they close over. *)
Definition Request : Type := (string * Z)%type.

(** The mutable fields of a layer, and the loader's unanswered requests. *)
Record Layer : Type := mkLayer {
  tiles : TileMap;
  queuedKeys : list string;
  frame : Z;
  stateKey : string;
  inflightCount : Z;
  loadQueue : list string;
  lastLayoutUpdateMs : Q;
  pendingViewState : option LayerViewState;
  appliedViewState : option LayerViewState;
  activeDesiredTiles : list DesiredTile;
  requestedCount : Z;
  debugInfo : PlanarMapTileDebugInfo;
  requests : list Request }.

Definition setTiles (m : TileMap) (L : Layer) : Layer :=
  mkLayer m (queuedKeys L) (frame L) (stateKey L) (inflightCount L) (loadQueue L)
          (lastLayoutUpdateMs L) (pendingViewState L) (appliedViewState L)
          (activeDesiredTiles L) (requestedCount L) (debugInfo L) (requests L).
Definition setQueuedKeys (s : list string) (L : Layer) : Layer :=
  mkLayer (tiles L) s (frame L) (stateKey L) (inflightCount L) (loadQueue L)
          (lastLayoutUpdateMs L) (pendingViewState L) (appliedViewState L)
          (activeDesiredTiles L) (requestedCount L) (debugInfo L) (requests L).
Definition setFrame (f : Z) (L : Layer) : Layer :=
  mkLayer (tiles L) (queuedKeys L) f (stateKey L) (inflightCount L) (loadQueue L)
          (lastLayoutUpdateMs L) (pendingViewState L) (appliedViewState L)
          (activeDesiredTiles L) (requestedCount L) (debugInfo L) (requests L).
Definition setStateKey (k : string) (L : Layer) : Layer :=
  mkLayer (tiles L) (queuedKeys L) (frame L) k (inflightCount L) (loadQueue L)
          (lastLayoutUpdateMs L) (pendingViewState L) (appliedViewState L)
          (activeDesiredTiles L) (requestedCount L) (debugInfo L) (requests L).
Definition setInflightCount (n : Z) (L : Layer) : Layer :=
  mkLayer (tiles L) (queuedKeys L) (frame L) (stateKey L) n (loadQueue L)
          (lastLayoutUpdateMs L) (pendingViewState L) (appliedViewState L)
          (activeDesiredTiles L) (requestedCount L) (debugInfo L) (requests L).
Definition setLoadQueue (q : list string) (L : Layer) : Layer :=
  mkLayer (tiles L) (queuedKeys L) (frame L) (stateKey L) (inflightCount L) q
          (lastLayoutUpdateMs L) (pendingViewState L) (appliedViewState L)
          (activeDesiredTiles L) (requestedCount L) (debugInfo L) (requests L).
Definition setLastLayoutUpdateMs (m : Q) (L : Layer) : Layer :=
  mkLayer (tiles L) (queuedKeys L) (frame L) (stateKey L) (inflightCount L) (loadQueue L)
          m (pendingViewState L) (appliedViewState L)
          (activeDesiredTiles L) (requestedCount L) (debugInfo L) (requests L).
Definition setPendingViewState (p : option LayerViewState) (L : Layer) : Layer :=
  mkLayer (tiles L) (queuedKeys L) (frame L) (stateKey L) (inflightCount L) (loadQueue L)
          (lastLayoutUpdateMs L) p (appliedViewState L)
          (activeDesiredTiles L) (requestedCount L) (debugInfo L) (requests L).
Definition setAppliedViewState (a : option LayerViewState) (L : Layer) : Layer :=
  mkLayer (tiles L) (queuedKeys L) (frame L) (stateKey L) (inflightCount L) (loadQueue L)
          (lastLayoutUpdateMs L) (pendingViewState L) a
          (activeDesiredTiles L) (requestedCount L) (debugInfo L) (requests L).
Definition setActiveDesiredTiles (d : list DesiredTile) (L : Layer) : Layer :=
  mkLayer (tiles L) (queuedKeys L) (frame L) (stateKey L) (inflightCount L) (loadQueue L)
          (lastLayoutUpdateMs L) (pendingViewState L) (appliedViewState L)
          d (requestedCount L) (debugInfo L) (requests L).
Definition setRequestedCount (n : Z) (L : Layer) : Layer :=
  mkLayer (tiles L) (queuedKeys L) (frame L) (stateKey L) (inflightCount L) (loadQueue L)
          (lastLayoutUpdateMs L) (pendingViewState L) (appliedViewState L)
          (activeDesiredTiles L) n (debugInfo L) (requests L).
Definition setDebugInfo (d : PlanarMapTileDebugInfo) (L : Layer) : Layer :=
  mkLayer (tiles L) (queuedKeys L) (frame L) (stateKey L) (inflightCount L) (loadQueue L)
          (lastLayoutUpdateMs L) (pendingViewState L) (appliedViewState L)
          (activeDesiredTiles L) (requestedCount L) d (requests L).
Definition setRequests (r : list Request) (L : Layer) : Layer :=
  mkLayer (tiles L) (queuedKeys L) (frame L) (stateKey L) (inflightCount L) (loadQueue L)
          (lastLayoutUpdateMs L) (pendingViewState L) (appliedViewState L)
          (activeDesiredTiles L) (requestedCount L) (debugInfo L) r.

(** [Map.get] *)
Fixpoint getTile (k : string) (m : TileMap) : option ActiveTile :=
  match m with
  | [] => None
  | (k', t) :: r => if String.eqb k k' then Some t else getTile k r
  end.

(** [Map.set] of a key that is absent: the entry goes last. *)
Definition addTile (k : string) (t : ActiveTile) (m : TileMap) : TileMap := m ++ [(k, t)].

(** [Map.delete] *)
Definition deleteTile (k : string) (m : TileMap) : TileMap :=
  filter (fun e => negb (String.eqb k (fst e))) m.

(** An assignment to fields of the tile object stored under [k]. *)
Definition mutTile (k : string) (f : ActiveTile -> ActiveTile) (m : TileMap) : TileMap :=
  map (fun e => if String.eqb k (fst e) then (fst e, f (snd e)) else e) m.

Definition mutate (k : string) (f : ActiveTile -> ActiveTile) (L : Layer) : Layer :=
  setTiles (mutTile k f (tiles L)) L.

Definition tileCount (L : Layer) : Z := Z.of_nat (List.length (tiles L)).

Fixpoint removeAt {A : Type} (i : nat) (l : list A) : list A :=
  match i, l with
  | _, [] => []
  | O, _ :: r => r
  | S j, x :: r => x :: removeAt j r
  end.

Definition requestEqb (a b : Request) : bool :=
  String.eqb (fst a) (fst b) && (snd a =? snd b).

Fixpoint removeRequest (r : Request) (l : list Request) : list Request :=
  match l with
  | [] => []
  | x :: rest => if requestEqb r x then rest else x :: removeRequest r rest
  end.

(** The fields as the class initialises them, with the telemetry snapshot
    that the constructor installs. *)
Definition initialLayer (cfg : Config) : Layer :=
  {| tiles := [];
     queuedKeys := [];
     frame := 0;
     stateKey := EmptyString;
     inflightCount := 0;
     loadQueue := [];
     lastLayoutUpdateMs := 0%Q;
     pendingViewState := None;
     appliedViewState := None;
     activeDesiredTiles := [];
     requestedCount := 0;
     debugInfo :=
       mkDebugInfo (enabled cfg) (minZoom cfg) 0 0 0 (tileRadius cfg) 0 0 0 0 0 0 [];
     requests := [] |}.

(** [new PlanarMapTileLayer(geo, options)].  The body consists of
    assignments only and has no [throw] of its own; of the functions it
    calls, [normalizeSubdomains] is the one that has a loop, and the
    constructor ends as that call does. *)
Definition newPlanarMapTileLayer (g : GeoCoordinator) (o : PlanarMapTileLayerOptions)
  : Completion (Config * Layer) :=
  match normalizeSubdomains (o_subdomains o) with
  | Normal _ =>
      let cfg := constructorConfig g o in
      Normal (cfg, initialLayer cfg)
  | Throw message => Throw message
  | Exhausts => Exhausts
  end.

(* ================================================================== *)
(** ** The methods of the layer *)

Section Engine.

Variable cfg : Config.

(** [tileRectInWorld]: width and height are all the layer reads when it
    samples a tile size. *)
Definition tileRectInWorld (t : TileId) : Q * Q * Q * Q :=
  let g := geo cfg in
  let nw := tileToLonLat g (tid_x t) (tid_y t) (tid_z t) in
  let se := tileToLonLat g (tid_x t + 1) (tid_y t + 1) (tid_z t) in
  let minM := lonLatToWebMercator g (fst nw) (snd se) in
  let maxM := lonLatToWebMercator g (fst se) (snd nw) in
  let widthMeters := Qabs' (fst maxM - fst minM)%Q in
  let heightMeters := Qabs' (snd maxM - snd minM)%Q in
  let cx := ((fst minM + fst maxM) * (1 # 2))%Q in
  let cy := ((snd minM + snd maxM) * (1 # 2))%Q in
  (((cx - fst (originMercator cfg)) / metersPerUnit g)%Q,
   ((cy - snd (originMercator cfg)) / metersPerUnit g)%Q,
   (widthMeters / metersPerUnit g)%Q,
   (heightMeters / metersPerUnit g)%Q).

Definition pickZoom (cameraHeight : Q) : Z :=
  clampIntZ (getZoomLevelByDistance cameraHeight) (minZoom cfg) (maxZoom cfg).

Definition resolveTileRadius (zoom : Z) (centerTile : Z * Z)
           (viewRadiusWorld : option Q) : Z :=
  let n := 2 ^ zoom in
  if n <=? 8 then Z.max (tileRadius cfg) (Qceiling (inject_Z n / 2)%Q)
  else
    let radius :=
      match viewRadiusWorld with
      | Some v =>
          if Qltb 0%Q v then
            let '(_, _, w, h) :=
              tileRectInWorld (mkTileId (fst centerTile) (snd centerTile) zoom) in
            let tileSize := Qmax (1 # 1000)%Q (Qmin w h) in
            let needed := Qceiling (v / tileSize)%Q + 1 in
            Z.max (tileRadius cfg) needed
          else tileRadius cfg
      | None => tileRadius cfg
      end in
    clampIntZ radius (tileRadius cfg) (maxDynamicTileRadius cfg).

Definition getLodLevel (zoom : Z) : option TileLodLevel :=
  find (fun level => lod_zoom level =? zoom) (lodLevels cfg).

Definition defaultMaxTilesByZoom (zoom : Z) : Z :=
  if 18 <=? zoom then 64 else if 16 <=? zoom then 81
  else if 14 <=? zoom then 100 else if 12 <=? zoom then 121
  else if 10 <=? zoom then 144 else if 8 <=? zoom then 196
  else if 6 <=? zoom then 256 else if 4 <=? zoom then 324 else 400.

(** The tile range of viewport bounds, after the shift to Mercator metres
    that both of its callers perform. *)
Definition viewportTileRange (b : ViewportWorldBounds) (zoom marginTiles : Z)
  : option TileRange :=
  let mpu := metersPerUnit (geo cfg) in
  let mercMinX := (fst (originMercator cfg) + vb_minX b * mpu)%Q in
  let mercMaxX := (fst (originMercator cfg) + vb_maxX b * mpu)%Q in
  let mercMinY := (snd (originMercator cfg) + vb_minY b * mpu)%Q in
  let mercMaxY := (snd (originMercator cfg) + vb_maxY b * mpu)%Q in
  mercatorBoundsToTileRange (Qmin mercMinX mercMaxX) (Qmin mercMinY mercMaxY)
                            (Qmax mercMinX mercMaxX) (Qmax mercMinY mercMaxY)
                            zoom marginTiles.

Definition buildViewportStateKey (viewportBounds : option ViewportWorldBounds)
           (zoom : Z) : string :=
  match viewportBounds with
  | None => "none"
  | Some b =>
      match viewportTileRange b zoom 0 with
      | None => "none"
      | Some r =>
          (showZ (minXRaw r) ++ ":" ++ showZ (maxXRaw r) ++ ":"
           ++ showZ (rg_minY r) ++ ":" ++ showZ (rg_maxY r))%string
      end
  end.

Definition collectDesiredTilesByRadius (centerTile : Z * Z) (zoom radius : Z)
  : list DesiredTile :=
  let n := 2 ^ zoom in
  flat_map
    (fun dy =>
       flat_map
         (fun dx =>
            let tileY := snd centerTile + dy in
            if (tileY <? 0) || (n <=? tileY) then []
            else
              let tileX := wrapInt (fst centerTile + dx) n in
              let id := mkTileId tileX tileY zoom in
              [mkDesired id (tileKey id)
                         (shortestTileDx (fst centerTile) tileX n ^ 2 + dy * dy)])
         (zrange (- radius) radius))
    (zrange (- radius) radius).

(** The inner loop of the narrow case, which skips the keys already seen. *)
Fixpoint viewportRow (centerTile : Z * Z) (zoom n rawY : Z) (xs : list Z)
         (seen : list string) : list DesiredTile * list string :=
  match xs with
  | [] => ([], seen)
  | rawX :: rest =>
      let tileX := wrapInt rawX n in
      let id := mkTileId tileX rawY zoom in
      let k := tileKey id in
      if memStr k seen then viewportRow centerTile zoom n rawY rest seen
      else
        let dx := shortestTileDx (fst centerTile) tileX n in
        let dy := rawY - snd centerTile in
        let (more, seen') :=
          viewportRow centerTile zoom n rawY rest (setAdd k seen) in
        (mkDesired id k (dx * dx + dy * dy) :: more, seen')
  end.

Fixpoint viewportRows (centerTile : Z * Z) (zoom n : Z) (ys xs : list Z)
         (seen : list string) : list DesiredTile :=
  match ys with
  | [] => []
  | rawY :: rest =>
      if (rawY <? 0) || (n <=? rawY)
      then viewportRows centerTile zoom n rest xs seen
      else
        let (row, seen') := viewportRow centerTile zoom n rawY xs seen in
        row ++ viewportRows centerTile zoom n rest xs seen'
  end.

Definition collectDesiredTilesByViewport (centerTile : Z * Z) (zoom : Z)
           (viewportBounds : ViewportWorldBounds) (marginTiles : Z)
  : list DesiredTile :=
  match viewportTileRange viewportBounds zoom marginTiles with
  | None => []
  | Some r =>
      let n := 2 ^ zoom in
      let width := maxXRaw r - minXRaw r + 1 in
      if n <=? width then
        flat_map
          (fun tileY =>
             map (fun tileX =>
                    let dx := shortestTileDx (fst centerTile) tileX n in
                    let dy := tileY - snd centerTile in
                    let id := mkTileId tileX tileY zoom in
                    mkDesired id (tileKey id) (dx * dx + dy * dy))
                 (zrange 0 (n - 1)))
          (zrange (rg_minY r) (rg_maxY r))
      else
        viewportRows centerTile zoom n (zrange (rg_minY r) (rg_maxY r))
                     (zrange (minXRaw r) (maxXRaw r)) []
  end.

Definition collectDesiredTiles (centerTile : Z * Z) (zoom radius : Z)
           (viewportBounds : option ViewportWorldBounds) : list DesiredTile :=
  let lod := getLodLevel zoom in
  let marginTiles :=
    Z.max 0 (Qfloor (orElse (match lod with Some l => lod_marginTiles l | None => None end)
                            1%Q)) in
  let maxTiles :=
    Z.max 16 (Qfloor (orElse (match lod with Some l => lod_maxTiles l | None => None end)
                             (inject_Z (defaultMaxTilesByZoom zoom)))) in
  let byViewport :=
    match viewportBounds with
    | Some b => collectDesiredTilesByViewport centerTile zoom b marginTiles
    | None => []
    end in
  let list :=
    match byViewport with
    | _ :: _ => byViewport
    | [] => collectDesiredTilesByRadius centerTile zoom radius
    end in
  let sorted := stableSort (fun a b => d_priority a <=? d_priority b) list in
  if maxTiles <? Z.of_nat (List.length sorted)
  then firstn (Z.to_nat maxTiles) sorted
  else sorted.

(** [createTileShell].  The source reads the clock again for
    [lastFadeUpdateMs]; here the shell gets the [now] of the frame that
    creates it.  Every frame that creates a tile ends with
    [animateTileOpacity] on all tiles, which finds an elapsed time of 0
    for the new tile in either reading ([Math.max(0, now - last)]) and
    stamps it with the frame's [now]. *)
Definition createTileShell (id : TileId) (k : string) (now : Q) (L : Layer)
  : ActiveTile :=
  {| tileId := id;
     hasTexture := false;
     key := k;
     state := Idle;
     attempts := 0;
     priority := Infinite;
     lastWantedFrame := -1;
     lastTouchedFrame := frame L;
     currentOpacity := 0%Q;
     targetOpacity := 0%Q;
     lastFadeUpdateMs := now;
     meshVisible := false |}.

Definition enqueueTileLoad (k : string) (L : Layer) : Layer :=
  match getTile k (tiles L) with
  | None => L
  | Some tile =>
      match state tile with
      | Loading | Queued | Ready => L
      | _ =>
          let L1 := mutate k (setState Queued) L in
          if memStr k (queuedKeys L1) then L1
          else setLoadQueue (loadQueue L1 ++ [k])
                            (setQueuedKeys (setAdd k (queuedKeys L1)) L1)
      end
  end.

(** The guard both the desired-set loop and the ancestor walk put in front
    of [enqueueTileLoad]. *)
Definition enqueueIfIdleOrRetryable (k : string) (L : Layer) : Layer :=
  match getTile k (tiles L) with
  | None => L
  | Some tile =>
      match state tile with
      | Idle => enqueueTileLoad (key tile) L
      | Error =>
          if attempts tile <=? retryLimit cfg then enqueueTileLoad (key tile) L else L
      | _ => L
      end
  end.

Fixpoint pickBestFrom (m : TileMap) (queue : list string) (i bestIndex : nat)
         (bestPriority : Priority) : nat :=
  match queue with
  | [] => bestIndex
  | k :: rest =>
      match k, getTile k m with
      | String _ _, Some tile =>
          if prioLt (priority tile) bestPriority
          then pickBestFrom m rest (S i) i (priority tile)
          else pickBestFrom m rest (S i) bestIndex bestPriority
      | _, _ => pickBestFrom m rest (S i) bestIndex bestPriority
      end
  end.

Definition pickBestQueueIndex (L : Layer) : nat :=
  pickBestFrom (tiles L) (loadQueue L) 0 0 Infinite.

(** [startTileLoad(tile)] for the tile object stored under [k]: the
    request it issues is remembered with the [tile.key] and the attempt
    number its callbacks close over. *)
Definition startTileLoad (k : string) (tile : ActiveTile) (L : Layer) : Layer :=
  let attempt := attempts tile + 1 in
  let L1 := mutate k (fun t => setAttempts (attempts t + 1) (setState Loading t)) L in
  setRequests (requests L1 ++ [(key tile, attempt)])
              (setInflightCount (inflightCount L1 + 1) L1).

(** One turn of the [while] loop of [processLoadQueue]; the flag tells
    whether the loop goes on. *)
Definition drainIteration (L : Layer) : Layer * bool :=
  if (inflightCount L <? maxConcurrentRequests cfg)
     && negb (Nat.eqb (List.length (loadQueue L)) 0)
  then
    let nextIndex := pickBestQueueIndex L in
    match nth_error (loadQueue L) nextIndex with
    | None => (L, false)
    | Some k =>
        let L1 := setLoadQueue (removeAt nextIndex (loadQueue L)) L in
        match k with
        | EmptyString => (L1, false)
        | String _ _ =>
            let L2 := setQueuedKeys (setDelete k (queuedKeys L1)) L1 in
            match getTile k (tiles L2) with
            | Some tile =>
                match state tile with
                | Queued => (startTileLoad k tile L2, true)
                | _ => (L2, true)
                end
            | None => (L2, true)
            end
        end
    end
  else (L, false).

Fixpoint processLoadQueueLoop (fuel : nat) (L : Layer) : Layer :=
  match fuel with
  | O => L
  | S f =>
      let (L', again) := drainIteration L in
      if again then processLoadQueueLoop f L' else L'
  end.

(** Every turn that goes on takes one key off the queue, so the length of
    the queue bounds the number of turns. *)
Definition processLoadQueue (L : Layer) : Layer :=
  processLoadQueueLoop (S (List.length (loadQueue L))) L.

(** Both callbacks of [startTileLoad] give the slot back first, then
    look the tile up again, and call [processLoadQueue] last on every
    path; the part before that last call is the "body" here. *)
Definition releaseSlot (L : Layer) : Layer :=
  setInflightCount (Z.max 0 (inflightCount L - 1)) L.

Definition onLoadBody (k : string) (attempt : Z) (L : Layer) : Layer :=
  let L1 := releaseSlot L in
  match getTile k (tiles L1) with
  | None => L1
  | Some current =>
      if negb (attempts current =? attempt) then L1
      else mutate k (fun t => setState Ready (setTexture true t)) L1
  end.

(** The [onLoad] callback. *)
Definition onLoad (k : string) (attempt : Z) (L : Layer) : Layer :=
  processLoadQueue (onLoadBody k attempt L).

(** What [onError] does to a tile whose failed attempt is the current
    one. *)
Definition failTile (k : string) (L : Layer) : Layer :=
  let L2 := mutate k (setState Error) L in
  match getTile k (tiles L2) with
  | None => L2
  | Some current =>
      if attempts current <=? retryLimit cfg
      then enqueueTileLoad (key current) (mutate k (setState Idle) L2)
      else L2
  end.

Definition onErrorBody (k : string) (attempt : Z) (L : Layer) : Layer :=
  let L1 := releaseSlot L in
  match getTile k (tiles L1) with
  | None => L1
  | Some current =>
      if negb (attempts current =? attempt) then L1
      else failTile k L1
  end.

(** The [onError] callback. *)
Definition onError (k : string) (attempt : Z) (L : Layer) : Layer :=
  processLoadQueue (onErrorBody k attempt L).

Definition disposeTile (k : string) (L : Layer) : Layer :=
  setTiles (deleteTile k (tiles L)) (setQueuedKeys (setDelete k (queuedKeys L)) L).

Definition isLoading (t : ActiveTile) : bool := TileState_eqb (state t) Loading.

(** [a.lastTouchedFrame - b.lastTouchedFrame || b.priority - a.priority]
    is at most 0. *)
Definition evictOrder (a b : ActiveTile) : bool :=
  if lastTouchedFrame a =? lastTouchedFrame b
  then prioDiffLe0 (priority b) (priority a)
  else lastTouchedFrame a <? lastTouchedFrame b.

Definition evictTiles (wantedKeys : list string) (L : Layer) : Layer :=
  let staleKeys :=
    map fst
        (filter (fun e =>
                   negb (memStr (fst e) wantedKeys)
                   && negb (isLoading (snd e))
                   && (retainFrames cfg <? frame L - lastWantedFrame (snd e)))
                (tiles L)) in
  let L1 :=
    fold_left (fun acc k =>
                 match getTile k (tiles acc) with
                 | None => acc
                 | Some _ => disposeTile k acc
                 end) staleKeys L in
  if tileCount L1 <=? maxCachedTiles cfg then L1
  else
    let evictCandidates :=
      stableSort evictOrder
                 (filter (fun t => negb (memStr (key t) wantedKeys) && negb (isLoading t))
                         (map snd (tiles L1))) in
    fold_left (fun acc t =>
                 if tileCount acc <=? maxCachedTiles cfg then acc
                 else disposeTile (key t) acc) evictCandidates L1.

(** The body of the loop of [applyViewState] over the desired tiles. *)
Definition wantTile (now : Q) (L : Layer) (desired : DesiredTile) : Layer :=
  let k := d_key desired in
  let L1 :=
    match getTile k (tiles L) with
    | Some _ => L
    | None => setTiles (addTile k (createTileShell (d_tileId desired) k now L) (tiles L)) L
    end in
  let L2 :=
    mutate k (fun t => setLastTouchedFrame (frame L)
                         (setLastWantedFrame (frame L)
                            (setPriority (Finite (d_priority desired)) t))) L1 in
  enqueueIfIdleOrRetryable k L2.

Definition applyViewState (vs : LayerViewState) (now : Q) (L : Layer) : Layer :=
  let desiredTiles :=
    collectDesiredTiles (vs_centerX vs, vs_centerY vs) (vs_zoom vs)
                        (vs_tileRadius vs) (vs_viewportBounds vs) in
  let L1 :=
    setActiveDesiredTiles desiredTiles
      (setRequestedCount (Z.of_nat (List.length desiredTiles)) L) in
  let wantedKeys := map d_key desiredTiles in
  let L2 := fold_left (wantTile now) desiredTiles L1 in
  let L3 :=
    setTiles
      (map (fun e =>
              let tile := snd e in
              if memStr (key tile) wantedKeys then e
              else if retainFrames cfg <? frame L2 - lastWantedFrame tile
                   then (fst e, setTargetOpacity 0%Q tile)
                   else e)
           (tiles L2)) L2 in
  evictTiles wantedKeys (setStateKey (vs_stateKey vs) L3).

(** The ancestor walk.  [fuel] counts the remaining values of the loop
    index [i]; the result is the key under which the first ready parent
    is stored, the per-frame set of touched ancestors, and the layer. *)
Fixpoint findReadyAncestorLoop (fuel : nat) (x y z : Z) (now : Q)
         (touched : list string) (L : Layer)
  : option string * list string * Layer :=
  match fuel with
  | O => (None, touched, L)
  | S f =>
      if minZoom cfg <? z then
        let x' := x / 2 in
        let y' := y / 2 in
        let z' := z - 1 in
        let id := mkTileId x' y' z' in
        let k := tileKey id in
        let L1 :=
          match getTile k (tiles L) with
          | Some _ => L
          | None => setTiles (addTile k (createTileShell id k now L) (tiles L)) L
          end in
        let '(touched', L2) :=
          if memStr k touched then (touched, L1)
          else
            (setAdd k touched,
             enqueueIfIdleOrRetryable k
               (mutate k (fun t => setLastTouchedFrame (frame L)
                                     (setLastWantedFrame (frame L) t)) L1)) in
        match getTile k (tiles L2) with
        | Some parent =>
            match state parent with
            | Ready => (Some k, touched', L2)
            | _ => findReadyAncestorLoop f x' y' z' now touched' L2
            end
        | None => findReadyAncestorLoop f x' y' z' now touched' L2
        end
      else (None, touched, L)
  end.

Definition findReadyAncestor (id : TileId) (now : Q) (touched : list string)
           (L : Layer) : option string * list string * Layer :=
  findReadyAncestorLoop (Z.to_nat (maxParentSearchDepth cfg))
                        (tid_x id) (tid_y id) (tid_z id) now touched L.

Definition animateTileOpacity (now : Q) (tile : ActiveTile) : ActiveTile :=
  if negb (enableProgressiveBlend cfg) then
    let visible := Qltb (1 # 1000)%Q (targetOpacity tile) in
    setLastFadeUpdateMs now
      (setMeshVisible visible
         (setCurrentOpacity (if visible then opacity cfg else 0%Q) tile))
  else
    let dt := Qmax 0%Q (now - lastFadeUpdateMs tile)%Q in
    let tile1 := setLastFadeUpdateMs now tile in
    if Qle_bool dt 0%Q then tile1
    else
      let eased :=
        if Qltb (Qabs' (targetOpacity tile1 - currentOpacity tile1)%Q) (1 # 10000)%Q
        then targetOpacity tile1
        else
          let step := Qmin 1%Q (dt / inject_Z (fadeDurationMs cfg))%Q in
          (currentOpacity tile1
           + (targetOpacity tile1 - currentOpacity tile1) * step)%Q in
      let clamped := clampNumber eased 0%Q (opacity cfg) in
      setMeshVisible (Qltb (1 # 1000)%Q clamped) (setCurrentOpacity clamped tile1).

(** The body of the loop of [updateProgressiveVisibility] over the active
    desired tiles; the accumulator holds [visibleKeys],
    [touchedAncestorKeys] and the layer. *)
Definition visitDesired (now : Q) (acc : list string * list string * Layer)
           (desired : DesiredTile) : list string * list string * Layer :=
  let '(visibleKeys, touched, L) := acc in
  match getTile (d_key desired) (tiles L) with
  | None => acc
  | Some current =>
      match state current with
      | Ready =>
          (setAdd (key current) visibleKeys, touched,
           mutate (d_key desired) (setLastWantedFrame (frame L)) L)
      | _ =>
          let '(fallback, touched', L') :=
            findReadyAncestor (d_tileId desired) now touched L in
          match fallback with
          | Some fk =>
              match getTile fk (tiles L') with
              | Some fb =>
                  (setAdd (key fb) visibleKeys, touched',
                   mutate fk (setLastWantedFrame (frame L')) L')
              | None => (visibleKeys, touched', L')
              end
          | None => (visibleKeys, touched', L')
          end
      end
  end.

Definition updateProgressiveVisibility (now : Q) (L : Layer) : Layer :=
  let '(visibleKeys, _, L1) :=
    fold_left (visitDesired now) (activeDesiredTiles L) ([], [], L) in
  setTiles
    (map (fun e =>
            let tile := snd e in
            let age := frame L1 - lastWantedFrame tile in
            let shouldBeVisible :=
              memStr (key tile) visibleKeys
              && TileState_eqb (state tile) Ready
              && (age <=? retainFrames cfg) in
            (fst e,
             animateTileOpacity now
               (setTargetOpacity (if shouldBeVisible then opacity cfg else 0%Q) tile)))
         (tiles L1)) L1.

Definition countState (s : TileState) (m : TileMap) : Z :=
  Z.of_nat (List.length (filter (fun e => TileState_eqb (state (snd e)) s) m)).

Definition isRendered (t : ActiveTile) : bool :=
  TileState_eqb (state t) Ready && meshVisible t
  && Qltb (1 # 1000)%Q (currentOpacity t).

(** [renderedZoomStats.set(z, (renderedZoomStats.get(z) ?? 0) + 1)] *)
Fixpoint bumpZoomStat (z : Z) (stats : list (Z * Z)) : list (Z * Z) :=
  match stats with
  | [] => [(z, 1)]
  | (z', c) :: rest =>
      if z' =? z then (z', c + 1) :: rest else (z', c) :: bumpZoomStat z rest
  end.

Definition refreshDebugInfo (zoom centerX centerY radius : Z) (L : Layer) : Layer :=
  let rendered := filter (fun e => isRendered (snd e)) (tiles L) in
  let stats :=
    fold_left (fun acc e => bumpZoomStat (tid_z (tileId (snd e))) acc) rendered [] in
  setDebugInfo
    {| di_enabled := enabled cfg;
       di_zoom := zoom;
       di_centerX := centerX;
       di_centerY := centerY;
       di_tileCount := tileCount L;
       di_tileRadius := radius;
       di_queuedCount := Z.of_nat (List.length (loadQueue L));
       di_loadingCount := countState Loading (tiles L);
       di_readyCount := countState Ready (tiles L);
       di_errorCount := countState Error (tiles L);
       di_requestedCount := requestedCount L;
       di_renderedCount := Z.of_nat (List.length rendered);
       di_renderedZoomStats :=
         stableSort (fun a b => fst b <=? fst a) stats |} L.

Definition shouldApplyNow (L : Layer) (next : LayerViewState) (nowMsValue : Q)
  : bool :=
  match stateKey L, appliedViewState L with
  | EmptyString, _ => true
  | _, None => true
  | String _ _, Some current =>
      let elapsed := (nowMsValue - lastLayoutUpdateMs L)%Q in
      let centerShift :=
        Z.abs (vs_centerX next - vs_centerX current)
        + Z.abs (vs_centerY next - vs_centerY current) in
      let zoomShift := Z.abs (vs_zoom next - vs_zoom current) in
      let radiusShift := Z.abs (vs_tileRadius next - vs_tileRadius current) in
      let lod := getLodLevel (vs_zoom next) in
      let pick (f : TileLodLevel -> option Q) (d : Z) : Q :=
        orElse (match lod with Some l => f l | None => None end) (inject_Z d) in
      let updateThrottle :=
        Z.max 16 (Qfloor (pick lod_updateThrottleMs (updateThrottleMs cfg))) in
      let zoomThrottle :=
        Z.max updateThrottle (Qfloor (pick lod_zoomThrottleMs (zoomThrottleMs cfg))) in
      let immediateShift :=
        Z.max 1 (Qfloor (pick lod_immediateTileShift (immediateTileShift cfg))) in
      if immediateShift <=? centerShift then true
      else if 2 <=? zoomShift then true
      else if (1 <=? zoomShift) || (1 <=? radiusShift)
           then Qle_bool (inject_Z zoomThrottle) elapsed
           else Qle_bool (inject_Z updateThrottle) elapsed
  end.

(** The throttle decision of [update]: the view state to apply and the
    pending view state to keep. *)
Definition chooseViewState (L : Layer) (next : LayerViewState) (now : Q)
  : LayerViewState * option LayerViewState :=
  if negb (String.eqb (vs_stateKey next) (stateKey L))
     && negb (shouldApplyNow L next now)
  then (orElse (appliedViewState L) next, Some next)
  else
    match pendingViewState L with
    | Some pending => (pending, None)
    | None => (next, None)
    end.

(** The view state with which this call of [update] runs
    [applyViewState], if it does. *)
Definition appliedBy (L : Layer) (next : LayerViewState) (now : Q)
  : option LayerViewState :=
  let applyState := fst (chooseViewState L next now) in
  if negb (String.eqb (vs_stateKey applyState) (stateKey L))
  then Some applyState else None.

(** [update] from the point where the next view state and the clock have
    been read; the frame counter has been incremented. *)
Definition updateFrame (next : LayerViewState) (now : Q) (L : Layer) : Layer :=
  let L1 := setPendingViewState (snd (chooseViewState L next now)) L in
  let L2 :=
    match appliedBy L next now with
    | Some applyState =>
        setAppliedViewState (Some applyState)
          (setLastLayoutUpdateMs now (applyViewState applyState now L1))
    | None => L1
    end in
  let L3 := updateProgressiveVisibility now (processLoadQueue L2) in
  match appliedViewState L3 with
  | Some a =>
      refreshDebugInfo (vs_zoom a) (vs_centerX a) (vs_centerY a) (vs_tileRadius a) L3
  | None =>
      refreshDebugInfo (vs_zoom next) (vs_centerX next) (vs_centerY next)
                       (vs_tileRadius next) L3
  end.

(** [update] for a camera whose next view state is [next]. *)
Definition updateView (next : LayerViewState) (now : Q) (L : Layer) : Layer :=
  if negb (enabled cfg) then L
  else updateFrame next now (setFrame (frame L + 1) L).

(** The view state [update] computes from its arguments. *)
Definition nextViewState (focusX focusY cameraHeight : Q)
           (viewRadiusWorld : option Q)
           (viewportBounds : option ViewportWorldBounds) : LayerViewState :=
  let g := geo cfg in
  let mx := (fst (originMercator cfg) + focusX * metersPerUnit g)%Q in
  let my := (snd (originMercator cfg) + focusY * metersPerUnit g)%Q in
  let lonLat := webMercatorToLonLat g mx my in
  let zoom := pickZoom cameraHeight in
  let centerTile := lonLatToTile g (fst lonLat) (snd lonLat) zoom in
  let effectiveRadius := resolveTileRadius zoom centerTile viewRadiusWorld in
  let safeViewport := sanitizeViewportBounds viewportBounds in
  let viewportKey := buildViewportStateKey safeViewport zoom in
  {| vs_zoom := zoom;
     vs_centerX := fst centerTile;
     vs_centerY := snd centerTile;
     vs_tileRadius := effectiveRadius;
     vs_stateKey :=
       (showZ zoom ++ "|" ++ showZ (fst centerTile) ++ "|" ++ showZ (snd centerTile)
        ++ "|" ++ showZ effectiveRadius ++ "|" ++ viewportKey)%string;
     vs_viewportBounds := safeViewport |}.

(** [update(focusX, focusY, cameraHeight, viewRadiusWorld, viewportBounds)],
    with the value [now] that [nowMs()] returns in it. *)
Definition update (focusX focusY cameraHeight : Q) (viewRadiusWorld : option Q)
           (viewportBounds : option ViewportWorldBounds) (now : Q) (L : Layer)
  : Layer :=
  updateView (nextViewState focusX focusY cameraHeight viewRadiusWorld viewportBounds)
             now L.

(** The [debugInfo] getter returns a copy of the snapshot. *)
Definition getDebugInfo (L : Layer) : PlanarMapTileDebugInfo := debugInfo L.

(* ---------------------------------------------------------------- *)
(** *** The layer and its loader as a transition system *)

(** What can happen to a layer: a frame update, or the loader answering
    one of its open requests. *)
Inductive Event : Type :=
| FrameUpdate (next : LayerViewState) (now : Q)
| LoadSucceeded (k : string) (attempt : Z)
| LoadFailed (k : string) (attempt : Z).

Definition hasRequest (r : Request) (L : Layer) : bool :=
  existsb (requestEqb r) (requests L).

Definition step (L : Layer) (ev : Event) : Layer :=
  match ev with
  | FrameUpdate next now => updateView next now L
  | LoadSucceeded k a =>
      if hasRequest (k, a) L
      then onLoad k a (setRequests (removeRequest (k, a) (requests L)) L)
      else L
  | LoadFailed k a =>
      if hasRequest (k, a) L
      then onError k a (setRequests (removeRequest (k, a) (requests L)) L)
      else L
  end.

Definition run (L : Layer) (evs : list Event) : Layer := fold_left step evs L.

End Engine.

(* ================================================================== *)
(** ** Vocabulary of the properties *)

(** A coordinate module to run examples with: the plane is its own map
    projection and tiles are unit squares. *)
Definition exampleGeo : GeoCoordinator :=
  mkGeo 1%Q (fun lon lat => (lon, lat)) (fun x y => (x, y))
        (fun lon lat _ => (Qfloor lon, Qfloor lat))
        (fun x y _ => (inject_Z x, inject_Z y)).





(** [{ enabled: false }] *)
Definition disabledOptions : PlanarMapTileLayerOptions :=
  mkOptions (Some false) None None None None None None None None
            None None None None None None None None None None None None.

(** The layers a program can observe: those that a constructed layer
    reaches through frame updates and loader callbacks. *)
Definition reachable (cfg : Config) (L : Layer) : Prop :=
  exists evs, L = run cfg (initialLayer cfg) evs.

(** The fields that only [update] itself writes, and the fields that count
    the loads in flight. *)
Definition viewFields (L : Layer) :=
  (frame L, stateKey L, lastLayoutUpdateMs L, pendingViewState L,
   appliedViewState L, activeDesiredTiles L, requestedCount L, debugInfo L).

Definition slotFields (L : Layer) := (inflightCount L, requests L).

(** The loads in flight are the loader's open requests; the layer counts
    them in [_inflightCount]. *)
Definition slotsConsistent (cfg : Config) (L : Layer) : Prop :=
  Z.of_nat (List.length (requests L)) = inflightCount L
  /\ inflightCount L <= maxConcurrentRequests cfg.

(** The applied view state is the one whose key the layer remembers. *)
Definition appliedConsistent (L : Layer) : Prop :=
  forall a, appliedViewState L = Some a -> vs_stateKey a = stateKey L.

(** The throttle defers a call of [update] that computes [next] at time
    [now]: the state key changed and [shouldApplyNow] says no. *)
Definition deferredBy (cfg : Config) (L : Layer) (next : LayerViewState) (now : Q) : bool :=
  negb (String.eqb (vs_stateKey next) (stateKey L)) && negb (shouldApplyNow cfg L next now).

(** A sequence of calls of [update], each given by the view state it
    computes and the time it reads. *)
Definition runUpdates (cfg : Config) (L : Layer) (calls : list (LayerViewState * Q)) : Layer :=
  fold_left (fun acc c => updateView cfg (fst c) (snd c) acc) calls L.

(** Every call of the sequence is deferred when it is made. *)
Fixpoint allDeferred (cfg : Config) (L : Layer) (calls : list (LayerViewState * Q)) : Prop :=
  match calls with
  | [] => True
  | c :: rest =>
      deferredBy cfg L (fst c) (snd c) = true
      /\ allDeferred cfg (updateView cfg (fst c) (snd c) L) rest
  end.

(** The view states that the calls of a sequence hand to
    [applyViewState], in order. *)
Fixpoint applications (cfg : Config) (L : Layer) (calls : list (LayerViewState * Q))
  : list LayerViewState :=
  match calls with
  | [] => []
  | c :: rest =>
      (if enabled cfg
       then match appliedBy cfg L (fst c) (snd c) with Some a => [a] | None => [] end
       else [])
      ++ applications cfg (updateView cfg (fst c) (snd c) L) rest
  end.

(** Every tile object is stored under its own [key]. *)
Definition keysConsistent (L : Layer) : Prop :=
  forall k t, In (k, t) (tiles L) -> key t = k.

(** [{ maxCachedTiles: 16 }]: the smallest cache the constructor allows,
    with the default tile radius of 2. *)
Definition smallCacheOptions : PlanarMapTileLayerOptions :=
  mkOptions None None None None None None None None None
            None (Some 16%Q) None None None None None None None None None None.

Definition smallCacheConfig : Config := constructorConfig exampleGeo smallCacheOptions.

(** A view of zoom 10 centred on tile (512, 341) with the given radius and
    no viewport bounds. *)
Definition viewAt (cx cy radius : Z) : LayerViewState :=
  mkViewState 10 cx cy radius
              (showZ 10 ++ "|" ++ showZ cx ++ "|" ++ showZ cy ++ "|" ++ showZ radius
               ++ "|" ++ "none")%string
              None.

(** The nearest ready ancestor of a tile as the claim words it: go up by
    [x/2, y/2, z-1] at most [fuel] times while the zoom is above
    [minZoom], and stop at the first ancestor whose cache entry is ready.
    The cache is only read. *)
Fixpoint nearestReadyAncestor (cfg : Config) (m : TileMap) (fuel : nat) (x y z : Z)
  : option string :=
  match fuel with
  | O => None
  | S f =>
      if minZoom cfg <? z then
        let k := tileKey (mkTileId (x / 2) (y / 2) (z - 1)) in
        match getTile k m with
        | Some parent =>
            match state parent with
            | Ready => Some k
            | _ => nearestReadyAncestor cfg m f (x / 2) (y / 2) (z - 1)
            end
        | None => nearestReadyAncestor cfg m f (x / 2) (y / 2) (z - 1)
        end
      else None
  end.

(** [L'] comes from [L] by steps of the visibility pass: the frame is the
    same, no tile is lost, no tile becomes ready or stops being ready, the
    [key] fields stay, and a tile already stamped as wanted in this frame
    stays stamped. *)
Definition passExtends (L L' : Layer) : Prop :=
  frame L' = frame L
  /\ forall k,
       match getTile k (tiles L) with
       | Some t =>
           exists t', getTile k (tiles L') = Some t'
                      /\ key t' = key t
                      /\ (state t' = Ready <-> state t = Ready)
                      /\ (lastWantedFrame t = frame L -> lastWantedFrame t' = frame L)
       | None => forall t', getTile k (tiles L') = Some t' -> state t' <> Ready
       end.

(** The tile stored under [k] is ready, stamped as wanted in the current
    frame, and its key is among the visible keys. *)
Definition markedVisible (L : Layer) (visibleKeys : list string) (k : string) : Prop :=
  exists t, getTile k (tiles L) = Some t
            /\ state t = Ready
            /\ lastWantedFrame t = frame L
            /\ In (key t) visibleKeys.

(** A cached tile at rest, between two events: it is stored under its own
    key, it is not idle, it is in state [Error] only once its retries are
    used up, and while it is [Queued] its key is in the load queue. *)
Definition tileSettled (cfg : Config) (L : Layer) (k : string) (t : ActiveTile) : Prop :=
  key t = k
  /\ k <> EmptyString
  /\ state t <> Idle
  /\ (state t = Error -> retryLimit cfg < attempts t)
  /\ (state t = Queued -> In k (loadQueue L)).

(** The invariant of the scheduler between two events. *)
Definition wellFormed (cfg : Config) (L : Layer) : Prop :=
  NoDup (map fst (tiles L))
  /\ (forall k t, getTile k (tiles L) = Some t -> tileSettled cfg L k t)
  /\ (forall k, In k (queuedKeys L) -> In k (loadQueue L))
  /\ (forall k, In k (loadQueue L) -> k <> EmptyString)
  /\ (forall k a, In (k, a) (requests L) ->
                  exists t, getTile k (tiles L) = Some t
                            /\ state t = Loading /\ attempts t = a)
  /\ NoDup (map fst (requests L)).

(** A tile that has used up its retries. *)
Definition terminalError (cfg : Config) (t : ActiveTile) : Prop :=
  state t = Error /\ retryLimit cfg < attempts t.

(** Two layers with the same queue, queued keys and requests whose tiles
    agree on key, state and attempts. *)
Definition sameScheduling (L L' : Layer) : Prop :=
  map fst (tiles L') = map fst (tiles L)
  /\ loadQueue L' = loadQueue L
  /\ queuedKeys L' = queuedKeys L
  /\ requests L' = requests L
  /\ forall k,
       match getTile k (tiles L), getTile k (tiles L') with
       | Some t, Some t' =>
           key t' = key t /\ state t' = state t /\ attempts t' = attempts t
       | None, None => True
       | _, _ => False
       end.

(** An assignment to fields of a tile that the scheduler does not read. *)
Definition neutral (f : ActiveTile -> ActiveTile) : Prop :=
  forall t, key (f t) = key t /\ state (f t) = state t /\ attempts (f t) = attempts t.

(** The tiles of [L'] are tiles of [L]. *)
Definition tilesWithin (L L' : Layer) : Prop :=
  forall k t, getTile k (tiles L') = Some t -> getTile k (tiles L) = Some t.

(** [L'] comes from [L] by adding tiles: every tile of [L] is still there
    with its state and attempts, and a tile that was not in [L] is queued
    and has never been tried. *)
Definition growsQuietly (L L' : Layer) : Prop :=
  forall k,
    match getTile k (tiles L) with
    | Some t =>
        exists t', getTile k (tiles L') = Some t'
                   /\ state t' = state t /\ attempts t' = attempts t
    | None =>
        forall t', getTile k (tiles L') = Some t' -> state t' = Queued /\ attempts t' = 0
    end.

(** Every key of the set has a tile in the cache. *)
Definition allCached (L : Layer) (keys : list string) : Prop :=
  forall x, In x keys -> getTile x (tiles L) <> None.

(** [L'] comes from [L] by draining the queue: tiles are neither added nor
    removed, and a tile changes only by being started. *)
Definition drained (L L' : Layer) : Prop :=
  forall k,
    match getTile k (tiles L) with
    | Some t =>
        exists t', getTile k (tiles L') = Some t'
                   /\ ((state t' = state t /\ attempts t' = attempts t)
                       \/ (state t = Queued /\ state t' = Loading
                           /\ attempts t' = attempts t + 1))
    | None => getTile k (tiles L') = None
    end.

(** Every tile of the active desired set has a cache entry. *)
Definition desiredCached (L : Layer) : Prop :=
  forall d, In d (activeDesiredTiles L) -> getTile (d_key d) (tiles L) <> None.

(** The stage of [update] after the throttle decision and the
    application of a view state, if any: the layer that the drain loop
    starts from. *)
Definition afterApply (cfg : Config) (next : LayerViewState) (now : Q) (L : Layer) : Layer :=
  let L0 := setFrame (frame L + 1) L in
  let L1 := setPendingViewState (snd (chooseViewState cfg L0 next now)) L0 in
  match appliedBy cfg L0 next now with
  | Some applyState =>
      setAppliedViewState (Some applyState)
        (setLastLayoutUpdateMs now (applyViewState cfg applyState now L1))
  | None => L1
  end.


(* ------------------------------------------------------------------ *)
(** *** Example layers *)

(** [{ tileRadius: 0 }]: one desired tile per view; the retry limit keeps
    its default, 2. *)
Definition scenarioOptions : PlanarMapTileLayerOptions :=
  mkOptions None None None None None (Some 0%Q) None None None
            None None None None None None None None None None None None.

Definition scenarioConfig : Config := constructorConfig exampleGeo scenarioOptions.

(** The tile of the scenarios: zoom 10, column 512, row 341. *)
Definition scenarioView : LayerViewState := viewAt 512 341 0.
Definition scenarioKey : string := "10/512/341".

(** After the first frame: the tile is loading as attempt 1, its six
    fallback ancestors are queued. *)
Definition scenarioLoading : Layer :=
  run scenarioConfig (initialLayer scenarioConfig) [FrameUpdate scenarioView 1000%Q].

(** The fetch of the tile has failed twice. *)
Definition scenarioFailedTwice : Layer :=
  run scenarioConfig scenarioLoading [LoadFailed scenarioKey 1; LoadFailed scenarioKey 2].

(** After a second frame the ancestors are loading too, and the parent's
    image has arrived. *)
Definition scenarioParentReady : Layer :=
  run scenarioConfig (initialLayer scenarioConfig)
      [FrameUpdate scenarioView 1000%Q; FrameUpdate scenarioView 1016%Q;
       LoadSucceeded "9/256/170" 1].

(** [{ minZoom: 10, tileRadius: 0, maxConcurrentRequests: 1,
    retainFrames: 0 }]: one load at a time, and tiles that are not wanted
    do not outlive the next applied view state. *)
Definition congestedOptions : PlanarMapTileLayerOptions :=
  mkOptions None None None (Some 10%Q) None (Some 0%Q) None None None
            (Some 1%Q) None (Some 0%Q) None None None None None None None None None.

Definition congestedConfig : Config := constructorConfig exampleGeo congestedOptions.

(** Four frames: the camera jumps from column 512 to 520, to 530 and back
    to 520, while the first load keeps the only slot. *)
Definition congestedFrames : list Event :=
  [FrameUpdate (viewAt 512 341 0) 1000%Q;
   FrameUpdate (viewAt 520 341 0) 1016%Q;
   FrameUpdate (viewAt 530 341 0) 1032%Q;
   FrameUpdate (viewAt 520 341 0) 1048%Q].

(* ================================================================== *)
(** ** Further parts of the module *)

From Stdlib Require Import Sorted DecimalPos DecimalZ Lqa.

(** The thresholds of [getZoomLevelByDistance], as a table: distance bound
    and zoom level, in the order of the [if] cascade. *)
Definition distanceZoomTable : list (Z * Z) :=
  [(9, 24); (19, 23); (29, 22); (59, 21); (79, 20); (150, 19); (300, 18);
   (660, 17); (1300, 16); (2600, 15); (6400, 14); (13200, 13); (26000, 12);
   (68985, 11); (139780, 10); (250600, 9); (380000, 8); (640000, 7);
   (1280000, 6); (2600000, 5); (6100000, 4); (11900000, 3)].

(** A cascade of [if (d <= bound) return zoom;] over a table. *)
Fixpoint zoomFromTable (table : list (Z * Z)) (d : Q) (otherwise : Z) : Z :=
  match table with
  | [] => otherwise
  | (bound, zoom) :: rest =>
      if Qle_bool d (inject_Z bound) then zoom else zoomFromTable rest d otherwise
  end.

(** The characters of a printed integer: decimal digits and the sign. *)
Definition numeral (c : ascii) : Prop := isDigit c = true \/ c = "-"%char.


(** What every tile of a desired set satisfies, for the centre tile and
    the zoom level of the view: it is a tile of the grid of that zoom
    level, its key is the key of its tile id, and its priority is its
    squared distance from the centre tile, columns measured around the
    cylinder. *)
Definition desiredAt (centerTile : Z * Z) (zoom : Z) (d : DesiredTile) : Prop :=
  tid_z (d_tileId d) = zoom
  /\ 0 <= tid_x (d_tileId d) < 2 ^ zoom
  /\ 0 <= tid_y (d_tileId d) < 2 ^ zoom
  /\ d_key d = tileKey (d_tileId d)
  /\ d_priority d
     = shortestTileDx (fst centerTile) (tid_x (d_tileId d)) (2 ^ zoom) ^ 2
       + (tid_y (d_tileId d) - snd centerTile) ^ 2.


(** [{ minZoom: 10, tileRadius: 1, maxConcurrentRequests: 1 }] and two
    frames, centred on column 512 and then on column 514: one tile is
    loading and fourteen keys wait in the queue. *)
Definition queueOptions : PlanarMapTileLayerOptions :=
  mkOptions None None None (Some 10%Q) None (Some 1%Q) None None None
            (Some 1%Q) None None None None None None None None None None None.

Definition queueConfig : Config := constructorConfig exampleGeo queueOptions.

Definition queueLayer : Layer :=
  run queueConfig (initialLayer queueConfig)
      [FrameUpdate (viewAt 512 341 1) 1000%Q; FrameUpdate (viewAt 514 341 1) 1016%Q].

(* ------------------------------------------------------------------ *)
(** *** [dispose] and the life cycle of a layer *)

(** [dispose()].  The loop over [_tiles] deletes the entry it visits, which
    a JavaScript [Map] allows during iteration, so it visits exactly the
    entries the map had when the loop began.  The in-flight counter, the
    frame counter, the telemetry snapshot and the requests that the
    loader still holds are not touched. *)
Definition dispose (L : Layer) : Layer :=
  let L1 := setQueuedKeys [] (setLoadQueue [] L) in
  let L2 := fold_left (fun acc e => disposeTile (fst e) acc) (tiles L1) L1 in
  setRequestedCount 0
    (setActiveDesiredTiles []
       (setAppliedViewState None
          (setPendingViewState None
             (setStateKey EmptyString (setTiles [] L2))))).

(** What can happen to a layer over its life: an event of the engine, or a
    call of [dispose]. *)
Inductive LifecycleEvent : Type :=
| Engine (ev : Event)
| Dispose.

Definition lifecycleStep (cfg : Config) (L : Layer) (e : LifecycleEvent) : Layer :=
  match e with
  | Engine ev => step cfg L ev
  | Dispose => dispose L
  end.

Definition lifecycleRun (cfg : Config) (events : list LifecycleEvent) : Layer :=
  fold_left (lifecycleStep cfg) events (initialLayer cfg).

(** An answer of the loader, as opposed to a frame update. *)
Definition isAnswer (ev : Event) : bool :=
  match ev with
  | FrameUpdate _ _ => false
  | LoadSucceeded _ _ | LoadFailed _ _ => true
  end.

(* ------------------------------------------------------------------ *)
(** *** The tile URL *)

Inductive YType : Type := Xyz | Tms.

(** The two options of the constructor that only reach the tile URL. *)
Record UrlConfig : Type := mkUrlConfig {
  urlTemplate : string;
  yType : YType }.

Definition DEFAULT_URL_TEMPLATE : string :=
  "https://tile.openstreetmap.org/{z}/{x}/{y}.png".

(** [options?.urlTemplate ?? DEFAULT_URL_TEMPLATE] and
    [options?.yType ?? 'xyz'] *)
Definition constructorUrlConfig (template : option string) (y : option YType)
  : UrlConfig :=
  mkUrlConfig (orElse template DEFAULT_URL_TEMPLATE) (orElse y Xyz).

(** The replacement text of [String.prototype.replace] for a string
    pattern, which has no capture groups: [$$] is a dollar sign, [$&] the
    matched text, [$`] the text before the match, [$'] the text after it;
    any other [$] stands for itself. *)
Fixpoint getSubstitution (matched preceding following replacement : string) : string :=
  match replacement with
  | EmptyString => EmptyString
  | String c r1 =>
      if Ascii.eqb c "$"%char then
        match r1 with
        | String d r2 =>
            if Ascii.eqb d "$"%char
            then String "$"%char (getSubstitution matched preceding following r2)
            else if Ascii.eqb d "&"%char
            then (matched ++ getSubstitution matched preceding following r2)%string
            else if Ascii.eqb d "`"%char
            then (preceding ++ getSubstitution matched preceding following r2)%string
            else if Ascii.eqb d "'"%char
            then (following ++ getSubstitution matched preceding following r2)%string
            else String c (getSubstitution matched preceding following r1)
        | EmptyString => String c EmptyString
        end
      else String c (getSubstitution matched preceding following r1)
  end.

(** The rest of [s] after the prefix [pattern], if [s] starts with it. *)
Fixpoint afterPrefix (pattern s : string) : option string :=
  match pattern, s with
  | EmptyString, _ => Some s
  | String a p, String b r => if Ascii.eqb a b then afterPrefix p r else None
  | String _ _, EmptyString => None
  end.

(** The search of [replace] from the position that follows [preceding]. *)
Fixpoint replaceFrom (pattern replacement preceding s : string) : string :=
  match afterPrefix pattern s with
  | Some following =>
      (preceding ++ getSubstitution pattern preceding following replacement
       ++ following)%string
  | None =>
      match s with
      | EmptyString => preceding
      | String c r =>
          replaceFrom pattern replacement (preceding ++ String c EmptyString)%string r
      end
  end.

(** [s.replace(pattern, replacement)] with a string pattern: the first
    occurrence only. *)
Definition replace (pattern replacement s : string) : string :=
  replaceFrom pattern replacement EmptyString s.

Definition pickSubdomain (cfg : Config) (t : TileId) : string :=
  match subdomains cfg with
  | [] => EmptyString
  | _ :: _ =>
      let idx :=
        Z.rem (Z.abs (tid_x t + tid_y t + tid_z t))
              (Z.of_nat (List.length (subdomains cfg))) in
      nth (Z.to_nat idx) (subdomains cfg) EmptyString
  end.

Definition buildUrl (cfg : Config) (u : UrlConfig) (t : TileId) : string :=
  let n := 2 ^ tid_z t in
  let y := match yType u with Tms => n - 1 - tid_y t | Xyz => tid_y t end in
  let subdomain := pickSubdomain cfg t in
  replace "{s}" subdomain
    (replace "{y}" (showZ y)
       (replace "{x}" (showZ (tid_x t))
          (replace "{z}" (showZ (tid_z t)) (urlTemplate u)))).

(** A URL template cut into pieces: literal text and placeholders. *)
Inductive Token : Type :=
| Lit (text : string)
| PlaceZ
| PlaceX
| PlaceY
| PlaceS.

Definition tokenText (values : Token -> string) (t : Token) : string :=
  match t with
  | Lit text => text
  | _ => values t
  end.

(** The text of a template whose placeholders read as [values] says. *)
Fixpoint render (values : Token -> string) (tokens : list Token) : string :=
  match tokens with
  | [] => EmptyString
  | t :: rest => (tokenText values t ++ render values rest)%string
  end.

Definition placeholderText (t : Token) : string :=
  match t with
  | Lit text => text
  | PlaceZ => "{z}"
  | PlaceX => "{x}"
  | PlaceY => "{y}"
  | PlaceS => "{s}"
  end.

Definition templateText (tokens : list Token) : string :=
  render placeholderText tokens.

(** What [buildUrl] puts in the place of each placeholder. *)
Definition urlValues (cfg : Config) (u : UrlConfig) (t : TileId) (p : Token) : string :=
  match p with
  | Lit text => text
  | PlaceZ => showZ (tid_z t)
  | PlaceX => showZ (tid_x t)
  | PlaceY =>
      showZ (match yType u with Tms => 2 ^ tid_z t - 1 - tid_y t | Xyz => tid_y t end)
  | PlaceS => pickSubdomain cfg t
  end.

Definition hasChar (c : ascii) (s : string) : bool :=
  existsb (Ascii.eqb c) (list_ascii_of_string s).

Definition sameToken (a b : Token) : bool :=
  match a, b with
  | PlaceZ, PlaceZ | PlaceX, PlaceX | PlaceY, PlaceY | PlaceS, PlaceS => true
  | _, _ => false
  end.

(** A template is plain when no literal piece contains an opening brace
    and no placeholder occurs twice. *)
Definition plainTemplate (tokens : list Token) : bool :=
  forallb (fun t => match t with Lit text => negb (hasChar "{"%char text) | _ => true end)
          tokens
  && forallb (fun p => (List.length (filter (sameToken p) tokens) <=? 1)%nat)
             [PlaceZ; PlaceX; PlaceY; PlaceS].

(** The values of the placeholders after one of them has been replaced. *)
Definition setValue (values : Token -> string) (p : Token) (text : string)
  : Token -> string :=
  fun q => if sameToken p q then text else values q.

(** The search passes over [a]: no occurrence of the pattern begins in
    it. *)
Definition passes (pattern a : string) : Prop :=
  forall replacement preceding rest,
    replaceFrom pattern replacement preceding (a ++ rest)
    = replaceFrom pattern replacement (preceding ++ a) rest.


(** The layer after one frame with [maxCachedTiles = 16] and a radius of
    2: the cache holds the 25 desired tiles and their 21 fallback
    ancestors. *)
Definition crowdedLayer : Layer :=
  run smallCacheConfig (initialLayer smallCacheConfig)
      [FrameUpdate (viewAt 512 341 2) 1000%Q].

(** An entry of the [lodLevels] option that [normalizeLodLevels] keeps:
    its zoom is an integer from 0 to 22. *)
Definition validLodOption (l : TileLodLevelOption) : bool :=
  isIntegerQ (lo_zoom l) && Qle_bool 0%Q (lo_zoom l) && Qle_bool (lo_zoom l) 22%Q.

(** The level of the table that an entry of the option becomes. *)
Definition lodOfOption (l : TileLodLevelOption) : TileLodLevel :=
  mkLod (Qfloor (lo_zoom l)) (lo_maxTiles l) (lo_marginTiles l)
        (lo_updateThrottleMs l) (lo_zoomThrottleMs l) (lo_immediateTileShift l).

(* ------------------------------------------------------------------ *)
(** *** What is on screen *)

(** A tile as the renderer may see it: its opacity lies between 0 and the
    layer's opacity; its mesh is visible only with an opacity above 0.001;
    a ready tile has its texture; and a tile that is not ready has no
    texture, opacity 0 and a hidden mesh. *)
Definition tileShown (cfg : Config) (t : ActiveTile) : Prop :=
  (0 <= currentOpacity t)%Q /\ (currentOpacity t <= opacity cfg)%Q
  /\ (meshVisible t = true -> (1 # 1000 < currentOpacity t)%Q)
  /\ (state t = Ready -> hasTexture t = true)
  /\ (state t <> Ready ->
      (currentOpacity t == 0)%Q /\ meshVisible t = false /\ hasTexture t = false).

(** Every cached tile is fit to be seen, and every loading tile has its
    request open at the loader. *)
Definition sound (cfg : Config) (L : Layer) : Prop :=
  forall k t, getTile k (tiles L) = Some t ->
    tileShown cfg t /\ (state t = Loading -> In (k, attempts t) (requests L)).

(** Assignments that leave alone what the invariant reads. *)
Definition quiet (f : ActiveTile -> ActiveTile) : Prop :=
  forall t, currentOpacity (f t) = currentOpacity t
            /\ meshVisible (f t) = meshVisible t
            /\ hasTexture (f t) = hasTexture t
            /\ state (f t) = state t
            /\ attempts (f t) = attempts t.


(* ================================================================== *)
(** ** PlanarLodGrid *)

(** The grid of reference lines that the viewer draws under the tiles:
    its constructor, which validates the options, and [pickBaseStep].
    Numbers are rationals and every number of the model is finite: the
    [Number.isFinite] tests of the source are true.  [update] and
    [createLevelLines], which print doubles into the state key and store
    single-precision numbers into a [Float32Array], are not modelled,
    nor are the THREE objects ([_root], [_lines]). *)
Module PlanarLodGrid.

Record PlanarLodGridLevel : Type := mkLevel {
  stepMultiplier : Q;
  halfCells : Q;
  color : Z;
  opacity : Q
}.

Record PlanarLodGridOptions : Type := mkOptions {
  levels : option (list PlanarLodGridLevel);
  baseSteps : option (list Q);
  heightBreakpoints : option (list Q)
}.

Record PlanarLodGridDebugInfo : Type := mkDebugInfo {
  baseStep : Q;
  cameraHeight : Q;
  focusX : Q;
  focusY : Q;
  activeSteps : list Q
}.

Definition DEFAULT_LEVELS : list PlanarLodGridLevel :=
  [ mkLevel 1 10 0x7dd3fc (72 # 100);
    mkLevel 4 10 0x22c55e (6 # 10);
    mkLevel 16 10 0xf59e0b (5 # 10) ].

Definition DEFAULT_BASE_STEPS : list Q := [50; 100; 250; 500; 1000; 2000; 4000]%Q.
Definition DEFAULT_HEIGHT_BREAKPOINTS : list Q := [400; 900; 2000; 4500; 10000; 22000]%Q.

(** The errors that the class throws, with the value that the message
    quotes. *)
Inductive GridError : Type :=
| RequiresLevel                      (* 'PlanarLodGrid requires at least one level.' *)
| RequiresBaseStep                   (* 'PlanarLodGrid requires at least one base step.' *)
| BreakpointsLength                  (* 'heightBreakpoints length must equal baseSteps length - 1.' *)
| InvalidStepMultiplier (v : Q)      (* 'Invalid level.stepMultiplier: ...' *)
| InvalidHalfCells (v : Q)           (* 'Invalid level.halfCells: ...' *)
| InvalidOpacity (v : Q)             (* 'Invalid level.opacity: ...' *)
| InvalidBaseStep (v : Q)            (* 'Invalid base step: ...' *)
| InvalidHeightBreakpoint (v : Q)    (* 'Invalid height breakpoint: ...' *)
| BaseStepsEmpty.                    (* 'PlanarLodGrid base steps are empty.' *)

Record Grid : Type := mkGrid {
  _levels : list PlanarLodGridLevel;
  _baseSteps : list Q;
  _heightBreakpoints : list Q;
  _debugInfo : PlanarLodGridDebugInfo
}.

(** The body of [for (const level of levels)]. *)
Definition checkLevel (level : PlanarLodGridLevel) : option GridError :=
  if Qle_bool (stepMultiplier level) 0 then
    Some (InvalidStepMultiplier (stepMultiplier level))
  else if negb (isIntegerQ (halfCells level)) || Qle_bool (halfCells level) 0 then
    Some (InvalidHalfCells (halfCells level))
  else if Qltb (opacity level) 0 || Qltb 1 (opacity level) then
    Some (InvalidOpacity (opacity level))
  else None.

Definition checkBaseStep (step : Q) : option GridError :=
  if Qle_bool step 0 then Some (InvalidBaseStep step) else None.

Definition checkBreakpoint (value : Q) : option GridError :=
  if Qltb value 0 then Some (InvalidHeightBreakpoint value) else None.

(** A validation loop: the first element that fails throws. *)
Fixpoint firstError {A : Type} (check : A -> option GridError) (l : list A)
  : option GridError :=
  match l with
  | [] => None
  | x :: rest =>
      match check x with
      | Some e => Some e
      | None => firstError check rest
      end
  end.

Definition constructor (options : option PlanarLodGridOptions) : GridError + Grid :=
  let levels := orElse (match options with Some o => levels o | None => None end)
                       DEFAULT_LEVELS in
  let baseSteps := orElse (match options with Some o => baseSteps o | None => None end)
                          DEFAULT_BASE_STEPS in
  let heightBreakpoints :=
    orElse (match options with Some o => heightBreakpoints o | None => None end)
           DEFAULT_HEIGHT_BREAKPOINTS in
  if (List.length levels =? 0)%nat then inl RequiresLevel
  else if (List.length baseSteps =? 0)%nat then inl RequiresBaseStep
  else if negb (Z.of_nat (List.length heightBreakpoints)
                =? Z.of_nat (List.length baseSteps) - 1) then inl BreakpointsLength
  else
    match firstError checkLevel levels with
    | Some e => inl e
    | None =>
        match firstError checkBaseStep baseSteps with
        | Some e => inl e
        | None =>
            match firstError checkBreakpoint heightBreakpoints with
            | Some e => inl e
            | None =>
                inr (mkGrid levels baseSteps heightBreakpoints
                            (mkDebugInfo (nth 0 DEFAULT_BASE_STEPS 50%Q) 0 0 0 []))
            end
        end
    end.

(** The loop of [pickBaseStep] over the indices that are left. *)
Fixpoint pickBaseStepFrom (g : Grid) (cameraHeight : Q) (indices : list nat) : option Q :=
  match indices with
  | [] => None
  | i :: rest =>
      match nth_error (_heightBreakpoints g) i, nth_error (_baseSteps g) i with
      | Some breakpoint, Some step =>
          if Qltb cameraHeight breakpoint then Some step
          else pickBaseStepFrom g cameraHeight rest
      | _, _ => pickBaseStepFrom g cameraHeight rest
      end
  end.

Definition pickBaseStep (g : Grid) (cameraHeight : Q) : GridError + Q :=
  match pickBaseStepFrom g cameraHeight (seq 0 (List.length (_heightBreakpoints g))) with
  | Some step => inr step
  | None =>
      match nth_error (_baseSteps g) (List.length (_baseSteps g) - 1) with
      | Some fallback => inr fallback
      | None => inl BaseStepsEmpty
      end
  end.

(** The options that the constructor accepts, in the words of its
    tests. *)
Definition validLevel (l : PlanarLodGridLevel) : Prop :=
  (0 < stepMultiplier l)%Q
  /\ (exists n : Z, 0 < n /\ (halfCells l == inject_Z n)%Q)
  /\ (0 <= opacity l)%Q /\ (opacity l <= 1)%Q.

Definition validGrid (ls : list PlanarLodGridLevel) (bs hs : list Q) : Prop :=
  ls <> [] /\ bs <> []
  /\ S (List.length hs) = List.length bs
  /\ Forall validLevel ls
  /\ Forall (fun s => (0 < s)%Q) bs
  /\ Forall (fun h => (0 <= h)%Q) hs.

End PlanarLodGrid.

(** The loop of [pickBaseStep] read on the two arrays side by side. *)
Fixpoint pickAlong (cameraHeight : Q) (hs bs : list Q) : option Q :=
  match hs, bs with
  | breakpoint :: hs', step :: bs' =>
      if Qltb cameraHeight breakpoint then Some step else pickAlong cameraHeight hs' bs'
  | _, _ => None
  end.

(** The step that [pickBaseStep] answers when there is a base step. *)
Definition pickedStep (g : PlanarLodGrid.Grid) (h : Q) : Q :=
  match pickAlong h (PlanarLodGrid._heightBreakpoints g) (PlanarLodGrid._baseSteps g) with
  | Some s => s
  | None => last (PlanarLodGrid._baseSteps g) 0%Q
  end.

(* ================================================================== *)
(** ** Lemmas about the tile map and the key sets *)

Lemma eqb_sym_str (a b : string) : String.eqb a b = String.eqb b a.
Proof.
  destruct (String.eqb_spec a b) as [->|Hne].
  - now rewrite String.eqb_refl.
  - destruct (String.eqb_spec b a) as [->|_]; [now elim Hne | reflexivity].
Qed.

Lemma memStr_In (k : string) (s : list string) : memStr k s = true <-> In k s.
Proof.
  unfold memStr. rewrite existsb_exists. split.
  - intros [x [Hin Heq]]. apply String.eqb_eq in Heq. now subst.
  - intro H. exists k. split; [assumption | apply String.eqb_refl].
Qed.

Lemma memStr_false (k : string) (s : list string) : memStr k s = false <-> ~ In k s.
Proof.
  rewrite <- memStr_In. destruct (memStr k s); split; congruence.
Qed.

Lemma In_setAdd (k x : string) (s : list string) :
  In x (setAdd k s) <-> x = k \/ In x s.
Proof.
  unfold setAdd. destruct (memStr k s) eqn:E.
  - apply memStr_In in E. split; [now right | intros [->|H]; assumption].
  - rewrite in_app_iff. simpl. intuition.
Qed.

Lemma In_setDelete (k x : string) (s : list string) :
  In x (setDelete k s) <-> x <> k /\ In x s.
Proof.
  unfold setDelete. rewrite filter_In. split.
  - intros [Hin Hne]. split; [|assumption].
    intros ->. now rewrite String.eqb_refl in Hne.
  - intros [Hne Hin]. split; [assumption|].
    destruct (String.eqb_spec k x) as [->|_]; [now elim Hne | reflexivity].
Qed.

Lemma getTile_In (k : string) (t : ActiveTile) (m : TileMap) :
  getTile k m = Some t -> In (k, t) m.
Proof.
  induction m as [|[k' t'] m IH]; simpl; [discriminate|].
  destruct (String.eqb_spec k k') as [->|Hne].
  - intros [= ->]. now left.
  - intro H. right. auto.
Qed.

Lemma getTile_None (k : string) (m : TileMap) :
  getTile k m = None <-> ~ In k (map fst m).
Proof.
  induction m as [|[k' t'] m IH]; simpl.
  - tauto.
  - destruct (String.eqb_spec k k') as [->|Hne].
    + split; [discriminate | intro H; elim H; now left].
    + rewrite IH. split; intro H; [intros [E|E]; [now elim Hne | auto] | auto].
Qed.

Lemma In_getTile (k : string) (t : ActiveTile) (m : TileMap) :
  NoDup (map fst m) -> In (k, t) m -> getTile k m = Some t.
Proof.
  induction m as [|[k' t'] m IH]; simpl; [tauto|].
  intros Hnd [H|H].
  - injection H as -> ->. now rewrite String.eqb_refl.
  - inversion Hnd as [|? ? Hnotin Hnd']; subst.
    destruct (String.eqb_spec k k') as [->|Hne].
    + elim Hnotin. now apply (in_map fst) in H.
    + auto.
Qed.

Lemma getTile_mutTile (k k' : string) (f : ActiveTile -> ActiveTile) (m : TileMap) :
  getTile k' (mutTile k f m)
  = if String.eqb k k' then option_map f (getTile k' m) else getTile k' m.
Proof.
  induction m as [|[k0 t0] m IH]; simpl.
  - now destruct (String.eqb k k').
  - destruct (String.eqb_spec k k0) as [->|Hne]; simpl.
    + destruct (String.eqb_spec k' k0) as [->|Hne'].
      * now rewrite String.eqb_refl.
      * rewrite IH. reflexivity.
    + destruct (String.eqb_spec k' k0) as [->|Hne'].
      * destruct (String.eqb_spec k k0) as [->|_]; [now elim Hne | reflexivity].
      * apply IH.
Qed.

Lemma getTile_mutTile_same (k : string) (f : ActiveTile -> ActiveTile) (m : TileMap) :
  getTile k (mutTile k f m) = option_map f (getTile k m).
Proof. rewrite getTile_mutTile. now rewrite String.eqb_refl. Qed.

Lemma getTile_mutTile_other (k k' : string) (f : ActiveTile -> ActiveTile) (m : TileMap) :
  k <> k' -> getTile k' (mutTile k f m) = getTile k' m.
Proof.
  intro H. rewrite getTile_mutTile.
  destruct (String.eqb_spec k k'); [contradiction | reflexivity].
Qed.

Lemma getTile_deleteTile (k k' : string) (m : TileMap) :
  getTile k' (deleteTile k m) = if String.eqb k k' then None else getTile k' m.
Proof.
  induction m as [|[k0 t0] m IH]; simpl.
  - now destruct (String.eqb k k').
  - destruct (String.eqb_spec k k0) as [->|Hne]; simpl.
    + rewrite IH. destruct (String.eqb_spec k0 k') as [->|Hne'].
      * reflexivity.
      * destruct (String.eqb_spec k' k0) as [->|_]; [now elim Hne' | reflexivity].
    + destruct (String.eqb_spec k' k0) as [->|Hne'].
      * destruct (String.eqb_spec k k0) as [->|_]; [now elim Hne | reflexivity].
      * apply IH.
Qed.

Lemma getTile_addTile (k k' : string) (t : ActiveTile) (m : TileMap) :
  getTile k' (addTile k t m)
  = match getTile k' m with
    | Some x => Some x
    | None => if String.eqb k' k then Some t else None
    end.
Proof.
  unfold addTile. induction m as [|[k0 t0] m IH]; simpl.
  - reflexivity.
  - destruct (String.eqb k' k0); [reflexivity | apply IH].
Qed.

(** Rewriting every tile object while keeping the entries' keys. *)
Lemma getTile_mapTiles (g : string * ActiveTile -> ActiveTile) (k : string) (m : TileMap) :
  getTile k (map (fun e => (fst e, g e)) m)
  = option_map (fun t => g (k, t)) (getTile k m).
Proof.
  induction m as [|[k0 t0] m IH]; simpl; [reflexivity|].
  destruct (String.eqb_spec k k0) as [->|Hne]; [reflexivity | apply IH].
Qed.

Lemma map_fst_mutTile (k : string) (f : ActiveTile -> ActiveTile) (m : TileMap) :
  map fst (mutTile k f m) = map fst m.
Proof.
  unfold mutTile. rewrite map_map. apply map_ext.
  intros [k0 t0]. simpl. now destruct (String.eqb k k0).
Qed.

Lemma length_mutTile (k : string) (f : ActiveTile -> ActiveTile) (m : TileMap) :
  List.length (mutTile k f m) = List.length m.
Proof. unfold mutTile. apply length_map. Qed.

Lemma NoDup_deleteTile (k : string) (m : TileMap) :
  NoDup (map fst m) -> NoDup (map fst (deleteTile k m)).
Proof.
  unfold deleteTile. induction m as [|[k0 t0] m IH]; simpl; [auto|].
  intro H. inversion H as [|? ? Hnotin Hnd]; subst.
  destruct (String.eqb k k0); simpl; [auto|].
  constructor; [|auto].
  intro Hin. apply Hnotin. apply in_map_iff in Hin.
  destruct Hin as [[k1 t1] [Hk Hin]]. apply filter_In in Hin.
  simpl in Hk. subst. apply in_map_iff. exists (k0, t1). tauto.
Qed.

Lemma NoDup_addTile (k : string) (t : ActiveTile) (m : TileMap) :
  getTile k m = None -> NoDup (map fst m) -> NoDup (map fst (addTile k t m)).
Proof.
  intros Hnone Hnd. unfold addTile. rewrite map_app. simpl.
  apply getTile_None in Hnone.
  apply NoDup_app; [assumption | repeat constructor; simpl; tauto |].
  intros x Hx [<-|[]]. contradiction.
Qed.

(* ================================================================== *)
(** ** Construction *)

Lemma Qmax_lower (a b : Q) : (a <= Qmax a b)%Q.
Proof.
  unfold Qmax. destruct (Qle_bool a b) eqn:E.
  - now apply Qle_bool_iff.
  - apply Qle_refl.
Qed.

Lemma Qmax_upper (a b c : Q) : (a <= c)%Q -> (b <= c)%Q -> (Qmax a b <= c)%Q.
Proof. unfold Qmax. now destruct (Qle_bool a b). Qed.

Lemma Qmin_upper (a b : Q) : (Qmin a b <= a)%Q.
Proof.
  unfold Qmin. destruct (Qle_bool a b) eqn:E.
  - apply Qle_refl.
  - destruct (Qlt_le_dec b a) as [H|H].
    + now apply Qlt_le_weak.
    + apply Qle_bool_iff in H. congruence.
Qed.

Lemma clampNumber_bounds (v lo hi : Q) :
  (lo <= hi)%Q -> (lo <= clampNumber v lo hi)%Q /\ (clampNumber v lo hi <= hi)%Q.
Proof.
  intro H. unfold clampNumber. split.
  - apply Qmax_lower.
  - apply Qmax_upper; [assumption | apply Qmin_upper].
Qed.

Lemma zrange_cons (lo hi : Z) :
  lo <= hi -> zrange lo hi = lo :: zrange (lo + 1) hi.
Proof.
  intro H. unfold zrange.
  replace (Z.to_nat (hi - lo + 1)) with (S (Z.to_nat (hi - (lo + 1) + 1))) by lia.
  cbn [seq map]. f_equal; [lia|].
  rewrite <- seq_shift, map_map. apply map_ext. intro i. lia.
Qed.


Lemma showZ_nonempty (z : Z) : showZ z <> EmptyString.
Proof.
  unfold showZ, NilZero.string_of_int, NilZero.string_of_uint.
  destruct (Z.to_int z) as [d|d]; [destruct d|]; discriminate.
Qed.





(** The turns of [fuel] are never used up: more fuel changes nothing. *)
Lemma rangeLoop_fuel (fuel : nat) :
  forall (k : nat) (i end_ count : Z) (out : list string),
    end_ - i + 1 <= Z.of_nat fuel ->
    rangeLoop (fuel + k) i end_ count out = rangeLoop fuel i end_ count out.
Proof.
  induction fuel as [|fuel IH]; intros k i e c out Hf.
  - assert (E : (e <? i) = true) by (apply Z.ltb_lt; lia).
    destruct k; cbn [Nat.add rangeLoop]; now rewrite E.
  - cbn [Nat.add rangeLoop]. destruct (e <? i); [reflexivity|].
    destruct (MAX_ARRAY_LENGTH <=? c); [reflexivity|].
    destruct (doubleOfZ (i + 1)) as [i'|]; [|reflexivity].
    destruct (i' <=? i) eqn:E; [reflexivity|]. apply Z.leb_gt in E.
    apply IH. lia.
Qed.

Lemma rangeLoop_entries (fuel : nat) :
  forall (i end_ count : Z) (out l : list string),
    rangeLoop fuel i end_ count out = Normal l ->
    (Forall (fun x => nonEmptyStr x = true) out ->
     Forall (fun x => nonEmptyStr x = true) l)
    /\ (out <> [] \/ i <= end_ -> l <> []).
Proof.
  assert (Hshow : forall z, nonEmptyStr (showZ z) = true).
  { intro z. pose proof (showZ_nonempty z). destruct (showZ z); [congruence | reflexivity]. }
  assert (Hpush : forall (out : list string) z,
             Forall (fun x => nonEmptyStr x = true) out ->
             Forall (fun x => nonEmptyStr x = true) (out ++ [showZ z])).
  { intros out z H. apply Forall_app. split; [exact H|]. constructor; [apply Hshow | constructor]. }
  assert (Hne : forall (out : list string) z, out ++ [showZ z] <> [])
    by (intros out z; destruct out; discriminate).
  induction fuel as [|fuel IH]; intros i e c out l H; cbn [rangeLoop] in H;
    destruct (e <? i) eqn:E;
    try (injection H as <-; apply Z.ltb_lt in E; split; [tauto | intros [K|K]; [exact K | lia]]);
    (destruct (MAX_ARRAY_LENGTH <=? c); [discriminate|]);
    (destruct (doubleOfZ (i + 1)) as [i'|];
     [|injection H as <-; split; [apply Hpush | intros _; apply Hne]]);
    (destruct (i' <=? i); [discriminate|]).
  - discriminate.
  - destruct (IH _ _ _ _ _ H) as [A B]. split.
    + intro K. apply A. now apply Hpush.
    + intros _. apply B. left. apply Hne.
Qed.

Lemma bySplit_nonempty (trimmed : string) :
  nonEmptyStr trimmed = true ->
  let split := filter nonEmptyStr (map trim (splitComma trimmed EmptyString)) in
  let bySplit :=
    match split with
    | _ :: _ => split
    | [] => if (1 <? String.length trimmed)%nat then chars trimmed else [trimmed]
    end in
  bySplit <> [].
Proof.
  intros Hne split bySplit. unfold bySplit, split.
  destruct (filter nonEmptyStr (map trim (splitComma trimmed EmptyString))); [|discriminate].
  destruct trimmed as [|c r]; simpl in *; [discriminate|].
  destruct (1 <? S (String.length r))%nat; discriminate.
Qed.

Lemma defaultOr_nonempty (out : list string) :
  match out with [] => DEFAULT_SUBDOMAINS | _ => out end <> [].
Proof. destruct out; discriminate. Qed.

Lemma normalizeSubdomains_returns_nonempty (input : option SubdomainsInput)
      (l : list string) :
  normalizeSubdomains input = Normal l -> l <> [].
Proof.
  unfold normalizeSubdomains.
  destruct input as [[items|s]|].
  - intros [= <-]. apply defaultOr_nonempty.
  - destruct (nonEmptyStr (trim s)) eqn:Hne; cbn [negb];
      [|intros [= <-]; discriminate].
    pose proof (bySplit_nonempty (trim s) Hne) as Hsplit. cbv zeta in Hsplit.
    destruct (rangeMatch (trim s)) as [[g1 g2]|]; [|intros [= <-]; exact Hsplit].
    destruct (doubleOfZ (numberOfDigits g1 0)) as [start|];
      [|intros [= <-]; exact Hsplit].
    destruct (doubleOfZ (numberOfDigits g2 0)) as [end_|];
      [|intros [= <-]; exact Hsplit].
    destruct (start <=? end_); [|intros [= <-]; exact Hsplit].
    destruct (rangeLoop _ start end_ 0 []); [|discriminate|discriminate].
    intros [= <-]. apply defaultOr_nonempty.
  - intros [= <-]. discriminate.
Qed.

Lemma normalizeSubdomains_nonempty (input : option SubdomainsInput) :
  valueOr (normalizeSubdomains input) DEFAULT_SUBDOMAINS <> [].
Proof.
  destruct (normalizeSubdomains input) as [l| |] eqn:E; cbn [valueOr];
    [|discriminate|discriminate].
  exact (normalizeSubdomains_returns_nonempty input l E).
Qed.


(** A range whose bounds are doubles at 2^53: the counter never leaves
    2^53 and the call does not return. *)
Lemma normalizeSubdomains_stuck_counter :
  normalizeSubdomains (Some (SubString "9007199254740992-9007199254740993")) = Exhausts.
Proof. vm_compute. reflexivity. Qed.

Lemma newPlanarMapTileLayer_returned (g : GeoCoordinator) (o : PlanarMapTileLayerOptions)
      (cfg : Config) (L : Layer) :
  newPlanarMapTileLayer g o = Normal (cfg, L) ->
  cfg = constructorConfig g o /\ L = initialLayer cfg.
Proof.
  unfold newPlanarMapTileLayer.
  destruct (normalizeSubdomains (o_subdomains o)); [|discriminate|discriminate].
  intros [= <- <-]. split; reflexivity.
Qed.




(* ================================================================== *)
(** ** The disabled layer *)

(** C10: a layer constructed with [enabled = false] ignores [update]: the
    call returns the layer as it was, so the frame counter, the tile cache,
    the queue, the loader's requests and the telemetry snapshot all stay
    what they were. *)
Theorem C10_disabled_update_is_noop
        (g : GeoCoordinator) (o : PlanarMapTileLayerOptions)
        (cfg : Config) (L0 : Layer) :
  o_enabled o = Some false ->
  newPlanarMapTileLayer g o = Normal (cfg, L0) ->
  forall (L : Layer) (focusX focusY cameraHeight : Q) (viewRadiusWorld : option Q)
         (viewportBounds : option ViewportWorldBounds) (now : Q),
    let L' := update cfg focusX focusY cameraHeight viewRadiusWorld viewportBounds now L in
    L' = L
    /\ frame L' = frame L
    /\ tiles L' = tiles L
    /\ loadQueue L' = loadQueue L
    /\ requests L' = requests L
    /\ getDebugInfo L' = getDebugInfo L.
Proof.
  intros Hen Hnew L fx fy h vr vb now.
  apply newPlanarMapTileLayer_returned in Hnew. destruct Hnew as [Hcfg _].
  assert (E : enabled cfg = false).
  { subst cfg. unfold constructorConfig; simpl. now rewrite Hen. }
  assert (HL : update cfg fx fy h vr vb now L = L).
  { unfold update, updateView. now rewrite E. }
  simpl. rewrite HL. repeat split; reflexivity.
Qed.

Lemma C10_disabled_update_is_noop_witness :
  let cfg := constructorConfig exampleGeo disabledOptions in
  let L := initialLayer cfg in
  o_enabled disabledOptions = Some false
  /\ newPlanarMapTileLayer exampleGeo disabledOptions = Normal (cfg, L)
  /\ update cfg 3%Q 4%Q 1000%Q None None 16%Q L = L.
Proof.
  split; [reflexivity|]. split; [reflexivity|].
  apply (C10_disabled_update_is_noop exampleGeo disabledOptions _ _ eq_refl eq_refl).
Defined.

(* ================================================================== *)
(** ** Which fields the methods leave alone *)

Lemma fold_left_invariant {A B : Type} (P : A -> Prop) (f : A -> B -> A) (l : list B) :
  (forall a b, P a -> P (f a b)) -> forall a, P a -> P (fold_left f l a).
Proof.
  intro Hf. induction l as [|b l IH]; simpl; auto.
Qed.

Section FrameLemmas.

Variable cfg : Config.

Ltac crush_fields :=
  repeat match goal with
         | |- context [match ?x with _ => _ end] => destruct x
         end; reflexivity.

Lemma enqueueTileLoad_view k L : viewFields (enqueueTileLoad k L) = viewFields L.
Proof. unfold enqueueTileLoad. crush_fields. Qed.

Lemma enqueueTileLoad_slots k L : slotFields (enqueueTileLoad k L) = slotFields L.
Proof. unfold enqueueTileLoad. crush_fields. Qed.

Lemma enqueueIfIdleOrRetryable_view k L :
  viewFields (enqueueIfIdleOrRetryable cfg k L) = viewFields L.
Proof.
  unfold enqueueIfIdleOrRetryable.
  destruct (getTile k (tiles L)) as [t|]; [|reflexivity].
  destruct (state t); try reflexivity.
  - apply enqueueTileLoad_view.
  - destruct (attempts t <=? retryLimit cfg); [apply enqueueTileLoad_view | reflexivity].
Qed.

Lemma enqueueIfIdleOrRetryable_slots k L :
  slotFields (enqueueIfIdleOrRetryable cfg k L) = slotFields L.
Proof.
  unfold enqueueIfIdleOrRetryable.
  destruct (getTile k (tiles L)) as [t|]; [|reflexivity].
  destruct (state t); try reflexivity.
  - apply enqueueTileLoad_slots.
  - destruct (attempts t <=? retryLimit cfg); [apply enqueueTileLoad_slots | reflexivity].
Qed.

Lemma wantTile_view now L d : viewFields (wantTile cfg now L d) = viewFields L.
Proof.
  unfold wantTile. rewrite enqueueIfIdleOrRetryable_view.
  destruct (getTile (d_key d) (tiles L)); reflexivity.
Qed.

Lemma wantTile_slots now L d : slotFields (wantTile cfg now L d) = slotFields L.
Proof.
  unfold wantTile. rewrite enqueueIfIdleOrRetryable_slots.
  destruct (getTile (d_key d) (tiles L)); reflexivity.
Qed.

Lemma disposeTile_view k L : viewFields (disposeTile k L) = viewFields L.
Proof. reflexivity. Qed.

Lemma disposeTile_slots k L : slotFields (disposeTile k L) = slotFields L.
Proof. reflexivity. Qed.

Lemma evictTiles_view wanted L : viewFields (evictTiles cfg wanted L) = viewFields L.
Proof.
  unfold evictTiles.
  set (stale := map fst _).
  set (L1 := fold_left _ stale L).
  assert (H1 : viewFields L1 = viewFields L).
  { unfold L1. apply (fold_left_invariant (fun a => viewFields a = viewFields L)); [|reflexivity].
    intros a b Ha. destruct (getTile b (tiles a)); [|assumption].
    now rewrite disposeTile_view. }
  destruct (tileCount L1 <=? maxCachedTiles cfg); [assumption|].
  apply (fold_left_invariant (fun a => viewFields a = viewFields L)); [|assumption].
  intros a b Ha. destruct (tileCount a <=? maxCachedTiles cfg); [assumption|].
  now rewrite disposeTile_view.
Qed.

Lemma evictTiles_slots wanted L : slotFields (evictTiles cfg wanted L) = slotFields L.
Proof.
  unfold evictTiles.
  set (stale := map fst _).
  set (L1 := fold_left _ stale L).
  assert (H1 : slotFields L1 = slotFields L).
  { unfold L1. apply (fold_left_invariant (fun a => slotFields a = slotFields L)); [|reflexivity].
    intros a b Ha. destruct (getTile b (tiles a)); [|assumption].
    now rewrite disposeTile_slots. }
  destruct (tileCount L1 <=? maxCachedTiles cfg); [assumption|].
  apply (fold_left_invariant (fun a => slotFields a = slotFields L)); [|assumption].
  intros a b Ha. destruct (tileCount a <=? maxCachedTiles cfg); [assumption|].
  now rewrite disposeTile_slots.
Qed.

Lemma applyViewState_slots vs now L :
  slotFields (applyViewState cfg vs now L) = slotFields L.
Proof.
  unfold applyViewState. rewrite evictTiles_slots.
  match goal with
  | |- slotFields (setStateKey _ (setTiles _ ?X)) = _ =>
      change (slotFields X = slotFields L)
  end.
  apply (fold_left_invariant (fun a => slotFields a = slotFields L)); [|reflexivity].
  intros a b Ha. now rewrite wantTile_slots.
Qed.

(** [applyViewState] installs the state key, the desired tiles and their
    number; of the other fields of the throttle it writes none. *)
Lemma applyViewState_fields vs now L :
  let L' := applyViewState cfg vs now L in
  stateKey L' = vs_stateKey vs
  /\ frame L' = frame L
  /\ pendingViewState L' = pendingViewState L
  /\ appliedViewState L' = appliedViewState L
  /\ lastLayoutUpdateMs L' = lastLayoutUpdateMs L
  /\ debugInfo L' = debugInfo L
  /\ activeDesiredTiles L'
     = collectDesiredTiles cfg (vs_centerX vs, vs_centerY vs) (vs_zoom vs)
                           (vs_tileRadius vs) (vs_viewportBounds vs).
Proof.
  simpl. unfold applyViewState.
  set (desired := collectDesiredTiles _ _ _ _ _).
  set (L1 := setActiveDesiredTiles _ _).
  set (L2 := fold_left _ desired L1).
  assert (H2 : viewFields L2 = viewFields L1).
  { unfold L2. apply (fold_left_invariant (fun a => viewFields a = viewFields L1));
      [|reflexivity].
    intros a b Ha. now rewrite wantTile_view. }
  match goal with
  | |- context [evictTiles cfg ?w ?X] =>
      pose proof (evictTiles_view w X) as Hev; set (L4 := evictTiles cfg w X) in *
  end.
  unfold viewFields in Hev, H2. simpl in Hev, H2.
  injection Hev as E1 E2 E3 E4 E5 E6 E7 E8.
  injection H2 as F1 F2 F3 F4 F5 F6 F7 F8.
  repeat split; congruence.
Qed.

Lemma findReadyAncestorLoop_view fuel : forall x y z now touched L,
  viewFields (snd (findReadyAncestorLoop cfg fuel x y z now touched L)) = viewFields L.
Proof.
  induction fuel as [|f IH]; intros x y z now touched L; simpl; [reflexivity|].
  destruct (minZoom cfg <? z); [|reflexivity].
  set (k := tileKey _).
  set (L1 := match getTile k (tiles L) with Some _ => L | None => _ end).
  assert (H1 : viewFields L1 = viewFields L).
  { unfold L1. destruct (getTile k (tiles L)); reflexivity. }
  destruct (memStr k touched).
  - destruct (getTile k (tiles L1)) as [p|].
    + destruct (state p); try (rewrite IH; exact H1). exact H1.
    + rewrite IH. exact H1.
  - set (L2 := enqueueIfIdleOrRetryable cfg k _).
    assert (H2 : viewFields L2 = viewFields L).
    { unfold L2. rewrite enqueueIfIdleOrRetryable_view. exact H1. }
    destruct (getTile k (tiles L2)) as [p|].
    + destruct (state p); try (rewrite IH; exact H2). exact H2.
    + rewrite IH. exact H2.
Qed.

Lemma findReadyAncestorLoop_slots fuel : forall x y z now touched L,
  slotFields (snd (findReadyAncestorLoop cfg fuel x y z now touched L)) = slotFields L.
Proof.
  induction fuel as [|f IH]; intros x y z now touched L; simpl; [reflexivity|].
  destruct (minZoom cfg <? z); [|reflexivity].
  set (k := tileKey _).
  set (L1 := match getTile k (tiles L) with Some _ => L | None => _ end).
  assert (H1 : slotFields L1 = slotFields L).
  { unfold L1. destruct (getTile k (tiles L)); reflexivity. }
  destruct (memStr k touched).
  - destruct (getTile k (tiles L1)) as [p|].
    + destruct (state p); try (rewrite IH; exact H1). exact H1.
    + rewrite IH. exact H1.
  - set (L2 := enqueueIfIdleOrRetryable cfg k _).
    assert (H2 : slotFields L2 = slotFields L).
    { unfold L2. rewrite enqueueIfIdleOrRetryable_slots. exact H1. }
    destruct (getTile k (tiles L2)) as [p|].
    + destruct (state p); try (rewrite IH; exact H2). exact H2.
    + rewrite IH. exact H2.
Qed.

Lemma visitDesired_view now acc d :
  viewFields (snd (visitDesired cfg now acc d)) = viewFields (snd acc).
Proof.
  destruct acc as [[vis touched] L]. unfold visitDesired. simpl.
  destruct (getTile (d_key d) (tiles L)) as [cur|]; [|reflexivity].
  pose proof (findReadyAncestorLoop_view (Z.to_nat (maxParentSearchDepth cfg))
                (tid_x (d_tileId d)) (tid_y (d_tileId d)) (tid_z (d_tileId d))
                now touched L) as Hf.
  unfold findReadyAncestor.
  destruct (findReadyAncestorLoop cfg _ _ _ _ now touched L) as [[fb touched'] L'].
  simpl in Hf.
  destruct (state cur); try reflexivity;
    (destruct fb as [fk|]; [destruct (getTile fk (tiles L')) | ]; simpl; exact Hf).
Qed.

Lemma visitDesired_slots now acc d :
  slotFields (snd (visitDesired cfg now acc d)) = slotFields (snd acc).
Proof.
  destruct acc as [[vis touched] L]. unfold visitDesired. simpl.
  destruct (getTile (d_key d) (tiles L)) as [cur|]; [|reflexivity].
  pose proof (findReadyAncestorLoop_slots (Z.to_nat (maxParentSearchDepth cfg))
                (tid_x (d_tileId d)) (tid_y (d_tileId d)) (tid_z (d_tileId d))
                now touched L) as Hf.
  unfold findReadyAncestor.
  destruct (findReadyAncestorLoop cfg _ _ _ _ now touched L) as [[fb touched'] L'].
  simpl in Hf.
  destruct (state cur); try reflexivity;
    (destruct fb as [fk|]; [destruct (getTile fk (tiles L')) | ]; simpl; exact Hf).
Qed.

Lemma updateProgressiveVisibility_view now L :
  viewFields (updateProgressiveVisibility cfg now L) = viewFields L.
Proof.
  unfold updateProgressiveVisibility.
  pose proof (fold_left_invariant
                (fun a => viewFields (snd a) = viewFields L)
                (visitDesired cfg now) (activeDesiredTiles L)) as H.
  specialize (H (fun a b Ha => eq_trans (visitDesired_view now a b) Ha)
                ([], [], L) eq_refl).
  destruct (fold_left _ _ _) as [[vis touched] L1]. exact H.
Qed.

Lemma updateProgressiveVisibility_slots now L :
  slotFields (updateProgressiveVisibility cfg now L) = slotFields L.
Proof.
  unfold updateProgressiveVisibility.
  pose proof (fold_left_invariant
                (fun a => slotFields (snd a) = slotFields L)
                (visitDesired cfg now) (activeDesiredTiles L)) as H.
  specialize (H (fun a b Ha => eq_trans (visitDesired_slots now a b) Ha)
                ([], [], L) eq_refl).
  destruct (fold_left _ _ _) as [[vis touched] L1]. exact H.
Qed.

Lemma drainIteration_view L :
  viewFields (fst (drainIteration cfg L)) = viewFields L.
Proof.
  unfold drainIteration.
  destruct (_ && _); [|reflexivity].
  destruct (nth_error _ _) as [k|]; [|reflexivity].
  destruct k as [|c r]; [reflexivity|].
  simpl. destruct (getTile _ _) as [t|]; [|reflexivity].
  destruct (state t); reflexivity.
Qed.

Lemma processLoadQueueLoop_view fuel : forall L,
  viewFields (processLoadQueueLoop cfg fuel L) = viewFields L.
Proof.
  induction fuel as [|f IH]; intro L; simpl; [reflexivity|].
  pose proof (drainIteration_view L) as H.
  destruct (drainIteration cfg L) as [L' again]. simpl in H.
  destruct again; [rewrite IH|]; exact H.
Qed.

Lemma processLoadQueue_view L : viewFields (processLoadQueue cfg L) = viewFields L.
Proof. apply processLoadQueueLoop_view. Qed.

End FrameLemmas.

(* ================================================================== *)
(** ** The concurrency cap *)

Lemma length_removeRequest (r : Request) (l : list Request) :
  existsb (requestEqb r) l = true ->
  S (List.length (removeRequest r l)) = List.length l.
Proof.
  induction l as [|x l IH]; simpl; [discriminate|].
  destruct (requestEqb r x); simpl; [reflexivity|].
  intro H. now rewrite IH.
Qed.

Section Slots.

Variable cfg : Config.

(** One turn of the drain loop either leaves the loads in flight alone or
    starts exactly one, and it starts one only below the cap. *)
Lemma drainIteration_dispatch L :
  let L' := fst (drainIteration cfg L) in
  slotFields L' = slotFields L
  \/ (inflightCount L < maxConcurrentRequests cfg
      /\ inflightCount L' = inflightCount L + 1
      /\ exists r, requests L' = requests L ++ [r]).
Proof.
  simpl. unfold drainIteration.
  destruct (inflightCount L <? maxConcurrentRequests cfg) eqn:Hlt; simpl;
    [|now left].
  apply Z.ltb_lt in Hlt.
  destruct (negb _); [|now left].
  destruct (nth_error _ _) as [k|]; [|now left].
  destruct k as [|c r]; [now left|].
  simpl. destruct (getTile _ _) as [t|]; [|now left].
  destruct (state t); try (now left).
  right. simpl. split; [assumption|]. split; [reflexivity|]. eexists. reflexivity.
Qed.

Lemma drainIteration_slotsConsistent L :
  slotsConsistent cfg L -> slotsConsistent cfg (fst (drainIteration cfg L)).
Proof.
  intros [Hlen Hle]. unfold slotsConsistent.
  destruct (drainIteration_dispatch L) as [H|[Hlt [Hinc [r Hr]]]].
  - unfold slotFields in H. injection H as H1 H2. rewrite H1, H2. auto.
  - rewrite Hinc, Hr, length_app. simpl. lia.
Qed.

Lemma processLoadQueueLoop_slotsConsistent fuel : forall L,
  slotsConsistent cfg L -> slotsConsistent cfg (processLoadQueueLoop cfg fuel L).
Proof.
  induction fuel as [|f IH]; intros L H; simpl; [assumption|].
  pose proof (drainIteration_slotsConsistent L H) as H'.
  destruct (drainIteration cfg L) as [L' again]. simpl in H'.
  destruct again; auto.
Qed.

Lemma slotsConsistent_ext L L' :
  slotFields L' = slotFields L -> slotsConsistent cfg L -> slotsConsistent cfg L'.
Proof.
  unfold slotFields, slotsConsistent. intros [= H1 H2]. now rewrite H1, H2.
Qed.

Lemma updateView_slotsConsistent next now L :
  slotsConsistent cfg L -> slotsConsistent cfg (updateView cfg next now L).
Proof.
  intro H. unfold updateView. destruct (negb (enabled cfg)); [assumption|].
  unfold updateFrame.
  set (L0 := setFrame _ L).
  set (L1 := setPendingViewState _ L0).
  set (L2 := match appliedBy cfg L0 next now with Some _ => _ | None => L1 end).
  assert (H2 : slotsConsistent cfg L2).
  { apply (slotsConsistent_ext L); [|assumption].
    unfold L2. destruct (appliedBy cfg L0 next now) as [a|]; [|reflexivity].
    change (slotFields (applyViewState cfg a now L1) = slotFields L).
    now rewrite applyViewState_slots. }
  set (L3 := updateProgressiveVisibility cfg now (processLoadQueue cfg L2)).
  assert (H3 : slotsConsistent cfg L3).
  { apply (slotsConsistent_ext (processLoadQueue cfg L2)).
    - apply updateProgressiveVisibility_slots.
    - now apply processLoadQueueLoop_slotsConsistent. }
  destruct (appliedViewState L3);
    (eapply slotsConsistent_ext; [|exact H3]); reflexivity.
Qed.

Lemma failTile_slots k L : slotFields (failTile cfg k L) = slotFields L.
Proof.
  unfold failTile.
  destruct (getTile k _) as [t|]; [|reflexivity].
  destruct (attempts t <=? retryLimit cfg); [|reflexivity].
  now rewrite enqueueTileLoad_slots.
Qed.

(** Answering an open request: the request leaves the loader's list, and
    the callback body gives one slot back, on success and on failure. *)
Lemma answered_releases_slot (body : string -> Z -> Layer -> Layer) k a L :
  body = onLoadBody \/ body = onErrorBody cfg ->
  slotsConsistent cfg L ->
  hasRequest (k, a) L = true ->
  let Lr := body k a (setRequests (removeRequest (k, a) (requests L)) L) in
  inflightCount Lr = inflightCount L - 1
  /\ requests Lr = removeRequest (k, a) (requests L)
  /\ slotsConsistent cfg Lr.
Proof.
  intros Hbody [Hlen Hle] Hreq. simpl.
  pose proof (length_removeRequest (k, a) (requests L) Hreq) as Hrm.
  set (L0 := setRequests _ L).
  assert (Hrel : inflightCount (releaseSlot L0) = inflightCount L - 1).
  { unfold releaseSlot, L0. simpl. lia. }
  assert (Hs : slotFields (body k a L0) = slotFields (releaseSlot L0)).
  { destruct Hbody; subst body.
    - unfold onLoadBody. destruct (getTile k _) as [t|]; [|reflexivity].
      destruct (negb _); reflexivity.
    - unfold onErrorBody. destruct (getTile k _) as [t|]; [|reflexivity].
      destruct (negb _); [reflexivity|]. apply failTile_slots. }
  unfold slotFields in Hs.
  assert (Hs1 : inflightCount (body k a L0) = inflightCount (releaseSlot L0))
    by congruence.
  assert (Hs2 : requests (body k a L0) = requests (releaseSlot L0)) by congruence.
  unfold slotsConsistent. rewrite Hs1, Hs2, Hrel.
  unfold releaseSlot, L0. simpl.
  repeat split; try lia.
Qed.

Lemma step_slotsConsistent L ev :
  slotsConsistent cfg L -> slotsConsistent cfg (step cfg L ev).
Proof.
  intro H. destruct ev as [next now|k a|k a]; simpl.
  - now apply updateView_slotsConsistent.
  - destruct (hasRequest (k, a) L) eqn:Hreq; [|assumption].
    apply processLoadQueueLoop_slotsConsistent.
    now apply (answered_releases_slot onLoadBody); auto.
  - destruct (hasRequest (k, a) L) eqn:Hreq; [|assumption].
    apply processLoadQueueLoop_slotsConsistent.
    now apply (answered_releases_slot (onErrorBody cfg)); auto.
Qed.

Lemma reachable_slotsConsistent L :
  0 <= maxConcurrentRequests cfg -> reachable cfg L -> slotsConsistent cfg L.
Proof.
  intros Hcap [evs ->]. unfold run.
  apply fold_left_invariant.
  - intros a b. apply step_slotsConsistent.
  - unfold slotsConsistent. simpl. lia.
Qed.

End Slots.

(** C5: in every layer reached by frame updates and loader callbacks, in
    any order, the loads in flight (the requests the loader has not
    answered) are as many as [_inflightCount] says and at most
    [maxConcurrentRequests]; the bound also holds after every turn of the
    drain loop; a turn starts a load only when the count is strictly below
    the cap; and both callbacks give the slot back before they drain the
    queue again. *)
Theorem C5_inflight_never_exceeds_cap (cfg : Config) :
  1 <= maxConcurrentRequests cfg ->
  forall L, reachable cfg L ->
    (Z.of_nat (List.length (requests L)) = inflightCount L
     /\ inflightCount L <= maxConcurrentRequests cfg)
    /\ (forall fuel, slotsConsistent cfg (processLoadQueueLoop cfg fuel L))
    /\ (forall M,
          List.length (requests M) <> List.length (requests (fst (drainIteration cfg M))) ->
          inflightCount M < maxConcurrentRequests cfg
          /\ inflightCount (fst (drainIteration cfg M)) = inflightCount M + 1)
    /\ (forall k a,
          hasRequest (k, a) L = true ->
          let answered := setRequests (removeRequest (k, a) (requests L)) L in
          inflightCount (onLoadBody k a answered) = inflightCount L - 1
          /\ inflightCount (onErrorBody cfg k a answered) = inflightCount L - 1
          /\ slotsConsistent cfg (step cfg L (LoadSucceeded k a))
          /\ slotsConsistent cfg (step cfg L (LoadFailed k a))).
Proof.
  intros Hcap L HL.
  assert (H : slotsConsistent cfg L) by (apply reachable_slotsConsistent; [lia | assumption]).
  split; [exact H|]. split; [|split].
  - intro fuel. now apply processLoadQueueLoop_slotsConsistent.
  - intros M Hne. destruct (drainIteration_dispatch cfg M) as [Hs|[Hlt [Hinc _]]].
    + unfold slotFields in Hs. injection Hs as _ Hs. now rewrite Hs in Hne.
    + auto.
  - intros k a Hreq answered.
    destruct (answered_releases_slot cfg onLoadBody k a L (or_introl eq_refl) H Hreq)
      as [H1 _].
    destruct (answered_releases_slot cfg (onErrorBody cfg) k a L (or_intror eq_refl) H Hreq)
      as [H2 _].
    repeat split; try assumption; apply step_slotsConsistent; assumption.
Qed.

(* ================================================================== *)
(** ** The update throttle *)

Section Throttle.

Variable cfg : Config.
Hypothesis Henabled : enabled cfg = true.

(** What a call of [update] does to the fields of the throttle. *)
Lemma updateView_throttle next now L :
  let L' := updateView cfg next now L in
  frame L' = frame L + 1
  /\ pendingViewState L' = snd (chooseViewState cfg L next now)
  /\ match appliedBy cfg L next now with
     | Some a =>
         stateKey L' = vs_stateKey a
         /\ appliedViewState L' = Some a
         /\ lastLayoutUpdateMs L' = now
         /\ activeDesiredTiles L'
            = collectDesiredTiles cfg (vs_centerX a, vs_centerY a) (vs_zoom a)
                                  (vs_tileRadius a) (vs_viewportBounds a)
     | None =>
         stateKey L' = stateKey L
         /\ appliedViewState L' = appliedViewState L
         /\ lastLayoutUpdateMs L' = lastLayoutUpdateMs L
         /\ activeDesiredTiles L' = activeDesiredTiles L
     end.
Proof.
  simpl. unfold updateView. rewrite Henabled. simpl. unfold updateFrame.
  set (L0 := setFrame (frame L + 1) L).
  change (appliedBy cfg L0 next now) with (appliedBy cfg L next now).
  change (chooseViewState cfg L0 next now) with (chooseViewState cfg L next now).
  set (L1 := setPendingViewState _ L0).
  set (L2 := match appliedBy cfg L next now with Some _ => _ | None => L1 end).
  set (L3 := updateProgressiveVisibility cfg now (processLoadQueue cfg L2)).
  assert (H3 : viewFields L3 = viewFields L2).
  { unfold L3. now rewrite updateProgressiveVisibility_view, processLoadQueue_view. }
  assert (Hgoal :
    frame L3 = frame L + 1
    /\ pendingViewState L3 = snd (chooseViewState cfg L next now)
    /\ match appliedBy cfg L next now with
       | Some a =>
           stateKey L3 = vs_stateKey a
           /\ appliedViewState L3 = Some a
           /\ lastLayoutUpdateMs L3 = now
           /\ activeDesiredTiles L3
              = collectDesiredTiles cfg (vs_centerX a, vs_centerY a) (vs_zoom a)
                                    (vs_tileRadius a) (vs_viewportBounds a)
       | None =>
           stateKey L3 = stateKey L
           /\ appliedViewState L3 = appliedViewState L
           /\ lastLayoutUpdateMs L3 = lastLayoutUpdateMs L
           /\ activeDesiredTiles L3 = activeDesiredTiles L
       end).
  { unfold viewFields in H3. injection H3 as E1 E2 E3 E4 E5 E6 E7 E8.
    rewrite E1, E2, E3, E4, E5, E6. unfold L2.
    destruct (appliedBy cfg L next now) as [a|].
    - destruct (applyViewState_fields cfg a now L1) as (F1 & F2 & F3 & F4 & F5 & F6 & F7).
      simpl. repeat split; assumption.
    - simpl. repeat split; reflexivity. }
  match goal with
  | |- context [match appliedViewState L3 with Some _ => _ | None => ?N end] =>
      set (R := match appliedViewState L3 with Some a => _ | None => N end)
  end.
  assert (HR : exists z x y r, R = refreshDebugInfo cfg z x y r L3).
  { unfold R. destruct (appliedViewState L3); eauto. }
  destruct HR as (z & x & y & r & ->). exact Hgoal.
Qed.

Lemma updateView_appliedConsistent next now L :
  appliedConsistent L -> appliedConsistent (updateView cfg next now L).
Proof.
  intro H. destruct (updateView_throttle next now L) as (_ & _ & Hm).
  unfold appliedConsistent.
  destruct (appliedBy cfg L next now) as [a|].
  - destruct Hm as (E1 & E2 & _). rewrite E1, E2. now intros ? [= <-].
  - destruct Hm as (E1 & E2 & _). rewrite E1, E2. exact H.
Qed.

(** A deferred call stores the view state it computed as the pending one
    and applies nothing. *)
Lemma updateView_deferred next now L :
  appliedConsistent L ->
  deferredBy cfg L next now = true ->
  let L' := updateView cfg next now L in
  appliedBy cfg L next now = None
  /\ pendingViewState L' = Some next
  /\ stateKey L' = stateKey L
  /\ appliedViewState L' = appliedViewState L
  /\ lastLayoutUpdateMs L' = lastLayoutUpdateMs L.
Proof.
  intros Hcons Hdef. simpl.
  destruct (updateView_throttle next now L) as (_ & Hp & Hm).
  assert (Hnone : appliedBy cfg L next now = None).
  { unfold appliedBy, chooseViewState. unfold deferredBy in Hdef. rewrite Hdef. simpl.
    apply andb_prop in Hdef. destruct Hdef as [_ Hsh].
    apply negb_true_iff in Hsh. unfold shouldApplyNow in Hsh.
    destruct (stateKey L) eqn:Ek; [discriminate|].
    destruct (appliedViewState L) as [cur|] eqn:Ea; [|discriminate].
    simpl. rewrite (Hcons cur Ea), Ek, String.eqb_refl. reflexivity. }
  rewrite Hnone in Hm. destruct Hm as (E1 & E2 & E3 & _).
  repeat split; try assumption.
  rewrite Hp. unfold chooseViewState. unfold deferredBy in Hdef. now rewrite Hdef.
Qed.

(** A call that is not deferred while a view state is pending applies the
    pending view state and clears it. *)
Lemma updateView_release next now L pending :
  pendingViewState L = Some pending ->
  vs_stateKey pending <> stateKey L ->
  deferredBy cfg L next now = false ->
  let L' := updateView cfg next now L in
  appliedBy cfg L next now = Some pending
  /\ pendingViewState L' = None
  /\ stateKey L' = vs_stateKey pending
  /\ appliedViewState L' = Some pending
  /\ lastLayoutUpdateMs L' = now
  /\ activeDesiredTiles L'
     = collectDesiredTiles cfg (vs_centerX pending, vs_centerY pending)
                           (vs_zoom pending) (vs_tileRadius pending)
                           (vs_viewportBounds pending).
Proof.
  intros Hpend Hne Hdef. simpl.
  destruct (updateView_throttle next now L) as (_ & Hp & Hm).
  assert (Hch : chooseViewState cfg L next now = (pending, None)).
  { unfold chooseViewState. unfold deferredBy in Hdef. now rewrite Hdef, Hpend. }
  assert (Hsome : appliedBy cfg L next now = Some pending).
  { unfold appliedBy. rewrite Hch. simpl.
    destruct (String.eqb_spec (vs_stateKey pending) (stateKey L)); [contradiction|].
    reflexivity. }
  rewrite Hsome in Hm. rewrite Hch in Hp. tauto.
Qed.

(** A call that computes the view state already applied, with nothing
    pending, applies nothing. *)
Lemma appliedBy_same_key next now L :
  pendingViewState L = None ->
  vs_stateKey next = stateKey L ->
  appliedBy cfg L next now = None.
Proof.
  intros Hpend Hkey. unfold appliedBy, chooseViewState.
  rewrite Hkey, String.eqb_refl, Hpend. simpl.
  now rewrite Hkey, String.eqb_refl.
Qed.

Lemma deferredBy_ext L L' next now :
  stateKey L' = stateKey L ->
  appliedViewState L' = appliedViewState L ->
  lastLayoutUpdateMs L' = lastLayoutUpdateMs L ->
  deferredBy cfg L' next now = deferredBy cfg L next now.
Proof.
  intros E1 E2 E3. unfold deferredBy, shouldApplyNow. now rewrite E1, E2, E3.
Qed.

Lemma applications_app L calls more :
  applications cfg L (calls ++ more)
  = applications cfg L calls ++ applications cfg (runUpdates cfg L calls) more.
Proof.
  revert L. induction calls as [|c calls IH]; intro L; simpl; [reflexivity|].
  rewrite IH, app_assoc. reflexivity.
Qed.

(** A run of deferred calls, seen from its end: nothing was applied, the
    throttle still compares against the same applied state, and the
    pending view state is the one of the last call. *)
Lemma deferred_run L calls last tlast :
  appliedConsistent L ->
  allDeferred cfg L (calls ++ [(last, tlast)]) ->
  let Ln := runUpdates cfg L (calls ++ [(last, tlast)]) in
  applications cfg L (calls ++ [(last, tlast)]) = []
  /\ pendingViewState Ln = Some last
  /\ vs_stateKey last <> stateKey Ln
  /\ stateKey Ln = stateKey L
  /\ appliedViewState Ln = appliedViewState L
  /\ lastLayoutUpdateMs Ln = lastLayoutUpdateMs L
  /\ appliedConsistent Ln.
Proof.
  revert L. induction calls as [|c calls IH]; intros L Hcons Hall.
  - simpl in Hall. destruct Hall as [Hdef _].
    destruct (updateView_deferred last tlast L Hcons Hdef) as (A & B & C & D & E).
    simpl. rewrite Henabled, A. simpl.
    repeat split; try assumption.
    + rewrite C. unfold deferredBy in Hdef. apply andb_prop in Hdef.
      destruct Hdef as [Hk _]. apply negb_true_iff in Hk.
      now destruct (String.eqb_spec (vs_stateKey last) (stateKey L)).
    + now apply updateView_appliedConsistent.
  - simpl in Hall. destruct Hall as [Hdef Hrest].
    destruct (updateView_deferred (fst c) (snd c) L Hcons Hdef) as (A & B & C & D & E).
    pose proof (updateView_appliedConsistent (fst c) (snd c) L Hcons) as Hcons'.
    destruct (IH _ Hcons' Hrest) as (I1 & I2 & I3 & I4 & I5 & I6 & I7).
    simpl. rewrite Henabled, A. simpl.
    repeat split; try assumption; try congruence.
Qed.

End Throttle.

Lemma onLoadBody_view k a L : viewFields (onLoadBody k a L) = viewFields L.
Proof.
  unfold onLoadBody. destruct (getTile k _) as [t|]; [|reflexivity].
  destruct (negb _); reflexivity.
Qed.

Lemma failTile_view cfg k L : viewFields (failTile cfg k L) = viewFields L.
Proof.
  unfold failTile. destruct (getTile k _) as [t|]; [|reflexivity].
  destruct (attempts t <=? retryLimit cfg); [|reflexivity].
  now rewrite enqueueTileLoad_view.
Qed.

Lemma onErrorBody_view cfg k a L : viewFields (onErrorBody cfg k a L) = viewFields L.
Proof.
  unfold onErrorBody. destruct (getTile k _) as [t|]; [|reflexivity].
  destruct (negb _); [reflexivity|]. now rewrite failTile_view.
Qed.

(** The loader's callbacks do not touch the fields of the throttle. *)
Lemma step_callback_view cfg L ev :
  (forall next now, ev <> FrameUpdate next now) ->
  viewFields (step cfg L ev) = viewFields L.
Proof.
  intro Hev. destruct ev as [next now|k a|k a]; simpl.
  - now elim (Hev next now).
  - destruct (hasRequest (k, a) L); [|reflexivity].
    unfold onLoad. now rewrite processLoadQueue_view, onLoadBody_view.
  - destruct (hasRequest (k, a) L); [|reflexivity].
    unfold onError. now rewrite processLoadQueue_view, onErrorBody_view.
Qed.

Lemma appliedConsistent_ext L L' :
  viewFields L' = viewFields L -> appliedConsistent L -> appliedConsistent L'.
Proof.
  unfold viewFields, appliedConsistent. intros [= E1 E2 E3 E4 E5 E6 E7 E8] H.
  now rewrite E2, E5.
Qed.

Lemma reachable_appliedConsistent cfg L : reachable cfg L -> appliedConsistent L.
Proof.
  intros [evs ->]. unfold run. apply fold_left_invariant.
  - intros a ev Ha. destruct ev as [next now|k b|k b].
    + simpl. destruct (enabled cfg) eqn:E.
      * now apply updateView_appliedConsistent.
      * unfold updateView. now rewrite E.
    + apply (appliedConsistent_ext a); [|assumption].
      apply step_callback_view. discriminate.
    + apply (appliedConsistent_ext a); [|assumption].
      apply step_callback_view. discriminate.
  - intros a Ha. discriminate.
Qed.

(** C3: take a reachable, enabled layer and a run of calls of [update]
    that the throttle defers one after the other.  The run applies no view
    state, and the pending view state at its end is the one of its last
    call.  The next call that is not deferred, because the interval has
    elapsed, because its change is of the immediate class, or because the
    camera is back on the applied key, hands exactly that pending view
    state to [applyViewState]; none of the earlier ones is ever applied.
    It is applied once: the pending slot is empty afterwards and a further
    call that computes it again applies nothing. *)
Theorem C3_pending_view_state_applied_once
        (cfg : Config) (L : Layer)
        (earlier : list (LayerViewState * Q)) (latest : LayerViewState) (tlatest : Q)
        (next : LayerViewState) (now : Q) :
  enabled cfg = true ->
  reachable cfg L ->
  allDeferred cfg L (earlier ++ [(latest, tlatest)]) ->
  let Ln := runUpdates cfg L (earlier ++ [(latest, tlatest)]) in
  deferredBy cfg Ln next now = false ->
  let L' := updateView cfg next now Ln in
  pendingViewState Ln = Some latest
  /\ applications cfg L (earlier ++ [(latest, tlatest)]) = []
  /\ applications cfg L ((earlier ++ [(latest, tlatest)]) ++ [(next, now)]) = [latest]
  /\ stateKey L' = vs_stateKey latest
  /\ appliedViewState L' = Some latest
  /\ activeDesiredTiles L'
     = collectDesiredTiles cfg (vs_centerX latest, vs_centerY latest) (vs_zoom latest)
                           (vs_tileRadius latest) (vs_viewportBounds latest)
  /\ lastLayoutUpdateMs L' = now
  /\ pendingViewState L' = None
  /\ (forall later, applications cfg L' [(latest, later)] = []).
Proof.
  intros Hen Hreach Hall Ln Hrel L'.
  pose proof (reachable_appliedConsistent cfg L Hreach) as Hcons.
  destruct (deferred_run cfg Hen L earlier latest tlatest Hcons Hall)
    as (A1 & A2 & A3 & A4 & A5 & A6 & A7).
  fold Ln in A2, A3, A4, A5, A6, A7.
  destruct (updateView_release cfg Hen next now Ln latest A2 A3 Hrel)
    as (B1 & B2 & B3 & B4 & B5 & B6).
  fold L' in B2, B3, B4, B5, B6.
  repeat split; try assumption.
  - rewrite applications_app, A1. fold Ln. simpl. now rewrite Hen, B1.
  - intro later. simpl. rewrite Hen.
    rewrite (appliedBy_same_key cfg latest later L' B2 (eq_sym B3)). reflexivity.
Qed.

(* ================================================================== *)
(** ** Eviction *)

Lemma In_insertSorted {A : Type} (le : A -> A -> bool) (x y : A) (l : list A) :
  In y (insertSorted le x l) <-> y = x \/ In y l.
Proof.
  induction l as [|z l IH]; simpl.
  - intuition.
  - destruct (le x z); simpl; rewrite ?IH; intuition.
Qed.

Lemma In_stableSort {A : Type} (le : A -> A -> bool) (y : A) (l : list A) :
  In y (stableSort le l) <-> In y l.
Proof.
  induction l as [|x l IH]; simpl; [tauto|].
  rewrite In_insertSorted, IH. intuition.
Qed.

Lemma length_insertSorted {A : Type} (le : A -> A -> bool) (x : A) (l : list A) :
  List.length (insertSorted le x l) = S (List.length l).
Proof.
  induction l as [|z l IH]; simpl; [reflexivity|].
  destruct (le x z); simpl; [reflexivity | now rewrite IH].
Qed.

Lemma length_stableSort {A : Type} (le : A -> A -> bool) (l : list A) :
  List.length (stableSort le l) = List.length l.
Proof.
  induction l as [|x l IH]; simpl; [reflexivity|].
  now rewrite length_insertSorted, IH.
Qed.

Lemma In_deleteTile (k k' : string) (t : ActiveTile) (m : TileMap) :
  In (k', t) (deleteTile k m) <-> k' <> k /\ In (k', t) m.
Proof.
  unfold deleteTile. rewrite filter_In. simpl. split.
  - intros [Hin Hne]. split; [|assumption].
    intros ->. now rewrite String.eqb_refl in Hne.
  - intros [Hne Hin]. split; [assumption|].
    destruct (String.eqb_spec k k') as [->|_]; [now elim Hne | reflexivity].
Qed.

Section Eviction.

Variable cfg : Config.

(** The capacity pass of [evictTiles]. *)
Let capacityPass (cands : list ActiveTile) (L : Layer) : Layer :=
  fold_left (fun acc t =>
               if tileCount acc <=? maxCachedTiles cfg then acc
               else disposeTile (key t) acc) cands L.

Lemma capacityPass_under_cap cands L :
  tileCount L <= maxCachedTiles cfg -> capacityPass cands L = L.
Proof.
  intro H. unfold capacityPass. induction cands as [|c cands IH]; simpl; [reflexivity|].
  destruct (Z.leb_spec (tileCount L) (maxCachedTiles cfg)); [exact IH | lia].
Qed.

Lemma capacityPass_subset cands : forall L k t,
  In (k, t) (tiles (capacityPass cands L)) -> In (k, t) (tiles L).
Proof.
  unfold capacityPass. induction cands as [|c cands IH]; intros L k t; simpl; [auto|].
  intro H. apply IH in H.
  destruct (tileCount L <=? maxCachedTiles cfg); [assumption|].
  simpl in H. apply In_deleteTile in H. tauto.
Qed.

Lemma capacityPass_result cands : forall L,
  tileCount (capacityPass cands L) <= maxCachedTiles cfg
  \/ forall c, In c cands ->
               forall t, ~ In (key c, t) (tiles (capacityPass cands L)).
Proof.
  induction cands as [|c cands IH]; intro L.
  - right. intros c [].
  - destruct (Z.leb_spec (tileCount L) (maxCachedTiles cfg)) as [Hle|Hgt].
    + left. rewrite capacityPass_under_cap; assumption.
    + assert (E : capacityPass (c :: cands) L = capacityPass cands (disposeTile (key c) L)).
      { unfold capacityPass. simpl.
        destruct (Z.leb_spec (tileCount L) (maxCachedTiles cfg)); [lia | reflexivity]. }
      rewrite E. destruct (IH (disposeTile (key c) L)) as [H|H]; [now left|].
      right. intros c' [<-|Hin] t Hcontra.
      * apply capacityPass_subset in Hcontra. simpl in Hcontra.
        apply In_deleteTile in Hcontra. tauto.
      * exact (H c' Hin t Hcontra).
Qed.

Lemma stalePass_subset (stale : list string) : forall L k t,
  In (k, t)
     (tiles (fold_left (fun acc k0 =>
                          match getTile k0 (tiles acc) with
                          | None => acc
                          | Some _ => disposeTile k0 acc
                          end) stale L)) ->
  In (k, t) (tiles L).
Proof.
  induction stale as [|s stale IH]; intros L k t; simpl; [auto|].
  intro H. apply IH in H.
  destruct (getTile s (tiles L)); [|assumption].
  simpl in H. apply In_deleteTile in H. tauto.
Qed.

Lemma evictTiles_subset wanted L k t :
  In (k, t) (tiles (evictTiles cfg wanted L)) -> In (k, t) (tiles L).
Proof.
  unfold evictTiles.
  set (stale := map fst _).
  set (L1 := fold_left _ stale L).
  intro H. apply (stalePass_subset stale L).
  destruct (tileCount L1 <=? maxCachedTiles cfg); [exact H|].
  exact (capacityPass_subset _ L1 k t H).
Qed.

(** After [evictTiles] the cache is within its cap, or else every tile
    left in it is wanted or loading. *)
Lemma evictTiles_bound wanted L :
  keysConsistent L ->
  let L' := evictTiles cfg wanted L in
  tileCount L' <= maxCachedTiles cfg
  \/ forall k t, In (k, t) (tiles L') ->
                 memStr k wanted = true \/ state t = Loading.
Proof.
  intros Hkeys. simpl. unfold evictTiles.
  set (stale := map fst _).
  set (L1 := fold_left _ stale L).
  assert (Hkeys1 : keysConsistent L1).
  { intros k t H. apply Hkeys. exact (stalePass_subset stale L k t H). }
  destruct (Z.leb_spec (tileCount L1) (maxCachedTiles cfg)) as [Hle|Hgt]; [now left|].
  set (cands := stableSort evictOrder _).
  destruct (capacityPass_result cands L1) as [H|H]; [now left|].
  right. intros k t Hin.
  destruct (memStr k wanted) eqn:Hw; [now left|].
  destruct (state t) eqn:Hs; try (now right); exfalso.
  all: pose proof (capacityPass_subset cands L1 k t Hin) as Hin1;
    pose proof (Hkeys1 k t Hin1) as Hk;
    refine (H t _ t _); [| rewrite Hk; exact Hin];
    unfold cands; apply In_stableSort; apply filter_In; split;
    [ apply in_map_iff; exists (k, t); auto
    | rewrite Hk, Hw; unfold isLoading; rewrite Hs; reflexivity ].
Qed.

End Eviction.

(** C4, as stated, fails: with [maxCachedTiles = 16] and a first view of
    radius 2 the desired set has 25 tiles; the eviction pass that ends
    [applyViewState] leaves all 25 in the cache, and none of them is
    loading (all are queued). *)
Lemma C4_cache_over_cap_without_loading_tiles :
  let L := applyViewState smallCacheConfig (viewAt 512 341 2) 1000%Q
                          (setFrame 1 (initialLayer smallCacheConfig)) in
  maxCachedTiles smallCacheConfig = 16
  /\ tileCount L = 25
  /\ countState Loading (tiles L) = 0
  /\ countState Queued (tiles L) = 25
  /\ evictTiles smallCacheConfig (map d_key (activeDesiredTiles L)) L = L.
Proof. vm_compute. repeat split; reflexivity. Qed.

(** C4, amended: after every eviction pass the cache holds at most
    [maxCachedTiles] entries, unless every entry left in it is a tile of
    the wanted set of that pass or a tile in state [Loading]; wanted tiles
    are no more evicted than loading ones. *)
Theorem C4_cache_bound_after_eviction (cfg : Config) (wanted : list string) (L : Layer) :
  keysConsistent L ->
  let L' := evictTiles cfg wanted L in
  tileCount L' <= maxCachedTiles cfg
  \/ forall k t, In (k, t) (tiles L') -> In k wanted \/ state t = Loading.
Proof.
  intros Hkeys L'. destruct (evictTiles_bound cfg wanted L Hkeys) as [H|H]; [now left|].
  right. intros k t Hin. destruct (H k t Hin) as [Hw|Hl]; [left | now right].
  now apply memStr_In.
Qed.

(* ================================================================== *)
(** ** Ancestor fallback *)

Lemma passExtends_refl L : passExtends L L.
Proof.
  split; [reflexivity|]. intro k. destruct (getTile k (tiles L)) as [t|] eqn:E.
  - exists t. tauto.
  - discriminate.
Qed.

Lemma passExtends_trans L1 L2 L3 :
  passExtends L1 L2 -> passExtends L2 L3 -> passExtends L1 L3.
Proof.
  intros [F12 H12] [F23 H23]. split; [congruence|]. intro k.
  specialize (H12 k). specialize (H23 k).
  destruct (getTile k (tiles L1)) as [t1|].
  - destruct H12 as (t2 & E2 & K2 & R2 & W2). rewrite E2 in H23.
    destruct H23 as (t3 & E3 & K3 & R3 & W3).
    exists t3. repeat split; try tauto; try congruence.
    intro Hw. rewrite <- F12. apply W3. rewrite F12. auto.
  - intros t3 E3. destruct (getTile k (tiles L2)) as [t2|] eqn:E2.
    + destruct H23 as (t3' & E3' & K3 & R3 & W3).
      rewrite E3 in E3'. injection E3' as <-.
      intro Hr. apply (H12 t2 eq_refl). tauto.
    + exact (H23 t3 E3).
Qed.

Section Fallback.

Variable cfg : Config.

Lemma passExtends_addTile k shell L :
  getTile k (tiles L) = None ->
  state shell = Idle ->
  passExtends L (setTiles (addTile k shell (tiles L)) L).
Proof.
  intros Hnone Hidle. split; [reflexivity|]. intro k'. simpl.
  rewrite getTile_addTile.
  destruct (getTile k' (tiles L)) as [t|] eqn:E.
  - exists t. tauto.
  - destruct (String.eqb k' k); [|discriminate].
    intros t' [= <-]. congruence.
Qed.

Lemma passExtends_mutate k f L :
  (forall t, key (f t) = key t /\ state (f t) = state t
             /\ (lastWantedFrame t = frame L -> lastWantedFrame (f t) = frame L)) ->
  passExtends L (mutate k f L).
Proof.
  intro Hf. split; [reflexivity|]. intro k'. simpl.
  rewrite getTile_mutTile.
  destruct (getTile k' (tiles L)) as [t|] eqn:E.
  - destruct (String.eqb k k'); simpl.
    + exists (f t). destruct (Hf t) as (A & B & C). rewrite A, B. tauto.
    + exists t. tauto.
  - destruct (String.eqb k k'); discriminate.
Qed.

Lemma passExtends_enqueueTileLoad k L : passExtends L (enqueueTileLoad k L).
Proof.
  unfold enqueueTileLoad.
  destruct (getTile k (tiles L)) as [t|] eqn:E; [|apply passExtends_refl].
  assert (H : state t <> Ready -> passExtends L (mutate k (setState Queued) L)).
  { intro Hnr. split; [reflexivity|]. intro k'. simpl. rewrite getTile_mutTile.
    destruct (String.eqb_spec k k') as [<-|Hne].
    - rewrite E. simpl. exists (setState Queued t). simpl.
      repeat split; try tauto; try discriminate.
    - destruct (getTile k' (tiles L)) as [t'|]; [exists t'; tauto | discriminate]. }
  destruct (state t) eqn:Hs; try apply passExtends_refl.
  - assert (Hp : passExtends L (mutate k (setState Queued) L)) by (apply H; discriminate).
    destruct (memStr k (queuedKeys (mutate k (setState Queued) L))); exact Hp.
  - assert (Hp : passExtends L (mutate k (setState Queued) L)) by (apply H; discriminate).
    destruct (memStr k (queuedKeys (mutate k (setState Queued) L))); exact Hp.
Qed.

Lemma passExtends_enqueueIfIdleOrRetryable k L :
  passExtends L (enqueueIfIdleOrRetryable cfg k L).
Proof.
  unfold enqueueIfIdleOrRetryable.
  destruct (getTile k (tiles L)) as [t|]; [|apply passExtends_refl].
  destruct (state t); try apply passExtends_refl.
  - apply passExtends_enqueueTileLoad.
  - destruct (attempts t <=? retryLimit cfg);
      [apply passExtends_enqueueTileLoad | apply passExtends_refl].
Qed.

(** The nearest ready ancestor only depends on which tiles are ready. *)
Lemma nearestReadyAncestor_ext L L' fuel : forall x y z,
  passExtends L L' ->
  nearestReadyAncestor cfg (tiles L') fuel x y z
  = nearestReadyAncestor cfg (tiles L) fuel x y z.
Proof.
  induction fuel as [|f IH]; intros x y z Hext; simpl; [reflexivity|].
  destruct (minZoom cfg <? z); [|reflexivity].
  set (k := tileKey _).
  destruct Hext as [Hf Hk]. pose proof (Hk k) as Hkk.
  destruct (getTile k (tiles L)) as [t|] eqn:E.
  - destruct Hkk as (t' & E' & _ & R & _). rewrite E'.
    destruct (state t) eqn:Hs; destruct (state t') eqn:Hs';
      try reflexivity; try (apply IH; split; assumption);
      exfalso; destruct R as [R1 R2];
      try (specialize (R1 eq_refl); discriminate);
      try (specialize (R2 eq_refl); discriminate).
  - destruct (getTile k (tiles L')) as [t'|] eqn:E'.
    + specialize (Hkk t' eq_refl).
      destruct (state t'); try (apply IH; split; assumption). now elim Hkk.
    + apply IH. split; assumption.
Qed.

(** The ancestor walk finds the nearest ready ancestor of the cache it
    started from, and the tile stored under the key it returns is
    ready. *)
Lemma findReadyAncestorLoop_spec fuel : forall x y z now touched L,
  let '(fallback, _, L') := findReadyAncestorLoop cfg fuel x y z now touched L in
  passExtends L L'
  /\ fallback = nearestReadyAncestor cfg (tiles L) fuel x y z
  /\ (forall fk, fallback = Some fk ->
                 exists t, getTile fk (tiles L') = Some t /\ state t = Ready).
Proof.
  induction fuel as [|f IH]; intros x y z now touched L; simpl.
  - split; [apply passExtends_refl|]. split; [reflexivity | discriminate].
  - destruct (minZoom cfg <? z);
      [|split; [apply passExtends_refl | split; [reflexivity | discriminate]]].
    set (id := mkTileId (x / 2) (y / 2) (z - 1)).
    set (k := tileKey id).
    set (L1 := match getTile k (tiles L) with Some _ => L | None => _ end).
    assert (H1 : passExtends L L1).
    { unfold L1. destruct (getTile k (tiles L)) eqn:E; [apply passExtends_refl|].
      now apply passExtends_addTile. }
    set (pair := if memStr k touched then (touched, L1) else _).
    assert (H2 : passExtends L (snd pair)).
    { unfold pair. destruct (memStr k touched); simpl; [exact H1|].
      eapply passExtends_trans; [exact H1|].
      eapply passExtends_trans; [|apply passExtends_enqueueIfIdleOrRetryable].
      apply passExtends_mutate. intro t. simpl. rewrite (proj1 H1). auto. }
    destruct pair as [touched' L2]. simpl in H2.
    pose proof (proj2 H2 k) as Hk.
    specialize (IH (x / 2) (y / 2) (z - 1) now touched' L2).
    destruct (findReadyAncestorLoop cfg f (x / 2) (y / 2) (z - 1) now touched' L2)
      as [[fb tch] L3] eqn:Eloop.
    destruct IH as (I1 & I2 & I3).
    rewrite (nearestReadyAncestor_ext L L2 f _ _ _ H2) in I2.
    assert (Hrec : passExtends L L3
                   /\ fb = nearestReadyAncestor cfg (tiles L) f (x / 2) (y / 2) (z - 1)
                   /\ (forall fk, fb = Some fk ->
                         exists t, getTile fk (tiles L3) = Some t /\ state t = Ready)).
    { split; [eapply passExtends_trans; eassumption|]. split; assumption. }
    destruct (getTile k (tiles L)) as [t0|] eqn:E0.
    + destruct Hk as (t2 & E2 & _ & R & _). rewrite E2.
      destruct (state t0) eqn:Hs0; destruct (state t2) eqn:Hs2;
        try exact Hrec;
        try (exfalso; destruct R as [R1 R2];
             first [ specialize (R1 eq_refl); discriminate
                   | specialize (R2 eq_refl); discriminate ]).
      split; [exact H2|]. split; [reflexivity|].
      intros fk [= <-]. exists t2. auto.
    + destruct (getTile k (tiles L2)) as [t2|] eqn:E2; [|exact Hrec].
      specialize (Hk t2 eq_refl).
      destruct (state t2); try exact Hrec. now elim Hk.
Qed.

Lemma markedVisible_extends L L' vis vis' k :
  markedVisible L vis k ->
  passExtends L L' ->
  (forall x, In x vis -> In x vis') ->
  markedVisible L' vis' k.
Proof.
  intros (t & E & R & W & V) [Hf Hk] Hincl.
  specialize (Hk k). rewrite E in Hk. destruct Hk as (t' & E' & K' & R' & W').
  exists t'. repeat split; try tauto.
  - rewrite Hf. auto.
  - rewrite K'. auto.
Qed.

Let depth : nat := Z.to_nat (maxParentSearchDepth cfg).

(** One turn of the loop over the desired tiles. *)
Lemma visitDesired_spec now vis touched L d :
  let '(vis', _, L') := visitDesired cfg now (vis, touched, L) d in
  passExtends L L'
  /\ (forall x, In x vis -> In x vis')
  /\ (forall cur fk,
        getTile (d_key d) (tiles L) = Some cur ->
        state cur <> Ready ->
        nearestReadyAncestor cfg (tiles L) depth
          (tid_x (d_tileId d)) (tid_y (d_tileId d)) (tid_z (d_tileId d)) = Some fk ->
        markedVisible L' vis' fk).
Proof.
  unfold visitDesired.
  destruct (getTile (d_key d) (tiles L)) as [cur|] eqn:Ecur.
  2:{ split; [apply passExtends_refl|]. split; [auto | discriminate]. }
  assert (Hwalk :
    let '(vis', _, L') :=
      let '(fallback, touched', L') :=
        findReadyAncestor cfg (d_tileId d) now touched L in
      match fallback with
      | Some fk =>
          match getTile fk (tiles L') with
          | Some fb =>
              (setAdd (key fb) vis, touched',
               mutate fk (setLastWantedFrame (frame L')) L')
          | None => (vis, touched', L')
          end
      | None => (vis, touched', L')
      end in
    passExtends L L'
    /\ (forall x, In x vis -> In x vis')
    /\ (forall cur0 fk,
          Some cur = Some cur0 ->
          state cur0 <> Ready ->
          nearestReadyAncestor cfg (tiles L) depth
            (tid_x (d_tileId d)) (tid_y (d_tileId d)) (tid_z (d_tileId d)) = Some fk ->
          markedVisible L' vis' fk)).
  { unfold findReadyAncestor. fold depth.
    pose proof (findReadyAncestorLoop_spec depth (tid_x (d_tileId d))
                  (tid_y (d_tileId d)) (tid_z (d_tileId d)) now touched L) as Hspec.
    destruct (findReadyAncestorLoop cfg depth _ _ _ now touched L) as [[fb tch] L1].
    destruct Hspec as (S1 & S2 & S3).
    destruct fb as [fk|].
    - destruct (S3 fk eq_refl) as (fbT & Efb & Rfb). rewrite Efb.
      split; [|split].
      + eapply passExtends_trans; [exact S1|].
        apply passExtends_mutate. intro t. simpl. auto.
      + intros x Hx. apply In_setAdd. now right.
      + intros cur0 fk' _ _ Hn. rewrite <- S2 in Hn. injection Hn as <-.
        exists (setLastWantedFrame (frame L1) fbT). simpl.
        rewrite getTile_mutTile_same, Efb. simpl.
        repeat split; try assumption. apply In_setAdd. now left.
    - split; [exact S1|]. split; [auto|].
      intros cur0 fk' _ _ Hn. rewrite <- S2 in Hn. discriminate. }
  destruct (state cur) eqn:Hs; try exact Hwalk.
  split; [|split].
  - apply passExtends_mutate. intro t. simpl. auto.
  - intros x Hx. apply In_setAdd. now right.
  - intros cur0 fk [= <-] Hnr. congruence.
Qed.

(** The whole loop over the desired tiles. *)
Lemma visitAll_spec now : forall ds vis touched L,
  let '(vis', _, L') := fold_left (visitDesired cfg now) ds (vis, touched, L) in
  passExtends L L'
  /\ (forall x, In x vis -> In x vis')
  /\ (forall d cur fk,
        In d ds ->
        getTile (d_key d) (tiles L) = Some cur ->
        state cur <> Ready ->
        nearestReadyAncestor cfg (tiles L) depth
          (tid_x (d_tileId d)) (tid_y (d_tileId d)) (tid_z (d_tileId d)) = Some fk ->
        markedVisible L' vis' fk).
Proof.
  induction ds as [|d0 ds IH]; intros vis touched L; cbn [fold_left].
  - split; [apply passExtends_refl|]. split; [auto|]. intros d cur fk [].
  - pose proof (visitDesired_spec now vis touched L d0) as H0.
    destruct (visitDesired cfg now (vis, touched, L) d0) as [[vis1 touched1] L1].
    destruct H0 as (A1 & A2 & A3).
    specialize (IH vis1 touched1 L1).
    destruct (fold_left (visitDesired cfg now) ds (vis1, touched1, L1))
      as [[vis2 touched2] L2].
    destruct IH as (B1 & B2 & B3).
    split; [eapply passExtends_trans; eassumption|].
    split; [auto|].
    intros d cur fk [<-|Hin] Ecur Hnr Hn.
    + eapply markedVisible_extends; [exact (A3 cur fk Ecur Hnr Hn) | exact B1 | exact B2].
    + pose proof (proj2 A1 (d_key d)) as Hk. rewrite Ecur in Hk.
      destruct Hk as (cur1 & E1 & _ & R1 & _).
      apply (B3 d cur1 fk Hin E1).
      * tauto.
      * rewrite (nearestReadyAncestor_ext L L1 depth _ _ _ A1). exact Hn.
Qed.

Lemma animateTileOpacity_fields now t :
  state (animateTileOpacity cfg now t) = state t
  /\ targetOpacity (animateTileOpacity cfg now t) = targetOpacity t
  /\ lastWantedFrame (animateTileOpacity cfg now t) = lastWantedFrame t
  /\ attempts (animateTileOpacity cfg now t) = attempts t
  /\ key (animateTileOpacity cfg now t) = key t.
Proof.
  unfold animateTileOpacity.
  destruct (negb (enableProgressiveBlend cfg)); simpl; [tauto|].
  destruct (Qle_bool _ _); simpl; tauto.
Qed.

(** The visibility pass shows the nearest ready ancestor of a desired
    tile that is not ready. *)
Lemma updateProgressiveVisibility_fallback now L d cur fk :
  0 <= retainFrames cfg ->
  In d (activeDesiredTiles L) ->
  getTile (d_key d) (tiles L) = Some cur ->
  state cur <> Ready ->
  nearestReadyAncestor cfg (tiles L) depth
    (tid_x (d_tileId d)) (tid_y (d_tileId d)) (tid_z (d_tileId d)) = Some fk ->
  exists t,
    getTile fk (tiles (updateProgressiveVisibility cfg now L)) = Some t
    /\ state t = Ready
    /\ targetOpacity t = opacity cfg
    /\ lastWantedFrame t = frame L.
Proof.
  intros Hretain Hin Ecur Hnr Hn. unfold updateProgressiveVisibility.
  pose proof (visitAll_spec now (activeDesiredTiles L) [] [] L) as H.
  destruct (fold_left (visitDesired cfg now) (activeDesiredTiles L) ([], [], L))
    as [[vis touched] L1].
  destruct H as (A1 & _ & A3).
  destruct (A3 d cur fk Hin Ecur Hnr Hn) as (t & Et & Rt & Wt & Vt).
  simpl.
  rewrite (getTile_mapTiles
             (fun e => animateTileOpacity cfg now
                         (setTargetOpacity
                            (if memStr (key (snd e)) vis
                                && TileState_eqb (state (snd e)) Ready
                                && (frame L1 - lastWantedFrame (snd e) <=? retainFrames cfg)
                             then opacity cfg else 0%Q) (snd e)))).
  rewrite Et. simpl.
  eexists. split; [reflexivity|].
  destruct (animateTileOpacity_fields now
              (setTargetOpacity
                 (if memStr (key t) vis && TileState_eqb (state t) Ready
                     && (frame L1 - lastWantedFrame t <=? retainFrames cfg)
                  then opacity cfg else 0%Q) t)) as (F1 & F2 & F3 & _).
  rewrite F1, F2, F3. simpl.
  split; [assumption|]. split; [|rewrite Wt; exact (proj1 A1)].
  apply memStr_In in Vt. rewrite Vt, Rt, Wt. simpl.
  destruct (Z.leb_spec (frame L1 - frame L1) (retainFrames cfg)); [reflexivity | lia].
Qed.

End Fallback.

(** C7: in the visibility pass of a frame, for each desired tile that is
    cached and not ready: if going up by [x/2, y/2, z-1], at most
    [maxParentSearchDepth] times and only while the zoom is above
    [minZoom], meets a ready tile, then after the pass the first such tile
    is shown: its [targetOpacity] is the configured opacity and its
    [lastWantedFrame] is the current frame. *)
Theorem C7_nearest_ready_ancestor_is_shown
        (cfg : Config) (now : Q) (L : Layer)
        (desired : DesiredTile) (current : ActiveTile) (ancestorKey : string) :
  0 <= retainFrames cfg ->
  In desired (activeDesiredTiles L) ->
  getTile (d_key desired) (tiles L) = Some current ->
  state current <> Ready ->
  nearestReadyAncestor cfg (tiles L) (Z.to_nat (maxParentSearchDepth cfg))
    (tid_x (d_tileId desired)) (tid_y (d_tileId desired)) (tid_z (d_tileId desired))
  = Some ancestorKey ->
  exists ancestor,
    getTile ancestorKey (tiles (updateProgressiveVisibility cfg now L)) = Some ancestor
    /\ state ancestor = Ready
    /\ targetOpacity ancestor = opacity cfg
    /\ lastWantedFrame ancestor = frame L.
Proof.
  intros. eapply updateProgressiveVisibility_fallback; eassumption.
Qed.

(* ================================================================== *)
(** ** The invariant of the scheduler *)

Lemma tileKey_nonempty (id : TileId) : tileKey id <> EmptyString.
Proof.
  unfold tileKey. destruct (showZ (tid_z id)); discriminate.
Qed.

Lemma In_firstn {A : Type} (n : nat) (x : A) (l : list A) :
  In x (firstn n l) -> In x l.
Proof.
  revert l. induction n as [|n IH]; intros [|y l]; simpl; try tauto.
  intros [H|H]; auto.
Qed.

Section DesiredKeys.

Variable cfg : Config.

Lemma viewportRow_keys centerTile zoom n rawY xs : forall seen d,
  In d (fst (viewportRow centerTile zoom n rawY xs seen)) ->
  d_key d = tileKey (d_tileId d).
Proof.
  induction xs as [|x xs IH]; intros seen d; simpl; [tauto|].
  destruct (memStr _ seen); [apply IH|].
  specialize (IH (setAdd (tileKey (mkTileId (wrapInt x n) rawY zoom)) seen) d).
  destruct (viewportRow centerTile zoom n rawY xs _) as [more seen'].
  simpl in *. intros [<-|H]; [reflexivity | auto].
Qed.

Lemma viewportRows_keys centerTile zoom n xs ys : forall seen d,
  In d (viewportRows centerTile zoom n ys xs seen) ->
  d_key d = tileKey (d_tileId d).
Proof.
  induction ys as [|y ys IH]; intros seen d; simpl; [tauto|].
  destruct (_ || _); [apply IH|].
  pose proof (viewportRow_keys centerTile zoom n y xs seen d) as Hrow.
  destruct (viewportRow centerTile zoom n y xs seen) as [row seen'].
  simpl in Hrow. rewrite in_app_iff. intros [H|H]; [auto | eapply IH; eassumption].
Qed.

(** Every desired tile carries the key of its tile id. *)
Lemma collectDesiredTiles_keys centerTile zoom radius bounds d :
  In d (collectDesiredTiles cfg centerTile zoom radius bounds) ->
  d_key d = tileKey (d_tileId d).
Proof.
  unfold collectDesiredTiles.
  set (byViewport := match bounds with Some _ => _ | None => [] end).
  set (candidates := match byViewport with _ :: _ => byViewport | [] => _ end).
  assert (Hc : forall x, In x candidates -> d_key x = tileKey (d_tileId x)).
  { intros x Hx.
    assert (Hv : forall y, In y byViewport -> d_key y = tileKey (d_tileId y)).
    { unfold byViewport. destruct bounds as [b|]; [|intros y []].
      unfold collectDesiredTilesByViewport.
      destruct (viewportTileRange cfg b zoom _) as [r|]; [|intros y []].
      destruct (_ <=? _).
      - intros y Hy. apply in_flat_map in Hy. destruct Hy as [ty [_ Hy]].
        apply in_map_iff in Hy. destruct Hy as [tx [<- _]]. reflexivity.
      - intros y. apply viewportRows_keys. }
    unfold candidates in Hx. destruct byViewport as [|v vs] eqn:Ev.
    - unfold collectDesiredTilesByRadius in Hx.
      apply in_flat_map in Hx. destruct Hx as [dy [_ Hx]].
      apply in_flat_map in Hx. destruct Hx as [dx [_ Hx]].
      destruct (_ || _); [destruct Hx|].
      destruct Hx as [<-|[]]. reflexivity.
    - now apply Hv. }
  intro H. apply Hc.
  destruct (_ <? _); [apply In_firstn in H|]; now apply In_stableSort in H.
Qed.

End DesiredKeys.

Section WellFormed.

Variable cfg : Config.


Lemma wellFormed_sameScheduling L L' :
  sameScheduling L L' -> wellFormed cfg L -> wellFormed cfg L'.
Proof.
  intros (Hk & Hq & Hs & Hr & Ht) (W1 & W2 & W3 & W4 & W5 & W6).
  unfold wellFormed. rewrite Hk, Hq, Hs, Hr.
  repeat split; try assumption.
  - specialize (Ht k). rewrite H in Ht.
    destruct (getTile k (tiles L)) as [t0|] eqn:E; [|contradiction].
    destruct Ht as (A & B & C). destruct (W2 k t0 E) as (S1 & _). congruence.
  - specialize (Ht k). rewrite H in Ht.
    destruct (getTile k (tiles L)) as [t0|] eqn:E; [|contradiction].
    destruct (W2 k t0 E) as (_ & S2 & _). exact S2.
  - specialize (Ht k). rewrite H in Ht.
    destruct (getTile k (tiles L)) as [t0|] eqn:E; [|contradiction].
    destruct Ht as (A & B & C). destruct (W2 k t0 E) as (_ & _ & S3 & _). congruence.
  - specialize (Ht k). rewrite H in Ht.
    destruct (getTile k (tiles L)) as [t0|] eqn:E; [|contradiction].
    destruct Ht as (A & B & C). destruct (W2 k t0 E) as (_ & _ & _ & S4 & _).
    rewrite B, C. exact S4.
  - specialize (Ht k). rewrite H in Ht.
    destruct (getTile k (tiles L)) as [t0|] eqn:E; [|contradiction].
    destruct Ht as (A & B & C). destruct (W2 k t0 E) as (_ & _ & _ & _ & S5).
    rewrite Hq. rewrite B. exact S5.
  - intros k a Hin. destruct (W5 k a Hin) as (t0 & E & Sl & Sa).
    specialize (Ht k). rewrite E in Ht.
    destruct (getTile k (tiles L')) as [t'|]; [|contradiction].
    destruct Ht as (A & B & C). exists t'. repeat split; congruence.
Qed.


Lemma wellFormed_sameCore L L' :
  tiles L' = tiles L -> loadQueue L' = loadQueue L ->
  queuedKeys L' = queuedKeys L -> requests L' = requests L ->
  wellFormed cfg L -> wellFormed cfg L'.
Proof.
intros E1 E2 E3 E4. unfold wellFormed, tileSettled. now rewrite E1, E2, E3, E4.
Qed.

Lemma sameScheduling_mutate k f L : neutral f -> sameScheduling L (mutate k f L).
Proof.
  intro Hf. unfold sameScheduling. simpl. rewrite map_fst_mutTile.
  repeat split. intro k'. rewrite getTile_mutTile.
  destruct (getTile k' (tiles L)) as [t|]; destruct (String.eqb k k'); simpl; auto;
    apply Hf.
Qed.

Lemma getTile_mapEntries (F : string * ActiveTile -> string * ActiveTile) k m :
  (forall e, fst (F e) = fst e) ->
  getTile k (map F m) = option_map (fun t => snd (F (k, t))) (getTile k m).
Proof.
  intro HF. induction m as [|[k0 t0] m IH]; simpl; [reflexivity|].
  pose proof (HF (k0, t0)) as H0. destruct (F (k0, t0)) as [k1 t1] eqn:E.
  simpl in H0. subst k1.
  destruct (String.eqb_spec k k0) as [->|Hne]; [|apply IH].
  simpl. now rewrite E.
Qed.

Lemma sameScheduling_mapEntries (F : string * ActiveTile -> string * ActiveTile) L :
  (forall e, fst (F e) = fst e /\ key (snd (F e)) = key (snd e)
             /\ state (snd (F e)) = state (snd e)
             /\ attempts (snd (F e)) = attempts (snd e)) ->
  sameScheduling L (setTiles (map F (tiles L)) L).
Proof.
  intro HF. unfold sameScheduling. simpl. split; [|repeat split].
  - rewrite map_map. apply map_ext. intro e. apply HF.
  - intro k'. rewrite getTile_mapEntries by (intro e; apply HF).
    destruct (getTile k' (tiles L)) as [t|]; simpl; auto.
    destruct (HF (k', t)) as (_ & A & B & C). auto.
Qed.

Lemma wellFormed_mutate k f L :
  neutral f -> wellFormed cfg L -> wellFormed cfg (mutate k f L).
Proof.
  intros Hf. apply wellFormed_sameScheduling. now apply sameScheduling_mutate.
Qed.

(** On a well-formed layer the guarded enqueue finds nothing to do for a
    tile that is already cached. *)
Lemma enqueueIfIdleOrRetryable_settled k L :
  wellFormed cfg L -> enqueueIfIdleOrRetryable cfg k L = L.
Proof.
  intros (_ & W2 & _). unfold enqueueIfIdleOrRetryable.
  destruct (getTile k (tiles L)) as [t|] eqn:E; [|reflexivity].
  destruct (W2 k t E) as (_ & _ & Hidle & Herr & _).
  destruct (state t) eqn:Hs; try reflexivity.
  - now elim Hidle.
  - specialize (Herr eq_refl).
    destruct (Z.leb_spec (attempts t) (retryLimit cfg)); [lia | reflexivity].
Qed.

(** A new tile enters the cache and is enqueued at once. *)
Lemma wellFormed_fresh k (shell : ActiveTile) f L :
  wellFormed cfg L ->
  getTile k (tiles L) = None ->
  k <> EmptyString ->
  key shell = k -> state shell = Idle ->
  neutral f ->
  wellFormed cfg
    (enqueueIfIdleOrRetryable cfg k
       (mutate k f (setTiles (addTile k shell (tiles L)) L))).
Proof.
  intros (W1 & W2 & W3 & W4 & W5 & W6) Hnone Hne Hkey Hidle Hf.
  destruct (Hf shell) as (Fk & Fs & Fa).
  unfold enqueueIfIdleOrRetryable. simpl.
  rewrite getTile_mutTile_same, getTile_addTile, Hnone, String.eqb_refl. simpl.
  rewrite Fs, Hidle, Fk, Hkey.
  unfold enqueueTileLoad. simpl.
  rewrite getTile_mutTile_same, getTile_addTile, Hnone, String.eqb_refl. simpl.
  rewrite Fs, Hidle.
  set (m' := mutTile k (setState Queued) (mutTile k f (addTile k shell (tiles L)))).
  assert (Hget : forall k',
            getTile k' m'
            = if String.eqb k k' then Some (setState Queued (f shell))
              else getTile k' (tiles L)).
  { intro k'. unfold m'. rewrite !getTile_mutTile, getTile_addTile.
    destruct (String.eqb_spec k k') as [<-|Hk].
    - now rewrite Hnone, String.eqb_refl.
    - destruct (getTile k' (tiles L)); [reflexivity|].
      destruct (String.eqb_spec k' k); [congruence | reflexivity]. }
  assert (Hnd : NoDup (map fst m')).
  { unfold m'. rewrite !map_fst_mutTile. now apply NoDup_addTile. }
  assert (Hreq : forall k' a, In (k', a) (requests L) ->
            exists t, getTile k' m' = Some t /\ state t = Loading /\ attempts t = a).
  { intros k' a Hin. destruct (W5 k' a Hin) as (t & E & Sl & Sa).
    exists t. rewrite Hget.
    destruct (String.eqb_spec k k') as [<-|_]; [congruence | auto]. }
  assert (Hsettled : forall q, (forall x, In x (loadQueue L) -> In x q) -> In k q ->
            forall k' t, getTile k' m' = Some t ->
              key t = k' /\ k' <> EmptyString /\ state t <> Idle
              /\ (state t = Error -> retryLimit cfg < attempts t)
              /\ (state t = Queued -> In k' q)).
  { intros q Hq Hkq k' t E. rewrite Hget in E.
    destruct (String.eqb_spec k k') as [<-|_].
    - injection E as <-. simpl. rewrite Fk, Hkey.
      repeat split; auto; discriminate.
    - destruct (W2 k' t E) as (A & B & C & D & F). repeat split; auto. }
  destruct (memStr k (queuedKeys L)) eqn:Hmem.
  - apply memStr_In in Hmem. unfold wellFormed, tileSettled. simpl. fold m'.
    split; [exact Hnd|]. split; [|auto].
    intros k' t E. apply (Hsettled (loadQueue L)); auto.
  - unfold wellFormed, tileSettled. simpl. fold m'.
    split; [exact Hnd|]. split; [|split; [|split; [|auto]]].
    + intros k' t E. apply (Hsettled (loadQueue L ++ [k])); auto.
      * intros x Hx. apply in_app_iff. now left.
      * apply in_app_iff. right. now left.
    + intros k' Hin. apply In_setAdd in Hin. apply in_app_iff.
      destruct Hin as [->|Hin]; [right; now left | left; auto].
    + intros k' Hin. apply in_app_iff in Hin.
      destruct Hin as [Hin|[<-|[]]]; auto.
Qed.

Lemma wellFormed_wantTile now L d :
  d_key d = tileKey (d_tileId d) ->
  wellFormed cfg L -> wellFormed cfg (wantTile cfg now L d).
Proof.
  intros Hkey W. unfold wantTile.
  destruct (getTile (d_key d) (tiles L)) eqn:E.
  - rewrite enqueueIfIdleOrRetryable_settled.
    + apply wellFormed_mutate; [|assumption]. intro t. simpl. auto.
    + apply wellFormed_mutate; [|assumption]. intro t. simpl. auto.
  - apply wellFormed_fresh; auto.
    + rewrite Hkey. apply tileKey_nonempty.
    + intro t. simpl. auto.
Qed.

(** Disposing of a tile that is not loading. *)
Lemma wellFormed_disposeTile k L :
  (forall t, getTile k (tiles L) = Some t -> state t <> Loading) ->
  wellFormed cfg L -> wellFormed cfg (disposeTile k L).
Proof.
  intros Hnl (W1 & W2 & W3 & W4 & W5 & W6).
  unfold wellFormed, tileSettled, disposeTile. simpl.
  split; [now apply NoDup_deleteTile|].
  split; [|split; [|split; [|split]]]; auto.
  - intros k' t E. rewrite getTile_deleteTile in E.
    destruct (String.eqb k k'); [discriminate|]. exact (W2 k' t E).
  - intros k' Hin. apply In_setDelete in Hin. apply W3. tauto.
  - intros k' a Hin. destruct (W5 k' a Hin) as (t & E & Sl & Sa).
    exists t. rewrite getTile_deleteTile.
    destruct (String.eqb_spec k k') as [<-|_]; [|auto].
    elim (Hnl t E). exact Sl.
Qed.


Lemma tilesWithin_disposeTile k L : tilesWithin L (disposeTile k L).
Proof.
  intros k' t. simpl. rewrite getTile_deleteTile.
  destruct (String.eqb k k'); [discriminate | auto].
Qed.

Lemma wellFormed_evictTiles wanted L :
  wellFormed cfg L -> wellFormed cfg (evictTiles cfg wanted L).
Proof.
  intro W. unfold evictTiles.
  set (stale := map fst _).
  set (L1 := fold_left _ stale L).
  assert (H1 : wellFormed cfg L1 /\ tilesWithin L L1).
  { unfold L1.
    assert (Hst : forall k, In k stale ->
              forall t, getTile k (tiles L) = Some t -> state t <> Loading).
    { intros k Hin t E. unfold stale in Hin. apply in_map_iff in Hin.
      destruct Hin as [[k0 t0] [Hk Hin]]. simpl in Hk. subst k0.
      apply filter_In in Hin. destruct Hin as [Hin Hcond]. simpl in Hcond.
      rewrite (In_getTile k t0 (tiles L) (proj1 W) Hin) in E. injection E as <-.
      intro Hs. unfold isLoading in Hcond. rewrite Hs in Hcond. simpl in Hcond.
      rewrite andb_false_r in Hcond. discriminate. }
    clearbody stale. clear L1.
    assert (Hgen : forall A, wellFormed cfg A /\ tilesWithin L A ->
              let A' := fold_left (fun acc k0 =>
                          match getTile k0 (tiles acc) with
                          | None => acc
                          | Some _ => disposeTile k0 acc
                          end) stale A in
              wellFormed cfg A' /\ tilesWithin L A').
    { induction stale as [|s stale IH]; intros A HA; simpl; [exact HA|].
      apply IH; [intros; eapply Hst; [right|]; eassumption|].
      destruct HA as [WA TA].
      destruct (getTile s (tiles A)) eqn:Es; [|split; assumption].
      split.
      - apply wellFormed_disposeTile; [|assumption].
        intros t E. apply (Hst s (or_introl eq_refl) t). apply TA. exact E.
      - intros k t E. apply TA. eapply tilesWithin_disposeTile. exact E. }
    apply Hgen. split; [assumption | intros k t E; exact E]. }
  destruct H1 as [W1 T1].
  destruct (tileCount L1 <=? maxCachedTiles cfg); [assumption|].
  set (cands := stableSort evictOrder _).
  assert (Hc : forall c, In c cands ->
            forall t, getTile (key c) (tiles L1) = Some t -> state t <> Loading).
  { intros c Hin t E. unfold cands in Hin. apply In_stableSort in Hin.
    apply filter_In in Hin. destruct Hin as [Hin Hcond].
    apply in_map_iff in Hin. destruct Hin as [[k0 t0] [Hk Hin]]. simpl in Hk. subst t0.
    pose proof (In_getTile k0 c (tiles L1) (proj1 W1) Hin) as E0.
    destruct (proj1 (proj2 W1) k0 c E0) as (Hkey & _).
    rewrite Hkey, E0 in E. injection E as <-.
    intro Hs. unfold isLoading in Hcond. rewrite Hs in Hcond. simpl in Hcond.
    rewrite andb_false_r in Hcond. discriminate. }
  clearbody cands.
  assert (Hgen : forall A, wellFormed cfg A /\ tilesWithin L1 A ->
            let A' := fold_left (fun acc t =>
                        if tileCount acc <=? maxCachedTiles cfg then acc
                        else disposeTile (key t) acc) cands A in
            wellFormed cfg A').
  { induction cands as [|c cands IH]; intros A HA; simpl; [exact (proj1 HA)|].
    apply IH; [intros; eapply Hc; [right|]; eassumption|].
    destruct HA as [WA TA].
    destruct (tileCount A <=? maxCachedTiles cfg); [split; assumption|].
    split.
    - apply wellFormed_disposeTile; [|assumption].
      intros t E. apply (Hc c (or_introl eq_refl) t). apply TA. exact E.
    - intros k t E. apply TA. eapply tilesWithin_disposeTile. exact E. }
  apply Hgen. split; [assumption | intros k t E; exact E].
Qed.

Lemma wellFormed_wantAll now ds : forall L,
  (forall d, In d ds -> d_key d = tileKey (d_tileId d)) ->
  wellFormed cfg L -> wellFormed cfg (fold_left (wantTile cfg now) ds L).
Proof.
  induction ds as [|d ds IH]; intros L Hd W; simpl; [assumption|].
  apply IH; [intros; apply Hd; now right|].
  apply wellFormed_wantTile; [apply Hd; now left | assumption].
Qed.

Lemma wellFormed_applyViewState vs now L :
  wellFormed cfg L -> wellFormed cfg (applyViewState cfg vs now L).
Proof.
  intro W. unfold applyViewState.
  set (desired := collectDesiredTiles _ _ _ _ _).
  set (L1 := setActiveDesiredTiles _ _).
  set (L2 := fold_left _ desired L1).
  assert (W2 : wellFormed cfg L2).
  { apply wellFormed_wantAll; [|exact W].
    intro d. apply collectDesiredTiles_keys. }
  apply wellFormed_evictTiles.
  apply (wellFormed_sameScheduling L2); [|exact W2].
  match goal with
  | |- sameScheduling L2 (setStateKey ?s (setTiles (map ?F (tiles L2)) L2)) =>
      pose proof (sameScheduling_mapEntries F L2) as Hs
  end.
  apply Hs. intros [k t]. simpl.
  destruct (memStr (key t) _); simpl; auto.
  destruct (_ <? _); simpl; auto.
Qed.

End WellFormed.

Lemma In_removeAt {A : Type} (i : nat) (x : A) (l : list A) :
  In x (removeAt i l) -> In x l.
Proof.
  revert i. induction l as [|y l IH]; intros [|i]; simpl; try tauto.
  intros [H|H]; [auto | right; eauto].
Qed.

Lemma In_removeAt_other {A : Type} (i : nat) (k x : A) (l : list A) :
  nth_error l i = Some k -> x <> k -> In x l -> In x (removeAt i l).
Proof.
  revert i. induction l as [|y l IH]; intros [|i]; simpl; try tauto.
  - intros [= ->] Hne [H|H]; [congruence | assumption].
  - intros Hn Hne [H|H]; [now left | right; eauto].
Qed.

Lemma length_removeAt {A : Type} (i : nat) (k : A) (l : list A) :
  nth_error l i = Some k -> S (List.length (removeAt i l)) = List.length l.
Proof.
  revert i. induction l as [|y l IH]; intros [|i]; simpl; try discriminate.
  - reflexivity.
  - intro H. now rewrite (IH i H).
Qed.

Section WellFormedDrain.

Variable cfg : Config.

Lemma wellFormed_drainIteration L :
  wellFormed cfg L -> wellFormed cfg (fst (drainIteration cfg L)).
Proof.
  intros W. pose proof W as (W1 & W2 & W3 & W4 & W5 & W6).
  unfold drainIteration.
  destruct (_ && _); [|exact W].
  destruct (nth_error (loadQueue L) (pickBestQueueIndex L)) as [k|] eqn:En; [|exact W].
  pose proof (nth_error_In _ _ En) as Hin.
  destruct k as [|c r] eqn:Ek; [now elim (W4 EmptyString Hin)|]. rewrite <- Ek in *.
  clear Ek c r.
  set (L2 := setQueuedKeys _ (setLoadQueue _ L)).
  assert (Hq : forall x, In x (loadQueue L) -> x <> k -> In x (loadQueue L2)).
  { intros x Hx Hne. simpl. eapply In_removeAt_other; eassumption. }
  assert (Hbase : (forall t, getTile k (tiles L) = Some t -> state t <> Queued) ->
                  wellFormed cfg L2).
  { intro Hnq. unfold wellFormed, tileSettled. simpl.
    split; [exact W1|]. split; [|split; [|split; [|split]]]; auto.
    - intros k' t E. destruct (W2 k' t E) as (A & B & C & D & F).
      repeat split; auto; intro Hs; apply (Hq k' (F Hs));
        intros ->; exact (Hnq t E Hs).
    - intros k' Hk'. apply In_setDelete in Hk'. destruct Hk' as [Hne Hk'].
      apply (Hq k'); auto.
    - intros x Hx. apply W4. eapply In_removeAt. exact Hx. }
  simpl. change (tiles L2) with (tiles L).
  destruct (getTile k (tiles L)) as [t|] eqn:E; [|apply Hbase; discriminate].
  destruct (state t) eqn:Hs; try (apply Hbase; intros t' [= <-]; congruence).
  (* the tile is started *)
  destruct (W2 k t E) as (Hkey & Hne & _).
  unfold startTileLoad, wellFormed, tileSettled. simpl.
  rewrite map_fst_mutTile.
  split; [exact W1|]. split; [|split; [|split; [|split]]].
  - intros k' t' E'. rewrite getTile_mutTile in E'.
    destruct (String.eqb_spec k k') as [<-|Hk].
    + rewrite E in E'. simpl in E'. injection E' as <-. simpl.
      split; [auto|]. split; [auto|]. split; [discriminate|].
      split; discriminate.
    + destruct (W2 k' t' E') as (A & B & C & D & F).
      repeat split; auto; intro Hs'; apply (Hq k' (F Hs')); congruence.
  - intros k' Hk'. apply In_setDelete in Hk'. destruct Hk' as [Hne' Hk'].
    apply (Hq k'); auto.
  - intros x Hx. apply W4. eapply In_removeAt. exact Hx.
  - intros k' a Hin'. apply in_app_iff in Hin'. destruct Hin' as [Hin'|[Hin'|[]]].
    + destruct (W5 k' a Hin') as (t' & E' & Sl & Sa).
      exists t'. rewrite getTile_mutTile.
      destruct (String.eqb_spec k k') as [<-|_]; [congruence | auto].
    + injection Hin' as <- <-. rewrite Hkey.
      rewrite getTile_mutTile_same, E. simpl. eexists. split; [reflexivity|].
      simpl. auto.
  - rewrite map_app. simpl. apply NoDup_app; [exact W6 | repeat constructor; simpl; tauto|].
    intros x Hx [<-|[]]. apply in_map_iff in Hx. destruct Hx as [[k' a] [Hk' Hx]].
    simpl in Hk'. subst k'. rewrite Hkey in Hx.
    destruct (W5 k a Hx) as (t' & E' & Sl & _). congruence.
Qed.

Lemma wellFormed_processLoadQueueLoop fuel : forall L,
  wellFormed cfg L -> wellFormed cfg (processLoadQueueLoop cfg fuel L).
Proof.
  induction fuel as [|f IH]; intros L W; simpl; [assumption|].
  pose proof (wellFormed_drainIteration L W) as W'.
  destruct (drainIteration cfg L) as [L' again]. simpl in W'.
  destruct again; auto.
Qed.

Lemma wellFormed_processLoadQueue L :
  wellFormed cfg L -> wellFormed cfg (processLoadQueue cfg L).
Proof. apply wellFormed_processLoadQueueLoop. Qed.

End WellFormedDrain.

Lemma growsQuietly_refl L : growsQuietly L L.
Proof.
  intro k. destruct (getTile k (tiles L)) as [t|] eqn:E; [eauto | discriminate].
Qed.

Lemma growsQuietly_trans L1 L2 L3 :
  growsQuietly L1 L2 -> growsQuietly L2 L3 -> growsQuietly L1 L3.
Proof.
  intros H12 H23 k. specialize (H12 k). specialize (H23 k).
  destruct (getTile k (tiles L1)) as [t1|].
  - destruct H12 as (t2 & E2 & S2 & A2). rewrite E2 in H23.
    destruct H23 as (t3 & E3 & S3 & A3). exists t3. repeat split; congruence.
  - intros t3 E3. destruct (getTile k (tiles L2)) as [t2|].
    + destruct H23 as (t3' & E3' & S3 & A3). rewrite E3 in E3'. injection E3' as <-.
      destruct (H12 t2 eq_refl). split; congruence.
    + exact (H23 t3 E3).
Qed.

Lemma growsQuietly_sameScheduling L L' : sameScheduling L L' -> growsQuietly L L'.
Proof.
  intros (_ & _ & _ & _ & H) k. specialize (H k).
  destruct (getTile k (tiles L)) as [t|]; destruct (getTile k (tiles L')) as [t'|];
    try contradiction; [|discriminate].
  exists t'. tauto.
Qed.

Lemma allCached_grows L L' keys :
  growsQuietly L L' -> allCached L keys -> allCached L' keys.
Proof.
  intros Hg Hc x Hx. specialize (Hc x Hx). specialize (Hg x).
  destruct (getTile x (tiles L)) as [t|]; [|now elim Hc].
  destruct Hg as (t' & E & _). congruence.
Qed.

Section WellFormedPass.

Variable cfg : Config.

(** The cache after a new tile was created under [k] and enqueued. *)
Lemma getTile_fresh k (shell : ActiveTile) f L :
  getTile k (tiles L) = None ->
  key shell = k -> state shell = Idle -> neutral f ->
  forall k',
    getTile k' (tiles (enqueueIfIdleOrRetryable cfg k
                         (mutate k f (setTiles (addTile k shell (tiles L)) L))))
    = if String.eqb k k' then Some (setState Queued (f shell))
      else getTile k' (tiles L).
Proof.
  intros Hnone Hkey Hidle Hf k'. destruct (Hf shell) as (Fk & Fs & Fa).
  unfold enqueueIfIdleOrRetryable. simpl.
  rewrite getTile_mutTile_same, getTile_addTile, Hnone, String.eqb_refl. simpl.
  rewrite Fs, Hidle, Fk, Hkey.
  unfold enqueueTileLoad. simpl.
  rewrite getTile_mutTile_same, getTile_addTile, Hnone, String.eqb_refl. simpl.
  rewrite Fs, Hidle.
  assert (Hget : getTile k' (mutTile k (setState Queued)
                               (mutTile k f (addTile k shell (tiles L))))
                 = if String.eqb k k' then Some (setState Queued (f shell))
                   else getTile k' (tiles L)).
  { rewrite !getTile_mutTile, getTile_addTile.
    destruct (String.eqb_spec k k') as [<-|Hk].
    - now rewrite Hnone, String.eqb_refl.
    - destruct (getTile k' (tiles L)); [reflexivity|].
      destruct (String.eqb_spec k' k); [congruence | reflexivity]. }
  destruct (memStr k (queuedKeys L)); exact Hget.
Qed.

Lemma growsQuietly_fresh k (shell : ActiveTile) f L :
  getTile k (tiles L) = None ->
  key shell = k -> state shell = Idle -> attempts shell = 0 -> neutral f ->
  growsQuietly L (enqueueIfIdleOrRetryable cfg k
                    (mutate k f (setTiles (addTile k shell (tiles L)) L))).
Proof.
  intros Hnone Hkey Hidle Hatt Hf k'.
  rewrite (getTile_fresh k shell f L Hnone Hkey Hidle Hf).
  destruct (String.eqb_spec k k') as [<-|Hk].
  - rewrite Hnone. intros t' [= <-]. simpl. destruct (Hf shell) as (_ & _ & Fa).
    split; [reflexivity | congruence].
  - destruct (getTile k' (tiles L)) as [t|]; [eauto | discriminate].
Qed.

Lemma growsQuietly_mutate k f L : neutral f -> growsQuietly L (mutate k f L).
Proof.
  intro Hf. apply growsQuietly_sameScheduling. now apply sameScheduling_mutate.
Qed.

(** The part of [wantTile] and of the ancestor walk that makes sure the
    tile exists, stamps it and enqueues it. *)
Lemma touch_spec k (shell : ActiveTile) f L :
  k <> EmptyString -> key shell = k -> state shell = Idle -> attempts shell = 0 -> neutral f ->
  wellFormed cfg L ->
  let L1 :=
    match getTile k (tiles L) with
    | Some _ => L
    | None => setTiles (addTile k shell (tiles L)) L
    end in
  let L2 := enqueueIfIdleOrRetryable cfg k (mutate k f L1) in
  wellFormed cfg L2 /\ growsQuietly L L2 /\ getTile k (tiles L2) <> None.
Proof.
  intros Hne Hkey Hidle Hatt Hf W. simpl.
  destruct (getTile k (tiles L)) as [t|] eqn:E.
  - assert (Wm : wellFormed cfg (mutate k f L)) by now apply wellFormed_mutate.
    rewrite (enqueueIfIdleOrRetryable_settled cfg k _ Wm).
    split; [exact Wm|]. split; [now apply growsQuietly_mutate|].
    simpl. rewrite getTile_mutTile_same, E. discriminate.
  - split; [now apply wellFormed_fresh|]. split; [now apply growsQuietly_fresh|].
    rewrite (getTile_fresh k shell f L E Hkey Hidle Hf), String.eqb_refl. discriminate.
Qed.

Lemma wantTile_growsQuietly now L d :
  d_key d = tileKey (d_tileId d) ->
  wellFormed cfg L -> growsQuietly L (wantTile cfg now L d).
Proof.
  intros Hk W. unfold wantTile.
  apply (touch_spec (d_key d) (createTileShell (d_tileId d) (d_key d) now L)); auto.
  - rewrite Hk. apply tileKey_nonempty.
  - intro t. simpl. auto.
Qed.

Lemma wantAll_growsQuietly now ds : forall L,
  (forall d, In d ds -> d_key d = tileKey (d_tileId d)) ->
  wellFormed cfg L -> growsQuietly L (fold_left (wantTile cfg now) ds L).
Proof.
  induction ds as [|d ds IH]; intros L Hd W; simpl; [apply growsQuietly_refl|].
  eapply growsQuietly_trans.
  - apply (wantTile_growsQuietly now L d); [apply Hd; now left | exact W].
  - apply IH; [intros; apply Hd; now right|].
    apply wellFormed_wantTile; [apply Hd; now left | exact W].
Qed.

Lemma findReadyAncestorLoop_wellFormed fuel : forall x y z now touched L,
  wellFormed cfg L -> allCached L touched ->
  let '(_, touched', L') := findReadyAncestorLoop cfg fuel x y z now touched L in
  wellFormed cfg L' /\ allCached L' touched' /\ growsQuietly L L'.
Proof.
  induction fuel as [|f IH]; intros x y z now touched L W Hc; simpl.
  - split; [exact W|]. split; [exact Hc | apply growsQuietly_refl].
  - destruct (minZoom cfg <? z);
      [|split; [exact W | split; [exact Hc | apply growsQuietly_refl]]].
    set (id := mkTileId (x / 2) (y / 2) (z - 1)).
    set (k := tileKey id).
    pose proof (touch_spec k (createTileShell id k now L)
                  (fun t => setLastTouchedFrame (frame L) (setLastWantedFrame (frame L) t))
                  L (tileKey_nonempty id) eq_refl eq_refl eq_refl) as Ht.
    specialize (Ht (fun t => conj eq_refl (conj eq_refl eq_refl)) W).
    simpl in Ht.
    set (L1 := match getTile k (tiles L) with Some _ => L | None => _ end) in *.
    set (pair := if memStr k touched then (touched, L1) else _).
    assert (Hp : wellFormed cfg (snd pair) /\ allCached (snd pair) (fst pair)
                 /\ growsQuietly L (snd pair)).
    { unfold pair. destruct (memStr k touched) eqn:Hm; simpl.
      - apply memStr_In in Hm. pose proof (Hc k Hm) as Hk.
        unfold L1. destruct (getTile k (tiles L)); [|now elim Hk].
        split; [exact W|]. split; [exact Hc | apply growsQuietly_refl].
      - destruct Ht as (T1 & T2 & T3). split; [exact T1|]. split; [|exact T2].
        intros q Hq. apply In_setAdd in Hq. destruct Hq as [->|Hq]; [exact T3|].
        exact (allCached_grows _ _ _ T2 Hc q Hq). }
    destruct pair as [touched' L2]. simpl in Hp. destruct Hp as (P1 & P2 & P3).
    specialize (IH (x / 2) (y / 2) (z - 1) now touched' L2 P1 P2).
    destruct (findReadyAncestorLoop cfg f (x / 2) (y / 2) (z - 1) now touched' L2)
      as [[fb tch] L3].
    destruct IH as (I1 & I2 & I3).
    assert (Hrec : wellFormed cfg L3 /\ allCached L3 tch /\ growsQuietly L L3).
    { split; [exact I1|]. split; [exact I2|]. eapply growsQuietly_trans; eassumption. }
    destruct (getTile k (tiles L2)) as [p|]; [|exact Hrec].
    destruct (state p); try exact Hrec.
    split; [exact P1|]. split; [exact P2 | exact P3].
Qed.

Lemma visitDesired_wellFormed now vis touched L d :
  wellFormed cfg L -> allCached L touched ->
  let '(_, touched', L') := visitDesired cfg now (vis, touched, L) d in
  wellFormed cfg L' /\ allCached L' touched' /\ growsQuietly L L'.
Proof.
  intros W Hc. unfold visitDesired.
  destruct (getTile (d_key d) (tiles L)) as [cur|];
    [|split; [exact W | split; [exact Hc | apply growsQuietly_refl]]].
  assert (Hn : forall L0 k, neutral (setLastWantedFrame (frame L0))
                            /\ (wellFormed cfg L0 ->
                                wellFormed cfg (mutate k (setLastWantedFrame (frame L0)) L0))
                            /\ growsQuietly L0 (mutate k (setLastWantedFrame (frame L0)) L0)).
  { intros L0 k.
    assert (N : neutral (setLastWantedFrame (frame L0))) by (intro t; simpl; auto).
    split; [exact N|]. split; [now apply wellFormed_mutate | now apply growsQuietly_mutate]. }
  assert (Hwalk :
    let '(_, touched', L') :=
      let '(fallback, touched', L') :=
        findReadyAncestor cfg (d_tileId d) now touched L in
      match fallback with
      | Some fk =>
          match getTile fk (tiles L') with
          | Some fb =>
              (setAdd (key fb) vis, touched',
               mutate fk (setLastWantedFrame (frame L')) L')
          | None => (vis, touched', L')
          end
      | None => (vis, touched', L')
      end in
    wellFormed cfg L' /\ allCached L' touched' /\ growsQuietly L L').
  { unfold findReadyAncestor.
    pose proof (findReadyAncestorLoop_wellFormed
                  (Z.to_nat (maxParentSearchDepth cfg)) (tid_x (d_tileId d))
                  (tid_y (d_tileId d)) (tid_z (d_tileId d)) now touched L W Hc) as Hl.
    destruct (findReadyAncestorLoop cfg _ _ _ _ now touched L) as [[fb tch] L1].
    destruct Hl as (A1 & A2 & A3).
    destruct fb as [fk|]; [|tauto].
    destruct (getTile fk (tiles L1)); [|tauto].
    destruct (Hn L1 fk) as (N1 & N2 & N3).
    split; [auto|]. split.
    - eapply allCached_grows; eassumption.
    - eapply growsQuietly_trans; eassumption. }
  destruct (state cur); try exact Hwalk.
  destruct (Hn L (d_key d)) as (N1 & N2 & N3).
  split; [auto|]. split; [|exact N3].
  eapply allCached_grows; eassumption.
Qed.

Lemma updateProgressiveVisibility_wellFormed now L :
  wellFormed cfg L ->
  wellFormed cfg (updateProgressiveVisibility cfg now L)
  /\ growsQuietly L (updateProgressiveVisibility cfg now L).
Proof.
  intro W. unfold updateProgressiveVisibility.
  assert (Hfold : forall ds vis touched A,
            wellFormed cfg A -> allCached A touched ->
            let '(_, _, A') := fold_left (visitDesired cfg now) ds (vis, touched, A) in
            wellFormed cfg A' /\ growsQuietly A A').
  { induction ds as [|d ds IH]; intros vis touched A WA HA; cbn [fold_left].
    - split; [exact WA | apply growsQuietly_refl].
    - pose proof (visitDesired_wellFormed now vis touched A d WA HA) as Hv.
      destruct (visitDesired cfg now (vis, touched, A) d) as [[vis1 touched1] A1].
      destruct Hv as (V1 & V2 & V3).
      specialize (IH vis1 touched1 A1 V1 V2).
      destruct (fold_left (visitDesired cfg now) ds (vis1, touched1, A1))
        as [[vis2 touched2] A2].
      destruct IH as (I1 & I2). split; [exact I1|].
      eapply growsQuietly_trans; eassumption. }
  specialize (Hfold (activeDesiredTiles L) [] [] L W (fun x (H : In x []) => match H with end)).
  destruct (fold_left (visitDesired cfg now) (activeDesiredTiles L) ([], [], L))
    as [[vis touched] L1].
  destruct Hfold as (F1 & F2).
  match goal with
  | |- wellFormed cfg (setTiles (map ?F (tiles L1)) L1) /\ _ =>
      pose proof (sameScheduling_mapEntries F L1) as Hs
  end.
  assert (Hsame : sameScheduling L1 (setTiles (map
            (fun e => (fst e,
               animateTileOpacity cfg now
                 (setTargetOpacity
                    (if memStr (key (snd e)) vis && TileState_eqb (state (snd e)) Ready
                        && (frame L1 - lastWantedFrame (snd e) <=? retainFrames cfg)
                     then opacity cfg else 0%Q) (snd e)))) (tiles L1)) L1)).
  { apply Hs. intros [k t]. simpl.
    match goal with
    | |- context [animateTileOpacity cfg now ?T] =>
        destruct (animateTileOpacity_fields cfg now T) as (A1 & _ & _ & A4 & A5)
    end.
    rewrite A1, A4, A5. simpl. auto. }
  split.
  - eapply wellFormed_sameScheduling; eassumption.
  - eapply growsQuietly_trans; [exact F2|]. now apply growsQuietly_sameScheduling.
Qed.

End WellFormedPass.

Lemma requestEqb_eq (a b : Request) : requestEqb a b = true <-> a = b.
Proof.
  destruct a as [k1 a1], b as [k2 a2]. unfold requestEqb. simpl.
  rewrite andb_true_iff, String.eqb_eq, Z.eqb_eq. split.
  - intros [-> ->]. reflexivity.
  - intros [= -> ->]. auto.
Qed.

Lemma hasRequest_In (r : Request) (L : Layer) :
  hasRequest r L = true <-> In r (requests L).
Proof.
  unfold hasRequest. rewrite existsb_exists. split.
  - intros [x [Hin Heq]]. apply requestEqb_eq in Heq. now subst.
  - intro H. exists r. split; [assumption | now apply requestEqb_eq].
Qed.

Lemma In_removeRequest (r x : Request) (l : list Request) :
  In x (removeRequest r l) -> In x l.
Proof.
  induction l as [|y l IH]; simpl; [tauto|].
  destruct (requestEqb r y); simpl; intuition.
Qed.

Lemma NoDup_removeRequest (r : Request) (l : list Request) :
  NoDup (map fst l) -> NoDup (map fst (removeRequest r l)).
Proof.
  induction l as [|y l IH]; simpl; [auto|].
  intro H. inversion H as [|? ? Hnotin Hnd]; subst.
  destruct (requestEqb r y); simpl; [assumption|].
  constructor; [|auto].
  intro Hin. apply Hnotin. apply in_map_iff in Hin. destruct Hin as [x [Hx Hin]].
  apply in_map_iff. exists x. split; [assumption|]. eapply In_removeRequest; eassumption.
Qed.

Lemma removeRequest_key (k : string) (a : Z) (l : list Request) :
  NoDup (map fst l) -> In (k, a) l ->
  forall a', ~ In (k, a') (removeRequest (k, a) l).
Proof.
  induction l as [|y l IH]; simpl; [tauto|].
  intros Hnd Hin a' Hcontra. inversion Hnd as [|? ? Hnotin Hnd']; subst.
  destruct (requestEqb (k, a) y) eqn:Ey.
  - apply requestEqb_eq in Ey. subst y. simpl in Hnotin.
    apply Hnotin. apply in_map_iff. exists (k, a'). auto.
  - destruct Hin as [->|Hin].
    + assert (requestEqb (k, a) (k, a) = true) by now apply requestEqb_eq. congruence.
    + destruct Hcontra as [->|Hc].
      * simpl in Hnotin. apply Hnotin. apply in_map_iff. exists (k, a). auto.
      * exact (IH Hnd' Hin a' Hc).
Qed.

Section WellFormedCallbacks.

Variable cfg : Config.

Lemma getTile_enqueueTileLoad_other k k' L :
  k <> k' -> getTile k' (tiles (enqueueTileLoad k L)) = getTile k' (tiles L).
Proof.
  intro Hne. unfold enqueueTileLoad.
  destruct (getTile k (tiles L)) as [t|]; [|reflexivity].
  destruct (state t); try reflexivity;
    (destruct (memStr k _); simpl; now rewrite getTile_mutTile_other).
Qed.

(** The loader answers an open request. *)
Lemma wellFormed_answered k a L :
  wellFormed cfg L -> In (k, a) (requests L) ->
  let L0 := setRequests (removeRequest (k, a) (requests L)) L in
  wellFormed cfg L0
  /\ (exists t, getTile k (tiles L0) = Some t /\ state t = Loading /\ attempts t = a)
  /\ (forall a', ~ In (k, a') (requests L0)).
Proof.
  intros (W1 & W2 & W3 & W4 & W5 & W6) Hin. simpl.
  split; [|split].
  - unfold wellFormed. simpl.
    split; [exact W1|]. split; [exact W2|]. split; [exact W3|].
    split; [exact W4|]. split.
    + intros k' a' Hin'. apply W5. eapply In_removeRequest; eassumption.
    + now apply NoDup_removeRequest.
  - exact (W5 k a Hin).
  - now apply removeRequest_key.
Qed.

(** Rewriting the tile under [k] into a settled tile that is neither
    queued nor loading, when no request is open for [k]. *)
Lemma wellFormed_settle k f t L :
  wellFormed cfg L ->
  getTile k (tiles L) = Some t ->
  (forall a, ~ In (k, a) (requests L)) ->
  key (f t) = key t ->
  state (f t) = Ready \/ (state (f t) = Error /\ retryLimit cfg < attempts (f t)) ->
  wellFormed cfg (mutate k f L).
Proof.
  intros (W1 & W2 & W3 & W4 & W5 & W6) E Hnoreq Hkey Hst.
  unfold wellFormed, tileSettled. simpl. rewrite map_fst_mutTile.
  split; [exact W1|]. split; [|split; [|split; [|split]]]; auto.
  - intros k' t' E'. rewrite getTile_mutTile in E'.
    destruct (String.eqb_spec k k') as [<-|Hne].
    + rewrite E in E'. simpl in E'. injection E' as <-.
      destruct (W2 k t E) as (A & B & _).
      split; [congruence|]. split; [exact B|].
      destruct Hst as [Hr|[He Ha]]; rewrite ?Hr, ?He;
        (split; [discriminate|]); (split; [auto; discriminate | discriminate]).
    + exact (W2 k' t' E').
  - intros k' a Hin. destruct (W5 k' a Hin) as (t' & E' & Sl & Sa).
    exists t'. rewrite getTile_mutTile_other; [auto|].
    intros ->. exact (Hnoreq a Hin).
Qed.

(** The retry path of [failTile]. *)
Lemma requeue_spec k t L :
  wellFormed cfg L ->
  getTile k (tiles L) = Some t ->
  (forall a, ~ In (k, a) (requests L)) ->
  let L' := enqueueTileLoad k (mutate k (setState Idle) (mutate k (setState Error) L)) in
  wellFormed cfg L'
  /\ getTile k (tiles L') = Some (setState Queued (setState Idle (setState Error t)))
  /\ In k (loadQueue L')
  /\ (forall k', k <> k' -> getTile k' (tiles L') = getTile k' (tiles L)).
Proof.
  intros (W1 & W2 & W3 & W4 & W5 & W6) E Hnoreq. simpl.
  destruct (W2 k t E) as (Hkey & Hne & _).
  unfold enqueueTileLoad. simpl.
  rewrite !getTile_mutTile_same, E. simpl.
  set (m' := mutTile k (setState Queued)
               (mutTile k (setState Idle) (mutTile k (setState Error) (tiles L)))).
  assert (Hget : forall k',
            getTile k' m'
            = if String.eqb k k'
              then Some (setState Queued (setState Idle (setState Error t)))
              else getTile k' (tiles L)).
  { intro k'. unfold m'. rewrite !getTile_mutTile.
    destruct (String.eqb_spec k k') as [<-|_]; [now rewrite E | reflexivity]. }
  assert (Hnd : NoDup (map fst m')).
  { unfold m'. now rewrite !map_fst_mutTile. }
  assert (Hreq : forall k' a, In (k', a) (requests L) ->
            exists t', getTile k' m' = Some t' /\ state t' = Loading /\ attempts t' = a).
  { intros k' a Hin. destruct (W5 k' a Hin) as (t' & E' & Sl & Sa).
    exists t'. rewrite Hget.
    destruct (String.eqb_spec k k') as [<-|_]; [now elim (Hnoreq a) | auto]. }
  assert (Hsettled : forall q, (forall x, In x (loadQueue L) -> In x q) -> In k q ->
            forall k' t', getTile k' m' = Some t' ->
              key t' = k' /\ k' <> EmptyString /\ state t' <> Idle
              /\ (state t' = Error -> retryLimit cfg < attempts t')
              /\ (state t' = Queued -> In k' q)).
  { intros q Hq Hkq k' t' E'. rewrite Hget in E'.
    destruct (String.eqb_spec k k') as [<-|_].
    - injection E' as <-. simpl.
      split; [exact Hkey|]. split; [exact Hne|]. split; [discriminate|].
      split; [discriminate | auto].
    - destruct (W2 k' t' E') as (A & B & C & D & F). repeat split; auto. }
  assert (Hother : forall k', k <> k' -> getTile k' m' = getTile k' (tiles L)).
  { intros k' Hk. rewrite Hget. destruct (String.eqb_spec k k'); [contradiction | reflexivity]. }
  assert (Hself : getTile k m' = Some (setState Queued (setState Idle (setState Error t)))).
  { rewrite Hget. now rewrite String.eqb_refl. }
  destruct (memStr k (queuedKeys L)) eqn:Hmem.
  - apply memStr_In in Hmem. simpl. fold m'.
    split; [|split; [exact Hself | split; [auto | exact Hother]]].
    unfold wellFormed, tileSettled. simpl. fold m'.
    split; [exact Hnd|]. split; [|auto].
    intros k' t' E'. apply (Hsettled (loadQueue L)); auto.
  - simpl. fold m'.
    split; [|split; [exact Hself | split; [|exact Hother]]].
    + unfold wellFormed, tileSettled. simpl. fold m'.
      split; [exact Hnd|]. split; [|split; [|split; [|auto]]].
      * intros k' t' E'. apply (Hsettled (loadQueue L ++ [k])); auto.
        -- intros x Hx. apply in_app_iff. now left.
        -- apply in_app_iff. right. now left.
      * intros k' Hin. apply In_setAdd in Hin. apply in_app_iff.
        destruct Hin as [->|Hin]; [right; now left | left; auto].
      * intros k' Hin. apply in_app_iff in Hin.
        destruct Hin as [Hin|[<-|[]]]; auto.
    + apply in_app_iff. right. now left.
Qed.

(** [failTile] on a tile that no request is open for. *)
Lemma failTile_spec k t L :
  wellFormed cfg L ->
  getTile k (tiles L) = Some t ->
  (forall a, ~ In (k, a) (requests L)) ->
  let L' := failTile cfg k L in
  wellFormed cfg L'
  /\ (forall k', k <> k' -> getTile k' (tiles L') = getTile k' (tiles L))
  /\ exists t', getTile k (tiles L') = Some t' /\ attempts t' = attempts t
                /\ if attempts t <=? retryLimit cfg
                   then state t' = Queued /\ In k (loadQueue L')
                   else state t' = Error.
Proof.
  intros W E Hnoreq. simpl. unfold failTile. simpl.
  rewrite getTile_mutTile_same, E. simpl.
  destruct (proj1 (proj2 W) k t E) as (Hkey & _).
  destruct (Z.leb_spec (attempts t) (retryLimit cfg)) as [Hle|Hgt].
  - rewrite Hkey.
    destruct (requeue_spec k t L W E Hnoreq) as (R1 & R2 & R3 & R4).
    split; [exact R1|]. split; [exact R4|].
    eexists. split; [exact R2|]. simpl. auto.
  - split; [|split].
    + apply (wellFormed_settle k (setState Error) t); auto;
        right; simpl; split; try reflexivity; lia.
    + intros k' Hk. simpl. now rewrite getTile_mutTile_other.
    + exists (setState Error t). simpl. rewrite getTile_mutTile_same, E. auto.
Qed.

Lemma onErrorBody_spec k a L :
  wellFormed cfg L -> In (k, a) (requests L) ->
  let L' := onErrorBody cfg k a (setRequests (removeRequest (k, a) (requests L)) L) in
  wellFormed cfg L'
  /\ (forall k', k <> k' -> getTile k' (tiles L') = getTile k' (tiles L))
  /\ exists t', getTile k (tiles L') = Some t' /\ attempts t' = a
                /\ if a <=? retryLimit cfg
                   then state t' = Queued /\ In k (loadQueue L')
                   else state t' = Error.
Proof.
  intros W Hin. simpl.
  destruct (wellFormed_answered k a L W Hin) as (W0 & (t & E & Sl & Sa) & Hnoreq).
  unfold onErrorBody. simpl in *. rewrite E, Sa, Z.eqb_refl. simpl.
  set (L1 := releaseSlot _).
  destruct (failTile_spec k t L1 W0 E Hnoreq) as (F1 & F2 & (t' & F3 & F4 & F5)).
  split; [exact F1|]. split; [exact F2|].
  exists t'. rewrite Sa in F4, F5. split; [exact F3|]. split; [exact F4 | exact F5].
Qed.

Lemma onLoadBody_spec k a L :
  wellFormed cfg L -> In (k, a) (requests L) ->
  let L' := onLoadBody k a (setRequests (removeRequest (k, a) (requests L)) L) in
  wellFormed cfg L'
  /\ (forall k', k <> k' -> getTile k' (tiles L') = getTile k' (tiles L))
  /\ exists t', getTile k (tiles L') = Some t' /\ attempts t' = a /\ state t' = Ready.
Proof.
  intros W Hin. simpl.
  destruct (wellFormed_answered k a L W Hin) as (W0 & (t & E & Sl & Sa) & Hnoreq).
  unfold onLoadBody. simpl in *. rewrite E, Sa, Z.eqb_refl. simpl.
  split; [|split].
  - apply (wellFormed_settle k _ t
             (releaseSlot (setRequests (removeRequest (k, a) (requests L)) L)));
      auto.
  - intros k' Hk. now rewrite getTile_mutTile_other.
  - rewrite getTile_mutTile_same, E. simpl. eexists. split; [reflexivity|]. simpl. auto.
Qed.

Lemma wellFormed_updateView next now L :
  wellFormed cfg L -> wellFormed cfg (updateView cfg next now L).
Proof.
  intro W. unfold updateView. destruct (negb (enabled cfg)); [exact W|].
  unfold updateFrame.
  set (L0 := setFrame _ L).
  set (L1 := setPendingViewState _ L0).
  set (L2 := match appliedBy cfg L0 next now with Some _ => _ | None => L1 end).
  assert (W2 : wellFormed cfg L2).
  { unfold L2. destruct (appliedBy cfg L0 next now) as [a|]; [|exact W].
    apply (wellFormed_sameCore cfg (applyViewState cfg a now L1)); try reflexivity.
    apply wellFormed_applyViewState. exact W. }
  set (L3 := updateProgressiveVisibility cfg now (processLoadQueue cfg L2)).
  assert (W3 : wellFormed cfg L3).
  { apply updateProgressiveVisibility_wellFormed.
    now apply wellFormed_processLoadQueue. }
  destruct (appliedViewState L3); exact W3.
Qed.

Lemma wellFormed_step L ev :
  wellFormed cfg L -> wellFormed cfg (step cfg L ev).
Proof.
  intro W. destruct ev as [next now|k a|k a]; simpl.
  - now apply wellFormed_updateView.
  - destruct (hasRequest (k, a) L) eqn:Hreq; [|exact W].
    apply hasRequest_In in Hreq. apply wellFormed_processLoadQueue.
    now apply onLoadBody_spec.
  - destruct (hasRequest (k, a) L) eqn:Hreq; [|exact W].
    apply hasRequest_In in Hreq. apply wellFormed_processLoadQueue.
    now apply onErrorBody_spec.
Qed.

Lemma reachable_wellFormed L : reachable cfg L -> wellFormed cfg L.
Proof.
  intros [evs ->]. unfold run. apply fold_left_invariant.
  - intros a b. apply wellFormed_step.
  - unfold wellFormed. simpl.
    repeat split; try constructor; try discriminate; try tauto.
Qed.

Lemma wellFormed_keysConsistent L : wellFormed cfg L -> keysConsistent L.
Proof.
intros (W1 & W2 & _) k t Hin.
exact (proj1 (W2 k t (In_getTile k t (tiles L) W1 Hin))).
Qed.

End WellFormedCallbacks.

(* ================================================================== *)
(** ** The retry bound *)

Lemma drained_refl L : drained L L.
Proof.
  intro k. destruct (getTile k (tiles L)) as [t|] eqn:E; [|reflexivity].
  exists t. auto.
Qed.

Lemma drained_trans L1 L2 L3 : drained L1 L2 -> drained L2 L3 -> drained L1 L3.
Proof.
  intros H12 H23 k. specialize (H12 k). specialize (H23 k).
  destruct (getTile k (tiles L1)) as [t1|].
  - destruct H12 as (t2 & E2 & H2). rewrite E2 in H23.
    destruct H23 as (t3 & E3 & H3). exists t3. split; [exact E3|].
    destruct H2 as [[S2 A2]|(Q2 & S2 & A2)]; destruct H3 as [[S3 A3]|(Q3 & S3 & A3)].
    + left. split; congruence.
    + right. repeat split; congruence.
    + right. repeat split; congruence.
    + congruence.
  - rewrite H12 in H23. exact H23.
Qed.

Lemma drained_sameTiles L L' : tiles L' = tiles L -> drained L L'.
Proof.
  intros H k. rewrite H. destruct (getTile k (tiles L)) as [t|] eqn:E; [|reflexivity].
  exists t. auto.
Qed.

Section RetryBound.

Variable cfg : Config.

Lemma drained_drainIteration L : drained L (fst (drainIteration cfg L)).
Proof.
  unfold drainIteration.
  destruct (_ && _); [|apply drained_refl].
  destruct (nth_error _ _) as [k|]; [|apply drained_refl].
  destruct k as [|c r] eqn:Ek; [now apply drained_sameTiles|].
  rewrite <- Ek. clear Ek c r.
  simpl. destruct (getTile k (tiles L)) as [t|] eqn:E; [|now apply drained_sameTiles].
  destruct (state t) eqn:Hs; try (now apply drained_sameTiles).
  intro k'. simpl. rewrite getTile_mutTile.
  destruct (String.eqb_spec k k') as [<-|_].
  - rewrite E. simpl. eexists. split; [reflexivity|]. right. simpl. auto.
  - destruct (getTile k' (tiles L)) as [t'|]; [|reflexivity]. exists t'. auto.
Qed.

Lemma drained_processLoadQueueLoop fuel : forall L,
  drained L (processLoadQueueLoop cfg fuel L).
Proof.
  induction fuel as [|f IH]; intro L; simpl; [apply drained_refl|].
  pose proof (drained_drainIteration L) as H.
  destruct (drainIteration cfg L) as [L' again]. simpl in H.
  destruct again; [|exact H]. eapply drained_trans; [exact H | apply IH].
Qed.

Lemma drained_processLoadQueue L : drained L (processLoadQueue cfg L).
Proof. apply drained_processLoadQueueLoop. Qed.

Lemma tilesWithin_evictTiles wanted L :
  tilesWithin L (evictTiles cfg wanted L).
Proof.
  assert (Hrefl : forall A, tilesWithin A A) by (intros A k t E; exact E).
  assert (Htrans : forall A B C, tilesWithin A B -> tilesWithin B C -> tilesWithin A C).
  { intros A B C HAB HBC k t E. apply HAB. apply HBC. exact E. }
  unfold evictTiles.
  set (stale := map fst _).
  set (L1 := fold_left _ stale L).
  assert (H1 : tilesWithin L L1).
  { unfold L1. apply (fold_left_invariant (fun a => tilesWithin L a)); [|apply Hrefl].
    intros a b Ha. destruct (getTile b (tiles a)); [|exact Ha].
    eapply Htrans; [exact Ha | apply tilesWithin_disposeTile]. }
  destruct (tileCount L1 <=? maxCachedTiles cfg); [exact H1|].
  apply (fold_left_invariant (fun a => tilesWithin L a)); [|exact H1].
  intros a b Ha. destruct (tileCount a <=? maxCachedTiles cfg); [exact Ha|].
  eapply Htrans; [exact Ha | apply tilesWithin_disposeTile].
Qed.

(** [applyViewState] changes neither the state nor the attempts of a tile
    that was cached before. *)
Lemma applyViewState_keeps vs now L k t t' :
  wellFormed cfg L ->
  getTile k (tiles L) = Some t ->
  getTile k (tiles (applyViewState cfg vs now L)) = Some t' ->
  state t' = state t /\ attempts t' = attempts t.
Proof.
  intros W E E'. unfold applyViewState in E'.
  set (desired := collectDesiredTiles _ _ _ _ _) in *.
  set (L1 := setActiveDesiredTiles _ _) in *.
  set (L2 := fold_left _ desired L1) in *.
  assert (G2 : growsQuietly L1 L2).
  { apply wantAll_growsQuietly; [|exact W]. intro d. apply collectDesiredTiles_keys. }
  apply tilesWithin_evictTiles in E'. simpl in E'.
  rewrite getTile_mapEntries in E'.
  2:{ intros [k0 t0]. simpl. destruct (memStr (key t0) _); [reflexivity|].
      destruct (_ <? _); reflexivity. }
  specialize (G2 k). change (tiles L1) with (tiles L) in G2. rewrite E in G2.
  destruct G2 as (t2 & E2 & S2 & A2). rewrite E2 in E'. simpl in E'.
  injection E' as <-.
  destruct (memStr (key t2) _); simpl; [auto|].
  destruct (_ <? _); simpl; auto.
Qed.

(** A tile at rest, ready or in error, and a frame update: afterwards the
    tile is gone, or unchanged in state and attempts, or a new entry. *)
Lemma updateView_rest next now L k t :
  wellFormed cfg L ->
  getTile k (tiles L) = Some t ->
  state t = Ready \/ state t = Error ->
  match getTile k (tiles (updateView cfg next now L)) with
  | None => True
  | Some t' =>
      (state t' = state t /\ attempts t' = attempts t)
      \/ (state t' = Queued /\ attempts t' = 0)
  end.
Proof.
  intros W E Hrest. unfold updateView.
  destruct (negb (enabled cfg)); [rewrite E; auto|].
  unfold updateFrame.
  set (L0 := setFrame _ L).
  set (L1 := setPendingViewState _ L0).
  set (L2 := match appliedBy cfg L0 next now with Some _ => _ | None => L1 end).
  assert (H2 : wellFormed cfg L2
               /\ forall t2, getTile k (tiles L2) = Some t2 ->
                             state t2 = state t /\ attempts t2 = attempts t).
  { unfold L2. destruct (appliedBy cfg L0 next now) as [a|].
    - split.
      + apply (wellFormed_sameCore cfg (applyViewState cfg a now L1)); try reflexivity.
        now apply wellFormed_applyViewState.
      + intros t2 E2. change (getTile k (tiles (applyViewState cfg a now L1)) = Some t2) in E2.
        eapply (applyViewState_keeps a now L1); eauto.
    - split; [exact W|]. intros t2 E2. change (tiles L1) with (tiles L) in E2.
      rewrite E in E2. injection E2 as <-. auto. }
  destruct H2 as [W2 K2].
  set (L3 := processLoadQueue cfg L2).
  assert (H3 : wellFormed cfg L3
               /\ forall t3, getTile k (tiles L3) = Some t3 ->
                             state t3 = state t /\ attempts t3 = attempts t).
  { split; [now apply wellFormed_processLoadQueue|].
    intros t3 E3. pose proof (drained_processLoadQueue L2 k) as Hd. fold L3 in Hd.
    destruct (getTile k (tiles L2)) as [t2|]; [|congruence].
    destruct Hd as (t3' & E3' & Hd). rewrite E3 in E3'. injection E3' as <-.
    destruct (K2 t2 eq_refl) as [S2 A2].
    destruct Hd as [[S3 A3]|(Q3 & _)]; [split; congruence|].
    destruct Hrest; congruence. }
  destruct H3 as [W3 K3].
  set (L4 := updateProgressiveVisibility cfg now L3).
  assert (H4 : match getTile k (tiles L4) with
               | None => True
               | Some t' =>
                   (state t' = state t /\ attempts t' = attempts t)
                   \/ (state t' = Queued /\ attempts t' = 0)
               end).
  { destruct (updateProgressiveVisibility_wellFormed cfg now L3 W3) as [_ G4].
    fold L4 in G4. specialize (G4 k).
    destruct (getTile k (tiles L4)) as [t4|]; [|exact I].
    destruct (getTile k (tiles L3)) as [t3|].
    - destruct G4 as (t4' & E4 & S4 & A4). injection E4 as <-.
      destruct (K3 t3 eq_refl). left. split; congruence.
    - right. exact (G4 t4 eq_refl). }
  destruct (appliedViewState L4); exact H4.
Qed.

(** The same for any event. *)
Lemma step_rest L ev k t :
  wellFormed cfg L ->
  getTile k (tiles L) = Some t ->
  state t = Ready \/ state t = Error ->
  match getTile k (tiles (step cfg L ev)) with
  | None => True
  | Some t' =>
      (state t' = state t /\ attempts t' = attempts t)
      \/ (state t' = Queued /\ attempts t' = 0)
  end.
Proof.
  intros W E Hrest.
  assert (Hcb : forall body k' a,
            In (k', a) (requests L) ->
            (forall k2, k' <> k2 -> getTile k2 (tiles body) = getTile k2 (tiles L)) ->
            match getTile k (tiles (processLoadQueue cfg body)) with
            | None => True
            | Some t' =>
                (state t' = state t /\ attempts t' = attempts t)
                \/ (state t' = Queued /\ attempts t' = 0)
            end).
  { intros body k' a Hin Hother.
    destruct (proj1 (proj2 (proj2 (proj2 (proj2 W)))) k' a Hin) as (tl & El & Sl & _).
    assert (Hne : k' <> k).
    { intros ->. rewrite E in El. injection El as <-. destruct Hrest; congruence. }
    pose proof (drained_processLoadQueue body k) as Hd.
    rewrite (Hother k Hne), E in Hd. destruct Hd as (t' & E' & Hd). rewrite E'.
    destruct Hd as [Hd|(Q & _)]; [now left|]. destruct Hrest; congruence. }
  destruct ev as [next now|k' a|k' a]; simpl.
  - now apply updateView_rest.
  - destruct (hasRequest (k', a) L) eqn:Hreq; [|rewrite E; auto].
    apply hasRequest_In in Hreq.
    apply (Hcb _ k' a Hreq). apply (onLoadBody_spec cfg k' a L W Hreq).
  - destruct (hasRequest (k', a) L) eqn:Hreq; [|rewrite E; auto].
    apply hasRequest_In in Hreq.
    apply (Hcb _ k' a Hreq). apply (onErrorBody_spec cfg k' a L W Hreq).
Qed.

End RetryBound.

(** C1: in every layer reached by frame updates and loader callbacks every
    open request is current (its attempt is the tile's [attempts] and the
    tile is loading).  When such a request fails and its attempt number is
    at most [retryLimit], the tile leaves the callback body queued, with
    its key in the load queue, and the callback ends with the tile still
    queued or already loading again as attempt [a + 1].  When the attempt
    number exceeds [retryLimit], which first happens at the failure number
    [retryLimit + 1] of a cache entry since every dispatch adds one to
    [attempts], the tile ends in state [Error] with its retries used up.
    From then on no event re-queues it: after any frame update (which
    covers re-entering the desired set and the ancestor walk) and after
    any callback the entry is still in [Error] with the same attempts, or
    it is gone, or the key holds a new entry that was created after the
    old one was evicted (queued, with [attempts = 0]). *)
Theorem C1_retry_bound (cfg : Config) (L : Layer) :
  reachable cfg L ->
  (forall k a,
      hasRequest (k, a) L = true ->
      exists t, getTile k (tiles L) = Some t /\ state t = Loading /\ attempts t = a)
  /\ (forall k a,
        hasRequest (k, a) L = true ->
        a <= retryLimit cfg ->
        let failed :=
          onErrorBody cfg k a (setRequests (removeRequest (k, a) (requests L)) L) in
        let after := step cfg L (LoadFailed k a) in
        (exists t, getTile k (tiles failed) = Some t
                   /\ state t = Queued /\ attempts t = a /\ In k (loadQueue failed))
        /\ (exists t, getTile k (tiles after) = Some t
                      /\ ((state t = Queued /\ attempts t = a /\ In k (loadQueue after))
                          \/ (state t = Loading /\ attempts t = a + 1))))
  /\ (forall k a,
        hasRequest (k, a) L = true ->
        retryLimit cfg < a ->
        exists t, getTile k (tiles (step cfg L (LoadFailed k a))) = Some t
                  /\ terminalError cfg t /\ attempts t = a)
  /\ (forall k t,
        getTile k (tiles L) = Some t ->
        terminalError cfg t ->
        forall ev,
          match getTile k (tiles (step cfg L ev)) with
          | None => True
          | Some t' =>
              (state t' = Error /\ attempts t' = attempts t)
              \/ (state t' = Queued /\ attempts t' = 0)
          end).
Proof.
  intro Hreach. pose proof (reachable_wellFormed cfg L Hreach) as W.
  split; [|split; [|split]].
  - intros k a Hreq. apply hasRequest_In in Hreq.
    exact (proj1 (proj2 (proj2 (proj2 (proj2 W)))) k a Hreq).
  - intros k a Hreq Hle failed after.
    pose proof Hreq as Hin. apply hasRequest_In in Hin.
    destruct (onErrorBody_spec cfg k a L W Hin) as (W' & _ & (t' & E' & A' & H')).
    fold failed in W', E', H'.
    destruct (Z.leb_spec a (retryLimit cfg)) as [_|Hgt]; [|lia].
    destruct H' as [S' Q'].
    split; [exists t'; auto|].
    assert (Hafter : after = processLoadQueue cfg failed).
    { unfold after, step. rewrite Hreq. reflexivity. }
    pose proof (drained_processLoadQueue cfg failed k) as Hd.
    pose proof (wellFormed_processLoadQueue cfg failed W') as Wa.
    rewrite <- Hafter in Hd, Wa. rewrite E' in Hd.
    destruct Hd as (t2 & E2 & Hd). exists t2. split; [exact E2|].
    destruct Hd as [[S2 A2]|(_ & S2 & A2)].
    + left. split; [congruence|]. split; [congruence|].
      destruct (proj1 (proj2 Wa) k t2 E2) as (_ & _ & _ & _ & Hq).
      apply Hq. congruence.
    + right. split; [exact S2 | congruence].
  - intros k a Hreq Hgt.
    pose proof Hreq as Hin. apply hasRequest_In in Hin.
    destruct (onErrorBody_spec cfg k a L W Hin) as (W' & _ & (t' & E' & A' & H')).
    destruct (Z.leb_spec a (retryLimit cfg)) as [Hle|_]; [lia|].
    simpl. rewrite Hreq. unfold onError.
    pose proof (drained_processLoadQueue cfg
                  (onErrorBody cfg k a (setRequests (removeRequest (k, a) (requests L)) L))
                  k) as Hd.
    rewrite E' in Hd.
    destruct Hd as (t2 & E2 & Hd). exists t2. split; [exact E2|].
    destruct Hd as [[S2 A2]|(Q2 & _)]; [|congruence].
    unfold terminalError. repeat split; congruence || lia.
  - intros k t E [Hs Ha] ev.
    pose proof (step_rest cfg L ev k t W E (or_intror Hs)) as H.
    destruct (getTile k (tiles (step cfg L ev))) as [t'|]; [|exact I].
    destruct H as [[S A]|H]; [left; split; congruence | now right].
Qed.

(* ================================================================== *)
(** ** Applying the same view state twice *)

Section Drain.

Variable cfg : Config.

Lemma pickBestFrom_bound m queue : forall i b p,
  pickBestFrom m queue i b p = b
  \/ (i <= pickBestFrom m queue i b p < i + List.length queue)%nat.
Proof.
  induction queue as [|k queue IH]; intros i b p; simpl; [now left|].
  assert (Hskip : pickBestFrom m queue (S i) b p = b
                  \/ (i <= pickBestFrom m queue (S i) b p < i + S (List.length queue))%nat).
  { destruct (IH (S i) b p) as [H|H]; [now left | right; lia]. }
  destruct k as [|c r]; [exact Hskip|].
  destruct (getTile (String c r) m) as [t|]; [|exact Hskip].
  destruct (prioLt (priority t) p); [|exact Hskip].
  right. destruct (IH (S i) i (priority t)) as [H|H]; lia.
Qed.

Lemma pickBestQueueIndex_valid L :
  loadQueue L <> [] -> (pickBestQueueIndex L < List.length (loadQueue L))%nat.
Proof.
  intro Hne. unfold pickBestQueueIndex.
  destruct (pickBestFrom_bound (tiles L) (loadQueue L) 0 0 Infinite) as [H|H].
  - rewrite H. destruct (loadQueue L); [congruence | simpl; lia].
  - lia.
Qed.

(** The drain loop stops only when the cap is reached or the queue is
    empty; the fuel it is given never runs out. *)
Lemma processLoadQueueLoop_exit fuel : forall L,
  wellFormed cfg L ->
  (List.length (loadQueue L) < fuel)%nat ->
  let L' := processLoadQueueLoop cfg fuel L in
  maxConcurrentRequests cfg <= inflightCount L' \/ loadQueue L' = [].
Proof.
  induction fuel as [|f IH]; intros L W Hlen; [lia|].
  simpl. pose proof (wellFormed_drainIteration cfg L W) as W'.
  unfold drainIteration in *.
  destruct (Z.ltb_spec (inflightCount L) (maxConcurrentRequests cfg)) as [Hlt|Hge];
    simpl; [|left; lia].
  destruct (loadQueue L) as [|q0 qs] eqn:Eq; simpl; [now right|].
  assert (Hvalid : (pickBestQueueIndex L < List.length (loadQueue L))%nat).
  { apply pickBestQueueIndex_valid. rewrite Eq. discriminate. }
  rewrite Eq in Hvalid.
  destruct (nth_error (q0 :: qs) (pickBestQueueIndex L)) as [k|] eqn:En.
  2:{ apply nth_error_None in En. lia. }
  assert (Hk : k <> EmptyString).
  { apply (proj1 (proj2 (proj2 (proj2 W)))). rewrite Eq.
    eapply nth_error_In. exact En. }
  destruct k as [|c r]; [now elim Hk|].
  pose proof (length_removeAt _ _ _ En) as Hrm. simpl in Hlen.
  simpl in W'.
  destruct (getTile (String c r) (tiles L)) as [t|].
  - destruct (state t); simpl in *; apply IH; try exact W'; simpl; lia.
  - simpl in *. apply IH; [exact W' | simpl; lia].
Qed.

Lemma processLoadQueue_exit L :
  wellFormed cfg L ->
  let L' := processLoadQueue cfg L in
  maxConcurrentRequests cfg <= inflightCount L' \/ loadQueue L' = [].
Proof.
  intro W. apply processLoadQueueLoop_exit; [exact W | lia].
Qed.

Lemma processLoadQueue_saturated L :
  maxConcurrentRequests cfg <= inflightCount L -> processLoadQueue cfg L = L.
Proof.
  intro H. unfold processLoadQueue. simpl. unfold drainIteration.
  destruct (Z.ltb_spec (inflightCount L) (maxConcurrentRequests cfg)); [lia | reflexivity].
Qed.

(** A request opened by the drain loop is for a tile that was queued,
    and carries that tile's next attempt number. *)
Lemma drainIteration_requests L k a :
  wellFormed cfg L ->
  In (k, a) (requests (fst (drainIteration cfg L))) ->
  In (k, a) (requests L)
  \/ exists t, getTile k (tiles L) = Some t /\ state t = Queued /\ a = attempts t + 1.
Proof.
  intros W. unfold drainIteration.
  destruct (_ && _); [|now left].
  destruct (nth_error _ _) as [k0|]; [|now left].
  destruct k0 as [|c r] eqn:Ek; [now left|]. rewrite <- Ek. clear Ek c r.
  simpl. destruct (getTile k0 (tiles L)) as [t|] eqn:E; [|now left].
  destruct (state t) eqn:Hs; try (now left).
  simpl. rewrite in_app_iff. intros [H|[H|[]]]; [now left|].
  injection H as <- <-.
  destruct (proj1 (proj2 W) k0 t E) as (Hkey & _). rewrite Hkey.
  right. exists t. auto.
Qed.

Lemma processLoadQueueLoop_requests fuel : forall L k a,
  wellFormed cfg L ->
  In (k, a) (requests (processLoadQueueLoop cfg fuel L)) ->
  In (k, a) (requests L)
  \/ exists t, getTile k (tiles L) = Some t /\ state t = Queued /\ a = attempts t + 1.
Proof.
  induction fuel as [|f IH]; intros L k a W; simpl; [now left|].
  pose proof (wellFormed_drainIteration cfg L W) as W'.
  pose proof (drainIteration_requests L k a W) as H1.
  pose proof (drained_drainIteration cfg L k) as Hd.
  destruct (drainIteration cfg L) as [L' again]. simpl in *.
  destruct again; [|exact H1].
  intro Hin. destruct (IH L' k a W' Hin) as [H|(t' & E' & S' & A')]; [auto|].
  right. destruct (getTile k (tiles L)) as [t|]; [|congruence].
  destruct Hd as (t'' & E'' & Hd). rewrite E' in E''. injection E'' as <-.
  destruct Hd as [[S A]|(_ & S & _)]; [|congruence].
  exists t. repeat split; congruence.
Qed.

End Drain.

Lemma fold_left_invariant_in {A B : Type} (P : A -> Prop) (f : A -> B -> A) (l : list B) :
  (forall a b, In b l -> P a -> P (f a b)) -> forall a, P a -> P (fold_left f l a).
Proof.
  induction l as [|b l IH]; intros Hf a Ha; simpl; [exact Ha|].
  apply IH.
  - intros a' b' Hin. apply Hf. now right.
  - apply Hf; [now left | exact Ha].
Qed.

Section SameViewTwice.

Variable cfg : Config.

Lemma disposeTile_other k k' L :
  k <> k' -> getTile k' (tiles (disposeTile k L)) = getTile k' (tiles L).
Proof.
  intro H. simpl. rewrite getTile_deleteTile.
  destruct (String.eqb_spec k k'); [contradiction | reflexivity].
Qed.

(** Eviction never removes a wanted tile. *)
Lemma evictTiles_keeps_wanted wanted L k :
  In k wanted ->
  getTile k (tiles (evictTiles cfg wanted L)) = getTile k (tiles L).
Proof.
  intros Hk. apply memStr_In in Hk. unfold evictTiles.
  set (stale := map fst _).
  set (L1 := fold_left _ stale L).
  assert (Hst : forall s, In s stale -> s <> k).
  { intros s Hs ->. unfold stale in Hs. apply in_map_iff in Hs.
    destruct Hs as [[k0 t0] [E Hin]]. simpl in E. subst k0.
    apply filter_In in Hin. simpl in Hin. rewrite Hk in Hin. simpl in Hin.
    destruct Hin; discriminate. }
  assert (H1 : getTile k (tiles L1) = getTile k (tiles L)).
  { unfold L1.
    apply (fold_left_invariant_in (fun a => getTile k (tiles a) = getTile k (tiles L)));
      [|reflexivity].
    intros a s Hs Ha. destruct (getTile s (tiles a)); [|exact Ha].
    rewrite disposeTile_other; [exact Ha | now apply Hst]. }
  destruct (tileCount L1 <=? maxCachedTiles cfg); [exact H1|].
  apply (fold_left_invariant_in (fun a => getTile k (tiles a) = getTile k (tiles L)));
    [|exact H1].
  intros a c Hc Ha. destruct (tileCount a <=? maxCachedTiles cfg); [exact Ha|].
  rewrite disposeTile_other; [exact Ha|].
  intros Heq. apply In_stableSort in Hc. apply filter_In in Hc.
  rewrite Heq, Hk in Hc. simpl in Hc. destruct Hc; discriminate.
Qed.

Lemma wantAll_cached now ds : forall L d,
  (forall x, In x ds -> d_key x = tileKey (d_tileId x)) ->
  wellFormed cfg L ->
  In d ds ->
  getTile (d_key d) (tiles (fold_left (wantTile cfg now) ds L)) <> None.
Proof.
  induction ds as [|d0 ds IH]; intros L d Hd W Hin; simpl; [destruct Hin|].
  assert (W1 : wellFormed cfg (wantTile cfg now L d0)).
  { apply wellFormed_wantTile; [apply Hd; now left | exact W]. }
  destruct Hin as [<-|Hin]; [|apply IH; auto; intros; apply Hd; now right].
  assert (H0 : getTile (d_key d0) (tiles (wantTile cfg now L d0)) <> None).
  { unfold wantTile.
    apply (touch_spec cfg (d_key d0)
             (createTileShell (d_tileId d0) (d_key d0) now L)); auto.
    - rewrite (Hd d0 (or_introl eq_refl)). apply tileKey_nonempty.
    - intro t. simpl. auto. }
  pose proof (wantAll_growsQuietly cfg now ds (wantTile cfg now L d0)
                (fun x Hx => Hd x (or_intror Hx)) W1 (d_key d0)) as Hg.
  destruct (getTile (d_key d0) (tiles (wantTile cfg now L d0))); [|now elim H0].
  destruct Hg as (t' & E' & _). congruence.
Qed.

Lemma applyViewState_desiredCached vs now L :
  wellFormed cfg L -> desiredCached (applyViewState cfg vs now L).
Proof.
  intros W d Hd.
  destruct (applyViewState_fields cfg vs now L) as (_ & _ & _ & _ & _ & _ & Hact).
  rewrite Hact in Hd. unfold applyViewState.
  set (desired := collectDesiredTiles _ _ _ _ _) in *.
  set (L1 := setActiveDesiredTiles _ _).
  set (L2 := fold_left _ desired L1).
  rewrite evictTiles_keeps_wanted by (apply in_map; exact Hd).
  simpl. rewrite getTile_mapEntries.
  2:{ intros [k0 t0]. simpl. destruct (memStr (key t0) _); [reflexivity|].
      destruct (_ <? _); reflexivity. }
  pose proof (wantAll_cached now desired L1 d
                (fun x => collectDesiredTiles_keys cfg _ _ _ _ x) W Hd) as Hc.
  fold L2 in Hc. destruct (getTile (d_key d) (tiles L2)); [discriminate | now elim Hc].
Qed.

Lemma desiredCached_keeps L L' :
  activeDesiredTiles L' = activeDesiredTiles L ->
  (forall k, getTile k (tiles L) <> None -> getTile k (tiles L') <> None) ->
  desiredCached L -> desiredCached L'.
Proof.
  intros Ha Hk Hc d Hd. rewrite Ha in Hd. apply Hk. now apply Hc.
Qed.

Lemma drained_keeps L L' k :
  drained L L' -> getTile k (tiles L) <> None -> getTile k (tiles L') <> None.
Proof.
  intros Hd Hk. specialize (Hd k).
  destruct (getTile k (tiles L)); [|now elim Hk].
  destruct Hd as (t' & E & _). congruence.
Qed.

Lemma growsQuietly_keeps L L' k :
  growsQuietly L L' -> getTile k (tiles L) <> None -> getTile k (tiles L') <> None.
Proof.
  intros Hg Hk. specialize (Hg k).
  destruct (getTile k (tiles L)); [|now elim Hk].
  destruct Hg as (t' & E & _). congruence.
Qed.

Lemma viewFields_active L L' :
  viewFields L' = viewFields L -> activeDesiredTiles L' = activeDesiredTiles L.
Proof. unfold viewFields. now intros [= _ _ _ _ _ ? _ _]. Qed.

Lemma updateView_stages next now L :
  enabled cfg = true ->
  exists z x y r,
    updateView cfg next now L
    = refreshDebugInfo cfg z x y r
        (updateProgressiveVisibility cfg now
           (processLoadQueue cfg (afterApply cfg next now L))).
Proof.
  intro Hen. unfold updateView. rewrite Hen. simpl. unfold updateFrame.
  fold (afterApply cfg next now L).
  destruct (appliedViewState _); eauto.
Qed.

Lemma afterApply_invariants next now L :
  wellFormed cfg L -> desiredCached L ->
  wellFormed cfg (afterApply cfg next now L) /\ desiredCached (afterApply cfg next now L).
Proof.
  intros W D. unfold afterApply.
  destruct (appliedBy cfg _ next now) as [a|].
  - split.
    + apply (wellFormed_sameCore cfg
               (applyViewState cfg a now
                  (setPendingViewState
                     (snd (chooseViewState cfg (setFrame (frame L + 1) L) next now))
                     (setFrame (frame L + 1) L)))); try reflexivity.
      now apply wellFormed_applyViewState.
    + intros d Hd. simpl in Hd. simpl.
      exact (applyViewState_desiredCached a now
               (setPendingViewState
                  (snd (chooseViewState cfg (setFrame (frame L + 1) L) next now))
                  (setFrame (frame L + 1) L)) W d Hd).
  - split; [exact W | exact D].
Qed.

Lemma updateView_desiredCached next now L :
  wellFormed cfg L -> desiredCached L -> desiredCached (updateView cfg next now L).
Proof.
  intros W D. destruct (enabled cfg) eqn:Hen.
  2:{ unfold updateView. now rewrite Hen. }
  destruct (updateView_stages next now L Hen) as (z & x & y & r & ->).
  destruct (afterApply_invariants next now L W D) as [Wa Da].
  set (La := afterApply cfg next now L) in *.
  pose proof (wellFormed_processLoadQueue cfg La Wa) as Wb.
  destruct (updateProgressiveVisibility_wellFormed cfg now _ Wb) as [_ Gc].
  apply (desiredCached_keeps La); [| |exact Da].
  - change (activeDesiredTiles (updateProgressiveVisibility cfg now (processLoadQueue cfg La))
            = activeDesiredTiles La).
    apply viewFields_active.
    now rewrite updateProgressiveVisibility_view, processLoadQueue_view.
  - intros k Hk. simpl. eapply growsQuietly_keeps; [exact Gc|].
    eapply drained_keeps; [apply drained_processLoadQueue | exact Hk].
Qed.

Lemma reachable_desiredCached L : reachable cfg L -> desiredCached L.
Proof.
  intros [evs ->]. unfold run.
  apply (fold_left_invariant (fun a => wellFormed cfg a /\ desiredCached a)).
  - intros a ev [W D]. split; [now apply wellFormed_step|].
    destruct ev as [next now|k b|k b]; simpl.
    + now apply updateView_desiredCached.
    + destruct (hasRequest (k, b) a) eqn:Hreq; [|exact D].
      apply hasRequest_In in Hreq.
      destruct (onLoadBody_spec cfg k b a W Hreq) as (_ & Ho & (t' & E' & _)).
      apply (desiredCached_keeps a); [| |exact D].
      * apply viewFields_active. unfold onLoad.
        now rewrite processLoadQueue_view, onLoadBody_view.
      * intros k' Hk'. eapply drained_keeps; [apply drained_processLoadQueue|].
        destruct (String.eqb_spec k k') as [<-|Hne]; [congruence|].
        now rewrite (Ho k' Hne).
    + destruct (hasRequest (k, b) a) eqn:Hreq; [|exact D].
      apply hasRequest_In in Hreq.
      destruct (onErrorBody_spec cfg k b a W Hreq) as (_ & Ho & (t' & E' & _)).
      apply (desiredCached_keeps a); [| |exact D].
      * apply viewFields_active. unfold onError.
        now rewrite processLoadQueue_view, onErrorBody_view.
      * intros k' Hk'. eapply drained_keeps; [apply drained_processLoadQueue|].
        destruct (String.eqb_spec k k') as [<-|Hne]; [congruence|].
        now rewrite (Ho k' Hne).
  - split.
    + apply (reachable_wellFormed cfg). exists []. reflexivity.
    + intros d [].
Qed.

End SameViewTwice.

Lemma slotFields_eq L L' :
  slotFields L' = slotFields L ->
  inflightCount L' = inflightCount L /\ requests L' = requests L.
Proof. unfold slotFields. intros [= H1 H2]. auto. Qed.

(** C6, as stated, fails.  On a layer constructed with
    [{ tileRadius: 0 }], a first [update] over the tile 10/512/341 creates
    that tile, starts its load, and only then, in the visibility pass,
    enqueues the six fallback ancestors; a second [update] with the same
    arguments, which computes the same state key, with no callback in
    between, starts the loads of these six, whose [attempts] go from 0
    to 1. *)
Lemma C6_second_update_dispatches_ancestors :
  let cfg := constructorConfig exampleGeo scenarioOptions in
  let call := update cfg (1025 # 2) (683 # 2) 100000 None None in
  let L1 := call 1000%Q (initialLayer cfg) in
  let L2 := call 1016%Q L1 in
  nextViewState cfg (1025 # 2) (683 # 2) 100000 None None = viewAt 512 341 0
  /\ stateKey L1 = "10|512|341|0|none"%string
  /\ stateKey L2 = stateKey L1
  /\ requests (initialLayer cfg) = []
  /\ requests L1 = [("10/512/341", 1)]
  /\ requests L2 = [("10/512/341", 1); ("9/256/170", 1); ("8/128/85", 1);
                    ("7/64/42", 1); ("6/32/21", 1); ("5/16/10", 1); ("4/8/5", 1)]
  /\ option_map attempts (getTile "9/256/170" (tiles L1)) = Some 0
  /\ option_map attempts (getTile "9/256/170" (tiles L2)) = Some 1.
Proof. vm_compute. repeat split; reflexivity. Qed.

(** C6, amended: when two consecutive calls of [update] compute the same
    state key, with no callback in between, and the layer holds that key
    after the first call, then the second call applies no view state (the
    desired set and the state key stay), it leaves the state and the
    attempts counter of every tile of the desired set unchanged, and the
    only loads it starts are for tiles that were waiting in state
    [Queued] and are not in the desired set: the fallback ancestors that
    the first call enqueued in its visibility pass, after its queue
    drain. *)
Theorem C6_same_view_twice
        (cfg : Config) (L : Layer) (view : LayerViewState) (now1 now2 : Q) :
  enabled cfg = true ->
  reachable cfg L ->
  let L1 := updateView cfg view now1 L in
  stateKey L1 = vs_stateKey view ->
  let L2 := updateView cfg view now2 L1 in
  appliedBy cfg L1 view now2 = None
  /\ stateKey L2 = stateKey L1
  /\ activeDesiredTiles L2 = activeDesiredTiles L1
  /\ (forall d,
        In d (activeDesiredTiles L1) ->
        exists t1 t2,
          getTile (d_key d) (tiles L1) = Some t1
          /\ getTile (d_key d) (tiles L2) = Some t2
          /\ attempts t2 = attempts t1
          /\ state t2 = state t1)
  /\ (forall k a,
        In (k, a) (requests L2) ->
        In (k, a) (requests L1)
        \/ (exists t1,
              getTile k (tiles L1) = Some t1
              /\ state t1 = Queued
              /\ a = attempts t1 + 1
              /\ forall d, In d (activeDesiredTiles L1) -> d_key d <> k)).
Proof.
  intros Hen Hreach L1 Hkey L2.
  pose proof (reachable_wellFormed cfg L Hreach) as W.
  pose proof (reachable_desiredCached cfg L Hreach) as D.
  pose proof (reachable_appliedConsistent cfg L Hreach) as C.
  (* the first call leaves nothing pending *)
  assert (Hpend : pendingViewState L1 = None).
  { destruct (deferredBy cfg L view now1) eqn:Hdef.
    - destruct (updateView_deferred cfg Hen view now1 L C Hdef) as (_ & _ & Hs & _).
      fold L1 in Hs. unfold deferredBy in Hdef. apply andb_prop in Hdef.
      destruct Hdef as [Hne _]. apply negb_true_iff in Hne.
      rewrite <- Hs, Hkey, String.eqb_refl in Hne. discriminate.
    - destruct (updateView_throttle cfg Hen view now1 L) as (_ & Hp & _).
      fold L1 in Hp. rewrite Hp. unfold chooseViewState. unfold deferredBy in Hdef.
      rewrite Hdef. destruct (pendingViewState L); reflexivity. }
  assert (Hnone : appliedBy cfg L1 view now2 = None).
  { apply appliedBy_same_key; [exact Hpend | now rewrite Hkey]. }
  destruct (updateView_throttle cfg Hen view now2 L1) as (_ & _ & Hm).
  fold L2 in Hm. rewrite Hnone in Hm. destruct Hm as (M1 & _ & _ & M4).
  (* the stages of the two calls *)
  destruct (updateView_stages cfg view now1 L Hen) as (z1 & x1 & y1 & r1 & E1).
  fold L1 in E1.
  destruct (afterApply_invariants cfg view now1 L W D) as [Wa Da].
  set (La := afterApply cfg view now1 L) in *.
  pose proof (wellFormed_processLoadQueue cfg La Wa) as Wb.
  set (Lb := processLoadQueue cfg La) in *.
  destruct (updateProgressiveVisibility_wellFormed cfg now1 Lb Wb) as [Wc Gc].
  set (Lc := updateProgressiveVisibility cfg now1 Lb) in *.
  assert (T1 : tiles L1 = tiles Lc) by (rewrite E1; reflexivity).
  assert (S1 : slotFields L1 = slotFields Lb).
  { rewrite E1. change (slotFields Lc = slotFields Lb).
    apply updateProgressiveVisibility_slots. }
  assert (A1 : activeDesiredTiles L1 = activeDesiredTiles La).
  { rewrite E1. change (activeDesiredTiles Lc = activeDesiredTiles La).
    apply viewFields_active. unfold Lc, Lb.
    now rewrite updateProgressiveVisibility_view, processLoadQueue_view. }
  assert (W1 : wellFormed cfg L1) by (rewrite E1; exact Wc).
  destruct (updateView_stages cfg view now2 L1 Hen) as (z2 & x2 & y2 & r2 & E2).
  fold L2 in E2.
  set (Ld := processLoadQueue cfg (afterApply cfg view now2 L1)) in *.
  assert (Hafter : tiles (afterApply cfg view now2 L1) = tiles L1
                   /\ slotFields (afterApply cfg view now2 L1) = slotFields L1
                   /\ wellFormed cfg (afterApply cfg view now2 L1)).
  { unfold afterApply.
    change (appliedBy cfg (setFrame (frame L1 + 1) L1) view now2)
      with (appliedBy cfg L1 view now2).
    rewrite Hnone. split; [reflexivity|]. split; [reflexivity | exact W1]. }
  destruct Hafter as (Ta & Sa & Wa2).
  pose proof (wellFormed_processLoadQueue cfg _ Wa2) as Wd. fold Ld in Wd.
  pose proof (drained_processLoadQueue cfg (afterApply cfg view now2 L1)) as Dd.
  fold Ld in Dd.
  destruct (updateProgressiveVisibility_wellFormed cfg now2 Ld Wd) as [We Ge].
  assert (T2 : tiles L2 = tiles (updateProgressiveVisibility cfg now2 Ld))
    by (rewrite E2; reflexivity).
  assert (R2 : requests L2 = requests Ld).
  { rewrite E2.
    change (requests (updateProgressiveVisibility cfg now2 Ld) = requests Ld).
    apply (slotFields_eq Ld). apply updateProgressiveVisibility_slots. }
  assert (W2 : wellFormed cfg L2) by (rewrite E2; exact We).
  (* a desired tile is not started by the second drain *)
  assert (Hdesired : forall d,
            In d (activeDesiredTiles L1) ->
            exists t1 t2,
              getTile (d_key d) (tiles L1) = Some t1
              /\ getTile (d_key d) (tiles L2) = Some t2
              /\ attempts t2 = attempts t1 /\ state t2 = state t1).
  { intros d Hd. rewrite A1 in Hd.
    pose proof (drained_keeps La Lb (d_key d) (drained_processLoadQueue cfg La)
                  (Da d Hd)) as Hb.
    destruct (getTile (d_key d) (tiles Lb)) as [tb|] eqn:Eb; [|now elim Hb].
    pose proof (Gc (d_key d)) as Hc. rewrite Eb in Hc.
    destruct Hc as (tc & Ec & Sc & Ac). rewrite <- T1 in Ec.
    assert (Hkeep : exists td, getTile (d_key d) (tiles Ld) = Some td
                               /\ state td = state tc /\ attempts td = attempts tc).
    { destruct (processLoadQueue_exit cfg La Wa) as [Hsat|Hempty]; fold Lb in Hsat || fold Lb in Hempty.
      - exists tc. unfold Ld. rewrite processLoadQueue_saturated.
        + rewrite Ta. auto.
        + destruct (slotFields_eq _ _ Sa) as [I1 _].
          destruct (slotFields_eq _ _ S1) as [I2 _]. lia.
      - specialize (Dd (d_key d)). rewrite Ta, Ec in Dd.
        destruct Dd as (td & Ed & Hd'). exists td. split; [exact Ed|].
        destruct Hd' as [[S A]|(Q & _)]; [auto|].
        exfalso. destruct (proj1 (proj2 Wb) (d_key d) tb Eb) as (_ & _ & _ & _ & Hq).
        rewrite Hempty in Hq. apply Hq. congruence. }
    destruct Hkeep as (td & Ed & Sd & Ad).
    pose proof (Ge (d_key d)) as He. rewrite Ed in He.
    destruct He as (te & Ee & Se & Ae). rewrite <- T2 in Ee.
    exists tc, te. repeat split; congruence. }
  split; [exact Hnone|]. split; [exact M1|]. split; [exact M4|].
  split; [exact Hdesired|].
  intros k a Hin. rewrite R2 in Hin.
  destruct (processLoadQueueLoop_requests cfg _ _ k a Wa2 Hin) as [H|(t1 & Et & St & At)].
  - left. destruct (slotFields_eq _ _ Sa) as [_ Rq]. now rewrite <- Rq.
  - right. rewrite Ta in Et. exists t1. repeat split; try assumption.
    intros d Hd Heq. destruct (Hdesired d Hd) as (u1 & u2 & U1 & U2 & UA & _).
    rewrite Heq in U1, U2. rewrite Et in U1. injection U1 as <-.
    rewrite <- R2 in Hin.
    destruct (proj1 (proj2 (proj2 (proj2 (proj2 W2)))) k a Hin) as (t2 & E2' & _ & A2).
    rewrite U2 in E2'. injection E2' as <-. lia.
Qed.

(* ================================================================== *)
(** ** Scenarios *)

(** C2, as stated, fails: with [retryLimit = 2] the second failure of the
    tile is within the retry budget ([attempts = 2 <= retryLimit]); the
    tile is re-queued and dispatched again, so after the second failure it
    is loading as attempt 3, not in [Error], and the next telemetry
    snapshot counts no error. *)
Lemma C2_second_failure_is_retried :
  retryLimit scenarioConfig = 2
  /\ option_map state (getTile scenarioKey (tiles scenarioFailedTwice)) = Some Loading
  /\ option_map attempts (getTile scenarioKey (tiles scenarioFailedTwice)) = Some 3
  /\ hasRequest (scenarioKey, 3) scenarioFailedTwice = true
  /\ di_errorCount
       (getDebugInfo (step scenarioConfig scenarioFailedTwice
                           (FrameUpdate scenarioView 1016%Q))) = 0.
Proof. vm_compute. repeat split; reflexivity. Qed.

(** C2, amended: with [retryLimit = 2], for a single tile whose fetch
    fails three times (each failure current): after the first and the
    second failure the tile is loading again; after the third failure its
    state is [Error] with [attempts = 3], beyond the retry limit; the
    telemetry of the next update has [errorCount = 1]; and the tile is not
    re-queued afterwards, neither while it stays in the desired set nor
    when the view leaves and the tile re-enters the desired set. *)
Theorem C2_third_failure_is_terminal :
  let cfg := scenarioConfig in
  let failedOnce := step cfg scenarioLoading (LoadFailed scenarioKey 1) in
  let failedThrice := step cfg scenarioFailedTwice (LoadFailed scenarioKey 3) in
  let next := step cfg failedThrice (FrameUpdate scenarioView 1016%Q) in
  let back :=
    run cfg next [FrameUpdate (viewAt 520 341 0) 1032%Q; FrameUpdate scenarioView 1048%Q] in
  let tileIn (L : Layer) :=
    option_map (fun t => (state t, attempts t)) (getTile scenarioKey (tiles L)) in
  retryLimit cfg = 2
  /\ tileIn scenarioLoading = Some (Loading, 1)
  /\ tileIn failedOnce = Some (Loading, 2)
  /\ tileIn scenarioFailedTwice = Some (Loading, 3)
  /\ tileIn failedThrice = Some (Error, 3)
  /\ di_errorCount (getDebugInfo next) = 1
  /\ tileIn next = Some (Error, 3)
  /\ memStr scenarioKey (loadQueue next) = false
  /\ memStr scenarioKey (map d_key (activeDesiredTiles back)) = true
  /\ tileIn back = Some (Error, 3)
  /\ memStr scenarioKey (loadQueue back) = false
  /\ di_errorCount (getDebugInfo back) = 1.
Proof. vm_compute. repeat split; reflexivity. Qed.

(** C9 does not hold of the code.  The camera visits column 520, leaves
    it for column 530 and comes back, while the only slot is taken.  The
    tile of column 520 is queued, then disposed of, which takes its key out
    of [_queuedKeys] but not out of [_loadQueue], then created again and
    enqueued again: its key is in the load queue twice. *)
Theorem C9_disposed_key_is_queued_twice :
  let L := run congestedConfig (initialLayer congestedConfig) congestedFrames in
  loadQueue L = ["10/520/341"; "10/530/341"; "10/520/341"]
  /\ queuedKeys L = ["10/520/341"]
  /\ ~ NoDup (loadQueue L).
Proof.
  intro L.
  assert (E : loadQueue L = ["10/520/341"; "10/530/341"; "10/520/341"])
    by (vm_compute; reflexivity).
  split; [exact E|]. split; [vm_compute; reflexivity|].
  rewrite E. intro H. inversion H as [|x l Hnotin _]. apply Hnotin. simpl. auto.
Qed.

(* ================================================================== *)
(** ** The theorems at work on the example layers *)

Lemma scenarioLoading_reachable : reachable scenarioConfig scenarioLoading.
Proof. exists [FrameUpdate scenarioView 1000%Q]. reflexivity. Defined.

Lemma scenarioParentReady_reachable : reachable scenarioConfig scenarioParentReady.
Proof.
  exists [FrameUpdate scenarioView 1000%Q; FrameUpdate scenarioView 1016%Q;
          LoadSucceeded "9/256/170" 1].
  reflexivity.
Defined.

(** The open request of the scenario tile is current. *)
Lemma C1_retry_bound_witness :
  reachable scenarioConfig scenarioLoading
  /\ hasRequest (scenarioKey, 1) scenarioLoading = true
  /\ exists t, getTile scenarioKey (tiles scenarioLoading) = Some t
               /\ state t = Loading /\ attempts t = 1.
Proof.
  split; [exact scenarioLoading_reachable|].
  assert (H : hasRequest (scenarioKey, 1) scenarioLoading = true)
    by (vm_compute; reflexivity).
  split; [exact H|].
  exact (proj1 (C1_retry_bound scenarioConfig scenarioLoading scenarioLoading_reachable)
               scenarioKey 1 H).
Defined.

(** Two small pans within the throttle interval are deferred; the call
    after the interval applies the second one, once. *)
Lemma C3_pending_view_state_applied_once_witness :
  enabled scenarioConfig = true
  /\ allDeferred scenarioConfig scenarioLoading
       ([(viewAt 513 341 0, 1010%Q)] ++ [(viewAt 512 342 0, 1030%Q)])
  /\ applications scenarioConfig scenarioLoading
       (([(viewAt 513 341 0, 1010%Q)] ++ [(viewAt 512 342 0, 1030%Q)])
        ++ [(viewAt 512 342 0, 1100%Q)])
     = [viewAt 512 342 0].
Proof.
  assert (Hen : enabled scenarioConfig = true) by reflexivity.
  assert (Hall : allDeferred scenarioConfig scenarioLoading
                   ([(viewAt 513 341 0, 1010%Q)] ++ [(viewAt 512 342 0, 1030%Q)])).
  { vm_compute. repeat split; reflexivity. }
  assert (Hrel : deferredBy scenarioConfig
                   (runUpdates scenarioConfig scenarioLoading
                      ([(viewAt 513 341 0, 1010%Q)] ++ [(viewAt 512 342 0, 1030%Q)]))
                   (viewAt 512 342 0) 1100%Q = false)
    by (vm_compute; reflexivity).
  split; [exact Hen|]. split; [exact Hall|].
  exact (proj1 (proj2 (proj2
           (C3_pending_view_state_applied_once scenarioConfig scenarioLoading
              [(viewAt 513 341 0, 1010%Q)] (viewAt 512 342 0) 1030%Q
              (viewAt 512 342 0) 1100%Q Hen scenarioLoading_reachable Hall Hrel)))).
Defined.

Lemma scenarioLoading_keysConsistent : keysConsistent scenarioLoading.
Proof.
  apply (wellFormed_keysConsistent scenarioConfig).
  apply reachable_wellFormed. exact scenarioLoading_reachable.
Defined.

(** Eviction on the seven tiles of the first frame. *)
Lemma C4_cache_bound_after_eviction_witness :
  keysConsistent scenarioLoading
  /\ (tileCount (evictTiles scenarioConfig [scenarioKey] scenarioLoading)
      <= maxCachedTiles scenarioConfig
      \/ forall k t,
           In (k, t) (tiles (evictTiles scenarioConfig [scenarioKey] scenarioLoading)) ->
           In k [scenarioKey] \/ state t = Loading).
Proof.
  split; [exact scenarioLoading_keysConsistent|].
  exact (C4_cache_bound_after_eviction scenarioConfig [scenarioKey] scenarioLoading
           scenarioLoading_keysConsistent).
Defined.

(** One load in flight after the first frame, under a cap of eight. *)
Lemma C5_inflight_never_exceeds_cap_witness :
  1 <= maxConcurrentRequests scenarioConfig
  /\ reachable scenarioConfig scenarioLoading
  /\ Z.of_nat (List.length (requests scenarioLoading)) = inflightCount scenarioLoading
  /\ inflightCount scenarioLoading <= maxConcurrentRequests scenarioConfig.
Proof.
  assert (Hcap : 1 <= maxConcurrentRequests scenarioConfig) by (vm_compute; discriminate).
  split; [exact Hcap|]. split; [exact scenarioLoading_reachable|].
  exact (proj1 (C5_inflight_never_exceeds_cap scenarioConfig Hcap scenarioLoading
                  scenarioLoading_reachable)).
Defined.

(** The same view twice from the constructed layer. *)
Lemma C6_same_view_twice_witness :
  enabled scenarioConfig = true
  /\ reachable scenarioConfig (initialLayer scenarioConfig)
  /\ stateKey (updateView scenarioConfig scenarioView 1000%Q (initialLayer scenarioConfig))
     = vs_stateKey scenarioView
  /\ appliedBy scenarioConfig
       (updateView scenarioConfig scenarioView 1000%Q (initialLayer scenarioConfig))
       scenarioView 1016%Q = None.
Proof.
  assert (Hen : enabled scenarioConfig = true) by reflexivity.
  assert (Hreach : reachable scenarioConfig (initialLayer scenarioConfig))
    by (exists []; reflexivity).
  assert (Hkey : stateKey (updateView scenarioConfig scenarioView 1000%Q
                             (initialLayer scenarioConfig))
                 = vs_stateKey scenarioView) by (vm_compute; reflexivity).
  split; [exact Hen|]. split; [exact Hreach|]. split; [exact Hkey|].
  exact (proj1 (C6_same_view_twice scenarioConfig (initialLayer scenarioConfig)
                  scenarioView 1000%Q 1016%Q Hen Hreach Hkey)).
Defined.

(** The desired tile is loading and its parent is ready: the visibility
    pass shows the parent. *)
Lemma C7_nearest_ready_ancestor_is_shown_witness :
  0 <= retainFrames scenarioConfig
  /\ nearestReadyAncestor scenarioConfig (tiles scenarioParentReady)
       (Z.to_nat (maxParentSearchDepth scenarioConfig)) 512 341 10
     = Some "9/256/170"
  /\ exists ancestor,
       getTile "9/256/170"
               (tiles (updateProgressiveVisibility scenarioConfig 1032%Q scenarioParentReady))
       = Some ancestor
       /\ state ancestor = Ready
       /\ targetOpacity ancestor = opacity scenarioConfig
       /\ lastWantedFrame ancestor = frame scenarioParentReady.
Proof.
  assert (Hretain : 0 <= retainFrames scenarioConfig) by (vm_compute; discriminate).
  assert (Hnear : nearestReadyAncestor scenarioConfig (tiles scenarioParentReady)
                    (Z.to_nat (maxParentSearchDepth scenarioConfig)) 512 341 10
                  = Some "9/256/170") by (vm_compute; reflexivity).
  split; [exact Hretain|]. split; [exact Hnear|].
  assert (Hcur : exists cur,
             getTile scenarioKey (tiles scenarioParentReady) = Some cur
             /\ state cur = Loading).
  { vm_compute. eexists. split; reflexivity. }
  destruct Hcur as (cur & Ecur & Scur).
  refine (C7_nearest_ready_ancestor_is_shown scenarioConfig 1032%Q scenarioParentReady
            (mkDesired (mkTileId 512 341 10) scenarioKey 0) cur "9/256/170"
            Hretain _ Ecur _ Hnear).
  - vm_compute. left. reflexivity.
  - rewrite Scur. discriminate.
Defined.

(* ================================================================== *)
(** ** The numeric helpers of the tile layer *)

Lemma Qmax_mono_r (a b c : Q) : (b <= c)%Q -> (Qmax a b <= Qmax a c)%Q.
Proof.
  intro H. unfold Qmax.
  destruct (Qle_bool a b) eqn:E1, (Qle_bool a c) eqn:E2.
  - exact H.
  - apply Qle_bool_iff in E1.
    assert (Hc : (a <= c)%Q) by (eapply Qle_trans; eauto).
    apply Qle_bool_iff in Hc. congruence.
  - now apply Qle_bool_iff.
  - apply Qle_refl.
Qed.

Lemma zoomFromTable_upper (table : list (Z * Z)) (d : Q) (otherwise z : Z) :
  Forall (fun p => snd p <= z) table -> otherwise <= z ->
  zoomFromTable table d otherwise <= z.
Proof.
  induction table as [|[b z0] rest IH]; intros Hall Ho; simpl; [exact Ho|].
  inversion Hall as [|p l Hp Hrest]; subst. simpl in Hp.
  destruct (Qle_bool d (inject_Z b)); [exact Hp | now apply IH].
Qed.

Lemma zoomFromTable_lower (table : list (Z * Z)) (d : Q) (otherwise : Z) :
  Forall (fun p => otherwise <= snd p) table ->
  otherwise <= zoomFromTable table d otherwise.
Proof.
  induction table as [|[b z0] rest IH]; intros Hall; simpl; [lia|].
  inversion Hall as [|p l Hp Hrest]; subst. simpl in Hp.
  destruct (Qle_bool d (inject_Z b)); [exact Hp | now apply IH].
Qed.

Lemma zoomFromTable_antitone (table : list (Z * Z)) (otherwise : Z) (d1 d2 : Q) :
  StronglySorted (fun p q => snd q <= snd p) table ->
  Forall (fun p => otherwise <= snd p) table ->
  (d1 <= d2)%Q ->
  zoomFromTable table d2 otherwise <= zoomFromTable table d1 otherwise.
Proof.
  intros Hs Hlow Hd. induction table as [|[b z] rest IH]; simpl; [lia|].
  inversion Hs as [|p l Hrest Hhead]; subst.
  inversion Hlow as [|p l Hp Hlow']; subst. simpl in Hp.
  destruct (Qle_bool d2 (inject_Z b)) eqn:E2.
  - apply Qle_bool_iff in E2.
    assert (E1 : Qle_bool d1 (inject_Z b) = true)
      by (apply Qle_bool_iff; eapply Qle_trans; eauto).
    rewrite E1. lia.
  - destruct (Qle_bool d1 (inject_Z b)) eqn:E1.
    + apply zoomFromTable_upper; [|exact Hp].
      eapply Forall_impl; [|exact Hhead]. intros q Hq. exact Hq.
    + now apply IH.
Qed.

Lemma getZoomLevelByDistance_table (d : Q) :
  getZoomLevelByDistance d = zoomFromTable distanceZoomTable (Qmax 0%Q d) 2.
Proof. reflexivity. Qed.

Lemma distanceZoomTable_sorted :
  StronglySorted (fun p q => snd q <= snd p) distanceZoomTable.
Proof.
  unfold distanceZoomTable.
  repeat (apply SSorted_cons; [|repeat (apply Forall_cons; [simpl; lia|]); apply Forall_nil]).
  apply SSorted_nil.
Qed.

Lemma distanceZoomTable_low : Forall (fun p => 2 <= snd p) distanceZoomTable.
Proof.
  unfold distanceZoomTable.
  repeat (apply Forall_cons; [simpl; lia|]). apply Forall_nil.
Qed.

Lemma distanceZoomTable_high : Forall (fun p => snd p <= 24) distanceZoomTable.
Proof.
  unfold distanceZoomTable.
  repeat (apply Forall_cons; [simpl; lia|]). apply Forall_nil.
Qed.

(** X1: [getZoomLevelByDistance]: the zoom level lies between 2 and 24 and
    never grows when the distance grows. *)
Theorem getZoomLevelByDistance_antitone (d1 d2 : Q) :
  (d1 <= d2)%Q ->
  2 <= getZoomLevelByDistance d2
  /\ getZoomLevelByDistance d2 <= getZoomLevelByDistance d1
  /\ getZoomLevelByDistance d1 <= 24.
Proof.
  intro H. rewrite !getZoomLevelByDistance_table. split; [|split].
  - apply zoomFromTable_lower, distanceZoomTable_low.
  - apply zoomFromTable_antitone.
    + exact distanceZoomTable_sorted.
    + exact distanceZoomTable_low.
    + now apply Qmax_mono_r.
  - apply zoomFromTable_upper; [exact distanceZoomTable_high | lia].
Qed.

Lemma getZoomLevelByDistance_antitone_witness :
  (100 <= 5000)%Q
  /\ 2 <= getZoomLevelByDistance 5000%Q
  /\ getZoomLevelByDistance 5000%Q <= getZoomLevelByDistance 100%Q
  /\ getZoomLevelByDistance 100%Q <= 24.
Proof.
  split; [unfold Qle; simpl; lia|].
  apply (getZoomLevelByDistance_antitone 100%Q 5000%Q). unfold Qle; simpl; lia.
Defined.

Lemma wrapInt_mod (value range : Z) :
  0 < range ->
  wrapInt value range = value mod range
  /\ 0 <= wrapInt value range < range.
Proof.
  intro Hr. unfold wrapInt.
  assert (Hb : - range < Z.rem value range < range).
  { pose proof (Z.rem_bound_abs value range ltac:(lia)) as Habs. lia. }
  assert (E : Z.rem (Z.rem value range + range) range = value mod range).
  { rewrite Z.rem_mod_nonneg by lia.
    pose proof (Z.quot_rem' value range) as Hq.
    replace (Z.rem value range + range) with (value + (1 - Z.quot value range) * range) by lia.
    apply Z.mod_add. lia. }
  rewrite E. split; [reflexivity|]. apply Z.mod_pos_bound. exact Hr.
Qed.

(** X2: [wrapInt]: for a positive range the result is the mathematical
    modulo, although the JavaScript remainder it is built from truncates
    towards zero. *)
Theorem wrapInt_is_modulo (value range : Z) :
  0 < range ->
  wrapInt value range = value mod range
  /\ 0 <= wrapInt value range < range.
Proof. apply wrapInt_mod. Qed.

Lemma wrapInt_is_modulo_witness :
  0 < 8 /\ wrapInt (-3) 8 = (-3) mod 8 /\ 0 <= wrapInt (-3) 8 < 8.
Proof. split; [lia|]. apply (wrapInt_is_modulo (-3) 8). lia. Defined.

(** X3: [shortestTileDx]: for two columns of a row of [n] tiles the result is
    the distance around the cylinder: it is at most half the row, it is
    the same in both directions, and going that many columns east or west
    from the centre column arrives at the tile's column. *)
Theorem shortestTileDx_wraps (centerX tileX n : Z) :
  0 <= centerX < n -> 0 <= tileX < n ->
  let dx := shortestTileDx centerX tileX n in
  0 <= dx /\ 2 * dx <= n
  /\ dx = shortestTileDx tileX centerX n
  /\ ((centerX + dx) mod n = tileX \/ (centerX - dx) mod n = tileX).
Proof.
  intros Hc Ht. unfold shortestTileDx. cbv zeta.
  replace (Z.abs (centerX - tileX)) with (Z.abs (tileX - centerX)) by lia.
  split; [lia|]. split; [lia|]. split; [reflexivity|].
  destruct (Z.le_ge_cases centerX tileX) as [Hle|Hge].
  - rewrite Z.abs_eq by lia.
    destruct (Z.le_ge_cases (tileX - centerX) (n - (tileX - centerX))) as [H1|H1].
    + left. rewrite Z.min_l by lia.
      replace (centerX + (tileX - centerX)) with tileX by lia.
      apply Z.mod_small. lia.
    + right. rewrite Z.min_r by lia.
      replace (centerX - (n - (tileX - centerX))) with (tileX + (-1) * n) by lia.
      rewrite Z.mod_add by lia. apply Z.mod_small. lia.
  - rewrite Z.abs_neq by lia.
    destruct (Z.le_ge_cases (- (tileX - centerX)) (n - - (tileX - centerX))) as [H1|H1].
    + right. rewrite Z.min_l by lia.
      replace (centerX - - (tileX - centerX)) with tileX by lia.
      apply Z.mod_small. lia.
    + left. rewrite Z.min_r by lia.
      replace (centerX + (n - - (tileX - centerX))) with (tileX + 1 * n) by lia.
      rewrite Z.mod_add by lia. apply Z.mod_small. lia.
Qed.

Lemma shortestTileDx_wraps_witness :
  let dx := shortestTileDx 1 7 8 in
  0 <= dx /\ 2 * dx <= 8
  /\ dx = shortestTileDx 7 1 8
  /\ ((1 + dx) mod 8 = 7 \/ (1 - dx) mod 8 = 7).
Proof. apply (shortestTileDx_wraps 1 7 8); lia. Defined.

(* ================================================================== *)
(** ** Zoom, radius and viewport of a view state *)

Lemma Qmin_mono_r (a b c : Q) : (b <= c)%Q -> (Qmin a b <= Qmin a c)%Q.
Proof.
  intro H. unfold Qmin.
  destruct (Qle_bool a b) eqn:E1, (Qle_bool a c) eqn:E2.
  - apply Qle_refl.
  - apply Qle_bool_iff in E1. eapply Qle_trans; eauto.
  - destruct (Qlt_le_dec b a) as [Hlt|Hle].
    + now apply Qlt_le_weak.
    + apply Qle_bool_iff in Hle. congruence.
  - exact H.
Qed.

Lemma Qmin_le_Qmax (a b : Q) : (Qmin a b <= Qmax a b)%Q.
Proof.
  unfold Qmin, Qmax. destruct (Qle_bool a b) eqn:E.
  - now apply Qle_bool_iff.
  - destruct (Qlt_le_dec b a) as [Hlt|Hle].
    + now apply Qlt_le_weak.
    + apply Qle_bool_iff in Hle. congruence.
Qed.

Lemma clampIntZ_bounds (v lo hi : Z) :
  lo <= hi -> lo <= clampIntZ v lo hi <= hi.
Proof. unfold clampIntZ. lia. Qed.

Lemma clampIntZ_mono (a b lo hi : Z) :
  a <= b -> clampIntZ a lo hi <= clampIntZ b lo hi.
Proof. unfold clampIntZ. lia. Qed.

Lemma pow2_pos (zoom : Z) : 0 <= zoom -> 1 <= 2 ^ zoom.
Proof. intro H. pose proof (Z.pow_pos_nonneg 2 zoom). lia. Qed.

Lemma pickZoom_range_nonneg (g : GeoCoordinator) (o : PlanarMapTileLayerOptions)
      (cameraHeight : Q) :
  0 <= pickZoom (constructorConfig g o) cameraHeight.
Proof. unfold pickZoom. simpl. unfold clampInt, clampIntZ. lia. Qed.

(** X4: [pickZoom] on a constructed layer: the zoom level is an integer in
    0..22 that is never below [minZoom]; it is at most [maxZoom] when the
    bounds are in order, and it is [minZoom] for every camera height when
    they are not (the constructor does not reorder them). *)
Theorem pickZoom_constructed (g : GeoCoordinator) (o : PlanarMapTileLayerOptions)
        (cameraHeight : Q) :
  let cfg := constructorConfig g o in
  0 <= pickZoom cfg cameraHeight <= 22
  /\ minZoom cfg <= pickZoom cfg cameraHeight
  /\ (minZoom cfg <= maxZoom cfg -> pickZoom cfg cameraHeight <= maxZoom cfg)
  /\ (maxZoom cfg <= minZoom cfg -> pickZoom cfg cameraHeight = minZoom cfg).
Proof.
  cbv zeta. unfold pickZoom. simpl. unfold clampInt, clampIntZ.
  repeat split; lia.
Qed.

(** X5: [resolveTileRadius] on a constructed layer, at the zoom level that
    [pickZoom] chose: the effective radius is never below the configured
    [tileRadius], and it exceeds [maxDynamicTileRadius] only at the zoom
    levels 0..3, where it is at most 4. *)
Theorem resolveTileRadius_constructed (g : GeoCoordinator)
        (o : PlanarMapTileLayerOptions) (cameraHeight : Q) (centerTile : Z * Z)
        (viewRadiusWorld : option Q) :
  let cfg := constructorConfig g o in
  let zoom := pickZoom cfg cameraHeight in
  let r := resolveTileRadius cfg zoom centerTile viewRadiusWorld in
  tileRadius cfg <= r
  /\ r <= Z.max (maxDynamicTileRadius cfg) 4
  /\ (3 < zoom -> r <= maxDynamicTileRadius cfg).
Proof.
  cbv zeta.
  set (cfg := constructorConfig g o).
  set (zoom := pickZoom cfg cameraHeight).
  assert (Hz : 0 <= zoom) by (apply (pickZoom_range_nonneg g o cameraHeight)).
  assert (Htr : tileRadius cfg <= maxDynamicTileRadius cfg) by (simpl; lia).
  unfold resolveTileRadius.
  destruct (Z.leb_spec (2 ^ zoom) 8) as [Hn|Hn].
  - assert (Hc : Qceiling (inject_Z (2 ^ zoom) / 2)%Q <= 4).
    { rewrite <- (Qceiling_Z 4). apply Qceiling_resp_le.
      apply Qle_shift_div_r; [reflexivity|].
      change (inject_Z 4 * 2)%Q with (inject_Z 8). rewrite <- Zle_Qle. lia. }
    split; [lia|]. split; [lia|].
    intro H3. exfalso.
    assert (2 ^ 4 <= 2 ^ zoom) by (apply Z.pow_le_mono_r; lia).
    change (2 ^ 4) with 16 in *. lia.
  - set (radius := match viewRadiusWorld with Some _ => _ | None => _ end).
    pose proof (clampIntZ_bounds radius _ _ Htr) as Hb.
    split; [lia|]. split; [lia|]. intros _. lia.
Qed.

Lemma tileSize_pos (zoom : Z) :
  0 <= zoom -> (0 < WEB_MERCATOR_WORLD_SIZE / inject_Z (2 ^ zoom))%Q.
Proof.
  intro Hz. pose proof (pow2_pos zoom Hz) as Hn.
  apply Qlt_shift_div_l.
  - change 0%Q with (inject_Z 0). rewrite <- Zlt_Qlt. lia.
  - rewrite Qmult_0_l. reflexivity.
Qed.

Lemma Qfloor_div_mono (a b ts : Q) :
  (0 < ts)%Q -> (a <= b)%Q -> Qfloor (a / ts) <= Qfloor (b / ts).
Proof.
  intros Hts Hab. apply Qfloor_resp_le. unfold Qdiv.
  apply Qmult_le_compat_r; [exact Hab|].
  apply Qinv_le_0_compat. now apply Qlt_le_weak.
Qed.

Lemma mercatorBoundsToTileRange_ordered_aux
        (minMercatorX minMercatorY maxMercatorX maxMercatorY : Q) (zoom marginTiles : Z) :
  0 <= zoom -> 0 <= marginTiles ->
  (minMercatorX <= maxMercatorX)%Q -> (minMercatorY <= maxMercatorY)%Q ->
  exists r,
    mercatorBoundsToTileRange minMercatorX minMercatorY maxMercatorX maxMercatorY
                              zoom marginTiles = Some r
    /\ minXRaw r <= maxXRaw r
    /\ 0 <= rg_minY r /\ rg_minY r <= rg_maxY r /\ rg_maxY r <= 2 ^ zoom - 1.
Proof.
  intros Hz Hm Hx Hy. unfold mercatorBoundsToTileRange. cbv zeta.
  pose proof (pow2_pos zoom Hz) as Hn.
  pose proof (tileSize_pos zoom Hz) as Hts.
  set (ts := (WEB_MERCATOR_WORLD_SIZE / inject_Z (2 ^ zoom))%Q) in *.
  set (H := WEB_MERCATOR_HALF_WORLD).
  set (cMinY := Qmax (- H)%Q (Qmin H minMercatorY)).
  set (cMaxY := Qmax (- H)%Q (Qmin H maxMercatorY)).
  assert (Hc : (cMinY <= cMaxY)%Q) by (apply Qmax_mono_r, Qmin_mono_r; exact Hy).
  assert (Hfx : Qfloor ((minMercatorX + H) / ts) <= Qfloor ((maxMercatorX + H) / ts)).
  { apply Qfloor_div_mono; [exact Hts|].
    apply Qplus_le_compat; [exact Hx | apply Qle_refl]. }
  assert (Hfy : Qfloor ((H - cMaxY) / ts) <= Qfloor ((H - cMinY) / ts)).
  { apply Qfloor_div_mono; [exact Hts|].
    apply Qplus_le_compat; [apply Qle_refl | now apply Qopp_le_compat]. }
  set (lo := clampIntZ (Qfloor ((H - cMaxY) / ts) - marginTiles) 0 (2 ^ zoom - 1)).
  set (hi := clampIntZ (Qfloor ((H - cMinY) / ts) + marginTiles) 0 (2 ^ zoom - 1)).
  assert (Hlohi : lo <= hi) by (apply clampIntZ_mono; lia).
  assert (Hlo : 0 <= lo <= 2 ^ zoom - 1) by (apply clampIntZ_bounds; lia).
  assert (Hhi : 0 <= hi <= 2 ^ zoom - 1) by (apply clampIntZ_bounds; lia).
  destruct (Z.ltb_spec hi lo) as [Hlt|_]; [lia|].
  eexists. split; [reflexivity|]. cbn [minXRaw maxXRaw rg_minY rg_maxY]. lia.
Qed.


(** X6: [mercatorBoundsToTileRange]: for a zoom level of 0 or more, a margin
    of 0 or more and bounds given in order, the function never answers
    [null]; the rows of the range lie inside the tile grid, [0 .. 2^zoom -
    1], and both the rows and the raw columns are in order. *)
Theorem mercatorBoundsToTileRange_ordered
        (minMercatorX minMercatorY maxMercatorX maxMercatorY : Q) (zoom marginTiles : Z) :
  0 <= zoom -> 0 <= marginTiles ->
  (minMercatorX <= maxMercatorX)%Q -> (minMercatorY <= maxMercatorY)%Q ->
  exists r,
    mercatorBoundsToTileRange minMercatorX minMercatorY maxMercatorX maxMercatorY
                              zoom marginTiles = Some r
    /\ minXRaw r <= maxXRaw r
    /\ 0 <= rg_minY r /\ rg_minY r <= rg_maxY r /\ rg_maxY r <= 2 ^ zoom - 1.
Proof. apply mercatorBoundsToTileRange_ordered_aux. Qed.

Lemma mercatorBoundsToTileRange_ordered_witness :
  exists r,
    mercatorBoundsToTileRange (-1000)%Q (-2000)%Q 3000%Q 4000%Q 10 1 = Some r
    /\ minXRaw r <= maxXRaw r
    /\ 0 <= rg_minY r /\ rg_minY r <= rg_maxY r /\ rg_maxY r <= 2 ^ 10 - 1.
Proof.
  apply (mercatorBoundsToTileRange_ordered (-1000)%Q (-2000)%Q 3000%Q 4000%Q 10 1);
    [lia | lia | unfold Qle; simpl; lia | unfold Qle; simpl; lia].
Defined.

Lemma In_zrange (lo hi x : Z) : In x (zrange lo hi) <-> lo <= x <= hi.
Proof.
  unfold zrange. rewrite in_map_iff. split.
  - intros [i [E Hi]]. apply in_seq in Hi. lia.
  - intro H. exists (Z.to_nat (x - lo)). split; [lia|]. apply in_seq. lia.
Qed.

Section ViewportCollection.

Variable cfg : Config.

Lemma viewportTileRange_some (b : ViewportWorldBounds) (zoom marginTiles : Z) :
  0 <= zoom -> 0 <= marginTiles ->
  exists r,
    viewportTileRange cfg b zoom marginTiles = Some r
    /\ minXRaw r <= maxXRaw r
    /\ 0 <= rg_minY r /\ rg_minY r <= rg_maxY r /\ rg_maxY r <= 2 ^ zoom - 1.
Proof.
  intros Hz Hm. unfold viewportTileRange. cbv zeta.
  apply mercatorBoundsToTileRange_ordered_aux; try assumption; apply Qmin_le_Qmax.
Qed.

Lemma collectDesiredTilesByViewport_nonempty
      (centerTile : Z * Z) (zoom : Z) (b : ViewportWorldBounds) (marginTiles : Z) :
  0 <= zoom -> 0 <= marginTiles ->
  collectDesiredTilesByViewport cfg centerTile zoom b marginTiles <> [].
Proof.
  intros Hz Hm. unfold collectDesiredTilesByViewport.
  destruct (viewportTileRange_some b zoom marginTiles Hz Hm)
    as [r [-> [Hx [Hy0 [Hy Hy1]]]]].
  pose proof (pow2_pos zoom Hz) as Hn. cbv zeta.
  destruct (2 ^ zoom <=? maxXRaw r - minXRaw r + 1).
  - rewrite (zrange_cons (rg_minY r)) by lia.
    rewrite (zrange_cons 0 (2 ^ zoom - 1)) by lia.
    cbn [flat_map map app]. discriminate.
  - rewrite (zrange_cons (rg_minY r)) by lia.
    rewrite (zrange_cons (minXRaw r)) by lia.
    cbn [viewportRows].
    destruct (Z.ltb_spec (rg_minY r) 0) as [?|_]; [lia|].
    destruct (Z.leb_spec (2 ^ zoom) (rg_minY r)) as [?|_]; [lia|].
    cbn [orb viewportRow memStr existsb].
    destruct (viewportRow _ _ _ _ _ _) as [more seen'].
    cbn [app]. discriminate.
Qed.

End ViewportCollection.

(** X7: [collectDesiredTiles] with viewport bounds: for a zoom level of 0 or
    more the viewport always yields at least one tile, so the radius-based
    collection is not used and the radius has no effect on the desired
    set. *)
Theorem collectDesiredTiles_viewport_ignores_radius
        (cfg : Config) (centerTile : Z * Z) (zoom radius radius' : Z)
        (b : ViewportWorldBounds) :
  0 <= zoom ->
  collectDesiredTiles cfg centerTile zoom radius (Some b) <> []
  /\ collectDesiredTiles cfg centerTile zoom radius (Some b)
     = collectDesiredTiles cfg centerTile zoom radius' (Some b).
Proof.
  intro Hz. unfold collectDesiredTiles. cbv zeta.
  set (m := Z.max 0 _).
  pose proof (collectDesiredTilesByViewport_nonempty cfg centerTile zoom b m Hz
                ltac:(unfold m; lia)) as Hne.
  destruct (collectDesiredTilesByViewport cfg centerTile zoom b m) as [|d ds] eqn:E;
    [congruence|].
  split; [|reflexivity].
  set (mt := Z.max 16 _).
  assert (Hs : stableSort (fun a b0 => d_priority a <=? d_priority b0) (d :: ds) <> []).
  { intro Hnil. apply (f_equal (@List.length _)) in Hnil.
    rewrite length_stableSort in Hnil. discriminate. }
  destruct (stableSort _ (d :: ds)) as [|s ss]; [congruence|].
  destruct (mt <? Z.of_nat (List.length (s :: ss))); [|discriminate].
  replace (Z.to_nat mt) with (S (Z.to_nat (mt - 1))) by (unfold mt; lia).
  discriminate.
Qed.

Lemma collectDesiredTiles_viewport_ignores_radius_witness :
  collectDesiredTiles scenarioConfig (512, 341) 10 0
                      (Some (mkBounds 0%Q 0%Q 1%Q 1%Q)) <> []
  /\ collectDesiredTiles scenarioConfig (512, 341) 10 0
                         (Some (mkBounds 0%Q 0%Q 1%Q 1%Q))
     = collectDesiredTiles scenarioConfig (512, 341) 10 7
                           (Some (mkBounds 0%Q 0%Q 1%Q 1%Q)).
Proof.
  apply (collectDesiredTiles_viewport_ignores_radius
           scenarioConfig (512, 341) 10 0 7 (mkBounds 0%Q 0%Q 1%Q 1%Q)).
  lia.
Defined.

(* ================================================================== *)
(** ** Keys: tiles and view states *)

Lemma showZ_inj (a b : Z) : showZ a = showZ b -> a = b.
Proof.
  unfold showZ. intro H.
  assert (Hn : forall z, Z.to_int z <> Decimal.Pos Decimal.Nil
                         /\ Z.to_int z <> Decimal.Neg Decimal.Nil).
  { intros [|p|p]; simpl; split; try discriminate;
      intros [= E]; now apply (DecimalPos.Unsigned.to_uint_nonnil p). }
  apply DecimalZ.to_int_inj.
  assert (E : Some (Z.to_int a) = Some (Z.to_int b)).
  { rewrite <- (NilZero.isi (Z.to_int a)) by apply Hn.
    rewrite <- (NilZero.isi (Z.to_int b)) by apply Hn.
    now rewrite H. }
  now injection E.
Qed.

Lemma string_of_uint_chars (d : Decimal.uint) (c : ascii) :
  In c (list_ascii_of_string (NilEmpty.string_of_uint d)) -> isDigit c = true.
Proof.
  induction d; simpl; try tauto; (intros [<-|H]; [reflexivity | auto]).
Qed.

Lemma showZ_chars (z : Z) (c : ascii) :
  In c (list_ascii_of_string (showZ z)) -> numeral c.
Proof.
  unfold showZ, NilZero.string_of_int, NilZero.string_of_uint, numeral.
  destruct (Z.to_int z) as [d|d].
  - destruct d; simpl; try (intros [<-|H]; [now left | left]);
      try (now apply (string_of_uint_chars d)); tauto.
  - simpl. intros [<-|H]; [now right | left].
    destruct d; simpl in H;
      try (destruct H as [<-|H]; [reflexivity|]);
      try (now apply (string_of_uint_chars d)); tauto.
Qed.

(** Two strings that agree up to a separator which occurs in neither
    head have the same head and the same tail. *)
Lemma append_sep_inj (sep : ascii) (s1 s2 r1 r2 : string) :
  ~ In sep (list_ascii_of_string s1) ->
  ~ In sep (list_ascii_of_string s2) ->
  (s1 ++ String sep r1)%string = (s2 ++ String sep r2)%string ->
  s1 = s2 /\ r1 = r2.
Proof.
  revert s2. induction s1 as [|c s1 IH]; intros [|c2 s2] H1 H2 E; simpl in *.
  - injection E as E. now split.
  - injection E as Ec E. subst c2. exfalso. apply H2. now left.
  - injection E as Ec E. subst c. exfalso. apply H1. now left.
  - injection E as Ec E. subst c2.
    destruct (IH s2) as [-> ->]; try assumption; [tauto | tauto | now split].
Qed.

Lemma showZ_sep_inj (sep : ascii) (a b : Z) (r1 r2 : string) :
  ~ numeral sep ->
  (showZ a ++ String sep r1)%string = (showZ b ++ String sep r2)%string ->
  a = b /\ r1 = r2.
Proof.
  intros Hsep E.
  destruct (append_sep_inj sep (showZ a) (showZ b) r1 r2) as [Hs Hr].
  - intro H. now apply showZ_chars in H.
  - intro H. now apply showZ_chars in H.
  - exact E.
  - split; [now apply showZ_inj | exact Hr].
Qed.

Lemma slash_not_numeral : ~ numeral "/"%char.
Proof. unfold numeral. intros [H|H]; discriminate. Qed.

Lemma bar_not_numeral : ~ numeral "|"%char.
Proof. unfold numeral. intros [H|H]; discriminate. Qed.

Lemma tileKey_inj (a b : TileId) : tileKey a = tileKey b -> a = b.
Proof.
  destruct a as [ax ay az], b as [bx by_ bz]. unfold tileKey. simpl.
  intro E.
  apply (showZ_sep_inj "/"%char) in E; [|exact slash_not_numeral].
  destruct E as [-> E].
  apply (showZ_sep_inj "/"%char) in E; [|exact slash_not_numeral].
  destruct E as [-> E].
  apply showZ_inj in E. now subst.
Qed.

(** X8: [tileKey]: two tile ids have the same cache key only if they are the
    same tile, for all integer coordinates. *)
Theorem tileKey_injective (a b : TileId) : tileKey a = tileKey b -> a = b.
Proof. apply tileKey_inj. Qed.

Lemma tileKey_injective_witness :
  tileKey (mkTileId 512 341 10) = tileKey (mkTileId 512 341 10)
  /\ mkTileId 512 341 10 = mkTileId 512 341 10.
Proof.
  split; [reflexivity|].
  apply (tileKey_injective (mkTileId 512 341 10) (mkTileId 512 341 10)). reflexivity.
Defined.

(** X9: The state key that [update] computes: two calls get the same key only
    if they agree on the zoom level, the centre tile, the effective radius
    and the key of the viewport's tile range.  [update] compares nothing
    but this key to decide that a view is unchanged. *)
Theorem stateKey_determines_view
        (cfg : Config) (fx fy h : Q) (r : option Q) (b : option ViewportWorldBounds)
        (fx' fy' h' : Q) (r' : option Q) (b' : option ViewportWorldBounds) :
  let v := nextViewState cfg fx fy h r b in
  let v' := nextViewState cfg fx' fy' h' r' b' in
  vs_stateKey v = vs_stateKey v' ->
  vs_zoom v = vs_zoom v'
  /\ vs_centerX v = vs_centerX v' /\ vs_centerY v = vs_centerY v'
  /\ vs_tileRadius v = vs_tileRadius v'
  /\ buildViewportStateKey cfg (vs_viewportBounds v) (vs_zoom v)
     = buildViewportStateKey cfg (vs_viewportBounds v') (vs_zoom v').
Proof.
  cbv zeta. unfold nextViewState. cbn [vs_stateKey vs_zoom vs_centerX vs_centerY
                                        vs_tileRadius vs_viewportBounds].
  intro E.
  apply (showZ_sep_inj "|"%char) in E; [|exact bar_not_numeral].
  destruct E as [Ez E].
  apply (showZ_sep_inj "|"%char) in E; [|exact bar_not_numeral].
  destruct E as [Ex E].
  apply (showZ_sep_inj "|"%char) in E; [|exact bar_not_numeral].
  destruct E as [Ey E].
  apply (showZ_sep_inj "|"%char) in E; [|exact bar_not_numeral].
  destruct E as [Er E].
  repeat split; assumption.
Qed.

Lemma stateKey_determines_view_witness :
  let v := nextViewState scenarioConfig 512%Q 341%Q 100000%Q None None in
  let v' := nextViewState scenarioConfig (1025 # 2)%Q 341%Q 120000%Q None None in
  vs_stateKey v = vs_stateKey v'
  /\ vs_zoom v = vs_zoom v'
  /\ vs_centerX v = vs_centerX v' /\ vs_centerY v = vs_centerY v'
  /\ vs_tileRadius v = vs_tileRadius v'
  /\ buildViewportStateKey scenarioConfig (vs_viewportBounds v) (vs_zoom v)
     = buildViewportStateKey scenarioConfig (vs_viewportBounds v') (vs_zoom v').
Proof.
  cbv zeta. split; [vm_compute; reflexivity|].
  apply (stateKey_determines_view scenarioConfig 512%Q 341%Q 100000%Q None None
                                  (1025 # 2)%Q 341%Q 120000%Q None None).
  vm_compute. reflexivity.
Defined.

(* ================================================================== *)
(** ** The desired set *)

Section SortLemmas.

Context {A : Type} (le : A -> A -> bool).
Hypothesis le_total : forall a b, le a b = false -> le b a = true.
Hypothesis le_trans : forall a b c, le a b = true -> le b c = true -> le a c = true.

Lemma insertSorted_sorted (x : A) (l : list A) :
  StronglySorted (fun a b => le a b = true) l ->
  StronglySorted (fun a b => le a b = true) (insertSorted le x l).
Proof.
  induction l as [|y l IH]; intro Hs; simpl.
  - constructor; constructor.
  - inversion Hs as [|y' l' Hl Hy]; subst.
    destruct (le x y) eqn:E.
    + constructor; [exact Hs|]. constructor; [exact E|].
      eapply Forall_impl; [|exact Hy]. intros z Hz. eapply le_trans; eauto.
    + constructor; [now apply IH|].
      apply Forall_forall. intros z Hz. apply In_insertSorted in Hz.
      destruct Hz as [->|Hz]; [now apply le_total|].
      rewrite Forall_forall in Hy. now apply Hy.
Qed.

Lemma stableSort_sorted (l : list A) :
  StronglySorted (fun a b => le a b = true) (stableSort le l).
Proof.
  induction l as [|x l IH]; simpl; [constructor | now apply insertSorted_sorted].
Qed.

End SortLemmas.

Lemma Permutation_insertSorted {A : Type} (le : A -> A -> bool) (x : A) (l : list A) :
  Permutation (insertSorted le x l) (x :: l).
Proof.
  induction l as [|y l IH]; simpl; [reflexivity|].
  destruct (le x y); [reflexivity|].
  rewrite IH. apply perm_swap.
Qed.

Lemma Permutation_stableSort {A : Type} (le : A -> A -> bool) (l : list A) :
  Permutation (stableSort le l) l.
Proof.
  induction l as [|x l IH]; simpl; [reflexivity|].
  rewrite Permutation_insertSorted. now constructor.
Qed.

Lemma StronglySorted_firstn {A : Type} (R : A -> A -> Prop) (n : nat) (l : list A) :
  StronglySorted R l -> StronglySorted R (firstn n l).
Proof.
  revert l. induction n as [|n IH]; intros [|x l] Hs; simpl; try constructor.
  - inversion Hs; subst. now apply IH.
  - inversion Hs as [|x' l' Hl Hx]; subst.
    apply Forall_forall. intros y Hy. apply In_firstn in Hy.
    rewrite Forall_forall in Hx. now apply Hx.
Qed.

Lemma StronglySorted_impl_Z {A : Type} (le : A -> A -> bool) (R : A -> A -> Prop)
      (l : list A) :
  (forall a b, le a b = true -> R a b) ->
  StronglySorted (fun a b => le a b = true) l -> StronglySorted R l.
Proof.
  intros Himp Hs. induction Hs as [|x l Hl IH Hx]; constructor; [exact IH|].
  eapply Forall_impl; [|exact Hx]. intros y Hy. now apply Himp.
Qed.

Lemma wrapInt_range (value range : Z) : 0 < range -> 0 <= wrapInt value range < range.
Proof. intro H. now apply wrapInt_mod. Qed.

Section DesiredSet.

Variable cfg : Config.

Lemma collectDesiredTilesByRadius_at centerTile zoom radius d :
  0 <= zoom ->
  In d (collectDesiredTilesByRadius centerTile zoom radius) ->
  desiredAt centerTile zoom d.
Proof.
  intros Hz Hd. pose proof (pow2_pos zoom Hz) as Hn.
  unfold collectDesiredTilesByRadius in Hd. cbv zeta in Hd.
  apply in_flat_map in Hd. destruct Hd as [dy [_ Hd]].
  apply in_flat_map in Hd. destruct Hd as [dx [_ Hd]].
  destruct (Z.ltb_spec (snd centerTile + dy) 0) as [?|Hy0]; [destruct Hd|].
  destruct (Z.leb_spec (2 ^ zoom) (snd centerTile + dy)) as [?|Hy1]; [destruct Hd|].
  destruct Hd as [<-|[]]. unfold desiredAt. cbn [d_tileId d_key d_priority tid_x tid_y tid_z].
  pose proof (wrapInt_range (fst centerTile + dx) (2 ^ zoom) ltac:(lia)).
  repeat split; try lia; try reflexivity; ring.
Qed.

Lemma viewportRow_at centerTile zoom rawY xs : forall seen d,
  0 <= zoom -> 0 <= rawY < 2 ^ zoom ->
  In d (fst (viewportRow centerTile zoom (2 ^ zoom) rawY xs seen)) ->
  desiredAt centerTile zoom d.
Proof.
  induction xs as [|x xs IH]; intros seen d Hz Hy; simpl; [tauto|].
  destruct (memStr _ seen); [now apply IH|].
  specialize (IH (setAdd (tileKey (mkTileId (wrapInt x (2 ^ zoom)) rawY zoom)) seen) d Hz Hy).
  destruct (viewportRow centerTile zoom (2 ^ zoom) rawY xs _) as [more seen'].
  simpl in *. intros [<-|H]; [|auto].
  unfold desiredAt. cbn [d_tileId d_key d_priority tid_x tid_y tid_z].
  pose proof (pow2_pos zoom Hz) as Hn.
  pose proof (wrapInt_range x (2 ^ zoom) ltac:(lia)).
  repeat split; try lia; try reflexivity; ring.
Qed.

Lemma viewportRows_at centerTile zoom xs ys : forall seen d,
  0 <= zoom ->
  In d (viewportRows centerTile zoom (2 ^ zoom) ys xs seen) ->
  desiredAt centerTile zoom d.
Proof.
  induction ys as [|y ys IH]; intros seen d Hz; simpl; [tauto|].
  destruct (Z.ltb_spec y 0) as [?|Hy0]; [now apply IH|].
  destruct (Z.leb_spec (2 ^ zoom) y) as [?|Hy1]; [now apply IH|].
  cbn [orb].
  pose proof (viewportRow_at centerTile zoom y xs seen d Hz ltac:(lia)) as Hrow.
  destruct (viewportRow centerTile zoom (2 ^ zoom) y xs seen) as [row seen'].
  simpl in Hrow. rewrite in_app_iff. intros [H|H]; [auto | eapply IH; eassumption].
Qed.

Lemma collectDesiredTilesByViewport_at centerTile zoom b marginTiles d :
  0 <= zoom -> 0 <= marginTiles ->
  In d (collectDesiredTilesByViewport cfg centerTile zoom b marginTiles) ->
  desiredAt centerTile zoom d.
Proof.
  intros Hz Hm. unfold collectDesiredTilesByViewport.
  destruct (viewportTileRange_some cfg b zoom marginTiles Hz Hm)
    as [r [-> [Hx [Hy0 [Hy Hy1]]]]].
  cbv zeta. destruct (_ <=? _).
  - intro Hd. apply in_flat_map in Hd. destruct Hd as [ty [Hty Hd]].
    apply in_map_iff in Hd. destruct Hd as [tx [<- Htx]].
    apply In_zrange in Hty. apply In_zrange in Htx.
    unfold desiredAt. cbn [d_tileId d_key d_priority tid_x tid_y tid_z].
    repeat split; try lia; try reflexivity; ring.
  - now apply viewportRows_at.
Qed.

End DesiredSet.

(** X10: [collectDesiredTiles], for a zoom level of 0 or more: the list has at
    most [maxTiles] entries (the level's own limit or the default of the
    zoom level, and 16 at least); it is in ascending order of priority;
    and each entry is a tile of the grid of that zoom level, carries the
    key of its tile id, and has as priority its squared distance from the
    centre tile. *)
Theorem collectDesiredTiles_nearest_first
        (cfg : Config) (centerTile : Z * Z) (zoom radius : Z)
        (bounds : option ViewportWorldBounds) :
  0 <= zoom ->
  let ds := collectDesiredTiles cfg centerTile zoom radius bounds in
  let maxTiles :=
    Z.max 16 (Qfloor (orElse (match getLodLevel cfg zoom with
                              | Some l => lod_maxTiles l
                              | None => None
                              end)
                             (inject_Z (defaultMaxTilesByZoom zoom)))) in
  Z.of_nat (List.length ds) <= maxTiles
  /\ StronglySorted (fun a b => d_priority a <= d_priority b) ds
  /\ Forall (desiredAt centerTile zoom) ds.
Proof.
  intro Hz. cbv zeta. unfold collectDesiredTiles. cbv zeta.
  set (m := Z.max 0 _). set (mt := Z.max 16 _).
  set (byViewport := match bounds with Some _ => _ | None => [] end).
  set (candidates := match byViewport with _ :: _ => byViewport | [] => _ end).
  set (sorted := stableSort _ candidates).
  assert (Hsorted : StronglySorted (fun a b => d_priority a <= d_priority b) sorted).
  { apply (StronglySorted_impl_Z (fun a b => d_priority a <=? d_priority b)).
    - intros a b H. now apply Z.leb_le.
    - apply stableSort_sorted.
      + intros a b H. apply Z.leb_gt in H. apply Z.leb_le. lia.
      + intros a b c H1 H2. apply Z.leb_le in H1, H2. apply Z.leb_le. lia. }
  assert (Hc : forall d, In d candidates -> desiredAt centerTile zoom d).
  { intros d Hd. unfold candidates in Hd.
    destruct byViewport as [|v vs] eqn:Ev.
    - now apply collectDesiredTilesByRadius_at in Hd.
    - rewrite <- Ev in Hd. unfold byViewport in Hd.
      destruct bounds as [b|]; [|destruct Hd].
      apply (collectDesiredTilesByViewport_at cfg centerTile zoom b m); try assumption.
      unfold m. lia. }
  assert (Hs : forall d, In d sorted -> desiredAt centerTile zoom d).
  { intros d Hd. apply Hc. now apply In_stableSort in Hd. }
  destruct (Z.ltb_spec mt (Z.of_nat (List.length sorted))) as [Hlt|Hge].
  - split; [|split].
    + rewrite length_firstn. lia.
    + now apply StronglySorted_firstn.
    + apply Forall_forall. intros d Hd. apply Hs. now apply In_firstn in Hd.
  - split; [exact Hge|]. split; [exact Hsorted|].
    apply Forall_forall. exact Hs.
Qed.

Lemma collectDesiredTiles_nearest_first_witness :
  let ds := collectDesiredTiles scenarioConfig (512, 341) 10 3 None in
  let maxTiles :=
    Z.max 16 (Qfloor (orElse (match getLodLevel scenarioConfig 10 with
                              | Some l => lod_maxTiles l
                              | None => None
                              end)
                             (inject_Z (defaultMaxTilesByZoom 10)))) in
  Z.of_nat (List.length ds) <= maxTiles
  /\ StronglySorted (fun a b => d_priority a <= d_priority b) ds
  /\ Forall (desiredAt (512, 341) 10) ds.
Proof.
  apply (collectDesiredTiles_nearest_first scenarioConfig (512, 341) 10 3 None). lia.
Defined.

(* ================================================================== *)
(** ** Distinct keys in the desired set *)

Lemma map_flat_map {A B C : Type} (g : B -> C) (f : A -> list B) (l : list A) :
  map g (flat_map f l) = flat_map (fun a => map g (f a)) l.
Proof.
  induction l as [|a l IH]; simpl; [reflexivity|].
  now rewrite map_app, IH.
Qed.

Lemma NoDup_app_intro {A : Type} (l l' : list A) :
  NoDup l -> NoDup l' -> (forall a, In a l -> ~ In a l') -> NoDup (l ++ l').
Proof.
  intros Hl Hl' Hdis. induction Hl as [|x l Hnin Hl IH]; simpl; [exact Hl'|].
  constructor.
  - rewrite in_app_iff. intros [H|H]; [contradiction|]. apply (Hdis x); [now left | exact H].
  - apply IH. intros a Ha. apply Hdis. now right.
Qed.

Lemma NoDup_flat_map_disjoint {A B : Type} (f : A -> list B) (l : list A) :
  (forall a, In a l -> NoDup (f a)) ->
  (forall a a' b, In a l -> In a' l -> In b (f a) -> In b (f a') -> a = a') ->
  NoDup l -> NoDup (flat_map f l).
Proof.
  intros Hrow Hdis Hl. induction Hl as [|a l Hnin Hl IH]; simpl; [constructor|].
  apply NoDup_app_intro.
  - apply Hrow. now left.
  - apply IH.
    + intros a' Ha'. apply Hrow. now right.
    + intros a1 a2 b H1 H2. apply Hdis; now right.
  - intros b Hb Hb'. apply in_flat_map in Hb'. destruct Hb' as [a' [Ha' Hb']].
    assert (a = a') by (apply (Hdis a a' b); [now left | now right | assumption | assumption]).
    subst a'. contradiction.
Qed.

Lemma NoDup_map_inj_in {A B : Type} (f : A -> B) (l : list A) :
  (forall x y, In x l -> In y l -> f x = f y -> x = y) ->
  NoDup l -> NoDup (map f l).
Proof.
  intros Hinj Hl. induction Hl as [|a l Hnin Hl IH]; simpl; constructor.
  - intro Hin. apply in_map_iff in Hin. destruct Hin as [y [E Hy]].
    assert (y = a) by (apply Hinj; [now right | now left | exact E]).
    subst y. contradiction.
  - apply IH. intros x y Hx Hy. apply Hinj; now right.
Qed.

Lemma NoDup_map_injective {A B : Type} (f : A -> B) (l : list A) :
  NoDup (map f l) -> forall x y, In x l -> In y l -> f x = f y -> x = y.
Proof.
  induction l as [|a l IH]; intros Hnd x y Hx Hy E; [destruct Hx|].
  simpl in Hnd. inversion Hnd as [|b m Hnin Hrest]; subst.
  destruct Hx as [->|Hx], Hy as [->|Hy].
  - reflexivity.
  - exfalso. apply Hnin. rewrite E. now apply in_map.
  - exfalso. apply Hnin. rewrite <- E. now apply in_map.
  - now apply IH.
Qed.

Lemma NoDup_flat_map_row {A B : Type} (f : A -> list B) (l : list A) (a : A) :
  NoDup (flat_map f l) -> In a l -> NoDup (f a).
Proof.
  induction l as [|x l IH]; intros Hnd Ha; [destruct Ha|].
  simpl in Hnd. destruct Ha as [->|Ha].
  - now apply NoDup_app_remove_r in Hnd.
  - apply IH; [|exact Ha]. now apply NoDup_app_remove_l in Hnd.
Qed.

Lemma NoDup_zrange (lo hi : Z) : NoDup (zrange lo hi).
Proof.
  unfold zrange. apply NoDup_map_inj_in; [|apply seq_NoDup].
  intros x y _ _ E. lia.
Qed.

Lemma NoDup_firstn {A : Type} (n : nat) (l : list A) : NoDup l -> NoDup (firstn n l).
Proof.
  revert l. induction n as [|n IH]; intros [|x l] Hnd; simpl; try constructor.
  - inversion Hnd; subst. intro Hin. apply In_firstn in Hin. contradiction.
  - inversion Hnd; subst. now apply IH.
Qed.

Lemma mod_window_inj (a b n : Z) :
  0 < n -> Z.abs (a - b) < n -> a mod n = b mod n -> a = b.
Proof.
  intros Hn Hab E.
  pose proof (Z.div_mod a n ltac:(lia)) as Ha.
  pose proof (Z.div_mod b n ltac:(lia)) as Hb.
  assert (Hk : a - b = n * (a / n - b / n)) by lia.
  assert (a / n - b / n = 0) by nia.
  lia.
Qed.

Lemma flat_map_guard {A B : Type} (c : bool) (g : A -> B) (l : list A) :
  flat_map (fun a => if c then [] else [g a]) l = if c then [] else map g l.
Proof.
  destruct c.
  - induction l; simpl; auto.
  - induction l as [|a l IH]; simpl; [reflexivity | now rewrite IH].
Qed.

Section DistinctKeys.

Variable cfg : Config.

(** The keys of the row [dy] of the radius window. *)
Lemma radiusRow_keys (centerTile : Z * Z) (zoom radius dy : Z) :
  map d_key
      (flat_map
         (fun dx =>
            let tileY := snd centerTile + dy in
            if (tileY <? 0) || (2 ^ zoom <=? tileY) then []
            else
              let tileX := wrapInt (fst centerTile + dx) (2 ^ zoom) in
              let id := mkTileId tileX tileY zoom in
              [mkDesired id (tileKey id)
                         (shortestTileDx (fst centerTile) tileX (2 ^ zoom) ^ 2 + dy * dy)])
         (zrange (- radius) radius))
  = if (snd centerTile + dy <? 0) || (2 ^ zoom <=? snd centerTile + dy) then []
    else map (fun dx => tileKey (mkTileId (wrapInt (fst centerTile + dx) (2 ^ zoom))
                                          (snd centerTile + dy) zoom))
             (zrange (- radius) radius).
Proof.
  cbv zeta.
  rewrite (flat_map_guard _
             (fun dx =>
                mkDesired (mkTileId (wrapInt (fst centerTile + dx) (2 ^ zoom))
                                    (snd centerTile + dy) zoom)
                          (tileKey (mkTileId (wrapInt (fst centerTile + dx) (2 ^ zoom))
                                             (snd centerTile + dy) zoom))
                          (shortestTileDx (fst centerTile)
                                          (wrapInt (fst centerTile + dx) (2 ^ zoom))
                                          (2 ^ zoom) ^ 2 + dy * dy))).
  destruct (_ || _); [reflexivity|]. now rewrite map_map.
Qed.

Lemma collectDesiredTilesByRadius_keys (centerTile : Z * Z) (zoom radius : Z) :
  map d_key (collectDesiredTilesByRadius centerTile zoom radius)
  = flat_map
      (fun dy =>
         if (snd centerTile + dy <? 0) || (2 ^ zoom <=? snd centerTile + dy) then []
         else map (fun dx => tileKey (mkTileId (wrapInt (fst centerTile + dx) (2 ^ zoom))
                                               (snd centerTile + dy) zoom))
                  (zrange (- radius) radius))
      (zrange (- radius) radius).
Proof.
  unfold collectDesiredTilesByRadius. cbv zeta. rewrite map_flat_map.
  apply flat_map_ext. intro dy. apply radiusRow_keys.
Qed.

Lemma collectDesiredTilesByRadius_NoDup (centerTile : Z * Z) (zoom radius : Z) :
  0 <= zoom -> 2 * radius + 1 <= 2 ^ zoom ->
  NoDup (map d_key (collectDesiredTilesByRadius centerTile zoom radius)).
Proof.
  intros Hz Hw. pose proof (pow2_pos zoom Hz) as Hn.
  assert (Hpos : 0 < 2 ^ zoom) by lia.
  rewrite collectDesiredTilesByRadius_keys.
  apply NoDup_flat_map_disjoint; [| |apply NoDup_zrange].
  - intros dy _. destruct (_ || _); [constructor|].
    apply NoDup_map_inj_in; [|apply NoDup_zrange].
    intros x y Hx Hy E. apply tileKey_inj in E. injection E as E.
    apply In_zrange in Hx, Hy.
    rewrite !(proj1 (wrapInt_mod _ _ Hpos)) in E.
    apply mod_window_inj in E; lia.
  - intros dy dy' k _ _ H1 H2.
    destruct (_ || _); [destruct H1|]. destruct (_ || _); [destruct H2|].
    apply in_map_iff in H1, H2.
    destruct H1 as [x [E1 _]], H2 as [y [E2 _]].
    rewrite <- E2 in E1. apply tileKey_inj in E1. injection E1 as _ E1. lia.
Qed.

Lemma collectDesiredTilesByRadius_dup (centerTile : Z * Z) (zoom radius : Z) :
  0 <= zoom -> 0 <= snd centerTile < 2 ^ zoom -> 2 ^ zoom <= 2 * radius ->
  ~ NoDup (map d_key (collectDesiredTilesByRadius centerTile zoom radius)).
Proof.
  intros Hz Hy Hw Hnd. pose proof (pow2_pos zoom Hz) as Hn.
  assert (Hpos : 0 < 2 ^ zoom) by lia.
  rewrite collectDesiredTilesByRadius_keys in Hnd.
  apply (NoDup_flat_map_row _ _ 0) in Hnd; [|apply In_zrange; lia].
  cbv beta in Hnd. rewrite !Z.add_0_r in Hnd.
  destruct (Z.ltb_spec (snd centerTile) 0) as [?|_]; [lia|].
  destruct (Z.leb_spec (2 ^ zoom) (snd centerTile)) as [?|_]; [lia|].
  cbn [orb] in Hnd.
  assert (E : - radius = - radius + 2 ^ zoom).
  { apply (NoDup_map_injective _ _ Hnd); try (apply In_zrange; lia).
    f_equal. f_equal.
    rewrite !(proj1 (wrapInt_mod _ _ Hpos)).
    replace (fst centerTile + (- radius + 2 ^ zoom))
      with (fst centerTile + - radius + 1 * 2 ^ zoom) by lia.
    now rewrite Z.mod_add by lia. }
  lia.
Qed.

Lemma viewportRow_NoDup centerTile zoom n rawY xs : forall seen,
  let r := viewportRow centerTile zoom n rawY xs seen in
  NoDup (map d_key (fst r))
  /\ (forall k, In k (map d_key (fst r)) -> ~ In k seen)
  /\ (forall k, In k (snd r) <-> In k seen \/ In k (map d_key (fst r))).
Proof.
  induction xs as [|x xs IH]; intros seen; cbn [viewportRow].
  - cbn. split; [constructor|]. split; [tauto|]. tauto.
  - cbv zeta.
    set (k0 := tileKey (mkTileId (wrapInt x n) rawY zoom)).
    destruct (memStr k0 seen) eqn:Hmem.
    + apply IH.
    + specialize (IH (setAdd k0 seen)). cbv zeta in IH.
      destruct (viewportRow centerTile zoom n rawY xs (setAdd k0 seen)) as [more seen'].
      cbn [fst snd map d_key] in *. destruct IH as [Hnd [Hfresh Hseen]].
      assert (Hk0 : ~ In k0 seen).
      { intro Hin. apply memStr_In in Hin. congruence. }
      split; [|split].
      * constructor; [|exact Hnd]. intro Hin. apply (Hfresh k0 Hin).
        apply In_setAdd. now left.
      * intros k [<-|Hk]; [exact Hk0|].
        intro Hin. apply (Hfresh k Hk). apply In_setAdd. now right.
      * intro k. rewrite Hseen, In_setAdd. cbn [In]. intuition.
Qed.

Lemma viewportRows_NoDup centerTile zoom n xs ys : forall seen,
  NoDup (map d_key (viewportRows centerTile zoom n ys xs seen))
  /\ (forall k, In k (map d_key (viewportRows centerTile zoom n ys xs seen)) ->
                ~ In k seen).
Proof.
  induction ys as [|y ys IH]; intros seen; cbn [viewportRows].
  - cbn. split; [constructor | tauto].
  - destruct (_ || _); [apply IH|].
    pose proof (viewportRow_NoDup centerTile zoom n y xs seen) as Hrow.
    cbv zeta in Hrow.
    destruct (viewportRow centerTile zoom n y xs seen) as [row seen'].
    cbn [fst snd] in Hrow. destruct Hrow as [Hnd [Hfresh Hseen]].
    destruct (IH seen') as [Hnd' Hfresh'].
    rewrite map_app. split.
    + apply NoDup_app_intro; [exact Hnd | exact Hnd'|].
      intros k Hk Hk'. apply (Hfresh' k Hk'). apply Hseen. now right.
    + intros k Hk. apply in_app_iff in Hk. destruct Hk as [Hk|Hk]; [now apply Hfresh|].
      intro Hin. apply (Hfresh' k Hk). apply Hseen. now left.
Qed.

Lemma collectDesiredTilesByViewport_NoDup centerTile zoom b marginTiles :
  NoDup (map d_key (collectDesiredTilesByViewport cfg centerTile zoom b marginTiles)).
Proof.
  unfold collectDesiredTilesByViewport.
  destruct (viewportTileRange cfg b zoom marginTiles) as [r|]; [|constructor].
  cbv zeta. destruct (_ <=? _).
  - rewrite map_flat_map.
    apply NoDup_flat_map_disjoint; [| |apply NoDup_zrange].
    + intros ty _. rewrite map_map. cbn [d_key].
      apply NoDup_map_inj_in; [|apply NoDup_zrange].
      intros x y _ _ E. apply tileKey_inj in E. now injection E.
    + intros ty ty' k _ _ H1 H2. rewrite map_map in H1, H2. cbn [d_key] in H1, H2.
      apply in_map_iff in H1, H2.
      destruct H1 as [x [E1 _]], H2 as [y [E2 _]].
      rewrite <- E2 in E1. apply tileKey_inj in E1. now injection E1.
  - apply viewportRows_NoDup.
Qed.

End DistinctKeys.

(** X11: The keys of a desired set are pairwise distinct whenever the set comes
    from viewport bounds, and also when it comes from the radius, provided
    the window of [2 * radius + 1] columns is not wider than the row of
    [2^zoom] tiles. *)
Theorem collectDesiredTiles_distinct_keys
        (cfg : Config) (centerTile : Z * Z) (zoom radius : Z)
        (bounds : option ViewportWorldBounds) :
  0 <= zoom ->
  (bounds = None -> 2 * radius + 1 <= 2 ^ zoom) ->
  NoDup (map d_key (collectDesiredTiles cfg centerTile zoom radius bounds)).
Proof.
  intros Hz Hw. unfold collectDesiredTiles. cbv zeta.
  set (m := Z.max 0 _). set (mt := Z.max 16 _).
  set (byViewport := match bounds with Some _ => _ | None => [] end).
  set (candidates := match byViewport with _ :: _ => byViewport | [] => _ end).
  assert (Hc : NoDup (map d_key candidates)).
  { unfold candidates. destruct byViewport as [|v vs] eqn:Ev.
    - apply collectDesiredTilesByRadius_NoDup; [exact Hz|].
      apply Hw. destruct bounds as [b|]; [|reflexivity].
      exfalso. unfold byViewport in Ev.
      apply (collectDesiredTilesByViewport_nonempty cfg centerTile zoom b m Hz);
        [unfold m; lia | exact Ev].
    - rewrite <- Ev. unfold byViewport. destruct bounds as [b|]; [|constructor].
      apply collectDesiredTilesByViewport_NoDup. }
  assert (Hs : NoDup (map d_key (stableSort (fun a b => d_priority a <=? d_priority b)
                                            candidates))).
  { eapply Permutation_NoDup; [|exact Hc].
    apply Permutation_map. symmetry. apply Permutation_stableSort. }
  destruct (_ <? _); [|exact Hs].
  rewrite <- firstn_map. now apply NoDup_firstn.
Qed.

Lemma collectDesiredTiles_distinct_keys_witness :
  NoDup (map d_key (collectDesiredTiles scenarioConfig (512, 341) 10 3 None)).
Proof.
  apply (collectDesiredTiles_distinct_keys scenarioConfig (512, 341) 10 3 None);
    [lia | intros _; vm_compute; discriminate].
Defined.

(** X12: At the zoom levels 0 to 3 the radius that [resolveTileRadius] gives is
    at least half the row of tiles, so the window of the radius-based
    collection wraps onto itself: [collectDesiredTilesByRadius] lists some
    tile twice, for every centre tile with a row inside the grid. *)
Theorem collectDesiredTilesByRadius_repeats_at_low_zoom
        (cfg : Config) (centerTile : Z * Z) (zoom : Z) (viewRadiusWorld : option Q) :
  0 <= zoom <= 3 ->
  0 <= snd centerTile < 2 ^ zoom ->
  ~ NoDup (map d_key
               (collectDesiredTilesByRadius
                  centerTile zoom
                  (resolveTileRadius cfg zoom centerTile viewRadiusWorld))).
Proof.
  intros Hz Hy. apply collectDesiredTilesByRadius_dup; [lia | exact Hy|].
  unfold resolveTileRadius.
  assert (Hn : 1 <= 2 ^ zoom <= 8).
  { split; [apply pow2_pos; lia|].
    change 8 with (2 ^ 3). apply Z.pow_le_mono_r; lia. }
  destruct (Z.leb_spec (2 ^ zoom) 8) as [_|?]; [|lia].
  assert (Hc : (inject_Z (2 ^ zoom) / 2 <= inject_Z (Qceiling (inject_Z (2 ^ zoom) / 2)))%Q)
    by apply Qle_ceiling.
  assert (Hc' : 2 ^ zoom <= Qceiling (inject_Z (2 ^ zoom) / 2) * 2).
  { rewrite Zle_Qle, inject_Z_mult.
    setoid_replace (inject_Z (2 ^ zoom)) with (inject_Z (2 ^ zoom) / 2 * inject_Z 2)%Q at 1
      by (change (inject_Z 2) with 2%Q; field).
    apply Qmult_le_compat_r; [exact Hc | discriminate]. }
  lia.
Qed.

Lemma collectDesiredTilesByRadius_repeats_at_low_zoom_witness :
  0 <= 3 <= 3
  /\ ~ NoDup (map d_key
                  (collectDesiredTilesByRadius
                     (0, 0) 3 (resolveTileRadius scenarioConfig 3 (0, 0) None))).
Proof.
  split; [lia|].
  apply (collectDesiredTilesByRadius_repeats_at_low_zoom scenarioConfig (0, 0) 3 None);
    [lia | simpl; lia].
Defined.

(* ================================================================== *)
(** ** The load queue *)

Lemma prioLt_irrefl (a : Priority) : prioLt a a = false.
Proof. destruct a; simpl; [apply Z.ltb_irrefl | reflexivity]. Qed.

Lemma prioLt_trans (a b c : Priority) :
  prioLt a b = true -> prioLt b c = true -> prioLt a c = true.
Proof.
  destruct a, b, c; simpl; try discriminate; try reflexivity.
  rewrite !Z.ltb_lt. lia.
Qed.

Lemma prioLt_asym (a b : Priority) : prioLt a b = true -> prioLt b a = false.
Proof.
  destruct a, b; simpl; try discriminate; try reflexivity.
  rewrite Z.ltb_lt, Z.ltb_ge. lia.
Qed.

(** [a < p <= b] gives [a < b]. *)
Lemma prioLt_le_trans (a p b : Priority) :
  prioLt a p = true -> prioLt b p = false -> prioLt a b = true.
Proof.
  destruct a, p, b; simpl; try discriminate; try reflexivity.
  rewrite !Z.ltb_lt, Z.ltb_ge. lia.
Qed.

Lemma pickBestFrom_spec (m : TileMap) (queue : list string) : forall i b p,
  let r := pickBestFrom m queue i b p in
  (r = b
   /\ forall j k t, nth_error queue j = Some k -> k <> EmptyString ->
                    getTile k m = Some t -> prioLt (priority t) p = false)
  \/ (exists k t,
        (i <= r)%nat /\ nth_error queue (r - i) = Some k /\ k <> EmptyString
        /\ getTile k m = Some t /\ prioLt (priority t) p = true
        /\ forall j k' t', nth_error queue j = Some k' -> k' <> EmptyString ->
                           getTile k' m = Some t' ->
                           prioLt (priority t') (priority t) = false
                           /\ ((j < r - i)%nat -> prioLt (priority t) (priority t') = true)).
Proof.
  induction queue as [|k queue IH]; intros i b p; cbn [pickBestFrom]; cbv zeta.
  - left. split; [reflexivity|]. intros [|j] k t H; discriminate.
  - assert (Hskip :
      (forall t, k <> EmptyString -> getTile k m = Some t -> prioLt (priority t) p = false) ->
      let r := pickBestFrom m queue (S i) b p in
      (r = b
       /\ forall j k0 t, nth_error (k :: queue) j = Some k0 -> k0 <> EmptyString ->
                         getTile k0 m = Some t -> prioLt (priority t) p = false)
      \/ (exists k0 t,
            (i <= r)%nat /\ nth_error (k :: queue) (r - i) = Some k0 /\ k0 <> EmptyString
            /\ getTile k0 m = Some t /\ prioLt (priority t) p = true
            /\ forall j k' t', nth_error (k :: queue) j = Some k' -> k' <> EmptyString ->
                               getTile k' m = Some t' ->
                               prioLt (priority t') (priority t) = false
                               /\ ((j < r - i)%nat ->
                                   prioLt (priority t) (priority t') = true))).
    { intros Hhead. cbv zeta.
      destruct (IH (S i) b p) as [[Hr Hall]|(k0 & t0 & Hi & Hn & Hk0 & Ht0 & Hlt & Hall)].
      - left. split; [exact Hr|].
        intros [|j] k1 t1 Hn Hk1 Ht1; simpl in Hn.
        + injection Hn as <-. now apply Hhead.
        + eapply Hall; eassumption.
      - right. exists k0, t0.
        split; [lia|].
        replace (pickBestFrom m queue (S i) b p - i)%nat
          with (S (pickBestFrom m queue (S i) b p - S i)) by lia.
        split; [exact Hn|]. split; [exact Hk0|]. split; [exact Ht0|].
        split; [exact Hlt|].
        intros [|j] k1 t1 Hn1 Hk1 Ht1; simpl in Hn1.
        + injection Hn1 as <-. pose proof (Hhead t1 Hk1 Ht1) as Hh.
          split.
          * pose proof (prioLt_le_trans _ _ _ Hlt Hh) as Hx. now apply prioLt_asym.
          * intros _. exact (prioLt_le_trans _ _ _ Hlt Hh).
        + destruct (Hall j k1 t1 Hn1 Hk1 Ht1) as [H1 H2].
          split; [exact H1|]. intro Hj. apply H2. lia. }
    destruct k as [|c s]; [apply Hskip; intros t H; congruence|].
    destruct (getTile (String c s) m) as [t|] eqn:Et; [|apply Hskip; intros t _ H; discriminate].
    destruct (prioLt (priority t) p) eqn:Elt;
      [|apply Hskip; intros t' _ H; injection H as <-; exact Elt].
    right.
    destruct (IH (S i) i (priority t))
      as [[Hr Hall]|(k0 & t0 & Hi & Hn & Hk0 & Ht0 & Hlt & Hall)].
    + exists (String c s), t. rewrite Hr.
      split; [lia|]. replace (i - i)%nat with O by lia.
      split; [reflexivity|]. split; [discriminate|]. split; [exact Et|].
      split; [exact Elt|].
      intros [|j] k1 t1 Hn1 Hk1 Ht1; simpl in Hn1.
      * injection Hn1 as <-. rewrite Et in Ht1. injection Ht1 as <-.
        split; [apply prioLt_irrefl | lia].
      * split; [eapply Hall; eassumption | lia].
    + exists k0, t0. split; [lia|].
      replace (pickBestFrom m queue (S i) i (priority t) - i)%nat
        with (S (pickBestFrom m queue (S i) i (priority t) - S i)) by lia.
      split; [exact Hn|]. split; [exact Hk0|]. split; [exact Ht0|].
      split; [eapply prioLt_trans; eassumption|].
      intros [|j] k1 t1 Hn1 Hk1 Ht1; simpl in Hn1.
      * injection Hn1 as <-. rewrite Et in Ht1. injection Ht1 as <-.
        split; [now apply prioLt_asym | intros _; exact Hlt].
      * destruct (Hall j k1 t1 Hn1 Hk1 Ht1) as [H1 H2].
        split; [exact H1|]. intro Hj. apply H2. lia.
Qed.

(** X13: [pickBestQueueIndex]: when the chosen entry of the queue is the key of
    a cached tile, no queued key of a cached tile has a smaller priority
    (a smaller squared distance from the view centre), and every such key
    earlier in the queue has a strictly larger one: the loop picks the
    first of the nearest tiles. *)
Theorem pickBestQueueIndex_picks_nearest
        (L : Layer) (k : string) (t : ActiveTile) :
  nth_error (loadQueue L) (pickBestQueueIndex L) = Some k ->
  k <> EmptyString ->
  getTile k (tiles L) = Some t ->
  forall j k' t',
    nth_error (loadQueue L) j = Some k' -> k' <> EmptyString ->
    getTile k' (tiles L) = Some t' ->
    prioLt (priority t') (priority t) = false
    /\ ((j < pickBestQueueIndex L)%nat -> prioLt (priority t) (priority t') = true).
Proof.
  intros Hn Hk Ht j k' t' Hn' Hk' Ht'. unfold pickBestQueueIndex in *.
  destruct (pickBestFrom_spec (tiles L) (loadQueue L) 0 0 Infinite)
    as [[Hr Hall]|(k0 & t0 & Hi & Hn0 & Hk0 & Ht0 & Hlt & Hall)]; cbv zeta in *.
  - rewrite Hr. split; [|lia].
    pose proof (Hall j k' t' Hn' Hk' Ht') as H'.
    destruct (priority t'); [discriminate | reflexivity].
  - rewrite Nat.sub_0_r in *. rewrite Hn in Hn0. injection Hn0 as <-.
    rewrite Ht in Ht0. injection Ht0 as <-.
    exact (Hall j k' t' Hn' Hk' Ht').
Qed.

Lemma pickBestQueueIndex_picks_nearest_witness :
  exists t t',
    getTile "10/514/341" (tiles queueLayer) = Some t
    /\ getTile "10/512/340" (tiles queueLayer) = Some t'
    /\ prioLt (priority t') (priority t) = false
    /\ ((0 < pickBestQueueIndex queueLayer)%nat -> prioLt (priority t) (priority t') = true).
Proof.
  eexists. eexists. split; [vm_compute; reflexivity|]. split; [vm_compute; reflexivity|].
  apply (pickBestQueueIndex_picks_nearest queueLayer "10/514/341" _
           ltac:(vm_compute; reflexivity) ltac:(discriminate) ltac:(vm_compute; reflexivity)
           0%nat "10/512/340" _
           ltac:(vm_compute; reflexivity) ltac:(discriminate) ltac:(vm_compute; reflexivity)).
Defined.

(** X14: After every answer of the loader to an open request, success or
    failure, the drain loop has run to its end: either every slot is taken
    again, or no key is left waiting in the queue. *)
Theorem answer_refills_slots
        (cfg : Config) (L : Layer) (k : string) (a : Z) (ev : Event) :
  reachable cfg L ->
  In (k, a) (requests L) ->
  ev = LoadSucceeded k a \/ ev = LoadFailed k a ->
  let L' := step cfg L ev in
  maxConcurrentRequests cfg <= inflightCount L' \/ loadQueue L' = [].
Proof.
  intros HR Hin Hev. apply reachable_wellFormed in HR.
  assert (Hreq : hasRequest (k, a) L = true) by (now apply hasRequest_In).
  destruct Hev as [-> | ->]; cbn [step]; rewrite Hreq; cbv zeta.
  - apply processLoadQueue_exit. now apply onLoadBody_spec.
  - apply processLoadQueue_exit. now apply onErrorBody_spec.
Qed.

Lemma answer_refills_slots_witness :
  let L' := step scenarioConfig scenarioLoading (LoadFailed scenarioKey 1) in
  maxConcurrentRequests scenarioConfig <= inflightCount L' \/ loadQueue L' = [].
Proof.
  apply (answer_refills_slots scenarioConfig scenarioLoading scenarioKey 1
                              (LoadFailed scenarioKey 1)).
  - exact scenarioLoading_reachable.
  - vm_compute. left. reflexivity.
  - right. reflexivity.
Defined.

(* ================================================================== *)
(** ** Disposal *)

Lemma dispose_fields (L : Layer) :
  tiles (dispose L) = [] /\ loadQueue (dispose L) = [] /\ queuedKeys (dispose L) = []
  /\ stateKey (dispose L) = EmptyString
  /\ pendingViewState (dispose L) = None /\ appliedViewState (dispose L) = None
  /\ activeDesiredTiles (dispose L) = [] /\ requestedCount (dispose L) = 0.
Proof.
  assert (H : forall (es : TileMap) (A : Layer),
             loadQueue A = [] /\ queuedKeys A = [] ->
             loadQueue (fold_left (fun acc e => disposeTile (fst e) acc) es A) = []
             /\ queuedKeys (fold_left (fun acc e => disposeTile (fst e) acc) es A) = []).
  { induction es as [|e es IH]; intros A HA; [exact HA|].
    cbn [fold_left]. apply IH. destruct HA as [H1 H2]. cbn. rewrite H1, H2. now split. }
  unfold dispose. cbv zeta. cbn.
  set (L1 := setQueuedKeys [] (setLoadQueue [] L)).
  destruct (H (tiles L1) L1 ltac:(now split)) as [H1 H2].
  repeat split; try reflexivity; assumption.
Qed.

Lemma dispose_slots (L : Layer) : slotFields (dispose L) = slotFields L.
Proof.
  unfold dispose. cbv zeta. unfold slotFields. cbn.
  set (L1 := setQueuedKeys [] (setLoadQueue [] L)).
  assert (H : forall (es : TileMap) (A : Layer),
             slotFields (fold_left (fun acc e => disposeTile (fst e) acc) es A)
             = slotFields A).
  { induction es as [|e es IH]; intros A; [reflexivity|].
    cbn [fold_left]. rewrite IH. reflexivity. }
  exact (H (tiles L1) L1).
Qed.

Lemma processLoadQueue_empty (cfg : Config) (L : Layer) :
  loadQueue L = [] -> processLoadQueue cfg L = L.
Proof.
  intro H. unfold processLoadQueue. rewrite H. cbn [List.length processLoadQueueLoop].
  unfold drainIteration. rewrite H. cbn. rewrite andb_false_r. reflexivity.
Qed.

Lemma step_answer_empty (cfg : Config) (L : Layer) (ev : Event) :
  isAnswer ev = true ->
  tiles L = [] -> loadQueue L = [] ->
  let L' := step cfg L ev in
  tiles L' = [] /\ loadQueue L' = [] /\ queuedKeys L' = queuedKeys L
  /\ incl (requests L') (requests L)
  /\ viewFields L' = viewFields L
  /\ (inflightCount L' = inflightCount L
      \/ inflightCount L' = Z.max 0 (inflightCount L - 1)).
Proof.
  intros Hev Ht Hq. cbv zeta.
  assert (Hbody : forall k a,
     let A := setRequests (removeRequest (k, a) (requests L)) L in
     onLoad cfg k a A = releaseSlot A /\ onError cfg k a A = releaseSlot A).
  { intros k a A. unfold onLoad, onLoadBody, onError, onErrorBody. cbv zeta.
    cbn [tiles releaseSlot setInflightCount A setRequests]. rewrite Ht. cbn [getTile].
    split; apply processLoadQueue_empty; cbn; exact Hq. }
  assert (Hincl : forall r, incl (removeRequest r (requests L)) (requests L)).
  { intros r x Hx. eapply In_removeRequest. exact Hx. }
  destruct ev as [next now|k a|k a]; [discriminate| |]; cbn [step];
    (destruct (hasRequest (k, a) L);
     [ rewrite ?(proj1 (Hbody k a)), ?(proj2 (Hbody k a)); cbn;
       repeat split; auto
     | repeat split; auto using incl_refl ]).
Qed.

Lemma answers_keep_empty (cfg : Config) (answers : list Event) : forall D,
  forallb isAnswer answers = true ->
  tiles D = [] -> loadQueue D = [] ->
  tiles (run cfg D answers) = [] /\ loadQueue (run cfg D answers) = []
  /\ incl (requests (run cfg D answers)) (requests D)
  /\ viewFields (run cfg D answers) = viewFields D.
Proof.
  induction answers as [|ev evs IH]; intros D Hans Dt Dq.
  - cbn. repeat split; auto using incl_refl.
  - cbn [forallb] in Hans. apply andb_prop in Hans. destruct Hans as [Hev Hevs].
    destruct (step_answer_empty cfg D ev Hev Dt Dq) as (St & Sq & _ & Sr & Sv & _).
    destruct (IH (step cfg D ev) Hevs St Sq) as (It & Iq & Ir & Iv).
    unfold run in *. cbn [fold_left].
    split; [exact It|]. split; [exact Iq|]. split.
    + intros x Hx. apply Sr. now apply Ir.
    + now rewrite Iv.
Qed.

(** X15: [dispose] empties the cache, the queue and the view, and cancels
    nothing: the loads in flight and their count stay as they were.  The
    answers that arrive afterwards, in any number and order, only give
    slots back: no tile comes back into the cache, nothing is queued and
    no load is started. *)
Theorem disposed_layer_ignores_answers (cfg : Config) (L : Layer) (answers : list Event) :
  forallb isAnswer answers = true ->
  let D := dispose L in
  let L' := run cfg D answers in
  tiles D = [] /\ loadQueue D = [] /\ stateKey D = EmptyString
  /\ requests D = requests L /\ inflightCount D = inflightCount L
  /\ tiles L' = [] /\ loadQueue L' = []
  /\ incl (requests L') (requests L)
  /\ viewFields L' = viewFields D.
Proof.
  intro Hans. cbv zeta.
  destruct (dispose_fields L) as (Dt & Dq & _ & Dk & _).
  pose proof (dispose_slots L) as Ds. unfold slotFields in Ds. injection Ds as Di Dr.
  split; [exact Dt|]. split; [exact Dq|]. split; [exact Dk|].
  split; [exact Dr|]. split; [exact Di|].
  rewrite <- Dr.
  exact (answers_keep_empty cfg answers (dispose L) Hans Dt Dq).
Qed.

Lemma disposed_layer_ignores_answers_witness :
  let D := dispose scenarioLoading in
  let L' := run scenarioConfig D [LoadSucceeded scenarioKey 1] in
  tiles D = [] /\ loadQueue D = [] /\ stateKey D = EmptyString
  /\ requests D = requests scenarioLoading
  /\ inflightCount D = inflightCount scenarioLoading
  /\ tiles L' = [] /\ loadQueue L' = []
  /\ incl (requests L') (requests scenarioLoading)
  /\ viewFields L' = viewFields D.
Proof.
  apply (disposed_layer_ignores_answers scenarioConfig scenarioLoading
                                        [LoadSucceeded scenarioKey 1]).
  reflexivity.
Defined.

Lemma lifecycleStep_slotsConsistent (cfg : Config) (L : Layer) (e : LifecycleEvent) :
  slotsConsistent cfg L -> slotsConsistent cfg (lifecycleStep cfg L e).
Proof.
  intro H. destruct e as [ev|]; cbn [lifecycleStep].
  - now apply step_slotsConsistent.
  - apply (slotsConsistent_ext cfg L); [apply dispose_slots | exact H].
Qed.

(** X16: The concurrency cap over the whole life of a constructed layer: after
    any sequence of frame updates, loader answers and calls of [dispose],
    the requests the loader holds are as many as the in-flight counter
    says, and at most [maxConcurrentRequests]. *)
Theorem lifecycle_inflight_within_cap
        (g : GeoCoordinator) (o : PlanarMapTileLayerOptions)
        (events : list LifecycleEvent) :
  let cfg := constructorConfig g o in
  let L := lifecycleRun cfg events in
  Z.of_nat (List.length (requests L)) = inflightCount L
  /\ 0 <= inflightCount L <= maxConcurrentRequests cfg.
Proof.
  cbv zeta. set (cfg := constructorConfig g o).
  assert (H : slotsConsistent cfg (lifecycleRun cfg events)).
  { unfold lifecycleRun. apply fold_left_invariant.
    - intros a b. apply lifecycleStep_slotsConsistent.
    - unfold slotsConsistent. cbn. lia. }
  destruct H as [H1 H2]. split; [exact H1|]. split; [lia | exact H2].
Qed.

Lemma nextViewState_key_nonempty (cfg : Config) (fx fy h : Q) (r : option Q)
      (b : option ViewportWorldBounds) :
  vs_stateKey (nextViewState cfg fx fy h r b) <> EmptyString.
Proof.
  unfold nextViewState. cbn [vs_stateKey].
  destruct (showZ (pickZoom cfg h)); discriminate.
Qed.

(** X17: The first call of [update] on an enabled layer that is fresh from the
    constructor or has just been disposed is never throttled: it applies
    the view state it computes, whatever the clock says. *)
Theorem first_update_applies
        (cfg : Config) (L0 : Layer) (fx fy h : Q) (r : option Q)
        (b : option ViewportWorldBounds) (now : Q) :
  enabled cfg = true ->
  L0 = initialLayer cfg \/ (exists L, L0 = dispose L) ->
  let next := nextViewState cfg fx fy h r b in
  let L' := update cfg fx fy h r b now L0 in
  appliedViewState L' = Some next
  /\ stateKey L' = vs_stateKey next
  /\ pendingViewState L' = None
  /\ lastLayoutUpdateMs L' = now
  /\ activeDesiredTiles L'
     = collectDesiredTiles cfg (vs_centerX next, vs_centerY next) (vs_zoom next)
                           (vs_tileRadius next) (vs_viewportBounds next).
Proof.
  intros Hen HL0. cbv zeta. unfold update.
  set (next := nextViewState cfg fx fy h r b).
  assert (Hk : stateKey L0 = EmptyString /\ pendingViewState L0 = None).
  { destruct HL0 as [->|[L ->]]; [now split|].
    destruct (dispose_fields L) as (_ & _ & _ & Dk & Dp & _). now split. }
  destruct Hk as [Hk Hp].
  assert (Hc : chooseViewState cfg L0 next now = (next, None)).
  { unfold chooseViewState, shouldApplyNow. rewrite Hk, Hp. cbn.
    rewrite andb_false_r. reflexivity. }
  assert (Ha : appliedBy cfg L0 next now = Some next).
  { unfold appliedBy. rewrite Hc, Hk. cbn [fst].
    destruct (String.eqb_spec (vs_stateKey next) EmptyString) as [E|_]; [|reflexivity].
    exfalso. exact (nextViewState_key_nonempty cfg fx fy h r b E). }
  destruct (updateView_throttle cfg Hen next now L0) as (_ & Hpend & Hm).
  rewrite Ha in Hm. rewrite Hc in Hpend. cbn [snd] in Hpend.
  destruct Hm as (E1 & E2 & E3 & E4).
  repeat split; assumption.
Qed.

Lemma first_update_applies_witness :
  let next := nextViewState scenarioConfig 512%Q 341%Q 100000%Q None None in
  let L' := update scenarioConfig 512%Q 341%Q 100000%Q None None 5%Q
                   (dispose scenarioLoading) in
  appliedViewState L' = Some next
  /\ stateKey L' = vs_stateKey next
  /\ pendingViewState L' = None
  /\ lastLayoutUpdateMs L' = 5%Q
  /\ activeDesiredTiles L'
     = collectDesiredTiles scenarioConfig (vs_centerX next, vs_centerY next)
                           (vs_zoom next) (vs_tileRadius next)
                           (vs_viewportBounds next).
Proof.
  apply (first_update_applies scenarioConfig (dispose scenarioLoading)
                              512%Q 341%Q 100000%Q None None 5%Q).
  - reflexivity.
  - right. exists scenarioLoading. reflexivity.
Defined.

(* ================================================================== *)
(** ** The tile URL *)

Lemma append_nil_r (s : string) : (s ++ EmptyString)%string = s.
Proof. induction s as [|c s IH]; simpl; [reflexivity | now rewrite IH]. Qed.

Lemma append_assoc (a b c : string) : ((a ++ b) ++ c)%string = (a ++ (b ++ c))%string.
Proof. induction a as [|x a IH]; simpl; [reflexivity | now rewrite IH]. Qed.

Lemma hasChar_cons (c d : ascii) (s : string) :
  hasChar c (String d s) = Ascii.eqb c d || hasChar c s.
Proof. reflexivity. Qed.

Lemma hasChar_In (c : ascii) (s : string) :
  hasChar c s = true <-> In c (list_ascii_of_string s).
Proof.
  unfold hasChar. rewrite existsb_exists. split.
  - intros [x [Hx E]]. apply Ascii.eqb_eq in E. now subst.
  - intro H. exists c. split; [exact H | apply Ascii.eqb_refl].
Qed.

Lemma getSubstitution_plain (matched preceding following replacement : string) :
  hasChar "$"%char replacement = false ->
  getSubstitution matched preceding following replacement = replacement.
Proof.
  induction replacement as [|c r IH]; intro H; [reflexivity|].
  rewrite hasChar_cons in H. apply orb_false_elim in H. destruct H as [Hc Hr].
  cbn [getSubstitution]. rewrite Ascii.eqb_sym in Hc. rewrite Hc. now rewrite IH.
Qed.

Lemma showZ_plain (c : ascii) (z : Z) : ~ numeral c -> hasChar c (showZ z) = false.
Proof.
  intro Hc. destruct (hasChar c (showZ z)) eqn:E; [|reflexivity].
  apply hasChar_In in E. apply showZ_chars in E. contradiction.
Qed.

Lemma afterPrefix_self (pattern rest : string) :
  afterPrefix pattern (pattern ++ rest) = Some rest.
Proof.
  induction pattern as [|c p IH]; simpl; [now destruct rest|].
  now rewrite Ascii.eqb_refl.
Qed.

Lemma passes_plain (c : ascii) (p a : string) :
  hasChar c a = false -> passes (String c p) a.
Proof.
  induction a as [|d a IH]; intros H replacement preceding rest.
  - simpl. now rewrite append_nil_r.
  - rewrite hasChar_cons in H. apply orb_false_elim in H. destruct H as [Hd Ha].
    cbn [append replaceFrom afterPrefix]. rewrite Hd.
    rewrite (IH Ha). now rewrite append_assoc.
Qed.

Lemma passes_other (p q : Token) :
  sameToken p p = true -> sameToken q q = true -> sameToken p q = false ->
  passes (placeholderText p) (placeholderText q).
Proof.
  intros Hp Hq Hpq replacement preceding rest.
  destruct p; try discriminate; destruct q; try discriminate;
    cbn; now rewrite !append_assoc.
Qed.

Lemma render_without (values : Token -> string) (p : Token) (text : string)
      (tokens : list Token) :
  filter (sameToken p) tokens = [] ->
  render (setValue values p text) tokens = render values tokens.
Proof.
  induction tokens as [|t tokens IH]; intro H; [reflexivity|].
  cbn [filter] in H. destruct (sameToken p t) eqn:E; [discriminate|].
  cbn [render]. rewrite (IH H). f_equal.
  unfold tokenText, setValue. destruct t; try reflexivity; now rewrite E.
Qed.

Lemma render_ext (f g : Token -> string) (tokens : list Token) :
  (forall p, sameToken p p = true -> f p = g p) -> render f tokens = render g tokens.
Proof.
  intro H. induction tokens as [|t tokens IH]; [reflexivity|].
  cbn [render]. rewrite IH. f_equal. destruct t; cbn; try reflexivity; now apply H.
Qed.

(** One call of [replace] on a rendered template fills one placeholder. *)
Lemma replace_placeholder (values : Token -> string) (p : Token) (text : string)
      (tokens : list Token) :
  sameToken p p = true ->
  values p = placeholderText p ->
  (forall q, sameToken q q = true -> sameToken p q = false ->
             passes (placeholderText p) (values q)) ->
  forallb (fun t => match t with Lit s => negb (hasChar "{"%char s) | _ => true end)
          tokens = true ->
  (List.length (filter (sameToken p) tokens) <= 1)%nat ->
  hasChar "$"%char text = false ->
  replace (placeholderText p) text (render values tokens)
  = render (setValue values p text) tokens.
Proof.
  intros Hp Hv Hothers Hlit Hcount Htext. unfold replace.
  assert (Hgen : forall preceding,
            replaceFrom (placeholderText p) text preceding (render values tokens)
            = (preceding ++ render (setValue values p text) tokens)%string).
  { induction tokens as [|t tokens IH]; intro preceding.
    - cbn [render]. rewrite append_nil_r.
      destruct p; try discriminate; reflexivity.
    - cbn [forallb] in Hlit. apply andb_prop in Hlit. destruct Hlit as [Ht Hlit].
      cbn [render filter] in *.
      destruct (sameToken p t) eqn:E.
      + assert (Et : t = p) by (destruct p, t; try discriminate; reflexivity).
        subst t.
        assert (Hrest : filter (sameToken p) tokens = []).
        { cbn [List.length] in Hcount.
          destruct (filter (sameToken p) tokens); [reflexivity | simpl in Hcount; lia]. }
        assert (E1 : tokenText values p = placeholderText p)
          by (destruct p; try discriminate; exact Hv).
        assert (E2 : tokenText (setValue values p text) p = text).
        { unfold tokenText, setValue. destruct p; try discriminate; reflexivity. }
        rewrite E1, E2, (render_without values p text tokens Hrest).
        assert (Hmatch : forall rest,
                  replaceFrom (placeholderText p) text preceding
                              (placeholderText p ++ rest)
                  = (preceding ++ text ++ rest)%string).
        { intro rest.
          assert (Hs : forall s, replaceFrom (placeholderText p) text preceding s
                       = match afterPrefix (placeholderText p) s with
                         | Some following =>
                             (preceding
                              ++ getSubstitution (placeholderText p) preceding following text
                              ++ following)%string
                         | None =>
                             match s with
                             | EmptyString => preceding
                             | String c r =>
                                 replaceFrom (placeholderText p) text
                                             (preceding ++ String c EmptyString) r
                             end
                         end) by (intros [|c r]; reflexivity).
          rewrite Hs, afterPrefix_self, getSubstitution_plain by exact Htext.
          reflexivity. }
        apply Hmatch.
      + assert (Hpass : passes (placeholderText p) (tokenText values t)).
        { destruct t as [s| | | |]; cbn [tokenText].
          - destruct p; try discriminate; apply passes_plain;
              now apply negb_true_iff in Ht.
          - apply Hothers; [reflexivity | exact E].
          - apply Hothers; [reflexivity | exact E].
          - apply Hothers; [reflexivity | exact E].
          - apply Hothers; [reflexivity | exact E]. }
        rewrite Hpass, (IH Hlit Hcount), append_assoc. f_equal. f_equal.
        unfold tokenText, setValue. destruct t; try reflexivity; now rewrite E. }
  apply Hgen.
Qed.

Lemma brace_not_numeral : ~ numeral "{"%char.
Proof. unfold numeral. intros [H|H]; discriminate. Qed.

Lemma dollar_not_numeral : ~ numeral "$"%char.
Proof. unfold numeral. intros [H|H]; discriminate. Qed.

Lemma plainTemplate_count (tokens : list Token) (p : Token) :
  plainTemplate tokens = true -> sameToken p p = true ->
  (List.length (filter (sameToken p) tokens) <= 1)%nat.
Proof.
  unfold plainTemplate. intros H Hp. apply andb_prop in H. destruct H as [_ H].
  cbn [forallb] in H. rewrite !andb_true_iff in H.
  destruct H as (Hz & Hx & Hy & Hs & _).
  destruct p; try discriminate; now apply Nat.leb_le.
Qed.

(** X18: [buildUrl] on a plain template, that is one in which an opening brace
    occurs only in the placeholders and each of [{z}], [{x}], [{y}],
    [{s}] occurs at most once, in any order: the URL is the template with
    the zoom, the column, the row (counted from the bottom when [yType] is
    [tms]) and the subdomain in the places of the placeholders that are
    there.  The subdomain must not contain a dollar sign, which [replace]
    would interpret. *)
Theorem buildUrl_fills_template
        (cfg : Config) (u : UrlConfig) (t : TileId) (tokens : list Token) :
  urlTemplate u = templateText tokens ->
  plainTemplate tokens = true ->
  hasChar "$"%char (pickSubdomain cfg t) = false ->
  buildUrl cfg u t = render (urlValues cfg u t) tokens.
Proof.
  intros Hu Hplain Hs. unfold buildUrl. cbv zeta. rewrite Hu. unfold templateText.
  assert (Hlit : forallb (fun t0 => match t0 with
                                    | Lit s => negb (hasChar "{"%char s)
                                    | _ => true
                                    end) tokens = true).
  { unfold plainTemplate in Hplain. now apply andb_prop in Hplain. }
  set (vz := showZ (tid_z t)). set (vx := showZ (tid_x t)).
  set (vy := showZ (match yType u with
                    | Tms => 2 ^ tid_z t - 1 - tid_y t
                    | Xyz => tid_y t
                    end)).
  set (vs := pickSubdomain cfg t) in *.
  assert (Pz : forall p, passes (String "{"%char p) vz)
    by (intro p; apply passes_plain, showZ_plain, brace_not_numeral).
  assert (Px : forall p, passes (String "{"%char p) vx)
    by (intro p; apply passes_plain, showZ_plain, brace_not_numeral).
  assert (Py : forall p, passes (String "{"%char p) vy)
    by (intro p; apply passes_plain, showZ_plain, brace_not_numeral).
  change "{z}" with (placeholderText PlaceZ).
  rewrite (replace_placeholder placeholderText PlaceZ vz tokens);
    [ | reflexivity | reflexivity
      | intros q Hq Hpq; now apply passes_other
      | exact Hlit
      | now apply plainTemplate_count
      | apply showZ_plain, dollar_not_numeral ].
  change "{x}" with (placeholderText PlaceX).
  rewrite (replace_placeholder _ PlaceX vx tokens);
    [ | reflexivity | reflexivity
      | intros q Hq Hpq; destruct q; try discriminate; cbn;
        first [ apply Pz
              | exact (passes_other PlaceX PlaceY eq_refl eq_refl eq_refl)
              | exact (passes_other PlaceX PlaceS eq_refl eq_refl eq_refl) ]
      | exact Hlit
      | now apply plainTemplate_count
      | apply showZ_plain, dollar_not_numeral ].
  change "{y}" with (placeholderText PlaceY).
  rewrite (replace_placeholder _ PlaceY vy tokens);
    [ | reflexivity | reflexivity
      | intros q Hq Hpq; destruct q; try discriminate; cbn;
        first [ apply Pz | apply Px
              | exact (passes_other PlaceY PlaceS eq_refl eq_refl eq_refl) ]
      | exact Hlit
      | now apply plainTemplate_count
      | apply showZ_plain, dollar_not_numeral ].
  change "{s}" with (placeholderText PlaceS).
  rewrite (replace_placeholder _ PlaceS vs tokens);
    [ | reflexivity | reflexivity
      | intros q Hq Hpq; destruct q; try discriminate; cbn;
        first [apply Pz | apply Px | apply Py]
      | exact Hlit
      | now apply plainTemplate_count
      | exact Hs ].
  apply render_ext. intros p Hp. destruct p; try discriminate; reflexivity.
Qed.

Lemma buildUrl_fills_template_witness :
  buildUrl scenarioConfig (constructorUrlConfig None (Some Tms)) (mkTileId 512 341 10)
  = render (urlValues scenarioConfig (constructorUrlConfig None (Some Tms))
                      (mkTileId 512 341 10))
           [Lit "https://tile.openstreetmap.org/"; PlaceZ; Lit "/"; PlaceX; Lit "/";
            PlaceY; Lit ".png"].
Proof.
  apply (buildUrl_fills_template
           scenarioConfig (constructorUrlConfig None (Some Tms)) (mkTileId 512 341 10)
           [Lit "https://tile.openstreetmap.org/"; PlaceZ; Lit "/"; PlaceX; Lit "/";
            PlaceY; Lit ".png"]);
    reflexivity.
Defined.

Lemma chars_nonempty (s : string) : Forall (fun x => nonEmptyStr x = true) (chars s).
Proof. induction s as [|c s IH]; simpl; constructor; [reflexivity | exact IH]. Qed.

Lemma filter_nonEmptyStr (l : list string) :
  Forall (fun x => nonEmptyStr x = true) (filter nonEmptyStr l).
Proof.
  apply Forall_forall. intros x Hx. now apply filter_In in Hx.
Qed.

Lemma normalizeSubdomains_entries (input : option SubdomainsInput) :
  Forall (fun x => nonEmptyStr x = true)
         (valueOr (normalizeSubdomains input) DEFAULT_SUBDOMAINS).
Proof.
  assert (Hdef : Forall (fun x => nonEmptyStr x = true) DEFAULT_SUBDOMAINS)
    by (repeat constructor).
  assert (Hor : forall out, Forall (fun x => nonEmptyStr x = true) out ->
                  Forall (fun x => nonEmptyStr x = true)
                         match out with [] => DEFAULT_SUBDOMAINS | _ => out end)
    by (intros [|x out] H; [exact Hdef | exact H]).
  unfold normalizeSubdomains.
  destruct input as [[items|s]|]; cbn [valueOr]; [| |exact Hdef].
  - apply Hor, filter_nonEmptyStr.
  - destruct (nonEmptyStr (trim s)) eqn:Hne; cbn [negb valueOr]; [|exact Hdef].
    assert (Hsplit : Forall (fun x => nonEmptyStr x = true)
      match filter nonEmptyStr (map trim (splitComma (trim s) EmptyString)) with
      | [] => if (1 <? String.length (trim s))%nat then chars (trim s) else [trim s]
      | _ :: _ => filter nonEmptyStr (map trim (splitComma (trim s) EmptyString))
      end).
    { pose proof (filter_nonEmptyStr (map trim (splitComma (trim s) EmptyString))) as H.
      destruct (filter nonEmptyStr (map trim (splitComma (trim s) EmptyString)));
        [|exact H].
      destruct (1 <? String.length (trim s))%nat; [apply chars_nonempty|].
      constructor; [exact Hne | constructor]. }
    destruct (rangeMatch (trim s)) as [[g1 g2]|]; [|exact Hsplit].
    destruct (doubleOfZ (numberOfDigits g1 0)) as [start|]; [|exact Hsplit].
    destruct (doubleOfZ (numberOfDigits g2 0)) as [end_|]; [|exact Hsplit].
    destruct (start <=? end_); [|exact Hsplit].
    destruct (rangeLoop _ start end_ 0 []) as [out| |] eqn:E; cbn [valueOr];
      [|exact Hdef|exact Hdef].
    apply Hor. apply (proj1 (rangeLoop_entries _ _ _ _ _ _ E)). constructor.
Qed.

(** X19: [pickSubdomain] on a constructed layer: for every tile, also one with
    negative coordinates, the result is one of the configured subdomains,
    and it is never the empty string: the two fallbacks to [''] in the
    source are unreachable. *)
Theorem pickSubdomain_constructed
        (g : GeoCoordinator) (o : PlanarMapTileLayerOptions) (t : TileId) :
  let cfg := constructorConfig g o in
  In (pickSubdomain cfg t) (subdomains cfg)
  /\ pickSubdomain cfg t <> EmptyString.
Proof.
  cbv zeta. set (cfg := constructorConfig g o).
  assert (Hin : In (pickSubdomain cfg t) (subdomains cfg)).
  { unfold pickSubdomain.
    pose proof (normalizeSubdomains_nonempty (o_subdomains o)) as Hne.
    change (valueOr (normalizeSubdomains (o_subdomains o)) DEFAULT_SUBDOMAINS)
      with (subdomains cfg) in Hne.
    destruct (subdomains cfg) as [|s0 ss] eqn:E; [congruence|].
    cbv zeta. rewrite <- E. apply nth_In.
    assert (Hlen : 0 < Z.of_nat (List.length (subdomains cfg))) by (rewrite E; simpl; lia).
    pose proof (Z.rem_bound_pos (Z.abs (tid_x t + tid_y t + tid_z t))
                                (Z.of_nat (List.length (subdomains cfg)))
                                ltac:(lia) Hlen).
    lia. }
  split; [exact Hin|].
  pose proof (normalizeSubdomains_entries (o_subdomains o)) as Hall.
  change (valueOr (normalizeSubdomains (o_subdomains o)) DEFAULT_SUBDOMAINS)
    with (subdomains cfg) in Hall.
  rewrite Forall_forall in Hall. specialize (Hall _ Hin).
  destruct (pickSubdomain cfg t); [discriminate | discriminate].
Qed.

(* ================================================================== *)
(** ** Fading *)

Lemma Qmin_cases (a b : Q) :
  ((a <= b)%Q /\ Qmin a b = a) \/ ((b < a)%Q /\ Qmin a b = b).
Proof.
  unfold Qmin. destruct (Qle_bool a b) eqn:E.
  - left. split; [now apply Qle_bool_iff | reflexivity].
  - right. split; [|reflexivity].
    apply Qnot_le_lt. intro H. apply Qle_bool_iff in H. congruence.
Qed.

Lemma Qmax_cases (a b : Q) :
  ((a <= b)%Q /\ Qmax a b = b) \/ ((b < a)%Q /\ Qmax a b = a).
Proof.
  unfold Qmax. destruct (Qle_bool a b) eqn:E.
  - left. split; [now apply Qle_bool_iff | reflexivity].
  - right. split; [|reflexivity].
    apply Qnot_le_lt. intro H. apply Qle_bool_iff in H. congruence.
Qed.

Lemma Qltb_lt (a b : Q) : Qltb a b = true <-> (a < b)%Q.
Proof.
  unfold Qltb. rewrite negb_true_iff. split.
  - intro H. apply Qnot_le_lt. intro Hle. apply Qle_bool_iff in Hle. congruence.
  - intro H. destruct (Qle_bool b a) eqn:E; [|reflexivity].
    apply Qle_bool_iff in E. exfalso. apply (Qlt_not_le _ _ H E).
Qed.

Lemma clampNumber_spec (v lo hi : Q) :
  (lo <= hi)%Q ->
  ((lo <= v)%Q -> (v <= hi)%Q -> (clampNumber v lo hi == v)%Q)
  /\ ((v <= lo)%Q -> (clampNumber v lo hi == lo)%Q)
  /\ ((hi <= v)%Q -> (clampNumber v lo hi == hi)%Q).
Proof.
  intro Hlh. unfold clampNumber.
  destruct (Qmin_cases hi v) as [[H1 ->]|[H1 ->]];
    [destruct (Qmax_cases lo hi) as [[H2 ->]|[H2 ->]]
    |destruct (Qmax_cases lo v) as [[H2 ->]|[H2 ->]]];
    repeat split; intros; lra.
Qed.

(** X20: Fading, with progressive blending on and time having passed since the
    tile's last fade step: the opacity moves from its current value
    towards the target and never past it; it reaches the target when at
    least [fadeDurationMs] have passed; the mesh is visible exactly when
    the new opacity exceeds 0.001.  The target, the state and the key of
    the tile are not changed. *)
Theorem animateTileOpacity_fade (cfg : Config) (now : Q) (t : ActiveTile) :
  enableProgressiveBlend cfg = true ->
  0 < fadeDurationMs cfg ->
  (lastFadeUpdateMs t < now)%Q ->
  (0 <= targetOpacity t)%Q -> (targetOpacity t <= opacity cfg)%Q ->
  (0 <= currentOpacity t)%Q -> (currentOpacity t <= opacity cfg)%Q ->
  let t' := animateTileOpacity cfg now t in
  (Qmin (currentOpacity t) (targetOpacity t) <= currentOpacity t')%Q
  /\ (currentOpacity t' <= Qmax (currentOpacity t) (targetOpacity t))%Q
  /\ ((inject_Z (fadeDurationMs cfg) <= now - lastFadeUpdateMs t)%Q ->
      (currentOpacity t' == targetOpacity t)%Q)
  /\ meshVisible t' = Qltb (1 # 1000)%Q (currentOpacity t')
  /\ lastFadeUpdateMs t' = now
  /\ targetOpacity t' = targetOpacity t
  /\ state t' = state t /\ key t' = key t.
Proof.
  intros Hblend Hfd Hdt Ht0 Ht1 Hc0 Hc1. cbv zeta.
  unfold animateTileOpacity. rewrite Hblend. cbn [negb]. cbv zeta.
  assert (Hfdq : (0 < inject_Z (fadeDurationMs cfg))%Q).
  { change 0%Q with (inject_Z 0). now rewrite <- Zlt_Qlt. }
  destruct (Qmax_cases 0 (now - lastFadeUpdateMs t)) as [[Hd ->]|[Hd _]]; [|lra].
  destruct (Qle_bool (now - lastFadeUpdateMs t) 0) eqn:Edt;
    [apply Qle_bool_iff in Edt; lra|].
  cbn [targetOpacity currentOpacity setLastFadeUpdateMs setMeshVisible setCurrentOpacity
       meshVisible lastFadeUpdateMs state key].
  set (cur := currentOpacity t) in *. set (tgt := targetOpacity t) in *.
  set (dt := (now - lastFadeUpdateMs t)%Q) in *.
  assert (Hdpos : (0 < dt)%Q) by (unfold dt; lra).
  set (step := Qmin 1 (dt / inject_Z (fadeDurationMs cfg))).
  assert (Hstep : (0 < step)%Q /\ (step <= 1)%Q
                  /\ ((inject_Z (fadeDurationMs cfg) <= dt)%Q -> step = 1%Q)).
  { assert (Hq : (0 < dt / inject_Z (fadeDurationMs cfg))%Q).
    { apply Qlt_shift_div_l; lra. }
    unfold step. destruct (Qmin_cases 1 (dt / inject_Z (fadeDurationMs cfg)))
      as [[H1 ->]|[H1 ->]].
    - split; [lra|]. split; [lra | reflexivity].
    - split; [exact Hq|]. split; [lra|]. intro Hge. exfalso.
      assert (1 <= dt / inject_Z (fadeDurationMs cfg))%Q
        by (apply Qle_shift_div_l; lra).
      lra. }
  destruct Hstep as (Hs0 & Hs1 & Hsfull).
  set (eased := if Qltb (Qabs' (tgt - cur)) (1 # 10000) then tgt
                else (cur + (tgt - cur) * step)%Q).
  assert (Heased : (Qmin cur tgt <= eased)%Q /\ (eased <= Qmax cur tgt)%Q
                   /\ ((inject_Z (fadeDurationMs cfg) <= dt)%Q -> (eased == tgt)%Q)).
  { unfold eased.
    destruct (Qmin_cases cur tgt) as [[Hm ->]|[Hm ->]];
      destruct (Qmax_cases cur tgt) as [[HM ->]|[HM ->]];
      destruct (Qltb (Qabs' (tgt - cur)) (1 # 10000));
      (split; [|split]); try lra; try nra;
      intro Hge; rewrite (Hsfull Hge); lra. }
  destruct Heased as (He0 & He1 & Hefull).
  assert (Hop : (0 <= opacity cfg)%Q) by lra.
  assert (Hrange : (0 <= eased)%Q /\ (eased <= opacity cfg)%Q).
  { destruct (Qmin_cases cur tgt) as [[_ E]|[_ E]]; rewrite E in He0;
      destruct (Qmax_cases cur tgt) as [[_ E']|[_ E']]; rewrite E' in He1;
      split; lra. }
  destruct (clampNumber_spec eased 0 (opacity cfg) Hop) as (Hclamp & _ & _).
  specialize (Hclamp (proj1 Hrange) (proj2 Hrange)).
  repeat split; try reflexivity.
  - rewrite Hclamp. exact He0.
  - rewrite Hclamp. exact He1.
  - intro Hge. rewrite Hclamp. now apply Hefull.
Qed.

Lemma animateTileOpacity_fade_witness :
  let t := setTargetOpacity 1%Q
             (createTileShell (mkTileId 0 0 0) "0/0/0" 0%Q (initialLayer scenarioConfig)) in
  let t' := animateTileOpacity scenarioConfig 90%Q t in
  (Qmin (currentOpacity t) (targetOpacity t) <= currentOpacity t')%Q
  /\ (currentOpacity t' <= Qmax (currentOpacity t) (targetOpacity t))%Q
  /\ ((inject_Z (fadeDurationMs scenarioConfig) <= 90 - lastFadeUpdateMs t)%Q ->
      (currentOpacity t' == targetOpacity t)%Q)
  /\ meshVisible t' = Qltb (1 # 1000)%Q (currentOpacity t')
  /\ lastFadeUpdateMs t' = 90%Q
  /\ targetOpacity t' = targetOpacity t
  /\ state t' = state t /\ key t' = key t.
Proof.
  apply (animateTileOpacity_fade
           scenarioConfig 90%Q
           (setTargetOpacity 1%Q
              (createTileShell (mkTileId 0 0 0) "0/0/0" 0%Q (initialLayer scenarioConfig))));
    try reflexivity; try (simpl; lia); unfold Qle; simpl; lia.
Defined.

(* ================================================================== *)
(** ** The telemetry snapshot *)

Lemma countState_split (m : TileMap) :
  countState Loading m + countState Ready m + countState Error m
  <= Z.of_nat (List.length m).
Proof.
  unfold countState. induction m as [|[k t] m IH]; [simpl; lia|].
  cbn [filter snd List.length]. destruct (state t); cbn [TileState_eqb List.length]; lia.
Qed.

Lemma filter_length_le {A : Type} (p q : A -> bool) (l : list A) :
  (forall x, p x = true -> q x = true) ->
  (List.length (filter p l) <= List.length (filter q l))%nat.
Proof.
  intro H. induction l as [|x l IH]; [simpl; lia|].
  cbn [filter]. destruct (p x) eqn:E.
  - rewrite (H x E). simpl. lia.
  - destruct (q x); simpl; lia.
Qed.

Lemma rendered_le_ready (m : TileMap) :
  Z.of_nat (List.length (filter (fun e => isRendered (snd e)) m)) <= countState Ready m.
Proof.
  unfold countState. apply inj_le. apply filter_length_le.
  intros [k t] H. unfold isRendered in H. cbn [snd] in *.
  apply andb_prop in H. destruct H as [H _]. apply andb_prop in H. now destruct H.
Qed.

Lemma bumpZoomStat_sum (z : Z) (stats : list (Z * Z)) :
  fold_right Z.add 0 (map snd (bumpZoomStat z stats))
  = fold_right Z.add 0 (map snd stats) + 1.
Proof.
  induction stats as [|[z' c] stats IH]; [reflexivity|].
  cbn [bumpZoomStat]. destruct (z' =? z); cbn [map snd fold_right]; [lia|].
  rewrite IH. lia.
Qed.

Lemma bumpZoomStat_keys (z : Z) (stats : list (Z * Z)) (x : Z) :
  In x (map fst (bumpZoomStat z stats)) <-> x = z \/ In x (map fst stats).
Proof.
  induction stats as [|[z' c] stats IH]; [simpl; intuition|].
  cbn [bumpZoomStat]. destruct (Z.eqb_spec z' z) as [->|Hne]; cbn [map fst In].
  - intuition.
  - rewrite IH. intuition.
Qed.

Lemma bumpZoomStat_NoDup (z : Z) (stats : list (Z * Z)) :
  NoDup (map fst stats) -> NoDup (map fst (bumpZoomStat z stats)).
Proof.
  induction stats as [|[z' c] stats IH]; intro H.
  - repeat constructor. intros [].
  - cbn [bumpZoomStat]. cbn [map fst] in H. inversion H as [|a l Hnin Hrest]; subst.
    destruct (Z.eqb_spec z' z) as [->|Hne]; cbn [map fst].
    + constructor; assumption.
    + constructor; [|now apply IH].
      rewrite bumpZoomStat_keys. intros [E|Hin]; [congruence | contradiction].
Qed.

Lemma bumpZoomStat_positive (z : Z) (stats : list (Z * Z)) :
  Forall (fun p => 1 <= snd p) stats -> Forall (fun p => 1 <= snd p) (bumpZoomStat z stats).
Proof.
  induction stats as [|[z' c] stats IH]; intro H.
  - repeat constructor. simpl. lia.
  - cbn [bumpZoomStat]. inversion H as [|a l Ha Hrest]; subst. simpl in Ha.
    destruct (z' =? z); constructor; simpl; auto; lia.
Qed.

Lemma sum_Permutation (l l' : list Z) :
  Permutation l l' -> fold_right Z.add 0 l = fold_right Z.add 0 l'.
Proof. induction 1; simpl; lia. Qed.

Lemma StronglySorted_strict {A : Type} (f : A -> Z) (l : list A) :
  StronglySorted (fun a b => f b <= f a) l -> NoDup (map f l) ->
  StronglySorted (fun a b => f b < f a) l.
Proof.
  induction l as [|x l IH]; intros Hs Hnd; [constructor|].
  inversion Hs as [|x' l' Hl Hx]; subst.
  cbn [map] in Hnd. inversion Hnd as [|y m Hnin Hrest]; subst.
  constructor; [now apply IH|].
  apply Forall_forall. intros y Hy. rewrite Forall_forall in Hx.
  specialize (Hx y Hy).
  assert (f y <> f x) by (intro E; apply Hnin; rewrite <- E; now apply in_map).
  lia.
Qed.

(** X21: [refreshDebugInfo]: in the snapshot it stores, the loading, ready and
    error tiles together are at most the cached tiles; the rendered tiles
    are at most the ready ones; the per-zoom counts are listed by strictly
    descending zoom level, each at least 1, and add up to the rendered
    count; the queued count is the length of the load queue.  Nothing but
    the snapshot changes. *)
Theorem refreshDebugInfo_consistent
        (cfg : Config) (zoom centerX centerY radius : Z) (L : Layer) :
  let L' := refreshDebugInfo cfg zoom centerX centerY radius L in
  let d := debugInfo L' in
  di_tileCount d = Z.of_nat (List.length (tiles L))
  /\ di_queuedCount d = Z.of_nat (List.length (loadQueue L))
  /\ di_loadingCount d + di_readyCount d + di_errorCount d <= di_tileCount d
  /\ 0 <= di_renderedCount d <= di_readyCount d
  /\ fold_right Z.add 0 (map snd (di_renderedZoomStats d)) = di_renderedCount d
  /\ StronglySorted (fun a b => fst b < fst a) (di_renderedZoomStats d)
  /\ Forall (fun p => 1 <= snd p) (di_renderedZoomStats d)
  /\ tiles L' = tiles L /\ loadQueue L' = loadQueue L /\ requests L' = requests L
  /\ inflightCount L' = inflightCount L.
Proof.
  cbv zeta. unfold refreshDebugInfo.
  cbn [debugInfo setDebugInfo di_tileCount di_queuedCount di_loadingCount di_readyCount
       di_errorCount di_renderedCount di_renderedZoomStats tiles loadQueue requests
       inflightCount].
  set (rendered := filter (fun e => isRendered (snd e)) (tiles L)).
  set (stats := fold_left (fun acc e => bumpZoomStat (tid_z (tileId (snd e))) acc)
                          rendered []).
  assert (Hstats : fold_right Z.add 0 (map snd stats) = Z.of_nat (List.length rendered)
                   /\ NoDup (map fst stats) /\ Forall (fun p => 1 <= snd p) stats).
  { unfold stats.
    assert (Hgen : forall (l : TileMap) (acc : list (Z * Z)),
              NoDup (map fst acc) -> Forall (fun p => 1 <= snd p) acc ->
              let r := fold_left (fun a e => bumpZoomStat (tid_z (tileId (snd e))) a) l acc in
              fold_right Z.add 0 (map snd r)
              = fold_right Z.add 0 (map snd acc) + Z.of_nat (List.length l)
              /\ NoDup (map fst r) /\ Forall (fun p => 1 <= snd p) r).
    { induction l as [|e l IH]; intros acc Hnd Hpos; cbn [fold_left List.length].
      - cbv zeta. split; [lia|]. now split.
      - cbv zeta.
        destruct (IH (bumpZoomStat (tid_z (tileId (snd e))) acc)
                     (bumpZoomStat_NoDup _ _ Hnd) (bumpZoomStat_positive _ _ Hpos))
          as (I1 & I2 & I3).
        rewrite bumpZoomStat_sum in I1. split; [lia|]. now split. }
    destruct (Hgen rendered [] ltac:(constructor) ltac:(constructor)) as (G1 & G2 & G3).
    cbn in G1. now repeat split. }
  destruct Hstats as (Hsum & Hnd & Hpos).
  set (sorted := stableSort (fun a b => fst b <=? fst a) stats).
  assert (Hperm : Permutation sorted stats) by apply Permutation_stableSort.
  split; [reflexivity|]. split; [reflexivity|].
  split; [apply countState_split|].
  split; [split; [lia | apply rendered_le_ready]|].
  split.
  { rewrite <- Hsum. apply sum_Permutation. now apply Permutation_map. }
  split.
  { apply (StronglySorted_strict fst).
    - apply (StronglySorted_impl_Z (fun a b => fst b <=? fst a)).
      + intros a b H. now apply Z.leb_le.
      + apply stableSort_sorted.
        * intros a b H. apply Z.leb_gt in H. apply Z.leb_le. lia.
        * intros a b c H1 H2. apply Z.leb_le in H1, H2. apply Z.leb_le. lia.
    - eapply Permutation_NoDup; [|exact Hnd].
      apply Permutation_map. now symmetry. }
  split.
  { apply Forall_forall. intros p Hp. rewrite Forall_forall in Hpos. apply Hpos.
    now apply (Permutation_in _ Hperm). }
  repeat split; reflexivity.
Qed.

(* ================================================================== *)
(** ** What eviction spares and what it sweeps *)

Section EvictionSweep.

Variable cfg : Config.

Lemma disposeTile_queue k L :
  loadQueue (disposeTile k L) = loadQueue L /\ frame (disposeTile k L) = frame L.
Proof. now split. Qed.

Lemma evictTiles_queue wanted L :
  loadQueue (evictTiles cfg wanted L) = loadQueue L.
Proof.
  unfold evictTiles.
  set (stale := map fst _).
  set (L1 := fold_left _ stale L).
  assert (H1 : loadQueue L1 = loadQueue L).
  { unfold L1. apply (fold_left_invariant (fun a => loadQueue a = loadQueue L)); [|reflexivity].
    intros a b Ha. destruct (getTile b (tiles a)); assumption. }
  destruct (tileCount L1 <=? maxCachedTiles cfg); [assumption|].
  apply (fold_left_invariant (fun a => loadQueue a = loadQueue L)); [|assumption].
  intros a b Ha. destruct (tileCount a <=? maxCachedTiles cfg); assumption.
Qed.

Lemma stalePass_within (stale : list string) (L : Layer) :
  tilesWithin L (fold_left (fun acc k0 =>
                              match getTile k0 (tiles acc) with
                              | None => acc
                              | Some _ => disposeTile k0 acc
                              end) stale L).
Proof.
  apply (fold_left_invariant (fun a => tilesWithin L a)).
  - intros a b Ha. destruct (getTile b (tiles a)); [|exact Ha].
    intros k t E. apply Ha. now apply (tilesWithin_disposeTile b a).
  - intros k t E. exact E.
Qed.

Lemma stalePass_removes (stale : list string) : forall L s,
  In s stale ->
  getTile s (tiles (fold_left (fun acc k0 =>
                                 match getTile k0 (tiles acc) with
                                 | None => acc
                                 | Some _ => disposeTile k0 acc
                                 end) stale L)) = None.
Proof.
  induction stale as [|s0 stale IH]; intros L s Hin; [destruct Hin|].
  cbn [fold_left]. destruct Hin as [->|Hin]; [|now apply IH].
  set (L0 := match getTile s (tiles L) with None => L | Some _ => disposeTile s L end).
  assert (H0 : getTile s (tiles L0) = None).
  { unfold L0. destruct (getTile s (tiles L)) eqn:E; [|exact E].
    simpl. rewrite getTile_deleteTile. now rewrite String.eqb_refl. }
  destruct (getTile s (tiles (fold_left _ stale L0))) as [t|] eqn:E; [|reflexivity].
  apply (stalePass_within stale L0) in E. congruence.
Qed.

Lemma evictTiles_spares wanted L k t :
  NoDup (map fst (tiles L)) -> keysConsistent L ->
  getTile k (tiles L) = Some t ->
  In k wanted \/ state t = Loading ->
  getTile k (tiles (evictTiles cfg wanted L)) = Some t.
Proof.
  intros Hnd Hkeys Hk Hspare. unfold evictTiles.
  set (stale := map fst _).
  set (L1 := fold_left _ stale L).
  assert (Hsp : memStr k wanted = true \/ isLoading t = true).
  { destruct Hspare as [H|H]; [left; now apply memStr_In | right].
    unfold isLoading. now rewrite H. }
  assert (Hst : forall s, In s stale -> s <> k).
  { intros s Hs ->. unfold stale in Hs. apply in_map_iff in Hs.
    destruct Hs as [[k0 t0] [E Hin]]. simpl in E. subst k0.
    apply filter_In in Hin. destruct Hin as [Hin Hf]. cbn [fst snd] in Hf.
    assert (t0 = t).
    { apply (In_getTile k t0 (tiles L) Hnd) in Hin. congruence. }
    subst t0. destruct Hsp as [H|H]; rewrite H in Hf; simpl in Hf;
      rewrite ?andb_false_r in Hf; discriminate. }
  assert (H1 : getTile k (tiles L1) = Some t).
  { unfold L1.
    apply (fold_left_invariant_in (fun a => getTile k (tiles a) = Some t)); [|exact Hk].
    intros a s Hs Ha. destruct (getTile s (tiles a)); [|exact Ha].
    rewrite disposeTile_other; [exact Ha | now apply Hst]. }
  destruct (tileCount L1 <=? maxCachedTiles cfg); [exact H1|].
  apply (fold_left_invariant_in (fun a => getTile k (tiles a) = Some t)); [|exact H1].
  intros a c Hc Ha. destruct (tileCount a <=? maxCachedTiles cfg); [exact Ha|].
  rewrite disposeTile_other; [exact Ha|].
  intros Heq. apply In_stableSort in Hc. apply filter_In in Hc.
  destruct Hc as [Hc Hf]. apply in_map_iff in Hc. destruct Hc as [[k0 t0] [E Hin]].
  simpl in E. subst t0.
  apply (stalePass_subset stale L) in Hin.
  pose proof (Hkeys k0 c Hin) as Hkc. rewrite Heq in Hkc. subst k0.
  apply (In_getTile k c (tiles L) Hnd) in Hin.
  assert (c = t) by congruence. subst c.
  rewrite Heq in Hf.
  destruct Hsp as [H|H]; rewrite H in Hf; simpl in Hf;
    rewrite ?andb_false_r in Hf; discriminate.
Qed.

Lemma evictTiles_sweeps wanted L k t :
  getTile k (tiles (evictTiles cfg wanted L)) = Some t ->
  getTile k (tiles L) = Some t
  /\ (In k wanted \/ state t = Loading
      \/ frame L - lastWantedFrame t <= retainFrames cfg).
Proof.
  intro H. pose proof (tilesWithin_evictTiles cfg wanted L k t H) as H0.
  split; [exact H0|].
  destruct (memStr k wanted) eqn:Hw; [left; now apply memStr_In|].
  destruct (isLoading t) eqn:Hl.
  { right. left. unfold isLoading in Hl. destruct (state t); try discriminate. reflexivity. }
  right. right.
  destruct (Z.ltb_spec (retainFrames cfg) (frame L - lastWantedFrame t)) as [Hstale|]; [|lia].
  exfalso.
  assert (Hin : In k (map fst
                    (filter (fun e =>
                               negb (memStr (fst e) wanted) && negb (isLoading (snd e))
                               && (retainFrames cfg <? frame L - lastWantedFrame (snd e)))
                            (tiles L)))).
  { apply in_map_iff. exists (k, t). split; [reflexivity|].
    apply filter_In. split; [now apply getTile_In|].
    cbn [fst snd]. rewrite Hw, Hl. cbn. now apply Z.ltb_lt. }
  unfold evictTiles in H.
  set (stale := map fst _) in *.
  set (L1 := fold_left _ stale L) in *.
  pose proof (stalePass_removes stale L k Hin) as Hgone. fold L1 in Hgone.
  assert (HL1 : tilesWithin L1 (if tileCount L1 <=? maxCachedTiles cfg then L1
                                else fold_left
                                       (fun acc t0 =>
                                          if tileCount acc <=? maxCachedTiles cfg then acc
                                          else disposeTile (key t0) acc)
                                       (stableSort evictOrder
                                          (filter (fun t0 => negb (memStr (key t0) wanted)
                                                             && negb (isLoading t0))
                                                  (map snd (tiles L1)))) L1)).
  { destruct (tileCount L1 <=? maxCachedTiles cfg); [intros k' t' E; exact E|].
    apply (fold_left_invariant (fun a => tilesWithin L1 a)); [|intros k' t' E; exact E].
    intros a b Ha. destruct (tileCount a <=? maxCachedTiles cfg); [exact Ha|].
    intros k' t' E. apply Ha. now apply (tilesWithin_disposeTile (key b) a). }
  apply HL1 in H. congruence.
Qed.

End EvictionSweep.

(** X22: [evictTiles], on a cache whose entries have distinct keys and are
    stored under their own key: a wanted tile and a loading tile are never
    removed; a tile that is kept is unchanged, and unless it is wanted or
    loading it was wanted at most [retainFrames] frames ago, so every
    stale tile is swept; the load queue is not touched, so the key of a
    removed tile stays in it. *)
Theorem evictTiles_spares_and_sweeps (cfg : Config) (wanted : list string) (L : Layer) :
  NoDup (map fst (tiles L)) -> keysConsistent L ->
  let L' := evictTiles cfg wanted L in
  (forall k t, getTile k (tiles L) = Some t ->
               In k wanted \/ state t = Loading ->
               getTile k (tiles L') = Some t)
  /\ (forall k t, getTile k (tiles L') = Some t ->
                  getTile k (tiles L) = Some t
                  /\ (In k wanted \/ state t = Loading
                      \/ frame L - lastWantedFrame t <= retainFrames cfg))
  /\ loadQueue L' = loadQueue L
  /\ requests L' = requests L.
Proof.
  intros Hnd Hkeys. cbv zeta. split; [|split; [|split]].
  - intros k t Hk Hs. now apply evictTiles_spares.
  - intros k t Hk. now apply evictTiles_sweeps.
  - apply evictTiles_queue.
  - pose proof (evictTiles_slots cfg wanted L) as H. unfold slotFields in H.
    now injection H.
Qed.

Lemma evictTiles_spares_and_sweeps_witness :
  let L' := evictTiles scenarioConfig [] scenarioLoading in
  (forall k t, getTile k (tiles scenarioLoading) = Some t ->
               In k [] \/ state t = Loading ->
               getTile k (tiles L') = Some t)
  /\ (forall k t, getTile k (tiles L') = Some t ->
                  getTile k (tiles scenarioLoading) = Some t
                  /\ (In k [] \/ state t = Loading
                      \/ frame scenarioLoading - lastWantedFrame t
                         <= retainFrames scenarioConfig))
  /\ loadQueue L' = loadQueue scenarioLoading
  /\ requests L' = requests scenarioLoading.
Proof.
  apply (evictTiles_spares_and_sweeps scenarioConfig [] scenarioLoading).
  - exact (proj1 (reachable_wellFormed scenarioConfig scenarioLoading
                                       scenarioLoading_reachable)).
  - exact scenarioLoading_keysConsistent.
Defined.

(* ------------------------------------------------------------------ *)
(** *** The order of the capacity pass *)

Lemma prioDiffLe0_total (a b : Priority) :
  prioDiffLe0 a b = false -> prioDiffLe0 b a = true.
Proof.
  destruct a, b; simpl; try discriminate; try reflexivity.
  rewrite Z.leb_gt, Z.leb_le. lia.
Qed.

Lemma prioDiffLe0_trans (a b c : Priority) :
  prioDiffLe0 a b = true -> prioDiffLe0 b c = true -> prioDiffLe0 a c = true.
Proof.
  destruct a, b, c; simpl; try discriminate; try reflexivity.
  rewrite !Z.leb_le. lia.
Qed.

Lemma evictOrder_total (a b : ActiveTile) :
  evictOrder a b = false -> evictOrder b a = true.
Proof.
  unfold evictOrder.
  destruct (Z.eqb_spec (lastTouchedFrame a) (lastTouchedFrame b)) as [E|N].
  - rewrite E, Z.eqb_refl. apply prioDiffLe0_total.
  - destruct (Z.eqb_spec (lastTouchedFrame b) (lastTouchedFrame a)) as [E'|_]; [congruence|].
    rewrite Z.ltb_ge, Z.ltb_lt. lia.
Qed.

Lemma evictOrder_trans (a b c : ActiveTile) :
  evictOrder a b = true -> evictOrder b c = true -> evictOrder a c = true.
Proof.
  unfold evictOrder.
  destruct (Z.eqb_spec (lastTouchedFrame a) (lastTouchedFrame b)) as [E1|N1];
    destruct (Z.eqb_spec (lastTouchedFrame b) (lastTouchedFrame c)) as [E2|N2];
    destruct (Z.eqb_spec (lastTouchedFrame a) (lastTouchedFrame c)) as [E3|N3];
    rewrite ?Z.ltb_lt; intros H1 H2; try lia.
  eapply prioDiffLe0_trans; eassumption.
Qed.

Lemma StronglySorted_app_inv {A : Type} (R : A -> A -> Prop) (l1 l2 : list A) :
  StronglySorted R (l1 ++ l2) -> forall a b, In a l1 -> In b l2 -> R a b.
Proof.
  induction l1 as [|x l1 IH]; intros Hs a b Ha Hb; [destruct Ha|].
  cbn [app] in Hs. inversion Hs as [|x' l' Hl Hx]; subst.
  destruct Ha as [->|Ha]; [|now apply IH].
  rewrite Forall_forall in Hx. apply Hx. apply in_or_app. now right.
Qed.

Section CapacityOrder.

Variable cfg : Config.

Let capacityStep (acc : Layer) (t : ActiveTile) : Layer :=
  if tileCount acc <=? maxCachedTiles cfg then acc else disposeTile (key t) acc.

Lemma capacityStep_idle (cands : list ActiveTile) (A : Layer) :
  tileCount A <= maxCachedTiles cfg -> fold_left capacityStep cands A = A.
Proof.
  intro H. induction cands as [|c cands IH]; [reflexivity|].
  cbn [fold_left]. unfold capacityStep at 2.
  destruct (Z.leb_spec (tileCount A) (maxCachedTiles cfg)); [exact IH | lia].
Qed.

(** The capacity pass removes the keys of a prefix of its candidates. *)
Lemma capacityPass_prefix (cands : list ActiveTile) : forall A,
  exists n,
    forall k, getTile k (tiles (fold_left capacityStep cands A))
              = if existsb (fun c => String.eqb (key c) k) (firstn n cands)
                then None else getTile k (tiles A).
Proof.
  induction cands as [|c cands IH]; intro A.
  - exists O. intro k. reflexivity.
  - destruct (Z.leb_spec (tileCount A) (maxCachedTiles cfg)) as [Hle|Hgt].
    + exists O. intro k. now rewrite capacityStep_idle.
    + cbn [fold_left]. unfold capacityStep at 2.
      destruct (Z.leb_spec (tileCount A) (maxCachedTiles cfg)); [lia|].
      destruct (IH (disposeTile (key c) A)) as [n Hn].
      exists (S n). intro k. rewrite Hn. cbn [firstn existsb].
      destruct (existsb _ (firstn n cands)); [now rewrite orb_true_r|].
      rewrite orb_false_r. cbn [disposeTile tiles setTiles].
      now rewrite getTile_deleteTile.
Qed.

Lemma stalePass_keeps (stale : list string) (L : Layer) (k : string) :
  ~ In k stale ->
  getTile k (tiles (fold_left (fun acc k0 =>
                                 match getTile k0 (tiles acc) with
                                 | None => acc
                                 | Some _ => disposeTile k0 acc
                                 end) stale L))
  = getTile k (tiles L).
Proof.
  intro Hk.
  apply (fold_left_invariant_in (fun a => getTile k (tiles a) = getTile k (tiles L)));
    [|reflexivity].
  intros a s Hs Ha. destruct (getTile s (tiles a)); [|exact Ha].
  rewrite disposeTile_other; [exact Ha|]. intros ->. contradiction.
Qed.

Lemma evictTiles_order wanted L ku u kv v :
  NoDup (map fst (tiles L)) -> keysConsistent L ->
  getTile ku (tiles L) = Some u -> getTile kv (tiles L) = Some v ->
  ~ In ku wanted -> state u <> Loading ->
  frame L - lastWantedFrame u <= retainFrames cfg ->
  ~ In kv wanted -> state v <> Loading ->
  getTile ku (tiles (evictTiles cfg wanted L)) = None ->
  getTile kv (tiles (evictTiles cfg wanted L)) = Some v ->
  evictOrder u v = true.
Proof.
  intros Hnd Hkeys Hu Hv Hwu Hlu Hau Hwv Hlv Hgone Hkept.
  pose (stale :=
          map fst
              (filter (fun e =>
                         negb (memStr (fst e) wanted) && negb (isLoading (snd e))
                         && (retainFrames cfg <? frame L - lastWantedFrame (snd e)))
                      (tiles L))).
  pose (L1 := fold_left (fun acc k0 =>
                           match getTile k0 (tiles acc) with
                           | None => acc
                           | Some _ => disposeTile k0 acc
                           end) stale L).
  pose (cands := stableSort evictOrder
                   (filter (fun t => negb (memStr (key t) wanted) && negb (isLoading t))
                           (map snd (tiles L1)))).
  assert (Hev : evictTiles cfg wanted L
                = if tileCount L1 <=? maxCachedTiles cfg then L1
                  else fold_left capacityStep cands L1) by reflexivity.
  rewrite Hev in Hgone, Hkept. clear Hev.
  assert (Hu1 : getTile ku (tiles L1) = Some u).
  { unfold L1. rewrite stalePass_keeps; [exact Hu|].
    intro Hin. unfold stale in Hin. apply in_map_iff in Hin.
    destruct Hin as [[k0 t0] [E Hin]]. simpl in E. subst k0.
    apply filter_In in Hin. destruct Hin as [Hin Hf]. cbn [fst snd] in Hf.
    apply (In_getTile ku t0 (tiles L) Hnd) in Hin.
    assert (t0 = u) by congruence. subst t0.
    apply andb_prop in Hf. destruct Hf as [_ Hf]. apply Z.ltb_lt in Hf. lia. }
  assert (Hsub1 : forall k t, In (k, t) (tiles L1) -> In (k, t) (tiles L)).
  { intros k t. apply stalePass_subset. }
  assert (Hnd1 : forall k t, In (k, t) (tiles L1) -> getTile k (tiles L) = Some t).
  { intros k t Hin. apply In_getTile; [exact Hnd | now apply Hsub1]. }
  destruct (tileCount L1 <=? maxCachedTiles cfg); [congruence|].
  destruct (capacityPass_prefix cands L1) as [n Hn].
  rewrite Hn in Hgone, Hkept.
  assert (Hcand : forall k t, getTile k (tiles L1) = Some t ->
                              ~ In k wanted -> state t <> Loading -> In t cands).
  { intros k t Ht Hw Hl. unfold cands. apply In_stableSort. apply filter_In.
    pose proof (getTile_In k t (tiles L1) Ht) as Hin.
    split; [apply in_map_iff; exists (k, t); now split|].
    rewrite (Hkeys k t (Hsub1 k t Hin)).
    destruct (memStr k wanted) eqn:Hm; [apply memStr_In in Hm; contradiction|].
    unfold isLoading. destruct (state t); try reflexivity. now elim Hl. }
  assert (Hkey : forall c, In c cands -> getTile (key c) (tiles L) = Some c).
  { intros c Hc. unfold cands in Hc. apply In_stableSort in Hc. apply filter_In in Hc.
    destruct Hc as [Hc _]. apply in_map_iff in Hc. destruct Hc as [[k0 t0] [E Hin]].
    simpl in E. subst t0. pose proof (Hsub1 k0 c Hin) as Hin0.
    rewrite (Hkeys k0 c Hin0). now apply Hnd1. }
  (* the evicted tile is in the prefix, the kept one is not *)
  assert (Hupre : In u (firstn n cands)).
  { destruct (existsb (fun c => String.eqb (key c) ku) (firstn n cands)) eqn:E;
      [|congruence].
    apply existsb_exists in E. destruct E as [c [Hc Hck]].
    apply String.eqb_eq in Hck.
    pose proof (Hkey c (In_firstn _ _ _ Hc)) as Hc0. rewrite Hck in Hc0.
    assert (c = u) by congruence. now subst c. }
  destruct (existsb (fun c => String.eqb (key c) kv) (firstn n cands)) eqn:Ekv;
    [discriminate|].
  assert (Hvpost : In v (skipn n cands)).
  { pose proof (Hcand kv v Hkept Hwv Hlv) as Hvc.
    rewrite <- (firstn_skipn n cands) in Hvc. apply in_app_or in Hvc.
    destruct Hvc as [Hvc|Hvc]; [|exact Hvc]. exfalso.
    assert (E : existsb (fun c => String.eqb (key c) kv) (firstn n cands) = true).
    { apply existsb_exists. exists v. split; [exact Hvc|].
      apply String.eqb_eq.
      exact (Hkeys kv v (Hsub1 kv v (getTile_In kv v (tiles L1) Hkept))). }
    congruence. }
  assert (Hs : StronglySorted (fun a b => evictOrder a b = true) cands).
  { unfold cands. apply stableSort_sorted; [apply evictOrder_total | apply evictOrder_trans]. }
  rewrite <- (firstn_skipn n cands) in Hs.
  exact (StronglySorted_app_inv _ _ _ Hs u v Hupre Hvpost).
Qed.

End CapacityOrder.

(** X23: The capacity pass of [evictTiles] removes the least recently touched
    tiles first and, among tiles touched in the same frame, the farthest
    first: when a tile that is neither wanted, loading nor stale is removed
    while another tile that is neither wanted nor loading is kept, the
    removed one was touched earlier, or in the same frame with a priority
    that is not smaller. *)
Theorem evictTiles_least_recently_touched_first
        (cfg : Config) (wanted : list string) (L : Layer)
        (ku : string) (u : ActiveTile) (kv : string) (v : ActiveTile) :
  NoDup (map fst (tiles L)) -> keysConsistent L ->
  getTile ku (tiles L) = Some u -> getTile kv (tiles L) = Some v ->
  ~ In ku wanted -> state u <> Loading ->
  frame L - lastWantedFrame u <= retainFrames cfg ->
  ~ In kv wanted -> state v <> Loading ->
  getTile ku (tiles (evictTiles cfg wanted L)) = None ->
  getTile kv (tiles (evictTiles cfg wanted L)) = Some v ->
  lastTouchedFrame u < lastTouchedFrame v
  \/ (lastTouchedFrame u = lastTouchedFrame v
      /\ prioDiffLe0 (priority v) (priority u) = true).
Proof.
  intros Hnd Hkeys Hu Hv Hwu Hlu Hau Hwv Hlv Hgone Hkept.
  pose proof (evictTiles_order cfg wanted L ku u kv v
                Hnd Hkeys Hu Hv Hwu Hlu Hau Hwv Hlv Hgone Hkept) as H.
  unfold evictOrder in H.
  destruct (Z.eqb_spec (lastTouchedFrame u) (lastTouchedFrame v)) as [E|N].
  - right. now split.
  - left. now apply Z.ltb_lt.
Qed.

Lemma crowdedLayer_reachable : reachable smallCacheConfig crowdedLayer.
Proof. eexists. reflexivity. Qed.

Lemma evictTiles_least_recently_touched_first_witness :
  exists u v,
    getTile "9/256/170" (tiles crowdedLayer) = Some u
    /\ getTile "10/513/342" (tiles crowdedLayer) = Some v
    /\ (lastTouchedFrame u < lastTouchedFrame v
        \/ (lastTouchedFrame u = lastTouchedFrame v
            /\ prioDiffLe0 (priority v) (priority u) = true)).
Proof.
  eexists. eexists. split; [vm_compute; reflexivity|]. split; [vm_compute; reflexivity|].
  apply (evictTiles_least_recently_touched_first
           smallCacheConfig [] crowdedLayer "9/256/170" _ "10/513/342" _).
  - exact (proj1 (reachable_wellFormed smallCacheConfig crowdedLayer
                                       crowdedLayer_reachable)).
  - exact (wellFormed_keysConsistent smallCacheConfig crowdedLayer
             (reachable_wellFormed smallCacheConfig crowdedLayer crowdedLayer_reachable)).
  - vm_compute. reflexivity.
  - vm_compute. reflexivity.
  - intros [].
  - vm_compute. discriminate.
  - vm_compute. discriminate.
  - intros [].
  - vm_compute. discriminate.
  - vm_compute. reflexivity.
  - vm_compute. reflexivity.
Defined.

(* ================================================================== *)
(** ** The level-of-detail table *)

Lemma find_insertSorted_lod (z : Z) (x : TileLodLevel) (l : list TileLodLevel) :
  find (fun level => lod_zoom level =? z)
       (insertSorted (fun a b => lod_zoom b <=? lod_zoom a) x l)
  = if lod_zoom x =? z then Some x else find (fun level => lod_zoom level =? z) l.
Proof.
  induction l as [|y l IH]; [reflexivity|].
  cbn [insertSorted]. destruct (Z.leb_spec (lod_zoom y) (lod_zoom x)) as [Hle|Hgt].
  - reflexivity.
  - cbn [find]. rewrite IH.
    destruct (Z.eqb_spec (lod_zoom x) z) as [Ex|Nx]; [|reflexivity].
    destruct (Z.eqb_spec (lod_zoom y) z) as [Ey|Ny]; [lia | reflexivity].
Qed.

Lemma find_stableSort_lod (z : Z) (l : list TileLodLevel) :
  find (fun level => lod_zoom level =? z)
       (stableSort (fun a b => lod_zoom b <=? lod_zoom a) l)
  = find (fun level => lod_zoom level =? z) l.
Proof.
  induction l as [|x l IH]; [reflexivity|].
  cbn [stableSort]. rewrite find_insertSorted_lod, IH. reflexivity.
Qed.

Lemma find_map_filter {A B : Type} (f : A -> B) (keep : A -> bool) (p : B -> bool)
      (l : list A) :
  find p (map f (filter keep l)) = option_map f (find (fun a => keep a && p (f a)) l).
Proof.
  induction l as [|a l IH]; [reflexivity|].
  cbn [filter find]. destruct (keep a); cbn [map find andb]; [|exact IH].
  destruct (p (f a)); [reflexivity | exact IH].
Qed.

Lemma validLodOption_range (l : TileLodLevelOption) :
  validLodOption l = true -> 0 <= Qfloor (lo_zoom l) <= 22.
Proof.
  unfold validLodOption. rewrite !andb_true_iff. intros [[_ H0] H22].
  apply Qle_bool_iff in H0, H22.
  apply Qfloor_resp_le in H0, H22.
  change (Qfloor 0) with 0 in H0. change (Qfloor 22) with 22 in H22. lia.
Qed.

(** X24: The level-of-detail table of a constructed layer: every level has a
    zoom from 0 to 22; the table is sorted by descending zoom; and the
    level that [getLodLevel] finds for a zoom is the first entry of the
    [lodLevels] option, in the order given, whose zoom is that integer,
    entries with a fractional or out-of-range zoom being ignored. *)
Theorem lodLevels_constructed
        (g : GeoCoordinator) (o : PlanarMapTileLayerOptions) (zoom : Z) :
  let cfg := constructorConfig g o in
  Forall (fun l => 0 <= lod_zoom l <= 22) (lodLevels cfg)
  /\ StronglySorted (fun a b => lod_zoom b <= lod_zoom a) (lodLevels cfg)
  /\ getLodLevel cfg zoom
     = option_map lodOfOption
         (find (fun l => validLodOption l && (Qfloor (lo_zoom l) =? zoom))
               (orElse (o_lodLevels o) [])).
Proof.
  cbv zeta. unfold getLodLevel. cbn [lodLevels constructorConfig].
  unfold normalizeLodLevels. destruct (o_lodLevels o) as [ls|]; cbn [orElse].
  - change (fun l => isIntegerQ (lo_zoom l) && Qle_bool 0 (lo_zoom l)
                     && Qle_bool (lo_zoom l) 22) with validLodOption.
    change (fun l => mkLod (Qfloor (lo_zoom l)) (lo_maxTiles l) (lo_marginTiles l)
                           (lo_updateThrottleMs l) (lo_zoomThrottleMs l)
                           (lo_immediateTileShift l)) with lodOfOption.
    split; [|split].
    + apply Forall_forall. intros l Hl. apply In_stableSort in Hl.
      apply in_map_iff in Hl. destruct Hl as [i [<- Hi]].
      apply filter_In in Hi. cbn [lodOfOption lod_zoom].
      now apply validLodOption_range.
    + apply (StronglySorted_impl_Z (fun a b => lod_zoom b <=? lod_zoom a)).
      * intros a b H. now apply Z.leb_le.
      * apply stableSort_sorted.
        -- intros a b H. apply Z.leb_gt in H. apply Z.leb_le. lia.
        -- intros a b c H1 H2. apply Z.leb_le in H1, H2. apply Z.leb_le. lia.
    + rewrite find_stableSort_lod.
      apply (find_map_filter lodOfOption validLodOption
                             (fun level => lod_zoom level =? zoom)).
  - split; [constructor|]. split; [constructor | reflexivity].
Qed.

(* ================================================================== *)
(** ** Tiles on screen and loads in flight *)

Section Sound.

Variable cfg : Config.
Hypothesis Hop : (0 <= opacity cfg)%Q.

Lemma sound_within L L' :
  tilesWithin L L' -> incl (requests L) (requests L') -> sound cfg L -> sound cfg L'.
Proof.
  intros Hw Hr S k t E. destruct (S k t (Hw k t E)) as [S1 S2].
  split; [exact S1|]. intro Hl. apply Hr. now apply S2.
Qed.

Lemma sound_ext L L' :
  tiles L' = tiles L -> requests L' = requests L -> sound cfg L -> sound cfg L'.
Proof.
  intros Ht Hr. apply sound_within.
  - intros k t E. now rewrite <- Ht.
  - rewrite Hr. apply incl_refl.
Qed.

Lemma sound_mutate k f L :
  sound cfg L ->
  (forall t, getTile k (tiles L) = Some t ->
             tileShown cfg t ->
             (state t = Loading -> In (k, attempts t) (requests L)) ->
             tileShown cfg (f t)
             /\ (state (f t) = Loading -> In (k, attempts (f t)) (requests L))) ->
  sound cfg (mutate k f L).
Proof.
  intros S Hf k' t' E. cbn [mutate tiles setTiles requests] in *.
  rewrite getTile_mutTile in E.
  destruct (String.eqb_spec k k') as [<-|Hne]; [|now apply S].
  destruct (getTile k (tiles L)) as [t|] eqn:Et; [|discriminate].
  cbn in E. injection E as <-. destruct (S k t Et) as [S1 S2]. now apply Hf.
Qed.

Lemma tileShown_quiet f t : quiet f -> tileShown cfg t -> tileShown cfg (f t).
Proof.
  intros Hf. destruct (Hf t) as (E1 & E2 & E3 & E4 & E5).
  unfold tileShown. rewrite E1, E2, E3, E4. tauto.
Qed.

Lemma sound_mutate_quiet k f L : quiet f -> sound cfg L -> sound cfg (mutate k f L).
Proof.
  intros Hf S. apply sound_mutate; [exact S|].
  intros t Et St Sr. split; [now apply tileShown_quiet|].
  destruct (Hf t) as (_ & _ & _ & E4 & E5). now rewrite E4, E5.
Qed.

(** A tile that is not ready moves to another state that is neither ready
    nor loading. *)
Lemma tileShown_setState s t :
  state t <> Ready -> s <> Ready -> tileShown cfg t -> tileShown cfg (setState s t).
Proof.
  intros Hn Hs (A & B & C & D & E). unfold tileShown. cbn.
  repeat split; try tauto; try (intro; contradiction); try (now apply E).
Qed.

Lemma sound_restate k s L :
  s <> Ready -> s <> Loading ->
  (forall t, getTile k (tiles L) = Some t -> state t <> Ready) ->
  sound cfg L -> sound cfg (mutate k (setState s) L).
Proof.
  intros Hs1 Hs2 Hn S. apply sound_mutate; [exact S|].
  intros t Et St _. split; [apply tileShown_setState; auto|].
  cbn. intro; contradiction.
Qed.

Lemma sound_enqueueTileLoad k L : sound cfg L -> sound cfg (enqueueTileLoad k L).
Proof.
  intro S. unfold enqueueTileLoad.
  destruct (getTile k (tiles L)) as [t|] eqn:Et; [|exact S].
  assert (Hq : state t <> Ready -> sound cfg (mutate k (setState Queued) L)).
  { intro Hn. apply sound_restate; try discriminate; [|exact S].
    intros t0 E0. congruence. }
  destruct (state t) eqn:Hs; try exact S;
    (destruct (memStr k _);
     [ apply Hq; discriminate
     | eapply sound_ext; [| |apply Hq; discriminate]; reflexivity ]).
Qed.

Lemma sound_enqueueIfIdleOrRetryable k L :
  sound cfg L -> sound cfg (enqueueIfIdleOrRetryable cfg k L).
Proof.
  intro S. unfold enqueueIfIdleOrRetryable.
  destruct (getTile k (tiles L)) as [t|]; [|exact S].
  destruct (state t); try exact S; [now apply sound_enqueueTileLoad|].
  destruct (_ <=? _); [now apply sound_enqueueTileLoad | exact S].
Qed.

Lemma tileShown_shell id k now L : tileShown cfg (createTileShell id k now L).
Proof.
  unfold tileShown, createTileShell. cbn.
  repeat split; try lra; try discriminate; try reflexivity; try exact Hop.
Qed.

Lemma sound_addShell id k now L :
  sound cfg L ->
  sound cfg (setTiles (addTile k (createTileShell id k now L) (tiles L)) L).
Proof.
  intros S k' t' E. cbn [tiles setTiles requests] in *.
  rewrite getTile_addTile in E.
  destruct (getTile k' (tiles L)) as [t|] eqn:Et.
  - injection E as <-. now apply S.
  - destruct (String.eqb k' k); [|discriminate]. injection E as <-.
    split; [apply tileShown_shell | discriminate].
Qed.

Lemma sound_wantTile now L d : sound cfg L -> sound cfg (wantTile cfg now L d).
Proof.
  intro S. unfold wantTile.
  apply sound_enqueueIfIdleOrRetryable. apply sound_mutate_quiet.
  - intro t. cbn. tauto.
  - destruct (getTile (d_key d) (tiles L)); [exact S | now apply sound_addShell].
Qed.

Lemma sound_mapEntries (F : string * ActiveTile -> string * ActiveTile) L :
  (forall e, fst (F e) = fst e) ->
  (forall k t, tileShown cfg t -> tileShown cfg (snd (F (k, t)))) ->
  (forall k t, state (snd (F (k, t))) = state t /\ attempts (snd (F (k, t))) = attempts t) ->
  sound cfg L -> sound cfg (setTiles (map F (tiles L)) L).
Proof.
  intros HF Hshown Hst S k t' E. cbn [tiles setTiles requests] in *.
  rewrite getTile_mapEntries in E by exact HF.
  destruct (getTile k (tiles L)) as [t|] eqn:Et; [|discriminate].
  cbn in E. injection E as <-. destruct (S k t Et) as [S1 S2].
  split; [now apply Hshown|]. destruct (Hst k t) as [E1 E2]. now rewrite E1, E2.
Qed.

Lemma sound_evictTiles wanted L : sound cfg L -> sound cfg (evictTiles cfg wanted L).
Proof.
  apply sound_within; [apply tilesWithin_evictTiles|].
  pose proof (evictTiles_slots cfg wanted L) as H. unfold slotFields in H.
  injection H as _ ->. apply incl_refl.
Qed.

Lemma sound_applyViewState vs now L :
  sound cfg L -> sound cfg (applyViewState cfg vs now L).
Proof.
  intro S. unfold applyViewState. apply sound_evictTiles.
  eapply sound_ext; [reflexivity | reflexivity|].
  apply sound_mapEntries.
  - intros e. destruct (memStr _ _); [reflexivity|]. now destruct (_ <? _).
  - intros k t Ht. cbn [snd]. destruct (memStr _ _); [exact Ht|].
    destruct (_ <? _); [|exact Ht]. cbn [snd].
    apply tileShown_quiet; [|exact Ht]. intro t0. cbn. tauto.
  - intros k t. cbn [snd]. destruct (memStr _ _); [tauto|].
    destruct (_ <? _); cbn; tauto.
  - apply fold_left_invariant; [intros a b; apply sound_wantTile|].
    eapply sound_ext; [| |exact S]; reflexivity.
Qed.

Lemma sound_drainIteration L :
  wellFormed cfg L -> sound cfg L -> sound cfg (fst (drainIteration cfg L)).
Proof.
  intros W S. unfold drainIteration.
  destruct (_ && _); [|exact S].
  destruct (nth_error _ _) as [k|]; [|exact S].
  assert (S1 : forall q, sound cfg (setLoadQueue q L)).
  { intro q. eapply sound_ext; [| |exact S]; reflexivity. }
  destruct k as [|c r] eqn:Ek; [apply S1|]. rewrite <- Ek. clear Ek c r.
  set (L2 := setQueuedKeys _ (setLoadQueue _ L)).
  assert (S2 : sound cfg L2) by (eapply sound_ext; [| |exact S]; reflexivity).
  cbn [fst]. change (tiles L2) with (tiles L).
  destruct (getTile k (tiles L)) as [t|] eqn:Et; [|exact S2].
  destruct (state t) eqn:Hs; try exact S2.
  cbn [fst]. unfold startTileLoad.
  destruct (proj1 (proj2 W) k t Et) as (Hkey & _).
  intros k' t' E'. cbn [tiles setTiles requests setRequests setInflightCount mutate] in *.
  change (tiles L2) with (tiles L) in E'. change (requests L2) with (requests L).
  rewrite getTile_mutTile in E'.
  destruct (String.eqb_spec k k') as [<-|Hne].
  - rewrite Et in E'. cbn in E'. injection E' as <-.
    destruct (S k t Et) as [(A & B & C & D & E) _].
    split.
    + unfold tileShown. cbn.
      assert (Hn : state t <> Ready) by congruence.
      repeat split; try tauto; try discriminate; try (now apply E).
    + intros _. cbn. apply in_or_app. right. left. now rewrite Hkey.
  - destruct (S k' t' E') as [A B]. split; [exact A|].
    intro Hl. apply in_or_app. left. now apply B.
Qed.

Lemma sound_processLoadQueueLoop fuel : forall L,
  wellFormed cfg L -> sound cfg L -> sound cfg (processLoadQueueLoop cfg fuel L).
Proof.
  induction fuel as [|f IH]; intros L W S; [exact S|].
  cbn [processLoadQueueLoop].
  pose proof (wellFormed_drainIteration cfg L W) as W'.
  pose proof (sound_drainIteration L W S) as S'.
  destruct (drainIteration cfg L) as [L' again]. cbn [fst] in *.
  destruct again; [now apply IH | exact S'].
Qed.

Lemma sound_findReadyAncestorLoop fuel : forall x y z now touched L,
  sound cfg L ->
  sound cfg (snd (findReadyAncestorLoop cfg fuel x y z now touched L)).
Proof.
  induction fuel as [|f IH]; intros x y z now touched L S; [exact S|].
  cbn [findReadyAncestorLoop]. destruct (minZoom cfg <? z); [|exact S].
  cbv zeta.
  set (k := tileKey (mkTileId (x / 2) (y / 2) (z - 1))).
  set (L1 := match getTile k (tiles L) with Some _ => L | None => _ end).
  assert (S1 : sound cfg L1).
  { unfold L1. destruct (getTile k (tiles L)); [exact S | now apply sound_addShell]. }
  destruct (memStr k touched).
  - destruct (getTile k (tiles L1)) as [p|]; [destruct (state p)|];
      try (now apply IH); exact S1.
  - set (L2 := enqueueIfIdleOrRetryable cfg k _).
    assert (S2 : sound cfg L2).
    { unfold L2. apply sound_enqueueIfIdleOrRetryable. apply sound_mutate_quiet; [|exact S1].
      intro t. cbn. tauto. }
    destruct (getTile k (tiles L2)) as [p|]; [destruct (state p)|];
      try (now apply IH); exact S2.
Qed.

Lemma sound_visitDesired now acc d :
  sound cfg (snd acc) -> sound cfg (snd (visitDesired cfg now acc d)).
Proof.
  destruct acc as [[vis touched] L]. cbn [snd]. intro S. unfold visitDesired.
  destruct (getTile (d_key d) (tiles L)) as [cur|]; [|exact S].
  assert (Hfb : sound cfg
                  (snd (let '(fallback, touched', L') :=
                          findReadyAncestor cfg (d_tileId d) now touched L in
                        match fallback with
                        | Some fk =>
                            match getTile fk (tiles L') with
                            | Some fb =>
                                (setAdd (key fb) vis, touched',
                                 mutate fk (setLastWantedFrame (frame L')) L')
                            | None => (vis, touched', L')
                            end
                        | None => (vis, touched', L')
                        end))).
  { pose proof (sound_findReadyAncestorLoop
                  (Z.to_nat (maxParentSearchDepth cfg)) (tid_x (d_tileId d))
                  (tid_y (d_tileId d)) (tid_z (d_tileId d)) now touched L S) as Sf.
    unfold findReadyAncestor.
    destruct (findReadyAncestorLoop cfg _ _ _ _ now touched L) as [[fb touched'] L'].
    cbn [snd] in *. destruct fb as [fk|]; [|exact Sf].
    destruct (getTile fk (tiles L')); [|exact Sf].
    cbn [snd]. apply sound_mutate_quiet; [|exact Sf]. intro t. cbn. tauto. }
  destruct (state cur); try exact Hfb.
  cbn [snd]. apply sound_mutate_quiet; [|exact S]. intro t. cbn. tauto.
Qed.

Lemma tileShown_animate now tgt t :
  tileShown cfg t ->
  (state t <> Ready -> tgt = 0%Q) ->
  tgt = 0%Q \/ tgt = opacity cfg ->
  tileShown cfg (animateTileOpacity cfg now (setTargetOpacity tgt t)).
Proof.
  intros (A & B & C & D & E) Hnr Htgt.
  assert (Ht : (0 <= tgt)%Q /\ (tgt <= opacity cfg)%Q).
  { destruct Htgt as [->| ->]; split; lra. }
  unfold animateTileOpacity.
  destruct (negb (enableProgressiveBlend cfg)).
  - (* no blending: the opacity snaps *)
    cbn [targetOpacity setTargetOpacity].
    destruct (Qltb (1 # 1000) tgt) eqn:Ev; unfold tileShown; cbn.
    + apply Qltb_lt in Ev.
      split; [exact Hop|]. split; [lra|]. split; [intros _; lra|].
      split; [exact D|].
      intro Hn. specialize (Hnr Hn). subst tgt. exfalso. lra.
    + split; [lra|]. split; [exact Hop|]. split; [discriminate|].
      split; [exact D|].
      intro Hn. destruct (E Hn) as (_ & _ & E3).
      split; [reflexivity|]. split; [reflexivity | exact E3].
  - cbv zeta. cbn [lastFadeUpdateMs setTargetOpacity setLastFadeUpdateMs targetOpacity
                   currentOpacity].
    destruct (Qle_bool (Qmax 0 (now - lastFadeUpdateMs t)) 0).
    + unfold tileShown. cbn.
      split; [exact A|]. split; [exact B|]. split; [exact C|]. split; [exact D | exact E].
    + set (step := Qmin 1 (Qmax 0 (now - lastFadeUpdateMs t)
                           / inject_Z (fadeDurationMs cfg))).
      set (eased := if Qltb (Qabs' (tgt - currentOpacity t)) (1 # 10000) then tgt
                    else (currentOpacity t + (tgt - currentOpacity t) * step)%Q).
      pose proof (clampNumber_bounds eased 0 (opacity cfg) Hop) as [Hc0 Hc1].
      unfold tileShown. cbn.
      split; [exact Hc0|]. split; [exact Hc1|].
      split; [intro Hv; now apply Qltb_lt in Hv|].
      split; [exact D|].
      intro Hn. specialize (Hnr Hn). destruct (E Hn) as (E1 & E2 & E3).
      assert (He : (eased == 0)%Q).
      { unfold eased. subst tgt. destruct (Qltb _ _); [reflexivity|].
        rewrite E1. ring. }
      assert (Hcl : (clampNumber eased 0 (opacity cfg) == 0)%Q).
      { destruct (clampNumber_spec eased 0 (opacity cfg) Hop) as (_ & Hlo & _).
        apply Hlo. lra. }
      split; [exact Hcl|]. split; [|exact E3].
      destruct (Qltb (1 # 1000) (clampNumber eased 0 (opacity cfg))) eqn:Ev;
        [|reflexivity].
      apply Qltb_lt in Ev. exfalso. lra.
Qed.

Lemma sound_updateProgressiveVisibility now L :
  sound cfg L -> sound cfg (updateProgressiveVisibility cfg now L).
Proof.
  intro S. unfold updateProgressiveVisibility.
  assert (Sf : sound cfg (snd (fold_left (visitDesired cfg now) (activeDesiredTiles L)
                                         ([], [], L)))).
  { apply (fold_left_invariant (fun acc => sound cfg (snd acc))).
    - intros a b. apply sound_visitDesired.
    - exact S. }
  destruct (fold_left (visitDesired cfg now) (activeDesiredTiles L) ([], [], L))
    as [[vis touched] L1]. cbn [snd] in Sf.
  apply (sound_mapEntries
           (fun e =>
              (fst e,
               animateTileOpacity cfg now
                 (setTargetOpacity
                    (if memStr (key (snd e)) vis && TileState_eqb (state (snd e)) Ready
                        && (frame L1 - lastWantedFrame (snd e) <=? retainFrames cfg)
                     then opacity cfg else 0%Q) (snd e))))).
  - intro e. reflexivity.
  - intros k t Ht. cbn [snd]. apply tileShown_animate; [exact Ht | |].
    + intro Hn. destruct (state t); try reflexivity;
        [rewrite ?andb_false_r; reflexivity ..| now elim Hn | rewrite ?andb_false_r; reflexivity].
    + destruct (_ && _); [now right | now left].
  - intros k t. cbn [snd].
    destruct (animateTileOpacity_fields cfg now
                (setTargetOpacity
                   (if memStr (key t) vis && TileState_eqb (state t) Ready
                       && (frame L1 - lastWantedFrame t <=? retainFrames cfg)
                    then opacity cfg else 0%Q) t)) as (E1 & _ & _ & E2 & _).
    cbn in E1, E2. now split.
  - exact Sf.
Qed.

Lemma sound_updateView next now L :
  wellFormed cfg L -> sound cfg L -> sound cfg (updateView cfg next now L).
Proof.
  intros W S. unfold updateView. destruct (negb (enabled cfg)); [exact S|].
  unfold updateFrame.
  set (L0 := setFrame _ L).
  set (L1 := setPendingViewState _ L0).
  set (L2 := match appliedBy cfg L0 next now with Some _ => _ | None => L1 end).
  assert (S1 : sound cfg L1) by (eapply sound_ext; [| |exact S]; reflexivity).
  assert (W2 : wellFormed cfg L2).
  { unfold L2. destruct (appliedBy cfg L0 next now) as [a|]; [|exact W].
    apply (wellFormed_sameCore cfg (applyViewState cfg a now L1)); try reflexivity.
    apply wellFormed_applyViewState. exact W. }
  assert (S2 : sound cfg L2).
  { unfold L2. destruct (appliedBy cfg L0 next now) as [a|]; [|exact S1].
    eapply sound_ext; [| |apply (sound_applyViewState a now L1 S1)]; reflexivity. }
  set (L3 := updateProgressiveVisibility cfg now (processLoadQueue cfg L2)).
  assert (S3 : sound cfg L3).
  { apply sound_updateProgressiveVisibility.
    now apply sound_processLoadQueueLoop. }
  destruct (appliedViewState L3);
    (eapply sound_ext; [| |exact S3]; reflexivity).
Qed.

Lemma In_removeRequest_other (r x : Request) (l : list Request) :
  fst x <> fst r -> In x l -> In x (removeRequest r l).
Proof.
  intro Hne. induction l as [|y l IH]; [tauto|].
  cbn [removeRequest]. destruct (requestEqb r y) eqn:E.
  - intros [<-|H]; [|exact H]. exfalso. apply Hne.
    unfold requestEqb in E. apply andb_prop in E. destruct E as [E _].
    apply String.eqb_eq in E. now rewrite E.
  - intros [<-|H]; [now left | right; auto].
Qed.

(** The state of the layer when a callback of the loader begins: the
    request is gone and the slot is free again. *)
Lemma sound_answered k a L (f : ActiveTile -> ActiveTile) :
  wellFormed cfg L -> sound cfg L -> In (k, a) (requests L) ->
  (forall t, state t = Loading -> tileShown cfg t ->
             tileShown cfg (f t) /\ state (f t) <> Loading) ->
  sound cfg (mutate k f (releaseSlot (setRequests (removeRequest (k, a) (requests L)) L))).
Proof.
  intros W S Hin Hf.
  destruct (proj1 (proj2 (proj2 (proj2 (proj2 W)))) k a Hin) as (t & Et & Sl & Sa).
  intros k' t' E'. cbn [mutate releaseSlot setInflightCount setRequests tiles setTiles
                        requests] in *.
  rewrite getTile_mutTile in E'.
  destruct (String.eqb_spec k k') as [<-|Hne].
  - rewrite Et in E'. cbn in E'. injection E' as <-.
    destruct (S k t Et) as [St _]. destruct (Hf t Sl St) as [F1 F2].
    split; [exact F1 | intro; contradiction].
  - destruct (S k' t' E') as [A B]. split; [exact A|].
    intro Hl. apply In_removeRequest_other; [cbn; congruence | now apply B].
Qed.

Lemma sound_onLoadBody k a L :
  wellFormed cfg L -> sound cfg L -> In (k, a) (requests L) ->
  sound cfg (onLoadBody k a (setRequests (removeRequest (k, a) (requests L)) L)).
Proof.
  intros W S Hin.
  destruct (proj1 (proj2 (proj2 (proj2 (proj2 W)))) k a Hin) as (t & Et & Sl & Sa).
  unfold onLoadBody. cbv zeta.
  cbn [releaseSlot setInflightCount setRequests tiles].
  rewrite Et, Sa, Z.eqb_refl. cbn [negb].
  apply (sound_answered k a L _ W S Hin).
  intros t0 Hl (A & B & C & D & E).
  assert (Hn : state t0 <> Ready) by congruence.
  destruct (E Hn) as (E1 & E2 & E3).
  split; [|cbn; discriminate].
  unfold tileShown. cbn.
  split; [exact A|]. split; [exact B|]. split; [exact C|].
  split; [intros _; reflexivity|]. intro Hc. now elim Hc.
Qed.

Lemma sound_onErrorBody k a L :
  wellFormed cfg L -> sound cfg L -> In (k, a) (requests L) ->
  sound cfg (onErrorBody cfg k a (setRequests (removeRequest (k, a) (requests L)) L)).
Proof.
  intros W S Hin.
  destruct (proj1 (proj2 (proj2 (proj2 (proj2 W)))) k a Hin) as (t & Et & Sl & Sa).
  unfold onErrorBody. cbv zeta.
  cbn [releaseSlot setInflightCount setRequests tiles].
  rewrite Et, Sa, Z.eqb_refl. cbn [negb].
  unfold failTile. cbv zeta.
  set (L1 := releaseSlot (setRequests (removeRequest (k, a) (requests L)) L)).
  assert (S2 : sound cfg (mutate k (setState Error) L1)).
  { apply (sound_answered k a L _ W S Hin).
    intros t0 Hl Ht0. split; [|cbn; discriminate].
    apply tileShown_setState; [congruence | discriminate | exact Ht0]. }
  destruct (getTile k (tiles (mutate k (setState Error) L1))) as [cur|] eqn:Ec;
    [|exact S2].
  destruct (_ <=? _); [|exact S2].
  apply sound_enqueueTileLoad. apply sound_restate; try discriminate; [|exact S2].
  intros t0 E0. cbn [mutate tiles setTiles] in E0.
  rewrite getTile_mutTile_same in E0.
  destruct (getTile k (tiles L1)); [|discriminate]. cbn in E0. injection E0 as <-.
  cbn. discriminate.
Qed.

Lemma sound_step L ev :
  wellFormed cfg L -> sound cfg L -> sound cfg (step cfg L ev).
Proof.
  intros W S. destruct ev as [next now|k a|k a]; cbn [step].
  - now apply sound_updateView.
  - destruct (hasRequest (k, a) L) eqn:Hreq; [|exact S].
    apply hasRequest_In in Hreq. apply sound_processLoadQueueLoop.
    + now apply onLoadBody_spec.
    + now apply sound_onLoadBody.
  - destruct (hasRequest (k, a) L) eqn:Hreq; [|exact S].
    apply hasRequest_In in Hreq. apply sound_processLoadQueueLoop.
    + now apply onErrorBody_spec.
    + now apply sound_onErrorBody.
Qed.

Lemma reachable_sound L : reachable cfg L -> sound cfg L.
Proof.
  intros [evs ->]. unfold run.
  apply (fold_left_invariant (fun a => wellFormed cfg a /\ sound cfg a)).
  - intros a b [W S]. split; [now apply wellFormed_step | now apply sound_step].
  - split.
    + apply reachable_wellFormed. exists []. reflexivity.
    + intros k t E. discriminate.
Qed.

End Sound.

Lemma constructorConfig_opacity (g : GeoCoordinator) (o : PlanarMapTileLayerOptions) :
  (0 <= opacity (constructorConfig g o))%Q.
Proof. cbn. apply clampNumber_bounds. discriminate. Qed.

(** X25: What the renderer is given, for a layer built by the constructor and
    driven by frame updates and loader answers in any order: the opacity
    of every cached tile lies between 0 and the layer's opacity; a mesh is
    visible only if its tile is ready, has its texture and has an opacity
    above 0.001; a tile that is not ready has opacity 0. *)
Theorem visible_tiles_are_ready
        (g : GeoCoordinator) (o : PlanarMapTileLayerOptions)
        (L : Layer) (k : string) (t : ActiveTile) :
  let cfg := constructorConfig g o in
  reachable cfg L ->
  In (k, t) (tiles L) ->
  (0 <= currentOpacity t)%Q /\ (currentOpacity t <= opacity cfg)%Q
  /\ (meshVisible t = true ->
      state t = Ready /\ hasTexture t = true /\ (1 # 1000 < currentOpacity t)%Q)
  /\ (state t <> Ready -> (currentOpacity t == 0)%Q /\ hasTexture t = false).
Proof.
  cbv zeta. intros HR Hin.
  pose proof (reachable_wellFormed _ L HR) as W.
  pose proof (reachable_sound _ (constructorConfig_opacity g o) L HR) as S.
  apply (In_getTile k t (tiles L) (proj1 W)) in Hin.
  destruct (S k t Hin) as [(A & B & C & D & E) _].
  split; [exact A|]. split; [exact B|]. split.
  - intro Hv.
    assert (Hr : state t = Ready).
    { destruct (state t) eqn:Hs; try reflexivity;
        (assert (Hn : state t <> Ready) by congruence; rewrite Hs in Hn;
         destruct (E Hn) as (_ & E2 & _); congruence). }
    split; [exact Hr|]. split; [now apply D | now apply C].
  - intro Hn. destruct (E Hn) as (E1 & _ & E3). now split.
Qed.

Lemma visible_tiles_are_ready_witness :
  exists t,
    In ("9/256/170", t) (tiles scenarioParentReady)
    /\ (0 <= currentOpacity t)%Q /\ (currentOpacity t <= opacity scenarioConfig)%Q
    /\ (meshVisible t = true ->
        state t = Ready /\ hasTexture t = true /\ (1 # 1000 < currentOpacity t)%Q)
    /\ (state t <> Ready -> (currentOpacity t == 0)%Q /\ hasTexture t = false).
Proof.
  assert (Hin : exists t, In ("9/256/170", t) (tiles scenarioParentReady)).
  { eexists. apply getTile_In. vm_compute. reflexivity. }
  destruct Hin as [t Hin]. exists t. split; [exact Hin|].
  exact (visible_tiles_are_ready exampleGeo scenarioOptions scenarioParentReady
                                 "9/256/170" t scenarioParentReady_reachable Hin).
Defined.

Lemma NoDup_map_fst_filter {A B : Type} (p : A * B -> bool) (l : list (A * B)) :
  NoDup (map fst l) -> NoDup (map fst (filter p l)).
Proof.
  induction l as [|e l IH]; intro H; [constructor|].
  cbn [map] in H. inversion H as [|x m Hnin Hrest]; subst.
  cbn [filter]. destruct (p e); [|now apply IH].
  cbn [map]. constructor; [|now apply IH].
  intro Hin. apply Hnin. apply in_map_iff in Hin. destruct Hin as [e' [E He']].
  apply filter_In in He'. apply in_map_iff. exists e'. tauto.
Qed.

Lemma loading_tiles_are_requests (cfg : Config) (L : Layer) :
  wellFormed cfg L -> sound cfg L ->
  countState Loading (tiles L) = Z.of_nat (List.length (requests L)).
Proof.
  intros W S. unfold countState. f_equal.
  transitivity (List.length (map fst (filter (fun e : string * ActiveTile =>
                   TileState_eqb (state (snd e)) Loading) (tiles L))));
    [symmetry; apply length_map|].
  transitivity (List.length (map fst (requests L))); [|apply length_map].
  apply Permutation_length. apply NoDup_Permutation.
  - apply NoDup_map_fst_filter. exact (proj1 W).
  - exact (proj2 (proj2 (proj2 (proj2 (proj2 W))))).
  - intro k. split; intro Hin.
    + apply in_map_iff in Hin. destruct Hin as [[k0 t] [E Hin]]. cbn in E. subst k0.
      apply filter_In in Hin. destruct Hin as [Hin Hl]. cbn [snd] in Hl.
      apply (In_getTile k t (tiles L) (proj1 W)) in Hin.
      destruct (S k t Hin) as [_ Hreq].
      apply in_map_iff. exists (k, attempts t). split; [reflexivity|].
      apply Hreq. destruct (state t); try discriminate. reflexivity.
    + apply in_map_iff in Hin. destruct Hin as [[k0 a] [E Hin]]. cbn in E. subst k0.
      destruct (proj1 (proj2 (proj2 (proj2 (proj2 W)))) k a Hin) as (t & Et & Sl & _).
      apply in_map_iff. exists (k, t). split; [reflexivity|].
      apply filter_In. split; [now apply getTile_In|]. cbn [snd]. now rewrite Sl.
Qed.

Lemma updateView_loadingCount (cfg : Config) next now L :
  enabled cfg = true ->
  di_loadingCount (debugInfo (updateView cfg next now L))
  = countState Loading (tiles (updateView cfg next now L)).
Proof.
  intro Hen. destruct (updateView_stages cfg next now L Hen) as (z & x & y & r & ->).
  reflexivity.
Qed.

(** X26: The loading tiles and the loads in flight, for a layer built by the
    constructor and driven by frame updates and loader answers in any
    order: the cached tiles in state loading are exactly as many as the
    requests the loader holds and as the in-flight counter says, hence at
    most [maxConcurrentRequests]; and the [loadingCount] of the telemetry
    snapshot that an enabled [update] leaves is that number. *)
Theorem loading_tiles_match_inflight
        (g : GeoCoordinator) (o : PlanarMapTileLayerOptions) (L : Layer) :
  let cfg := constructorConfig g o in
  reachable cfg L ->
  countState Loading (tiles L) = Z.of_nat (List.length (requests L))
  /\ countState Loading (tiles L) = inflightCount L
  /\ inflightCount L <= maxConcurrentRequests cfg
  /\ forall next now,
       enabled cfg = true ->
       let L' := updateView cfg next now L in
       di_loadingCount (debugInfo L') = inflightCount L'
       /\ di_loadingCount (debugInfo L') <= maxConcurrentRequests cfg.
Proof.
  cbv zeta. set (cfg := constructorConfig g o).
  assert (Hcap : 0 <= maxConcurrentRequests cfg) by (cbn; lia).
  assert (Hall : forall M, reachable cfg M ->
            countState Loading (tiles M) = Z.of_nat (List.length (requests M))
            /\ countState Loading (tiles M) = inflightCount M
            /\ inflightCount M <= maxConcurrentRequests cfg).
  { intros M HM.
    pose proof (reachable_wellFormed _ M HM) as W.
    pose proof (reachable_sound _ (constructorConfig_opacity g o) M HM) as S.
    destruct (reachable_slotsConsistent cfg M Hcap HM) as [H1 H2].
    pose proof (loading_tiles_are_requests cfg M W S) as H3.
    split; [exact H3|]. split; [lia | exact H2]. }
  intro HR. destruct (Hall L HR) as (H1 & H2 & H3).
  split; [exact H1|]. split; [exact H2|]. split; [exact H3|].
  intros next now Hen.
  assert (HR' : reachable cfg (updateView cfg next now L)).
  { destruct HR as [evs ->]. exists (evs ++ [FrameUpdate next now]).
    unfold run. now rewrite fold_left_app. }
  destruct (Hall _ HR') as (_ & K2 & K3).
  rewrite (updateView_loadingCount cfg next now L Hen). split; [exact K2 | lia].
Qed.

Lemma loading_tiles_match_inflight_witness :
  countState Loading (tiles scenarioLoading)
  = Z.of_nat (List.length (requests scenarioLoading))
  /\ countState Loading (tiles scenarioLoading) = inflightCount scenarioLoading
  /\ inflightCount scenarioLoading <= maxConcurrentRequests scenarioConfig
  /\ forall next now,
       enabled scenarioConfig = true ->
       let L' := updateView scenarioConfig next now scenarioLoading in
       di_loadingCount (debugInfo L') = inflightCount L'
       /\ di_loadingCount (debugInfo L') <= maxConcurrentRequests scenarioConfig.
Proof.
  exact (loading_tiles_match_inflight exampleGeo scenarioOptions scenarioLoading
                                      scenarioLoading_reachable).
Defined.
(* ================================================================== *)
(** * The grid of reference lines *)

Lemma firstError_none {A : Type} (check : A -> option PlanarLodGrid.GridError)
      (l : list A) :
  PlanarLodGrid.firstError check l = None <-> Forall (fun x => check x = None) l.
Proof.
  induction l as [|x l IH]; cbn.
  - split; [constructor | reflexivity].
  - destruct (check x) eqn:E.
    + split; [discriminate|]. intro H. inversion H; congruence.
    + rewrite IH. split; [now constructor | intro H; now inversion H].
Qed.

Lemma isIntegerQ_positive (q : Q) :
  (isIntegerQ q = true /\ Qle_bool q 0 = false)
  <-> exists n : Z, 0 < n /\ (q == inject_Z n)%Q.
Proof.
  unfold isIntegerQ. split.
  - intros [Hi Hp]. apply Qeq_bool_iff in Hi.
    exists (Qfloor q). split; [|now symmetry].
    assert (Hq : (0 < q)%Q).
    { apply Qnot_le_lt. intro H. apply Qle_bool_iff in H. congruence. }
    rewrite <- Hi in Hq. change 0%Q with (inject_Z 0) in Hq.
    now rewrite <- Zlt_Qlt in Hq.
  - intros [n [Hn Hq]]. split.
    + apply Qeq_bool_iff. rewrite Hq at 2. rewrite (Qfloor_comp _ _ Hq), Qfloor_Z.
      reflexivity.
    + destruct (Qle_bool q 0) eqn:E; [|reflexivity].
      apply Qle_bool_iff in E. rewrite Hq in E. change 0%Q with (inject_Z 0) in E.
      rewrite <- Zle_Qle in E. lia.
Qed.

Lemma Qle_bool_false (a b : Q) : Qle_bool a b = false <-> (b < a)%Q.
Proof.
  split.
  - intro H. apply Qnot_le_lt. intro K. apply Qle_bool_iff in K. congruence.
  - intro H. destruct (Qle_bool a b) eqn:E; [|reflexivity].
    apply Qle_bool_iff in E. exfalso. apply (Qlt_not_le _ _ H E).
Qed.

Lemma Qltb_false (a b : Q) : Qltb a b = false <-> (b <= a)%Q.
Proof.
  unfold Qltb. rewrite negb_false_iff. apply Qle_bool_iff.
Qed.

Lemma checkLevel_none (l : PlanarLodGrid.PlanarLodGridLevel) :
  PlanarLodGrid.checkLevel l = None <-> PlanarLodGrid.validLevel l.
Proof.
  unfold PlanarLodGrid.checkLevel, PlanarLodGrid.validLevel.
  destruct (Qle_bool (PlanarLodGrid.stepMultiplier l) 0) eqn:E1.
  { split; [discriminate|]. intros [H _]. apply Qle_bool_iff in E1.
    exfalso. apply (Qlt_not_le _ _ H E1). }
  apply Qle_bool_false in E1.
  destruct (isIntegerQ (PlanarLodGrid.halfCells l)) eqn:E2;
    destruct (Qle_bool (PlanarLodGrid.halfCells l) 0) eqn:E3; cbn [negb orb];
    try (split; [discriminate|]; intros (_ & Hn & _);
         apply isIntegerQ_positive in Hn; destruct Hn; congruence).
  assert (Hn : exists n : Z, 0 < n /\ (PlanarLodGrid.halfCells l == inject_Z n)%Q)
    by (apply isIntegerQ_positive; now split).
  destruct (Qltb (PlanarLodGrid.opacity l) 0) eqn:E4.
  { split; [discriminate|]. intros (_ & _ & H & _). apply Qltb_lt in E4.
    exfalso. apply (Qlt_not_le _ _ E4 H). }
  destruct (Qltb 1 (PlanarLodGrid.opacity l)) eqn:E5; cbn [orb].
  { split; [discriminate|]. intros (_ & _ & _ & H). apply Qltb_lt in E5.
    exfalso. apply (Qlt_not_le _ _ E5 H). }
  apply Qltb_false in E4, E5. split; [|reflexivity]. intros _. now repeat split.
Qed.

Lemma checkBaseStep_none (s : Q) :
  PlanarLodGrid.checkBaseStep s = None <-> (0 < s)%Q.
Proof.
  unfold PlanarLodGrid.checkBaseStep. destruct (Qle_bool s 0) eqn:E.
  - split; [discriminate|]. intro H. apply Qle_bool_iff in E.
    exfalso. apply (Qlt_not_le _ _ H E).
  - apply Qle_bool_false in E. tauto.
Qed.

Lemma checkBreakpoint_none (h : Q) :
  PlanarLodGrid.checkBreakpoint h = None <-> (0 <= h)%Q.
Proof.
  unfold PlanarLodGrid.checkBreakpoint. destruct (Qltb h 0) eqn:E.
  - split; [discriminate|]. intro H. apply Qltb_lt in E.
    exfalso. apply (Qlt_not_le _ _ E H).
  - apply Qltb_false in E. tauto.
Qed.

Lemma Forall_iff {A : Type} (P R : A -> Prop) (l : list A) :
  (forall x, P x <-> R x) -> Forall P l <-> Forall R l.
Proof.
  intro H. split; intro K; (eapply Forall_impl; [|exact K]); intros x; apply H.
Qed.

Lemma length_zero_iff {A : Type} (l : list A) :
  (List.length l =? 0)%nat = false <-> l <> [].
Proof. destruct l; cbn; split; congruence. Qed.

Lemma constructor_spec (options : option PlanarLodGrid.PlanarLodGridOptions)
      (g : PlanarLodGrid.Grid) :
  let ls := orElse (match options with
                    | Some o => PlanarLodGrid.levels o | None => None end)
                   PlanarLodGrid.DEFAULT_LEVELS in
  let bs := orElse (match options with
                    | Some o => PlanarLodGrid.baseSteps o | None => None end)
                   PlanarLodGrid.DEFAULT_BASE_STEPS in
  let hs := orElse (match options with
                    | Some o => PlanarLodGrid.heightBreakpoints o | None => None end)
                   PlanarLodGrid.DEFAULT_HEIGHT_BREAKPOINTS in
  PlanarLodGrid.constructor options = inr g
  <-> (PlanarLodGrid.validGrid ls bs hs
       /\ g = PlanarLodGrid.mkGrid ls bs hs (PlanarLodGrid.mkDebugInfo 50 0 0 0 [])).
Proof.
  intros ls bs hs. unfold PlanarLodGrid.constructor, PlanarLodGrid.validGrid.
  fold ls bs hs.
  destruct (List.length ls =? 0)%nat eqn:E1.
  { split; [discriminate|]. intros [(H & _) _]. apply length_zero_iff in H. congruence. }
  destruct (List.length bs =? 0)%nat eqn:E2.
  { split; [discriminate|]. intros [(_ & H & _) _]. apply length_zero_iff in H.
    congruence. }
  destruct (Z.of_nat (List.length hs) =? Z.of_nat (List.length bs) - 1) eqn:E3;
    cbn [negb].
  2:{ split; [discriminate|]. intros [(_ & _ & H & _) _]. apply Z.eqb_neq in E3. lia. }
  apply Z.eqb_eq in E3. apply length_zero_iff in E1, E2.
  destruct (PlanarLodGrid.firstError PlanarLodGrid.checkLevel ls) eqn:E4.
  { split; [discriminate|]. intros [(_ & _ & _ & H & _) _].
    apply (Forall_iff _ _ _ checkLevel_none), firstError_none in H. congruence. }
  destruct (PlanarLodGrid.firstError PlanarLodGrid.checkBaseStep bs) eqn:E5.
  { split; [discriminate|]. intros [(_ & _ & _ & _ & H & _) _].
    apply (Forall_iff _ _ _ checkBaseStep_none), firstError_none in H. congruence. }
  destruct (PlanarLodGrid.firstError PlanarLodGrid.checkBreakpoint hs) eqn:E6.
  { split; [discriminate|]. intros [(_ & _ & _ & _ & _ & H) _].
    apply (Forall_iff _ _ _ checkBreakpoint_none), firstError_none in H. congruence. }
  apply firstError_none in E4, E5, E6.
  apply (Forall_iff _ _ _ checkLevel_none) in E4.
  apply (Forall_iff _ _ _ checkBaseStep_none) in E5.
  apply (Forall_iff _ _ _ checkBreakpoint_none) in E6.
  split.
  - intro H. injection H as <-. split; [|reflexivity].
    repeat split; try assumption. lia.
  - intros [_ ->]. reflexivity.
Qed.

(** X27: The constructor of [PlanarLodGrid] throws unless the options, each
    with its default when it is absent, are valid: at least one level and
    one base step, one height breakpoint fewer than base steps, every
    level with a positive multiplier, a positive whole number of half
    cells and an opacity within [0, 1], every base step positive and no
    breakpoint negative.  When they are valid it stores them as they
    are. *)
Theorem lodGrid_constructor_validates
        (options : option PlanarLodGrid.PlanarLodGridOptions) :
  let ls := orElse (match options with
                    | Some o => PlanarLodGrid.levels o | None => None end)
                   PlanarLodGrid.DEFAULT_LEVELS in
  let bs := orElse (match options with
                    | Some o => PlanarLodGrid.baseSteps o | None => None end)
                   PlanarLodGrid.DEFAULT_BASE_STEPS in
  let hs := orElse (match options with
                    | Some o => PlanarLodGrid.heightBreakpoints o | None => None end)
                   PlanarLodGrid.DEFAULT_HEIGHT_BREAKPOINTS in
  ((exists e, PlanarLodGrid.constructor options = inl e)
   <-> ~ PlanarLodGrid.validGrid ls bs hs)
  /\ ((exists g, PlanarLodGrid.constructor options = inr g)
      <-> PlanarLodGrid.validGrid ls bs hs)
  /\ forall g, PlanarLodGrid.constructor options = inr g ->
       PlanarLodGrid._levels g = ls
       /\ PlanarLodGrid._baseSteps g = bs
       /\ PlanarLodGrid._heightBreakpoints g = hs.
Proof.
  intros ls bs hs.
  pose proof (constructor_spec options) as S. cbv zeta in S. fold ls bs hs in S.
  split; [|split].
  - destruct (PlanarLodGrid.constructor options) as [e|g] eqn:E.
    + split; [|intros _; now exists e]. intros _ V.
      pose proof (proj2 (S _) (conj V eq_refl)) as K. congruence.
    + split; [intros [e He]; discriminate|]. intro V. exfalso. apply V.
      exact (proj1 (proj1 (S g) eq_refl)).
  - split.
    + intros [g Hg]. exact (proj1 (proj1 (S g) Hg)).
    + intro V. eexists. apply S. split; [exact V | reflexivity].
  - intros g Hg. destruct (proj1 (S g) Hg) as [_ ->]. now repeat split.
Qed.

Lemma pickBaseStepFrom_along (g : PlanarLodGrid.Grid) (h : Q) :
  forall (hs bs : list Q) (k : nat),
    (forall i, nth_error (PlanarLodGrid._heightBreakpoints g) (k + i) = nth_error hs i) ->
    (forall i, nth_error (PlanarLodGrid._baseSteps g) (k + i) = nth_error bs i) ->
    PlanarLodGrid.pickBaseStepFrom g h (seq k (List.length hs)) = pickAlong h hs bs.
Proof.
  induction hs as [|b hs IH]; intros bs k Hh Hb; [reflexivity|].
  cbn [List.length seq PlanarLodGrid.pickBaseStepFrom].
  pose proof (Hh O) as Hh0. pose proof (Hb O) as Hb0.
  rewrite Nat.add_0_r in Hh0, Hb0. rewrite Hh0, Hb0. cbn [nth_error].
  assert (Hh' : forall i, nth_error (PlanarLodGrid._heightBreakpoints g) (S k + i)
                          = nth_error hs i).
  { intro i. pose proof (Hh (S i)) as K. cbn [nth_error] in K. rewrite <- K.
    f_equal. lia. }
  destruct bs as [|s bs]; cbn [nth_error pickAlong].
  - rewrite (IH [] (S k) Hh').
    + now destruct hs.
    + intro i. pose proof (Hb (S i)) as K. cbn [nth_error] in K.
      replace (S k + i)%nat with (k + S i)%nat by lia. rewrite K. now destruct i.
  - destruct (Qltb h b); [reflexivity|].
    apply IH; [exact Hh'|]. intro i. pose proof (Hb (S i)) as K.
    cbn [nth_error] in K. rewrite <- K. f_equal. lia.
Qed.

Lemma nth_error_last {A : Type} (l : list A) (d : A) :
  l <> [] -> nth_error l (List.length l - 1) = Some (last l d).
Proof.
  induction l as [|x l IH]; [congruence|]. intros _.
  destruct l as [|y l]; [reflexivity|].
  cbn [List.length]. replace (S (S (List.length l)) - 1)%nat with (S (List.length (y :: l) - 1))
    by (cbn [List.length]; lia).
  cbn [nth_error]. rewrite IH by discriminate. reflexivity.
Qed.

Lemma pickBaseStep_picked (g : PlanarLodGrid.Grid) (h : Q) :
  PlanarLodGrid._baseSteps g <> [] ->
  PlanarLodGrid.pickBaseStep g h = inr (pickedStep g h).
Proof.
  intro Hne. unfold PlanarLodGrid.pickBaseStep, pickedStep.
  rewrite (pickBaseStepFrom_along g h (PlanarLodGrid._heightBreakpoints g)
                                  (PlanarLodGrid._baseSteps g) 0)
    by (intro i; reflexivity).
  destruct (pickAlong h _ _); [reflexivity|].
  now rewrite (nth_error_last _ 0%Q Hne).
Qed.

Lemma pickAlong_In (h : Q) (hs bs : list Q) (s : Q) :
  pickAlong h hs bs = Some s -> In s bs.
Proof.
  revert bs. induction hs as [|b hs IH]; intros [|s0 bs] H; cbn in H; try discriminate.
  destruct (Qltb h b).
  - injection H as ->. now left.
  - right. now apply IH.
Qed.

Lemma last_In {A : Type} (l : list A) (d : A) : l <> [] -> In (last l d) l.
Proof.
  induction l as [|x l IH]; [congruence|]. intros _.
  destruct l as [|y l]; [now left|]. right. apply IH. discriminate.
Qed.

Lemma pickedStep_In (g : PlanarLodGrid.Grid) (h : Q) :
  PlanarLodGrid._baseSteps g <> [] -> In (pickedStep g h) (PlanarLodGrid._baseSteps g).
Proof.
  intro Hne. unfold pickedStep.
  destruct (pickAlong h _ _) eqn:E; [now apply pickAlong_In in E | now apply last_In].
Qed.

Lemma constructed_valid (options : option PlanarLodGrid.PlanarLodGridOptions)
      (g : PlanarLodGrid.Grid) :
  PlanarLodGrid.constructor options = inr g ->
  PlanarLodGrid.validGrid (PlanarLodGrid._levels g) (PlanarLodGrid._baseSteps g)
                          (PlanarLodGrid._heightBreakpoints g).
Proof.
  intro H. apply constructor_spec in H. destruct H as [V ->]. exact V.
Qed.

Lemma pickAlong_first (h : Q) :
  forall (hs bs : list Q) (i : nat) (b : Q),
    (List.length hs < List.length bs)%nat ->
    nth_error hs i = Some b -> (h < b)%Q ->
    (forall j b', (j < i)%nat -> nth_error hs j = Some b' -> (b' <= h)%Q) ->
    pickAlong h hs bs = nth_error bs i.
Proof.
  induction hs as [|b0 hs IH]; intros bs i b Hlen Hi Hb Hbefore.
  - destruct i; discriminate.
  - destruct bs as [|s bs]; [cbn in Hlen; lia|]. cbn [pickAlong].
    destruct i as [|i].
    + cbn in Hi. injection Hi as ->.
      assert (E : Qltb h b = true) by (now apply Qltb_lt). now rewrite E.
    + assert (E : Qltb h b0 = false).
      { apply Qltb_false. apply (Hbefore O b0); [lia | reflexivity]. }
      rewrite E. cbn [nth_error]. apply (IH bs i b).
      * cbn [List.length] in Hlen. lia.
      * exact Hi.
      * exact Hb.
      * intros j b' Hj Hn. apply (Hbefore (S j) b'); [lia | exact Hn].
Qed.

Lemma pickAlong_none (h : Q) (hs bs : list Q) :
  Forall (fun b => (b <= h)%Q) hs -> pickAlong h hs bs = None.
Proof.
  intro H. revert bs. induction H as [|b hs Hb _ IH]; intros bs; [reflexivity|].
  destruct bs as [|s bs]; [reflexivity|]. cbn [pickAlong].
  assert (E : Qltb h b = false) by (now apply Qltb_false). rewrite E. apply IH.
Qed.

(** X28: [pickBaseStep] on a grid that the constructor built never throws,
    whatever the camera height: the fallback after the loop always
    exists, so the error 'PlanarLodGrid base steps are empty.' cannot be
    reached.  The step it answers is positive and one of the grid's base
    steps: the one at the first index whose breakpoint is above the
    camera height, and the last base step when no breakpoint is. *)
Theorem lodGrid_pickBaseStep_never_throws
        (options : option PlanarLodGrid.PlanarLodGridOptions) (g : PlanarLodGrid.Grid)
        (cameraHeight : Q) :
  PlanarLodGrid.constructor options = inr g ->
  exists s,
    PlanarLodGrid.pickBaseStep g cameraHeight = inr s
    /\ (0 < s)%Q
    /\ In s (PlanarLodGrid._baseSteps g)
    /\ (forall i b,
          nth_error (PlanarLodGrid._heightBreakpoints g) i = Some b ->
          (cameraHeight < b)%Q ->
          (forall j b', (j < i)%nat ->
                        nth_error (PlanarLodGrid._heightBreakpoints g) j = Some b' ->
                        (b' <= cameraHeight)%Q) ->
          nth_error (PlanarLodGrid._baseSteps g) i = Some s)
    /\ (Forall (fun b => (b <= cameraHeight)%Q) (PlanarLodGrid._heightBreakpoints g) ->
        s = last (PlanarLodGrid._baseSteps g) 0%Q).
Proof.
  intro Hc. destruct (constructed_valid options g Hc) as (_ & Hb & Hlen & _ & Vb & _).
  exists (pickedStep g cameraHeight).
  split; [now apply pickBaseStep_picked|].
  assert (Hin : In (pickedStep g cameraHeight) (PlanarLodGrid._baseSteps g))
    by (now apply pickedStep_In).
  split; [exact (proj1 (Forall_forall _ _) Vb _ Hin)|].
  split; [exact Hin|]. split.
  - intros i b Hi Hlt Hbefore. unfold pickedStep.
    rewrite (pickAlong_first cameraHeight _ (PlanarLodGrid._baseSteps g) i b);
      [|lia|exact Hi|exact Hlt|exact Hbefore].
    assert (Hsome : nth_error (PlanarLodGrid._baseSteps g) i <> None).
    { apply nth_error_Some.
      assert (Hi' : nth_error (PlanarLodGrid._heightBreakpoints g) i <> None) by congruence.
      apply nth_error_Some in Hi'. lia. }
    destruct (nth_error (PlanarLodGrid._baseSteps g) i); [reflexivity | congruence].
  - intro Hall. unfold pickedStep. now rewrite pickAlong_none.
Qed.

Lemma lodGrid_pickBaseStep_never_throws_witness :
  exists g s,
    PlanarLodGrid.constructor None = inr g
    /\ PlanarLodGrid.pickBaseStep g 1500 = inr s
    /\ nth_error (PlanarLodGrid._baseSteps g) 2 = Some s
    /\ (0 < s)%Q.
Proof.
  eexists.
  destruct (lodGrid_pickBaseStep_never_throws None _ 1500 eq_refl)
    as (s & Hp & Hs & _ & Hfirst & _).
  exists s. split; [reflexivity|]. split; [exact Hp|]. split; [|exact Hs].
  apply (Hfirst 2%nat 2000%Q); [reflexivity | reflexivity|].
  intros j b' Hj Hn.
  destruct j as [|[|j]]; [| |lia]; cbn in Hn; injection Hn as <-; discriminate.
Defined.

Lemma pickAlong_monotone (h1 h2 : Q) :
  (h1 <= h2)%Q ->
  forall hs bs,
    StronglySorted Qle bs ->
    S (List.length hs) = List.length bs ->
    (match pickAlong h1 hs bs with Some s => s | None => last bs 0%Q end
     <= match pickAlong h2 hs bs with Some s => s | None => last bs 0%Q end)%Q.
Proof.
  intro Hh. induction hs as [|b hs IH]; intros bs Hs Hlen.
  - destruct bs; cbn; apply Qle_refl.
  - destruct bs as [|s bs]; [discriminate|]. cbn [pickAlong].
    apply StronglySorted_inv in Hs. destruct Hs as [Hs Hall].
    cbn [List.length] in Hlen. injection Hlen as Hlen.
    assert (Hne : bs <> []) by (destruct bs; [discriminate | congruence]).
    assert (Hlast : forall d, last (s :: bs) d = last bs d)
      by (intro d; destruct bs; [congruence | reflexivity]).
    destruct (Qltb h1 b) eqn:E1; destruct (Qltb h2 b) eqn:E2.
    + apply Qle_refl.
    + assert (Hin : In (match pickAlong h2 hs bs with
                        | Some s0 => s0 | None => last (s :: bs) 0%Q end) bs).
      { destruct (pickAlong h2 hs bs) eqn:E; [now apply pickAlong_In in E|].
        rewrite Hlast. now apply last_In. }
      exact (proj1 (Forall_forall _ _) Hall _ Hin).
    + apply Qltb_lt in E2. apply Qltb_false in E1. exfalso.
      apply (Qlt_not_le _ _ E2). now apply Qle_trans with h1.
    + rewrite !Hlast. apply IH; assumption.
Qed.

(** X29: [pickBaseStep] on a constructed grid whose base steps are listed in
    ascending order, as the default ones are: a higher camera never gets a
    smaller base step, whatever the order of the height breakpoints. *)
Theorem lodGrid_pickBaseStep_monotone
        (options : option PlanarLodGrid.PlanarLodGridOptions) (g : PlanarLodGrid.Grid)
        (h1 h2 : Q) :
  PlanarLodGrid.constructor options = inr g ->
  StronglySorted Qle (PlanarLodGrid._baseSteps g) ->
  (h1 <= h2)%Q ->
  exists s1 s2,
    PlanarLodGrid.pickBaseStep g h1 = inr s1
    /\ PlanarLodGrid.pickBaseStep g h2 = inr s2
    /\ (s1 <= s2)%Q.
Proof.
  intros Hc Hs Hh.
  destruct (constructed_valid options g Hc) as (_ & Hb & Hlen & _).
  exists (pickedStep g h1), (pickedStep g h2).
  split; [now apply pickBaseStep_picked|]. split; [now apply pickBaseStep_picked|].
  unfold pickedStep. now apply pickAlong_monotone.
Qed.

Lemma lodGrid_pickBaseStep_monotone_witness :
  exists g s1 s2,
    PlanarLodGrid.constructor None = inr g
    /\ PlanarLodGrid.pickBaseStep g 899 = inr s1
    /\ PlanarLodGrid.pickBaseStep g 900 = inr s2
    /\ (s1 <= s2)%Q.
Proof.
  eexists.
  assert (Hs : StronglySorted Qle PlanarLodGrid.DEFAULT_BASE_STEPS).
  { unfold PlanarLodGrid.DEFAULT_BASE_STEPS.
    repeat (constructor; [|repeat (constructor; [discriminate|]); constructor]).
    constructor. }
  assert (Hh : (899 <= 900)%Q) by discriminate.
  destruct (lodGrid_pickBaseStep_monotone None _ 899 900 eq_refl Hs Hh)
    as (s1 & s2 & H1 & H2 & H3).
  exists s1, s2. split; [reflexivity|]. repeat split; assumption.
Defined.
